(* ===== verification/_CoqProject ===== *)
-Q . S2P
Prelude.v
RustStd.v
Utf8.v
Httparse.v
Io.v
Uri.v
Response.v
Request.v
Body.v
BodyStates.v
Connect.v
Client.v
Texts.v
Exchange.v
Verdict.v
Relate.v
Tunnel.v
Net.v
Dns.v
Ares.v
Http.v
Gai.v
Eyeballs.v
Https.v
Wire.v
Default.v
Wakeups.v
Proxy.v
Fmt.v
Futures.v
Parked.v
Compose.v
Tunnelled.v
Stack.v
