(* ===== verification/Prelude.v ===== *)
(** * Verification of simple-http

    simple-http is a small asynchronous HTTP client: [Client::request] connects
    through a connector, prints the request, streams its body, reads and parses
    the head of the response, and gives the body as a stream.  Connectors are
    the plain TCP one (with its name resolvers), the one that adds TLS, and the
    one that goes through proxies.  This development translates the crate and
    proves what makes its parts correct.

    Files

    - [Prelude] (this file): bytes, [outcome] (value, [Err], panic, or [Spin]
      for fuel that ran out), [loop], 64-bit [usize] with and without overflow
      checks, slices, tactics and hints.
    - [RustStd]: what the crate uses of [std]: searching and splitting slices,
      UTF-8 and case conversion, printing and parsing numbers; and how a peer
      reads lines ([server_lines]), the reference for what is printed.
    - [Utf8]: the encoding, and that [from_utf8_lossy] gives text and leaves
      text alone; what makes bytes a [String].
    - [Io]: [io::Error], polls, computations in a world ([io], [safe], [sure]), the
      interfaces of streams ([Conn], [BufStream], [Closing]) and what is
      assumed of them ([ReadContract], [Delivers]); [Script], a connection that
      follows a script, satisfies all of it.
    - [Httparse] ([src/src/httparse.rs]): trimming, header and status lines,
      and the iterator over the head.
    - [Uri]: the interface of [http::Uri] and the laws the crate relies on.
    - [Response], [Request], [Body] ([response.rs], [request.rs], [body.rs]):
      the header map, the builders, the body stream and its counter.
      [BodyStates]: every state polling a body leads to.
    - [Connect] ([connect.rs]): [Destination], its setters, the trait
      [Connect] as a class.
    - [Client] ([lib.rs]): the client itself.  [Exchange]: what it does once
      connected, as a function of the bytes received.  [Verdict]: which
      responses it takes, by the lines of their heads.  [Wire]: what it has
      written.  [Texts]: its strings are UTF-8.
    - [Relate]: simulations between streams, and that the client cannot tell
      streams apart that behave alike; [fetch], the program of
      [src/examples/simple.rs].
    - [Tunnel], [Proxy] ([proxy/]): the CONNECT tunnel as a state machine over
      polls, intercepts, proxies and the proxy connector.
    - [Net]: [std::net] addresses and the parser of their texts.
    - [Dns], [Ares], [Http], [Gai] ([http/]): names and address lists; the
      caching resolver with the interleavings of its futures; the connector,
      with both address families and its futures' polls; the resolvers on
      [getaddrinfo], with their tasks and executors.
    - [Eyeballs]: the HTTP connector on a network where every address accepts,
      refuses or hangs ([Fates]).  [Wakeups]: what a future that is not ready
      has registered to be woken by.
    - [Https] ([https/]): the TLS connector, the handshake, and the streams it
      gives.
    - [Default]: the connectors the crate makes by itself; [Ares] is shown to
      be a resolver [Http]'s theorems are about.
    - [Futures]: the futures of the TLS and proxy connectors as they are built
      of combinators, and that they run as [Https] and [Proxy] await them.
      [Parked]: that what runs on a stream is woken.  [Fmt]: what [Debug] prints.
    - [Compose], [Tunnelled], [Stack]: the client over the connectors, through
      a tunnel, and the example program from end to end.

    The components meet in classes: [Connect] between the client, the proxy
    and TLS connectors and the HTTP one, [Resolve] with [ResolveContract]
    between the HTTP connector and the resolvers ([Default] and [Gai] have the
    instances), [Conn] with [ReadContract] and [Delivers] between the client
    and streams ([Https] shows that both of its streams keep them), and
    [ConnSim] between a stream and what is wrapped around it.  [Connecting] with
    [ConnectRuns] is [Connect] for futures that are not awaited yet, [Wakes]
    and its kin are what a library promises of wake-ups, and [Wire] is a stream
    of which the bytes written to it are known.

    What the theorems show

    - The whole: the example program, over TCP ([fetch_over_tcp]), over TLS
      ([fetch_over_tls]), through a tunnel ([fetch_through_proxy]) and with the
      connector it makes itself ([example_program]), ends and prints what the
      server answered.  The client runs over the TLS connector and over the
      proxy connector without a proxy as over what is below them
      ([https_client_transparent], [proxy_client_transparent]).
    - Requests: what is written is the head and then the chunks of the body
      ([request_on_wire]); a server reads it back as the request line, one host
      line, and the caller's headers ([build_req_server_view],
      [build_req_one_host]), unless a text put into it holds a line end, which
      nothing checks ([header_injection]); the head is text ([request_texts]);
      how a request fails ([request_send_errors]).
    - Responses: the exchange is a function of the bytes, errors and panics
      included ([exchange_refines]), and what it gives for a head is a verdict
      on its lines, crashes included ([exchange_verdict]); names and values are
      text ([response_texts]); reading the head refines a specification on the
      byte stream, whatever the fragmentation ([recv_head_refines]), and ends
      ([recv_head_total]); the parser's round trips, its exact domain
      ([parse_status_iff]) and its panics ([parse_status_panics],
      [hostile_status_line_panics], [rtrim_spec], [parse_header_errors]);
      bodies give what the peer sent, cut at the content length
      ([collect_body_sound], [collect_body_complete], [body_overrun_panics]),
      through states of one shape ([body_states]); and a whole exchange, where
      a header's value comes through up to its first colon
      ([exchange_roundtrip]).
    - Connecting: a connection is to an address the URI stands for
      ([http_connects_where_told], [default_connects_to_answers],
      [getaddrinfo_connects_to_answers], [default_https_connects]); polls return
      ([http_poll_total], [remote_poll_total]), and connecting ends exactly
      when an address of a family accepts before any hangs, or when all refuse,
      with the address its order says ([http_happy_eyeballs]); a future that
      waits is woken ([http_no_lost_wakeup], [streams_no_lost_wakeup]); the
      futures made of combinators run as they are awaited
      ([https_future_refines], [proxy_future_refines]); the cache gives right
      answers under every interleaving ([ares_sound]) and for ever
      ([cache_never_expires]); no downgrade of TLS ([https_no_downgrade]); a
      proxied connection is tunnelled before TLS starts ([proxy_tunnels],
      [tunnel_established]), and tunnels end with the right verdict
      ([tunnel_await_ends], [tunnel_accepts]), unless bytes come with the reply
      ([tunnel_early_data]); destinations keep what is not set
      ([set_port_spec], [set_host_spec], [proxy_dst_spec]).

    Fuel and bounds

    Loops of the source are [loop] with fuel.  Where the number of turns is
    bounded by the data, the fuel is that bound and a theorem says it is
    enough: the head ([BUF_LEN + 2] reads of a buffer of 4096 bytes), the
    header block (its length), the addresses of a family (their number and
    two), the states of a connecting future (four).  Where it depends on the
    peer, the fuel is an argument: the body of a request, polls until a future
    is ready; theorems then say that some fuel is enough, given a stream that
    does not stall ([Delivers], [Reliable]) or a network where attempts come
    to an end ([Fates]).  [Build] is whether overflow is
    checked; theorems hold for both.

    What is not modelled

    Third-party code is a class with the laws used: [http::Uri], [HeaderMap]
    and [StatusCode], [bytes], [hyper]'s [Connected], [tokio] streams, timers
    and sockets, [native_tls], c-ares and the clock, [getaddrinfo] and thread
    pools, and the combinators of [futures].  Futures are modelled by their
    polls where the crate implements [Future] itself; where it composes them
    with combinators, the theorems are about them as awaited, and [Futures] has
    them as composed.  Left out: [Debug] impls that are derived, but for those
    of the proxies and of [ParseError], module files, and the [println!] of the
    example, whose arguments are [fetch].  Spawning on an executor that refuses
    the task panics in [oneshot]; the class [Oneshot] has executors that take
    it.  The contents of uninitialized buffers are arguments. *)

From Stdlib Require Strings.Byte.
From Stdlib Require Export Lia NArith ZArith.
From stdpp Require Export gmap strings list.

#[global] Open Scope stdpp_scope.

(** ** Bytes and byte strings

    A Rust [u8] is a [byte]; a slice, a [Vec<u8>] and the UTF-8 text of a
    [String] or a [&str] are lists of bytes. *)

Abbreviation byte := Corelib.Init.Byte.byte.
Abbreviation bytes := (list byte).

#[export] Instance byte_eq_dec : EqDecision byte := Byte.byte_eq_dec.

#[export] Instance byte_countable : Countable byte.
Proof.
  refine (inj_countable Byte.to_N Byte.of_N _).
  intros c. apply Byte.of_to_N.
Defined.

(** The bytes of a literal: [b"HTTP"]. *)
Definition b (s : string) : bytes := String.list_byte_of_string s.
Arguments b s%_string : simpl never.

Lemma length_b s : length (b s) = String.length s.
Proof.
  unfold b, String.list_byte_of_string. rewrite length_map.
  induction s as [|c s IH]; cbn; [done|]. by rewrite IH.
Qed.

Definition SP : byte := Byte.x20.
Definition CR : byte := Byte.x0d.
Definition LF : byte := Byte.x0a.
Definition COLON : byte := Byte.x3a.
Definition CRLF : bytes := [CR; LF].

Definition u8_val (c : byte) : Z := Z.of_N (Byte.to_N c).

Lemma u8_val_bound c : (0 ≤ u8_val c < 256)%Z.
Proof. unfold u8_val. pose proof (Byte.to_N_bounded c). lia. Qed.

Lemma u8_val_inj c d : u8_val c = u8_val d → c = d.
Proof.
  unfold u8_val. intros H%N2Z.inj.
  pose proof (Byte.of_to_N c) as Hc. rewrite H, Byte.of_to_N in Hc.
  congruence.
Qed.

(** ** Outcomes

    What running a piece of code gives: a value, an error returned through
    [Result::Err] and [?], a panic, or [Spin], the outcome of a loop whose
    fuel ran out.  [Spin] is never a behaviour of the program: each loop has
    a theorem that its fuel is enough. *)

Inductive panic :=
| SubOverflow            (* attempt to subtract with overflow *)
| AddOverflow            (* attempt to add with overflow *)
| SliceOob               (* a slice or an index out of range *)
| UnwrapNone             (* [unwrap] of [None] or [Err] *)
| Undefined              (* not a panic: an unchecked access out of range *)
| Expect (msg : string)  (* [expect] of [None] or [Err], and [panic!] *).

Inductive outcome (E A : Type) :=
| Ok (a : A)
| Err (e : E)
| Panic (p : panic)
| Spin.
Arguments Ok {E A} a.
Arguments Err {E A} e.
Arguments Panic {E A} p.
Arguments Spin {E A}.

#[export] Instance outcome_ret {E} : MRet (outcome E) := λ A a, Ok a.
#[export] Instance outcome_bind {E} : MBind (outcome E) := λ A B f m,
  match m with
  | Ok a => f a
  | Err e => Err e
  | Panic p => Panic p
  | Spin => Spin
  end.
#[export] Instance outcome_fmap {E} : FMap (outcome E) := λ A B f m,
  match m with
  | Ok a => Ok (f a)
  | Err e => Err e
  | Panic p => Panic p
  | Spin => Spin
  end.

(** [Result::map_err]. *)
Definition map_err {E E' A} (f : E → E') (m : outcome E A) : outcome E' A :=
  match m with
  | Ok a => Ok a
  | Err e => Err (f e)
  | Panic p => Panic p
  | Spin => Spin
  end.

(** [Option::ok_or], [Option::unwrap] and [Option::expect]. *)
Definition ok_or {E A} (o : option A) (e : E) : outcome E A :=
  match o with Some a => Ok a | None => Err e end.
Definition unwrap {E A} (o : option A) : outcome E A :=
  match o with Some a => Ok a | None => Panic UnwrapNone end.
Definition expect {E A} (o : option A) (msg : string) : outcome E A :=
  match o with Some a => Ok a | None => Panic (Expect msg) end.
Arguments expect {E A} o msg%_string.

(** [get_unchecked]: what it gives out of range is undefined behaviour. *)
Definition unchecked {E A} (o : option A) : outcome E A :=
  match o with Some a => Ok a | None => Panic Undefined end.

(** A [Result] as a value, for code that hands it on instead of returning
    early. *)
Definition as_result {E A} (m : outcome E A) : outcome Empty_set (A + E) :=
  match m with
  | Ok a => Ok (inl a)
  | Err e => Ok (inr e)
  | Panic p => Panic p
  | Spin => Spin
  end.

(** The outcome of code that cannot return an error, in code that can. *)
Definition lift {E A} (m : outcome Empty_set A) : outcome E A :=
  map_err (Empty_set_rect (λ _, E)) m.

Definition is_panic {E A} (m : outcome E A) : bool :=
  match m with Panic _ => true | _ => false end.
Definition is_spin {E A} (m : outcome E A) : bool :=
  match m with Spin => true | _ => false end.

Section outcome_lemmas.
Context {E A B : Type}.
Implicit Types (m : outcome E A) (f : A → outcome E B).

Lemma bind_Ok a f : (Ok a ≫= f) = f a.
Proof. reflexivity. Qed.

Lemma bind_Ok_inv m f r :
  (m ≫= f) = Ok r → ∃ a, m = Ok a ∧ f a = Ok r.
Proof. destruct m; cbn; [eauto | discriminate..]. Qed.

Lemma bind_Err_inv m f e :
  (m ≫= f) = Err e → m = Err e ∨ ∃ a, m = Ok a ∧ f a = Err e.
Proof. destruct m; cbn; intros H; [eauto | left; congruence | discriminate..]. Qed.

Lemma bind_Panic_inv m f p :
  (m ≫= f) = Panic p → m = Panic p ∨ ∃ a, m = Ok a ∧ f a = Panic p.
Proof. destruct m; cbn; intros H; [eauto | discriminate | left; congruence | discriminate]. Qed.

Lemma bind_not_spin m f :
  m ≠ Spin → (∀ a, m = Ok a → f a ≠ Spin) → (m ≫= f) ≠ Spin.
Proof. destruct m; cbn; try done; eauto. Qed.

Lemma fmap_Ok_inv (g : A → B) m r :
  (g <$> m) = Ok r → ∃ a, m = Ok a ∧ r = g a.
Proof. destruct m; cbn; intros H; [injection H; eauto | discriminate..]. Qed.

Lemma ok_or_Ok (o : option A) (e : E) a : ok_or o e = Ok a ↔ o = Some a.
Proof. destruct o; cbn; split; congruence. Qed.

Lemma lift_Ok (m : outcome Empty_set A) a : lift (E:=E) m = Ok a ↔ m = Ok a.
Proof. destruct m; cbn; split; try done; congruence. Qed.
End outcome_lemmas.

(** ** Loops

    A [while] or [loop] of the source is [loop fuel body s]: the body says
    whether it continues with a new state or breaks with a result. *)

Inductive step (S R : Type) :=
| Continue (s : S)
| Break (r : R).
Arguments Continue {S R} s.
Arguments Break {S R} r.

Fixpoint loop {E S R} (fuel : nat) (body : S → outcome E (step S R)) (s : S)
    : outcome E R :=
  match fuel with
  | O => Spin
  | S n =>
      match body s with
      | Ok (Continue s') => loop n body s'
      | Ok (Break r) => Ok r
      | Err e => Err e
      | Panic p => Panic p
      | Spin => Spin
      end
  end.

Section loop_lemmas.
Context {E S R : Type} (body : S → outcome E (step S R)).

(** Enough fuel: a measure that every turn decreases bounds the turns. *)
Lemma loop_not_spin (I : S → Prop) (μ : S → nat) :
  (∀ s, I s → body s ≠ Spin) →
  (∀ s s', I s → body s = Ok (Continue s') → I s' ∧ μ s' < μ s) →
  ∀ n s, I s → μ s < n → loop n body s ≠ Spin.
Proof.
  intros Hspin Hdec n. induction n as [|n IH]; intros s HI Hμ; [lia|].
  cbn. pose proof (Hspin s HI) as Hs. pose proof (Hdec s) as Hd.
  destruct (body s) as [[s'|r]|e|p|]; try done.
  destruct (Hd s' HI eq_refl) as [HI' ?]. apply IH; [done|lia].
Qed.

(** Rule for a loop that returns, whatever it returns. *)
Lemma loop_rule (I : S → Prop) (Q : outcome E R → Prop) :
  Q Spin →
  (∀ s s', I s → body s = Ok (Continue s') → I s') →
  (∀ s r, I s → body s = Ok (Break r) → Q (Ok r)) →
  (∀ s e, I s → body s = Err e → Q (Err e)) →
  (∀ s p, I s → body s = Panic p → Q (Panic p)) →
  ∀ n s, I s → Q (loop n body s).
Proof.
  intros HS HC HB HE HP n. induction n as [|n IH]; intros s HI; cbn; [done|].
  pose proof (HC s) as Hc. pose proof (HB s) as Hb.
  pose proof (HE s) as He. pose proof (HP s) as Hp.
  destruct (body s) as [[s'|r]|e|p|]; eauto.
Qed.

Lemma loop_Ok (I : S → Prop) (Q : R → Prop) :
  (∀ s s', I s → body s = Ok (Continue s') → I s') →
  (∀ s r, I s → body s = Ok (Break r) → Q r) →
  ∀ n s r, I s → loop n body s = Ok r → Q r.
Proof.
  intros HC HB n s r HI H.
  assert (match loop n body s with Ok r => Q r | _ => True end) as HQ.
  { apply (loop_rule I (λ o, match o with Ok r => Q r | _ => True end)); eauto. }
  by rewrite H in HQ.
Qed.

Lemma loop_mono n m s :
  loop n body s ≠ Spin → n ≤ m → loop m body s = loop n body s.
Proof.
  revert m s. induction n as [|n IH]; intros m s Hn Hle; [done|].
  destruct m as [|m]; [lia|]. cbn in *.
  destruct (body s) as [[s'|r]|e|p|]; try done. apply IH; [done|lia].
Qed.
End loop_lemmas.

(** Two loops whose bodies agree on the states they reach run alike. *)
Lemma loop_sim {E S S' R R'} (body : S → outcome E (step S R))
    (body' : S' → outcome E (step S' R')) (I : S → S' → Prop) (J : R → R' → Prop) :
  (∀ s s', I s s' →
     match body s, body' s' with
     | Ok (Continue t), Ok (Continue t') => I t t'
     | Ok (Break r), Ok (Break r') => J r r'
     | Err e, Err e' => e = e'
     | Panic p, Panic p' => p = p'
     | Spin, Spin => True
     | _, _ => False
     end) →
  ∀ n s s', I s s' →
  match loop n body s, loop n body' s' with
  | Ok r, Ok r' => J r r'
  | Err e, Err e' => e = e'
  | Panic p, Panic p' => p = p'
  | Spin, Spin => True
  | _, _ => False
  end.
Proof.
  intros Hsim n. induction n as [|n IH]; intros s s' HI; cbn; [done|].
  pose proof (Hsim s s' HI) as H.
  destruct (body s) as [[t|r]|e|p|], (body' s') as [[t'|r']|e'|p'|]; try done.
  by apply IH.
Qed.

(** Induction on two measures, the first before the second. *)
Lemma lex_ind {A} (μ ν : A → nat) (P : A → Prop) :
  (∀ x, (∀ y, μ y < μ x ∨ (μ y = μ x ∧ ν y < ν x) → P y) → P x) → ∀ x, P x.
Proof.
  intros HP x. remember (μ x) as m eqn:Em. remember (ν x) as n eqn:En. revert n x Em En.
  induction m as [m IHm] using lt_wf_ind. intros n.
  induction n as [n IHn] using lt_wf_ind. intros x -> ->. apply HP.
  intros y [Hlt|[Heq Hlt]]; [by eapply IHm|by eapply IHn].
Qed.

(** ** Machine integers

    [usize] is 64 bits wide.  An overflowing [+] or [-] panics when the crate
    is built with overflow checks (the [dev] profile) and wraps without them
    (the [release] profile): [Build] is the profile the theorems quantify
    over. *)

Class Build := overflow_checks : bool.

Abbreviation usize := N.
Definition usize_width : N := 2 ^ 64.

Definition usize_sub `{Build} {E} (x y : usize) : outcome E usize :=
  if (y <=? x)%N then Ok (x - y)%N
  else if overflow_checks then Panic SubOverflow
  else Ok (usize_width + x - y)%N.

Definition usize_add `{Build} {E} (x y : usize) : outcome E usize :=
  if (x + y <? usize_width)%N then Ok (x + y)%N
  else if overflow_checks then Panic AddOverflow
  else Ok ((x + y) mod usize_width)%N.

Lemma usize_sub_Ok `{Build} {E} x y :
  (y ≤ x)%N → usize_sub (E:=E) x y = Ok (x - y)%N.
Proof. unfold usize_sub. intros Hle%N.leb_le. by rewrite Hle. Qed.

Lemma usize_add_Ok `{Build} {E} x y :
  (x + y < usize_width)%N → usize_add (E:=E) x y = Ok (x + y)%N.
Proof. unfold usize_add. intros Hlt%N.ltb_lt. by rewrite Hlt. Qed.

Definition len {A} (l : list A) : usize := N.of_nat (length l).

(** [l.get(i)], [&l[..j]], [&l[i..]] and [&l[i..j]]. *)
Definition get {A} (l : list A) (i : usize) : option A :=
  if (i <? len l)%N then l !! N.to_nat i else None.
Definition slice_to {E A} (l : list A) (j : usize) : outcome E (list A) :=
  if (j <=? len l)%N then Ok (take (N.to_nat j) l) else Panic SliceOob.
Definition slice_from {E A} (l : list A) (i : usize) : outcome E (list A) :=
  if (i <=? len l)%N then Ok (drop (N.to_nat i) l) else Panic SliceOob.
Definition slice_range {E A} (l : list A) (i j : usize) : outcome E (list A) :=
  if ((i <=? j) && (j <=? len l))%N
  then Ok (take (N.to_nat j - N.to_nat i) (drop (N.to_nat i) l))
  else Panic SliceOob.

Lemma slice_to_Ok {E A} (l : list A) j :
  (j ≤ len l)%N → slice_to (E:=E) l j = Ok (take (N.to_nat j) l).
Proof. unfold slice_to. intros Hle%N.leb_le. by rewrite Hle. Qed.

Lemma slice_from_Ok {E A} (l : list A) i :
  (i ≤ len l)%N → slice_from (E:=E) l i = Ok (drop (N.to_nat i) l).
Proof. unfold slice_from. intros Hle%N.leb_le. by rewrite Hle. Qed.

Lemma slice_range_Ok {E A} (l : list A) i j :
  (i ≤ j)%N → (j ≤ len l)%N →
  slice_range (E:=E) l i j = Ok (take (N.to_nat j - N.to_nat i) (drop (N.to_nat i) l)).
Proof.
  unfold slice_range. intros Hi%N.leb_le Hj%N.leb_le. by rewrite Hi, Hj.
Qed.

Lemma slice_to_oob {E A} (l : list A) j :
  (len l < j)%N → slice_to (E:=E) l j = Panic SliceOob.
Proof. unfold slice_to. intros Hlt%N.leb_gt. by rewrite Hlt. Qed.

Lemma slice_range_oob {E A} (l : list A) i j :
  (len l < j)%N → slice_range (E:=E) l i j = Panic SliceOob.
Proof.
  unfold slice_range. intros Hlt%N.leb_gt. by rewrite Hlt, andb_false_r.
Qed.

Lemma get_of_nat {A} (l : list A) i : get l (N.of_nat i) = l !! i.
Proof.
  unfold get, len. rewrite Nat2N.id. destruct (N.ltb_spec (N.of_nat i) (N.of_nat (length l))).
  - done.
  - symmetry. apply lookup_ge_None. lia.
Qed.

Lemma len_app {A} (l k : list A) : len (l ++ k) = (len l + len k)%N.
Proof. unfold len. rewrite length_app. lia. Qed.
Lemma len_cons {A} (x : A) l : len (x :: l) = N.succ (len l).
Proof. unfold len. cbn [length]. lia. Qed.

Lemma Forall_filter_keep {A} (P Q : A → Prop) `{∀ x, Decision (Q x)} l :
  Forall P l → Forall P (filter Q l).
Proof.
  induction 1 as [|x l Hx _ IH]; [constructor|].
  rewrite filter_cons. case_decide; [by constructor|done].
Qed.

Lemma Forall_sublist {A} (P : A → Prop) l k : k `sublist_of` l → Forall P l → Forall P k.
Proof. induction 1; intros HF; [done| |]; apply Forall_cons in HF as [? ?]; auto. Qed.

(** ** Automation *)

Create HintDb http.
Create Rewrite HintDb http_len.
#[export] Hint Rewrite @len_app @len_cons @length_app @length_take @length_drop
  length_b @get_of_nat @Nat2N.id : http_len.

(** Case analysis on equations between outcomes and on the binds that make
    them, until only the values are left. *)
Ltac outcome_inv :=
  repeat match goal with
  | H : Ok _ = Ok _ |- _ => injection H as H; subst
  | H : Err _ = Err _ |- _ => injection H as H; subst
  | H : Panic _ = Panic _ |- _ => injection H as H; subst
  | H : Ok _ = Err _ |- _ => discriminate H
  | H : Ok _ = Panic _ |- _ => discriminate H
  | H : Ok _ = Spin |- _ => discriminate H
  | H : Err _ = Ok _ |- _ => discriminate H
  | H : Panic _ = Ok _ |- _ => discriminate H
  | H : Spin = Ok _ |- _ => discriminate H
  | H : mbind _ _ = Ok _ |- _ => apply bind_Ok_inv in H as (? & ? & ?)
  | H : fmap _ _ = Ok _ |- _ => apply fmap_Ok_inv in H as (? & ? & ?)
  | H : ok_or _ _ = Ok _ |- _ => apply ok_or_Ok in H
  end; simplify_eq.

(** Arithmetic over lengths, as [nat] and as [usize]. *)
Ltac len_lia :=
  unfold len, usize_width in *; autorewrite with http_len in *; cbn [length String.length] in *; lia.
