(* ===== verification/RustStd.v ===== *)
(** * The standard library, as far as the source uses it

    Slices ([windows], [position], [split]), [String::from_utf8_lossy],
    [str::to_lowercase], [str::parse::<usize>] and the decimal printing of
    integers. *)
From S2P Require Import Prelude.

(** ** Searching a slice: [windows(n).position(p)] *)

Fixpoint windows {A} (n : nat) (l : list A) : list (list A) :=
  match l with
  | [] => []
  | _ :: tl => if length (take n l) =? n then take n l :: windows n tl else []
  end.

Fixpoint position {A} (p : A → bool) (l : list A) : option nat :=
  match l with
  | [] => None
  | x :: tl => if p x then Some 0 else S <$> position p tl
  end.

(** The place of the first occurrence of [pat]. *)
Definition find_sub (pat l : bytes) : option nat :=
  position (λ s, bool_decide (s = pat)) (windows (length pat) l).

Arguments find_sub : simpl never.

Definition occurs_at (pat l : bytes) (i : nat) : Prop :=
  take (length pat) (drop i l) = pat.

#[export] Instance occurs_at_dec pat l i : Decision (occurs_at pat l i).
Proof. unfold occurs_at. apply _. Defined.

Section find_sub.
Context (pat : bytes) (Hpat : pat ≠ []).

Lemma pat_length : 0 < length pat.
Proof. destruct pat; [done|cbn; lia]. Qed.

Lemma occurs_at_length l i : occurs_at pat l i → i + length pat ≤ length l.
Proof.
  unfold occurs_at. intros H. apply (f_equal length) in H.
  rewrite length_take, length_drop in H. pose proof pat_length. lia.
Qed.

Lemma occurs_at_app l r i :
  i + length pat ≤ length l → (occurs_at pat (l ++ r) i ↔ occurs_at pat l i).
Proof.
  intros H. unfold occurs_at. rewrite drop_app_le by lia.
  rewrite take_app_le; [done|]. rewrite length_drop. lia.
Qed.

Lemma occurs_at_split l i :
  occurs_at pat l i ↔ l = take i l ++ pat ++ drop (i + length pat) l.
Proof.
  unfold occurs_at. split; intros H.
  - rewrite <-H at 1. rewrite <-drop_drop, take_drop, take_drop. done.
  - assert (i ≤ length l) as Hi.
    { destruct (decide (i ≤ length l)); [done|]. exfalso.
      apply (f_equal length) in H. rewrite !length_app, length_take, length_drop in H.
      pose proof pat_length. lia. }
    rewrite H. rewrite drop_app_length' by (rewrite length_take; lia).
    by rewrite take_app_length.
Qed.

Lemma find_sub_cons c tl :
  find_sub pat (c :: tl) =
    if bool_decide (occurs_at pat (c :: tl) 0) then Some 0
    else if length (take (length pat) (c :: tl)) =? length pat
         then S <$> find_sub pat tl else None.
Proof.
  assert (occurs_at pat (c :: tl) 0 ↔ take (length pat) (c :: tl) = pat) as H0 by done.
  rewrite (bool_decide_ext _ _ H0). unfold find_sub. cbn [windows].
  destruct (Nat.eqb_spec (length (take (length pat) (c :: tl))) (length pat)) as [H|H].
  - cbn [position]. by destruct (bool_decide _).
  - rewrite bool_decide_false; [done|]. intros E. by rewrite E in H.
Qed.

Lemma occurs_at_S c tl i : occurs_at pat (c :: tl) (S i) ↔ occurs_at pat tl i.
Proof. done. Qed.

(** [find_sub] finds the first occurrence. *)
Lemma find_sub_Some l i :
  find_sub pat l = Some i ↔ (occurs_at pat l i ∧ ∀ j, j < i → ¬ occurs_at pat l j).
Proof.
  revert i. induction l as [|c tl IH]; intros i.
  { split; [done|]. intros [H%occurs_at_length _]. destruct pat; cbn in *; [done|lia]. }
  rewrite find_sub_cons.
  case_bool_decide as H0.
  { split.
    - intros [= <-]. split; [done|lia].
    - intros [Hi Hj]. destruct i; [done|]. by destruct (Hj 0 ltac:(lia)). }
  destruct (Nat.eqb_spec (length (take (length pat) (c :: tl))) (length pat)) as [Hl|Hl].
  - split.
    + intros (k & Hk' & ->)%fmap_Some. apply IH in Hk' as [Hk Hmin]. split; [by apply occurs_at_S|].
      intros [|j] Hj; [done|]. rewrite occurs_at_S. apply Hmin. lia.
    + intros [Hi Hj]. destruct i as [|i]; [done|].
      assert (find_sub pat tl = Some i) as ->; [|done].
      apply IH. split; [done|]. intros j Hlt. apply (Hj (S j)). lia.
  - split; [done|]. intros [Hi%occurs_at_length _]. exfalso. apply Hl.
    rewrite length_take. lia.
Qed.

Lemma find_sub_None l : find_sub pat l = None ↔ ∀ i, ¬ occurs_at pat l i.
Proof.
  split.
  - induction l as [|c tl IH]; intros H i Hi.
    { apply occurs_at_length in Hi. pose proof pat_length. cbn in Hi. lia. }
    rewrite find_sub_cons in H. case_bool_decide; [done|].
    destruct (Nat.eqb_spec (length (take (length pat) (c :: tl))) (length pat)) as [Hl|Hl].
    + destruct i as [|i]; [done|]. apply fmap_None in H. by apply (IH H i).
    + apply occurs_at_length in Hi. apply Hl. rewrite length_take. lia.
  - intros H. destruct (find_sub pat l) as [i|] eqn:E; [|done].
    apply find_sub_Some in E as [E _]. by apply H in E.
Qed.

Lemma find_sub_length l i : find_sub pat l = Some i → i + length pat ≤ length l.
Proof. intros [H _]%find_sub_Some. by apply occurs_at_length. Qed.

(** More input at the end does not move an occurrence that is there ... *)
Lemma find_sub_app l r i : find_sub pat l = Some i → find_sub pat (l ++ r) = Some i.
Proof.
  intros H. pose proof (find_sub_length _ _ H) as Hl.
  apply find_sub_Some in H as [Ho Hm]. apply find_sub_Some. split.
  - by apply occurs_at_app.
  - intros j Hj Hoj. apply (Hm j Hj). apply occurs_at_app in Hoj; [done|lia].
Qed.

(** ... and one inside a prefix is found in the prefix. *)
Lemma find_sub_app_inv l r i :
  find_sub pat (l ++ r) = Some i → i + length pat ≤ length l → find_sub pat l = Some i.
Proof.
  intros [Ho Hm]%find_sub_Some Hl. apply find_sub_Some. split.
  - by apply occurs_at_app in Ho.
  - intros j Hj Hoj. apply (Hm j Hj). apply occurs_at_app; [lia|done].
Qed.

Lemma find_sub_split l i :
  find_sub pat l = Some i → l = take i l ++ pat ++ drop (i + length pat) l.
Proof. intros [H _]%find_sub_Some. by apply occurs_at_split. Qed.
End find_sub.

(** Searching past a prefix. *)
Lemma occurs_at_shift pat l r j : occurs_at pat (l ++ r) (length l + j) ↔ occurs_at pat r j.
Proof. unfold occurs_at. by rewrite <-drop_drop, drop_app_length. Qed.

Lemma occurs_at_inside c pat l r j :
  occurs_at (c :: pat) (l ++ r) j → j < length l → c ∈ l.
Proof.
  unfold occurs_at. intros H Hj. rewrite drop_app_le in H by lia.
  destruct (drop j l) as [|x tl] eqn:E.
  { apply (f_equal length) in E. rewrite length_drop in E. cbn in E. lia. }
  injection H as -> _. rewrite list_elem_of_lookup. exists j.
  by rewrite <-(Nat.add_0_r j), <-lookup_drop, E.
Qed.

(** A line: text with no line end in it. *)
Definition no_crlf (l : bytes) : Prop := (CR ∉ l) ∧ (LF ∉ l).

#[export] Instance no_crlf_dec l : Decision (no_crlf l).
Proof. unfold no_crlf. apply _. Defined.

Lemma no_crlf_app l r : no_crlf (l ++ r) ↔ no_crlf l ∧ no_crlf r.
Proof. unfold no_crlf. rewrite !not_elem_of_app. tauto. Qed.

(** The first line end after a line is the one that ends it. *)
Lemma find_crlf_line l r : no_crlf l → find_sub CRLF (l ++ CRLF ++ r) = Some (length l).
Proof.
  intros [Hc _]. apply find_sub_Some; [done|]. split.
  - rewrite <-(Nat.add_0_r (length l)). by apply occurs_at_shift.
  - intros j Hj H. exact (Hc (occurs_at_inside CR [LF] _ _ _ H Hj)).
Qed.

(** An empty line: two line ends in a row. *)
Definition CRLF2 : bytes := CRLF ++ CRLF.

Lemma find_crlf2_last l r : no_crlf l → find_sub CRLF2 (l ++ CRLF2 ++ r) = Some (length l).
Proof.
  intros [Hc _]. apply find_sub_Some; [done|]. split.
  - rewrite <-(Nat.add_0_r (length l)). by apply occurs_at_shift.
  - intros j Hj H. exact (Hc (occurs_at_inside CR [LF; CR; LF] _ _ _ H Hj)).
Qed.

Lemma find_crlf2_skip l m r i :
  no_crlf l → no_crlf m → m ≠ [] → find_sub CRLF2 (m ++ r) = Some i →
  find_sub CRLF2 (l ++ CRLF ++ m ++ r) = Some (length l + (2 + i)).
Proof.
  intros [Hl _] [Hm _] Hne [Ho Hmin]%find_sub_Some; [|done].
  apply find_sub_Some; [done|]. split.
  - apply occurs_at_shift. by apply (occurs_at_shift CRLF2 CRLF).
  - intros j Hj H. destruct (decide (j < length l)) as [Hlt|Hge].
    { exact (Hl (occurs_at_inside CR [LF; CR; LF] _ _ _ H Hlt)). }
    replace j with (length l + (j - length l)) in H by lia. rewrite occurs_at_shift in H.
    destruct (j - length l) as [|[|k]] eqn:Ej.
    + destruct m as [|c m]; [done|]. injection H as -> _. apply Hm. left.
    + done.
    + apply (Hmin k); [lia|]. by apply (occurs_at_shift CRLF2 CRLF).
Qed.

(** ** [slice::split]: the pieces between separators, never none of them *)

Fixpoint split_by {A} (p : A → bool) (l : list A) : list (list A) :=
  match l with
  | [] => [[]]
  | c :: tl =>
      if p c then [] :: split_by p tl
      else match split_by p tl with
           | h :: t => (c :: h) :: t
           | [] => [[c]]
           end
  end.

(** [Iterator::next] of an iterator that is the list of what is left. *)
Definition iter_next {A} (it : list A) : option A * list A :=
  match it with
  | [] => (None, [])
  | x :: tl => (Some x, tl)
  end.

Definition is_byte (c : byte) : byte → bool := λ x, bool_decide (x = c).

Section split_by.
Context {A : Type} (p : A → bool).

Lemma split_by_nosep l : Forall (λ x, p x = false) l → split_by p l = [l].
Proof. induction 1 as [|x l Hx _ IH]; cbn; [done|]. by rewrite Hx, IH. Qed.

Lemma split_by_app l c r :
  Forall (λ x, p x = false) l → p c = true →
  split_by p (l ++ c :: r) = l :: split_by p r.
Proof.
  intros Hl Hc. induction Hl as [|x l Hx _ IH]; cbn; [by rewrite Hc|].
  by rewrite Hx, IH.
Qed.

Lemma split_by_cons l : ∃ h t, split_by p l = h :: t.
Proof.
  destruct l as [|c tl]; cbn; [eauto|].
  destruct (p c); [eauto|]. destruct (split_by p tl); eauto.
Qed.
End split_by.

Lemma no_byte_Forall c l : c ∉ l → Forall (λ x, is_byte c x = false) l.
Proof.
  intros H. apply Forall_forall. intros x Hx. unfold is_byte.
  apply bool_decide_eq_false_2. intros ->. by apply H, list_elem_of_In.
Qed.

Lemma split_byte_nosep c l : c ∉ l → split_by (is_byte c) l = [l].
Proof. intros H. by apply split_by_nosep, no_byte_Forall. Qed.

Lemma split_byte_app c l r :
  c ∉ l → split_by (is_byte c) (l ++ c :: r) = l :: split_by (is_byte c) r.
Proof.
  intros H. apply split_by_app; [by apply no_byte_Forall|].
  by apply bool_decide_eq_true_2.
Qed.

(** What the first piece of a split is. *)
Lemma split_byte_inv c l h t :
  split_by (is_byte c) l = h :: t →
  (c ∉ h) ∧ ((t = [] ∧ l = h) ∨ ∃ r, l = h ++ c :: r ∧ t = split_by (is_byte c) r).
Proof.
  revert h t. induction l as [|x l IH]; intros h t; cbn [split_by].
  - intros [= <- <-]. split; [apply not_elem_of_nil|by left].
  - unfold is_byte at 1. case_bool_decide as Hx.
    + intros [= <- <-]. subst. split; [apply not_elem_of_nil|]. right. by exists l.
    + destruct (split_by_cons (is_byte c) l) as (h' & t' & E).
      rewrite E. intros [= <- <-].
      destruct (IH _ _ E) as (Hin & [[-> ->]|(r & -> & ->)]).
      * split; [|by left]. by apply not_elem_of_cons.
      * split; [by apply not_elem_of_cons|]. right. by exists r.
Qed.

(** ** Text

    [String::from_utf8_lossy] decodes UTF-8 and puts U+FFFD for every maximal
    ill-formed piece.  The lead byte says how many continuation bytes follow;
    the second byte of a three or four byte sequence has a narrower range for
    some leads (no overlong forms, no surrogates, nothing above U+10FFFF). *)

Definition in_range (lo hi : Z) (c : byte) : bool :=
  ((lo <=? u8_val c) && (u8_val c <=? hi))%Z.

Definition is_ascii (c : byte) : bool := in_range 0 127 c.
Definition is_cont (c : byte) : bool := in_range 128 191 c.
Definition is_lead2 (c : byte) : bool := in_range 194 223 c.
Definition is_lead3 (c : byte) : bool := in_range 224 239 c.
Definition is_lead4 (c : byte) : bool := in_range 240 244 c.
Definition second3 (lead c : byte) : bool :=
  if (u8_val lead =? 224)%Z then in_range 160 191 c
  else if (u8_val lead =? 237)%Z then in_range 128 159 c
  else is_cont c.
Definition second4 (lead c : byte) : bool :=
  if (u8_val lead =? 240)%Z then in_range 144 191 c
  else if (u8_val lead =? 244)%Z then in_range 128 143 c
  else is_cont c.

(** U+FFFD REPLACEMENT CHARACTER. *)
Definition REPLACEMENT : bytes := [Byte.xef; Byte.xbf; Byte.xbd].

Fixpoint from_utf8_lossy (l : bytes) : bytes :=
  match l with
  | [] => []
  | c :: r =>
    if is_ascii c then c :: from_utf8_lossy r
    else if is_lead2 c then
      match r with
      | d :: r' =>
          if is_cont d then c :: d :: from_utf8_lossy r'
          else REPLACEMENT ++ from_utf8_lossy r
      | [] => REPLACEMENT
      end
    else if is_lead3 c then
      match r with
      | d :: r' =>
          if second3 c d then
            match r' with
            | e :: r'' =>
                if is_cont e then c :: d :: e :: from_utf8_lossy r''
                else REPLACEMENT ++ from_utf8_lossy r'
            | [] => REPLACEMENT
            end
          else REPLACEMENT ++ from_utf8_lossy r
      | [] => REPLACEMENT
      end
    else if is_lead4 c then
      match r with
      | d :: r' =>
          if second4 c d then
            match r' with
            | e :: r'' =>
                if is_cont e then
                  match r'' with
                  | f :: r''' =>
                      if is_cont f then c :: d :: e :: f :: from_utf8_lossy r'''
                      else REPLACEMENT ++ from_utf8_lossy r''
                  | [] => REPLACEMENT
                  end
                else REPLACEMENT ++ from_utf8_lossy r'
            | [] => REPLACEMENT
            end
          else REPLACEMENT ++ from_utf8_lossy r
      | [] => REPLACEMENT
      end
    else REPLACEMENT ++ from_utf8_lossy r
  end.

Definition ascii_text (l : bytes) : Prop := Forall (λ c, is_ascii c = true) l.

#[export] Instance ascii_text_dec l : Decision (ascii_text l).
Proof. unfold ascii_text. apply _. Defined.

Lemma from_utf8_lossy_ascii l : ascii_text l → from_utf8_lossy l = l.
Proof. induction 1 as [|c l Hc _ IH]; cbn; [done|]. by rewrite Hc, IH. Qed.

(** [str::to_lowercase] follows the Unicode tables of the standard library's
    release, so the model takes the function as a parameter with its
    documented effect on ASCII text. *)
Definition ascii_lower (c : byte) : byte :=
  if in_range 65 90 c then
    default c (Byte.of_N (Byte.to_N c + 32))
  else c.

Class Lowercase := {
  to_lowercase : bytes → bytes;
  to_lowercase_ascii l : ascii_text l → to_lowercase l = map ascii_lower l
}.

(** The instance that leaves every character outside ASCII alone. *)
Definition ascii_lowercase : Lowercase.
Proof. refine {| to_lowercase := map ascii_lower |}. done. Defined.

(** ** Numbers *)

Definition digit_val (c : byte) : option N :=
  if in_range 48 57 c then Some (Byte.to_N c - 48)%N else None.

(** [checked_mul(10)] and [checked_add] of each digit. *)
Fixpoint parse_digits (acc : N) (l : bytes) : option N :=
  match l with
  | [] => Some acc
  | c :: tl =>
      d ← digit_val c;
      if (acc * 10 + d <? usize_width)%N then parse_digits (acc * 10 + d)%N tl else None
  end.

(** [str::parse::<usize>]: an optional [+], then one digit at least. *)
Definition parse_usize (l : bytes) : option usize :=
  let digits := match l with Byte.x2b :: tl => tl | _ => l end in
  match digits with
  | [] => None
  | _ => parse_digits 0 digits
  end.

Definition digit_of (d : N) : byte := default Byte.x30 (Byte.of_N (48 + d)).

(** [Display] of an unsigned integer. *)
Fixpoint dec_aux (fuel : nat) (n : N) : bytes :=
  match fuel with
  | O => []
  | S f => if (n <? 10)%N then [digit_of n]
           else dec_aux f (n / 10) ++ [digit_of (n mod 10)]
  end.
Definition dec (n : N) : bytes := dec_aux (S (N.to_nat (N.log2 n))) n.

Lemma digit_val_of d : (d < 10)%N → digit_val (digit_of d) = Some d.
Proof.
  intros H. assert (d = 0 ∨ d = 1 ∨ d = 2 ∨ d = 3 ∨ d = 4 ∨ d = 5 ∨ d = 6
    ∨ d = 7 ∨ d = 8 ∨ d = 9)%N as Hd by lia.
  repeat (destruct Hd as [->|Hd]; [done|]). by subst.
Qed.

Lemma parse_digits_app acc l r :
  parse_digits acc (l ++ r) = (a ← parse_digits acc l; parse_digits a r).
Proof.
  revert acc. induction l as [|c l IH]; intros acc; cbn; [done|].
  destruct (digit_val c); cbn; [|done]. by destruct (_ <? _)%N.
Qed.

Lemma parse_digits_one acc d :
  (d < 10)%N → (acc * 10 + d < usize_width)%N →
  parse_digits acc [digit_of d] = Some (acc * 10 + d)%N.
Proof.
  intros Hd Hlt%N.ltb_lt. unfold parse_digits. rewrite digit_val_of by done.
  cbn [mbind option_bind]. by rewrite Hlt.
Qed.

Lemma log2_div10 n : (10 ≤ n)%N → (N.log2 (n / 10) < N.log2 n)%N.
Proof.
  intros Hn. apply N.log2_lt_pow2; [apply N.div_str_pos; lia|].
  pose proof (N.log2_spec n ltac:(lia)) as [_ H].
  rewrite N.pow_succ_r' in H. apply N.Div0.div_lt_upper_bound. lia.
Qed.

Lemma dec_aux_parse fuel n :
  N.to_nat (N.log2 n) < fuel → (n < usize_width)%N →
  parse_digits 0 (dec_aux fuel n) = Some n.
Proof.
  revert n. induction fuel as [|f IH]; intros n Hf Hn; [lia|].
  cbn [dec_aux]. destruct (N.ltb_spec n 10) as [Hlt|Hge].
  - rewrite parse_digits_one by lia. f_equal; lia.
  - pose proof (log2_div10 n Hge) as Hl.
    pose proof (N.div_mod n 10 ltac:(lia)) as Hdm.
    pose proof (N.mod_lt n 10 ltac:(lia)) as Hm.
    generalize dependent (n / 10)%N; intros q Hl Hdm.
    generalize dependent (n mod 10)%N; intros r Hdm Hm.
    rewrite parse_digits_app, IH by lia. cbn [mbind option_bind].
    rewrite parse_digits_one by lia. f_equal; lia.
Qed.

Lemma digit_of_digit d : (d < 10)%N → is_Some (digit_val (digit_of d)).
Proof. intros H. rewrite digit_val_of by done. eauto. Qed.

Lemma dec_aux_digits fuel n : Forall (λ c, is_Some (digit_val c)) (dec_aux fuel n).
Proof.
  revert n. induction fuel as [|f IH]; intros n; cbn [dec_aux]; [constructor|].
  destruct (N.ltb_spec n 10).
  - constructor; [by apply digit_of_digit|constructor].
  - apply Forall_app_2; [apply IH|].
    constructor; [|constructor]. apply digit_of_digit, N.mod_lt. lia.
Qed.

(** A printed number is a non-empty string of digits ... *)
Lemma dec_digits n : Forall (λ c, is_Some (digit_val c)) (dec n).
Proof. apply dec_aux_digits. Qed.

Lemma dec_not_nil n : dec n ≠ [].
Proof.
  unfold dec. cbn [dec_aux]. destruct (n <? 10)%N; [done|].
  by intros [_ ?]%app_eq_nil.
Qed.

Lemma digit_not c : ∀ d, digit_val d = None → is_Some (digit_val c) → c ≠ d.
Proof. intros d Hd [v Hv] ->. congruence. Qed.

Lemma not_in_dec c n : digit_val c = None → c ∉ dec n.
Proof.
  intros Hc Hin%list_elem_of_In. pose proof (dec_digits n) as HF.
  rewrite List.Forall_forall in HF. apply HF in Hin as [v Hv]. congruence.
Qed.

(** ... and parsing it gives the number back. *)
Lemma parse_dec n : (n < usize_width)%N → parse_usize (dec n) = Some n.
Proof.
  intros Hn. pose proof (dec_aux_parse (S (N.to_nat (N.log2 n))) n ltac:(lia) Hn) as H.
  fold (dec n) in H. pose proof (dec_not_nil n) as Hnil.
  pose proof (not_in_dec Byte.x2b n eq_refl) as Hp.
  unfold parse_usize. destruct (dec n) as [|c tl]; [done|].
  assert (c ≠ Byte.x2b) as Hc by (intros ->; apply Hp; left).
  by destruct c.
Qed.

(** A 16-bit number has at most five digits. *)
Lemma dec_aux_length fuel n k :
  (n < 10 ^ N.of_nat k)%N → 0 < k → length (dec_aux fuel n) ≤ k.
Proof.
  revert n k. induction fuel as [|f IH]; intros n k Hn Hk; cbn [dec_aux]; [cbn; lia|].
  destruct (N.ltb_spec n 10); [cbn; lia|].
  destruct k as [|[|k]]; [lia|cbn in Hn; lia|].
  rewrite length_app. cbn [length].
  enough (length (dec_aux f (n / 10)) ≤ S k) by lia.
  apply IH; [|lia]. apply N.Div0.div_lt_upper_bound.
  rewrite <-N.pow_succ_r'. by rewrite <-Nat2N.inj_succ.
Qed.

Lemma dec_u16_length n : (n < 65536)%N → length (dec n) ≤ 5.
Proof. intros H. apply dec_aux_length; cbn; lia. Qed.

(** ** Lines as a peer reads them *)

(** A server's view: the lines up to the first empty one, and what follows. *)
Fixpoint server_lines (fuel : nat) (l : bytes) : option (list bytes * bytes) :=
  match fuel with
  | O => None
  | S n =>
      match find_sub CRLF l with
      | None => None
      | Some O => Some ([], drop 2 l)
      | Some i =>
          '(ls, r) ← server_lines n (drop (i + 2) l);
          Some (take i l :: ls, r)
      end
  end.

Definition end_lines (lines : list bytes) : bytes := concat (map (λ l, l ++ CRLF) lines).

Lemma server_lines_end lines r fuel :
  Forall (λ l, no_crlf l ∧ l ≠ []) lines → length lines < fuel →
  server_lines fuel (end_lines lines ++ CRLF ++ r) = Some (lines, r).
Proof.
  intros Hl. revert fuel. induction Hl as [|l lines [Hn Hne] _ IH]; intros [|fuel] Hf;
    try (cbn in Hf; lia).
  - done.
  - unfold end_lines. cbn [map concat]. rewrite <-!app_assoc. fold (end_lines lines).
    cbn [server_lines]. rewrite find_crlf_line by done.
    destruct (length l) as [|i] eqn:El; [by destruct l|]. rewrite <-El.
    rewrite <-drop_drop, drop_app_length, take_app_length.
    change (drop 2 (CRLF ++ ?x)) with x. rewrite IH by (cbn in Hf; lia). done.
Qed.

(** The empty line that ends a head is the first one in it. *)
Lemma find_end_of_lines l lines r :
  Forall (λ l, no_crlf l ∧ l ≠ []) (l :: lines) →
  find_sub CRLF2 (end_lines (l :: lines) ++ CRLF ++ r) =
    Some (length (end_lines (l :: lines)) - 2).
Proof.
  revert l. induction lines as [|m lines IH]; intros l [[Hl Hne] Hls]%Forall_cons.
  - unfold end_lines. cbn [map concat]. rewrite app_nil_r, <-app_assoc.
    change (CRLF ++ CRLF ++ r) with (CRLF2 ++ r). rewrite find_crlf2_last by done.
    rewrite length_app. f_equal. cbn. lia.
  - unfold end_lines. cbn [map concat]. fold (end_lines lines).
    specialize (IH m Hls). apply Forall_cons in Hls as [[Hm Hmne] _].
    unfold end_lines in IH. cbn [map concat] in IH. fold (end_lines lines) in IH.
    rewrite <-!app_assoc in *. rewrite (find_crlf2_skip _ _ _ _ Hl Hm Hmne IH).
    rewrite !length_app. change (length CRLF) with 2. f_equal. lia.
Qed.

(** A header field on its line. *)
Definition render_field (nv : bytes * bytes) : bytes := nv.1 ++ b": " ++ nv.2.

Lemma render_field_line n v :
  no_crlf n → no_crlf v → no_crlf (render_field (n, v)) ∧ render_field (n, v) ≠ [].
Proof.
  intros Hn Hv. unfold render_field. cbn [fst snd]. split; [|by destruct n].
  rewrite !no_crlf_app. split_and!; try done. by apply (bool_decide_unpack _).
Qed.
