(* ===== verification/Utf8.v ===== *)
(** * UTF-8

    What makes a list of bytes the text of a [String]: it is the encoding of a
    sequence of Unicode scalar values.  [String::from_utf8_lossy] gives such a
    text for all bytes and leaves one as it is, so the strings the client
    makes of a peer's bytes are well-formed. *)
From S2P Require Import Prelude RustStd.

(** ** The encoding *)

Definition scalar (n : Z) : Prop := (0 ≤ n < 0xD800 ∨ 0xE000 ≤ n < 0x110000)%Z.

(** The byte of a number below 256. *)
Definition u8 (z : Z) : byte := default Byte.x00 (Byte.of_N (Z.to_N z)).

(** A continuation byte: the six bits above [2 ^ k]. *)
Definition tail_byte (n k : Z) : byte := u8 (0x80 + n / k mod 64).

Definition encode (n : Z) : bytes :=
  if (n <? 0x80)%Z then [u8 n]
  else if (n <? 0x800)%Z then [u8 (0xC0 + n / 64); tail_byte n 1]
  else if (n <? 0x10000)%Z then [u8 (0xE0 + n / 4096); tail_byte n 64; tail_byte n 1]
  else [u8 (0xF0 + n / 262144); tail_byte n 4096; tail_byte n 64; tail_byte n 1].

Definition utf8 (l : bytes) : Prop :=
  ∃ cs, Forall scalar cs ∧ l = concat (map encode cs).

Lemma utf8_nil : utf8 [].
Proof. by exists []. Qed.

Lemma utf8_app l r : utf8 l → utf8 r → utf8 (l ++ r).
Proof.
  intros (cs & Hcs & ->) (ds & Hds & ->). exists (cs ++ ds).
  rewrite Forall_app, map_app, concat_app. done.
Qed.

Lemma utf8_encode n : scalar n → utf8 (encode n).
Proof. intros Hn. exists [n]. cbn. rewrite app_nil_r. split; [by constructor|done]. Qed.

#[export] Hint Resolve utf8_nil utf8_app utf8_encode : http.

(** ** Bytes and ranges *)

Lemma u8_val_u8 z : (0 ≤ z < 256)%Z → u8_val (u8 z) = z.
Proof.
  intros Hz. unfold u8, u8_val.
  destruct (Byte.of_N (Z.to_N z)) as [c|] eqn:E.
  - apply Byte.to_of_N in E. cbn. rewrite E. lia.
  - apply Byte.of_N_None_iff in E. lia.
Qed.

Lemma in_range_true lo hi c : in_range lo hi c = true ↔ (lo ≤ u8_val c ≤ hi)%Z.
Proof. unfold in_range. rewrite andb_true_iff, !Z.leb_le. lia. Qed.

Lemma in_range_false lo hi c : in_range lo hi c = false ↔ ¬ (lo ≤ u8_val c ≤ hi)%Z.
Proof. rewrite <-in_range_true. by destruct (in_range lo hi c). Qed.

(** A byte is the one of its value. *)
Lemma u8_eq c z : (0 ≤ z < 256)%Z → u8_val c = z → u8 z = c.
Proof. intros Hz Hc. apply u8_val_inj. by rewrite u8_val_u8. Qed.

(** Arithmetic with the divisions of the encoding. *)
Ltac div_lia := Z.to_euclidean_division_equations; lia.

(** ** Well-formed sequences *)

(** The byte sequences of one character, as the decoder tells them. *)
Inductive char : bytes → Prop :=
| char1 c : is_ascii c = true → char [c]
| char2 c d : is_lead2 c = true → is_cont d = true → char [c; d]
| char3 c d e : is_lead3 c = true → second3 c d = true → is_cont e = true → char [c; d; e]
| char4 c d e f :
    is_lead4 c = true → second4 c d = true → is_cont e = true → is_cont f = true →
    char [c; d; e; f].

(** The ranges of a byte that passes or fails a test. *)
Ltac ranges :=
  unfold second3, second4, is_ascii, is_lead2, is_lead3, is_lead4, is_cont in *;
  repeat match goal with
  | H : context [if (?a =? ?b)%Z then _ else _] |- _ => destruct (Z.eqb_spec a b)
  | |- context [if (?a =? ?b)%Z then _ else _] => destruct (Z.eqb_spec a b)
  end;
  rewrite ?in_range_true, ?in_range_false in *.

Lemma encode_two n c d :
  (0x80 ≤ n < 0x800)%Z → u8_val c = (0xC0 + n / 64)%Z → u8_val d = (0x80 + n mod 64)%Z →
  encode n = [c; d].
Proof.
  intros Hn Hc Hd. unfold encode, tail_byte.
  rewrite (proj2 (Z.ltb_ge n 0x80)), (proj2 (Z.ltb_lt n 0x800)), Z.div_1_r by lia.
  by rewrite (u8_eq c), (u8_eq d) by div_lia.
Qed.

Lemma encode_three n c d e :
  (0x800 ≤ n < 0x10000)%Z → u8_val c = (0xE0 + n / 4096)%Z →
  u8_val d = (0x80 + n / 64 mod 64)%Z → u8_val e = (0x80 + n mod 64)%Z →
  encode n = [c; d; e].
Proof.
  intros Hn Hc Hd He. unfold encode, tail_byte.
  rewrite (proj2 (Z.ltb_ge n 0x80)), (proj2 (Z.ltb_ge n 0x800)), (proj2 (Z.ltb_lt n 0x10000)),
    Z.div_1_r by lia.
  by rewrite (u8_eq c), (u8_eq d), (u8_eq e) by div_lia.
Qed.

Lemma encode_four n c d e f :
  (0x10000 ≤ n < 0x110000)%Z → u8_val c = (0xF0 + n / 262144)%Z →
  u8_val d = (0x80 + n / 4096 mod 64)%Z → u8_val e = (0x80 + n / 64 mod 64)%Z →
  u8_val f = (0x80 + n mod 64)%Z → encode n = [c; d; e; f].
Proof.
  intros Hn Hc Hd He Hf. unfold encode, tail_byte.
  rewrite (proj2 (Z.ltb_ge n 0x80)), (proj2 (Z.ltb_ge n 0x800)), (proj2 (Z.ltb_ge n 0x10000)),
    Z.div_1_r by lia.
  by rewrite (u8_eq c), (u8_eq d), (u8_eq e), (u8_eq f) by div_lia.
Qed.

(** The number a sequence stands for: the bits of the lead and of each
    continuation byte. *)
Lemma char_scalar l : char l → ∃ n, scalar n ∧ encode n = l.
Proof.
  unfold scalar. intros [c Hc|c d Hc Hd|c d e Hc Hd He|c d e f Hc Hd He Hf].
  - exists (u8_val c). ranges. split; [lia|]. unfold encode.
    rewrite (proj2 (Z.ltb_lt _ _)) by lia. by rewrite (u8_eq c) by lia.
  - exists ((u8_val c - 0xC0) * 64 + (u8_val d - 0x80))%Z. ranges.
    split; [lia|apply encode_two; div_lia].
  - exists ((u8_val c - 0xE0) * 4096 + (u8_val d - 0x80) * 64 + (u8_val e - 0x80))%Z.
    ranges; (split; [lia|apply encode_three; div_lia]).
  - exists ((u8_val c - 0xF0) * 262144 + (u8_val d - 0x80) * 4096 + (u8_val e - 0x80) * 64
            + (u8_val f - 0x80))%Z.
    ranges; (split; [lia|apply encode_four; div_lia]).
Qed.

Lemma encode_char n : scalar n → char (encode n).
Proof.
  unfold scalar, encode, tail_byte. intros Hn.
  destruct (Z.ltb_spec n 0x80); [|destruct (Z.ltb_spec n 0x800);
    [|destruct (Z.ltb_spec n 0x10000)]]; constructor; ranges;
    rewrite ?Z.div_1_r, ?u8_val_u8 in * by div_lia; div_lia.
Qed.

Lemma utf8_chars l : utf8 l ↔ ∃ ls, Forall char ls ∧ l = concat ls.
Proof.
  split.
  - intros (cs & Hcs & ->). exists (map encode cs). split; [|done].
    apply Forall_map. by apply (Forall_impl _ _ _ Hcs), encode_char.
  - intros (ls & Hls & ->). induction Hls as [|l ls Hl _ IH]; [apply utf8_nil|].
    destruct (char_scalar l Hl) as (n & Hn & <-). cbn. auto with http.
Qed.

Lemma utf8_char l : char l → utf8 l.
Proof. intros Hl. apply utf8_chars. exists [l]. cbn. rewrite app_nil_r. auto. Qed.

Lemma utf8_ascii l : ascii_text l → utf8 l.
Proof.
  induction 1 as [|c l Hc _ IH]; [apply utf8_nil|].
  apply (utf8_app [c]); [|done]. by apply utf8_char, char1.
Qed.

#[export] Hint Resolve utf8_char utf8_ascii : http.
#[export] Hint Constructors char : http.

(** ** The decoder *)

Lemma lossy_char l r : char l → from_utf8_lossy (l ++ r) = l ++ from_utf8_lossy r.
Proof.
  assert (∀ c, is_lead2 c = true → is_ascii c = false) as H2 by (intros; ranges; lia).
  assert (∀ c, is_lead3 c = true → is_ascii c = false ∧ is_lead2 c = false) as H3
    by (intros; ranges; lia).
  assert (∀ c, is_lead4 c = true → is_ascii c = false ∧ is_lead2 c = false ∧ is_lead3 c = false)
    as H4 by (intros; ranges; lia).
  intros [c Hc|c d Hc Hd|c d e Hc Hd He|c d e f Hc Hd He Hf]; cbn [app from_utf8_lossy].
  - by rewrite Hc.
  - by rewrite (H2 c Hc), Hc, Hd.
  - destruct (H3 c Hc) as [-> ->]. by rewrite Hc, Hd, He.
  - destruct (H4 c Hc) as (-> & -> & ->). by rewrite Hc, Hd, He, Hf.
Qed.

(** What the decoder gives is text, whatever the bytes. *)
Lemma lossy_utf8 l : utf8 (from_utf8_lossy l).
Proof.
  assert (char REPLACEMENT) as Hrep by by apply char3.
  induction l as [l IH] using (induction_ltof1 _ (@length byte)). unfold ltof in IH.
  destruct l as [|c r]; [apply utf8_nil|]. cbn [length] in IH.
  assert (∀ ch l', char ch → length l' < S (length r) → utf8 (ch ++ from_utf8_lossy l')) as Happ.
  { intros ch l' Hch Hl. apply utf8_app; auto with http. }
  cbn [from_utf8_lossy].
  destruct (is_ascii c) eqn:?; [apply (Happ [c] r); auto with http|].
  destruct (is_lead2 c) eqn:?; [|destruct (is_lead3 c) eqn:?; [|destruct (is_lead4 c) eqn:?]].
  4: by apply Happ; [|lia].
  all: destruct r as [|d r]; [by apply utf8_char|cbn [length] in *].
  - destruct (is_cont d) eqn:?; [|by apply Happ; [|cbn; lia]].
    apply (Happ [c; d]); [by apply char2|lia].
  - destruct (second3 c d) eqn:?; [|by apply Happ; [|cbn; lia]].
    destruct r as [|e r]; [by apply utf8_char|cbn [length] in *].
    destruct (is_cont e) eqn:?; [|by apply Happ; [|cbn; lia]].
    apply (Happ [c; d; e]); [by apply char3|lia].
  - destruct (second4 c d) eqn:?; [|by apply Happ; [|cbn; lia]].
    destruct r as [|e r]; [by apply utf8_char|cbn [length] in *].
    destruct (is_cont e) eqn:?; [|by apply Happ; [|cbn; lia]].
    destruct r as [|f r]; [by apply utf8_char|cbn [length] in *].
    destruct (is_cont f) eqn:?; [|by apply Happ; [|cbn; lia]].
    apply (Happ [c; d; e; f]); [by apply char4|lia].
Qed.

(** Text comes through as it is. *)
Lemma lossy_id l : utf8 l → from_utf8_lossy l = l.
Proof.
  intros (ls & Hls & ->)%utf8_chars. induction Hls as [|l ls Hl _ IH]; [done|].
  cbn [concat]. by rewrite lossy_char, IH.
Qed.

(** So the decoder tells text from other bytes. *)
Lemma utf8_lossy l : utf8 l ↔ from_utf8_lossy l = l.
Proof. split; [apply lossy_id|]. intros <-. apply lossy_utf8. Qed.

#[export] Instance utf8_dec l : Decision (utf8 l).
Proof.
  refine (cast_if (decide (from_utf8_lossy l = l))); by rewrite utf8_lossy.
Defined.

#[export] Hint Resolve lossy_utf8 : http.

(** [to_lowercase] gives a [String]. *)
Class LowercaseUtf8 `{Lowercase} :=
  to_lowercase_utf8 l : utf8 l → utf8 (to_lowercase l).

#[export] Hint Resolve to_lowercase_utf8 : http.

Lemma ascii_lower_range c lo hi :
  in_range lo hi c = true → (128 ≤ lo)%Z → ascii_lower c = c.
Proof.
  intros Hc Hlo. unfold ascii_lower. rewrite in_range_true in Hc.
  destruct (in_range 65 90 c) eqn:E; [|done]. rewrite in_range_true in E. lia.
Qed.

Lemma ascii_lower_ascii c : is_ascii c = true → is_ascii (ascii_lower c) = true.
Proof. by destruct c. Qed.

(** The instance on ASCII letters leaves the bytes of other characters. *)
#[export] Instance ascii_lowercase_utf8 : LowercaseUtf8 (H:=ascii_lowercase).
Proof.
  assert (∀ l, char l → char (map ascii_lower l)) as Hch.
  { intros l [c Hc|c d Hc Hd|c d e Hc Hd He|c d e f Hc Hd He Hf]; cbn [map].
    - by apply char1, ascii_lower_ascii.
    - rewrite (ascii_lower_range c _ _ Hc), (ascii_lower_range d _ _ Hd) by lia. by apply char2.
    - assert (is_cont d = true) as Hd' by (ranges; lia).
      rewrite (ascii_lower_range c _ _ Hc), (ascii_lower_range d _ _ Hd'),
        (ascii_lower_range e _ _ He) by lia. by apply char3.
    - assert (is_cont d = true) as Hd' by (ranges; lia).
      rewrite (ascii_lower_range c _ _ Hc), (ascii_lower_range d _ _ Hd'),
        (ascii_lower_range e _ _ He), (ascii_lower_range f _ _ Hf) by lia. by apply char4. }
  intros l (ls & Hls & ->)%utf8_chars. cbn [to_lowercase ascii_lowercase].
  rewrite concat_map. apply utf8_chars. eexists. split; [|done].
  apply Forall_map. by apply (Forall_impl _ _ _ Hls), Hch.
Qed.
