(* ===== verification/Httparse.v ===== *)
(** * The response head parser: [src/src/httparse.rs]

    [ltrim] and [rtrim], the parsers of a header line and of the status line,
    and the iterator [parse_headers] returns, whose captured variables are the
    record [HeaderIter]. *)
From S2P Require Import Prelude RustStd.

Inductive Header :=
| Status (code : N) (x y : bytes)
| HeaderField (name value : bytes).

Inductive ParseError :=
| WrongStatusReason
| WrongStatusHeader (l : bytes)
| WrongStatusCode (l : bytes)
| WrongHeader (l : bytes).

(** [Display] prints what the derived [Debug] does, and a line end: the
    constructor, and the bytes of a slice as numbers. *)
Definition debug_slice (l : bytes) : bytes :=
  b"[" ++ match l with
          | [] => []
          | c :: l => dec (Byte.to_N c) ++ concat (map (λ c, b", " ++ dec (Byte.to_N c)) l)
          end ++ b"]".

Definition parse_error_debug (self : ParseError) : bytes :=
  match self with
  | WrongStatusReason => b"WrongStatusReason"
  | WrongStatusHeader l => b"WrongStatusHeader(" ++ debug_slice l ++ b")"
  | WrongStatusCode l => b"WrongStatusCode(" ++ debug_slice l ++ b")"
  | WrongHeader l => b"WrongHeader(" ++ debug_slice l ++ b")"
  end.

Definition parse_error_display (self : ParseError) : bytes := parse_error_debug self ++ [LF].

Section httparse.
Context `{Build}.

Fixpoint ltrim (val : bytes) : bytes :=
  match val with
  | Byte.x20 :: tl => ltrim tl
  | _ => val
  end.

Definition rtrim_body {E} (val : bytes) : outcome E (step bytes bytes) :=
  i ← usize_sub (len val) 1;
  if decide (get val i = Some SP) then
    j ← usize_sub (len val) 2;
    v ← slice_to val j;
    Ok (Continue v)
  else Ok (Break val).

Definition rtrim {E} (val : bytes) : outcome E bytes :=
  loop (S (length val)) rtrim_body val.

Definition parse_header (input : bytes) : outcome ParseError (bytes * bytes) :=
  let iter := split_by (is_byte COLON) input in
  let '(o, iter) := iter_next iter in
  raw ← unwrap o;
  name ← ltrim <$> rtrim raw;
  let '(o, iter) := iter_next iter in
  value ← ok_or o (WrongHeader name);
  value ← ltrim <$> rtrim value;
  Ok (name, value).

(** [*code.get_unchecked(i) as i16 - b'0' as i16]: from [-48] to [207]. *)
Definition status_digit (code : bytes) (i : nat) : outcome ParseError Z :=
  c ← unchecked (code !! i);
  Ok (u8_val c - u8_val Byte.x30)%Z.

(** [z as u16]. *)
Definition as_u16 (z : Z) : N := Z.to_N (z mod 65536).

Definition parse_status (input : bytes) : outcome ParseError (N * bytes * bytes) :=
  let iter := split_by (is_byte SP) input in
  let '(o, iter) := iter_next iter in
  x ← ok_or o (WrongStatusHeader []);
  proto ← slice_range x 0 4;
  if decide (proto ≠ b"HTTP") then
    l ← slice_range input 0 4;
    Err (WrongStatusHeader l)
  else
  http_version ← slice_from x 5;
  let '(o, iter) := iter_next iter in
  code ← ok_or o (WrongStatusCode []);
  if (len code <? 3)%N then Err (WrongStatusCode code) else
  a ← status_digit code 0;
  b ← status_digit code 1;
  c ← status_digit code 2;
  if ((a <? 1) || (5 <? a) || (b <? 0) || (9 <? b) || (c <? 0) || (9 <? c))%Z
  then Err (WrongStatusCode code) else
  let '(o, iter) := iter_next iter in
  reason ← ok_or o WrongStatusReason;
  Ok (as_u16 (a * 100 + b * 10 + c), http_version, reason).

(** The closure [parse_headers] hands to [iter::from_fn]. *)
Record HeaderIter := { it_input : bytes; it_status_parsed : bool }.

Definition parse_headers (input : bytes) : HeaderIter :=
  {| it_input := input; it_status_parsed := false |}.

Definition next_header (s : HeaderIter) :
    outcome Empty_set (option (Header + ParseError) * HeaderIter) :=
  match find_sub CRLF (it_input s) with
  | None => Ok (None, s)
  | Some idx =>
      line ← slice_to (it_input s) (N.of_nat idx);
      rest ← slice_from (it_input s) (N.of_nat (idx + 2));
      let s' := {| it_input := rest; it_status_parsed := true |} in
      if negb (it_status_parsed s) then
        item ← as_result (parse_status line);
        Ok (Some (match item with
                  | inl (status, version, reason) => inl (Status status version reason)
                  | inr err => inr err
                  end), s')
      else if (0 <? len line)%N then
        item ← as_result (parse_header line);
        Ok (Some (match item with
                  | inl (name, value) => inl (HeaderField name value)
                  | inr err => inr err
                  end), s')
      else Ok (None, s')
  end.
End httparse.

(** ** Trimming *)

(** Two bytes at the end are what one turn of [rtrim] looks at. *)
Lemma snoc2_cases {A} (l : list A) :
  l = [] ∨ (∃ x, l = [x]) ∨ ∃ k c x, l = k ++ [c; x].
Proof.
  destruct l as [|x l _] using rev_ind; [by left|].
  destruct l as [|c k _] using rev_ind; [right; left; by exists x|].
  right; right. exists k, c, x. by rewrite <-app_assoc.
Qed.

(** The text a trim of both ends leaves alone. *)
Definition trimmed (l : bytes) : Prop :=
  l ≠ [] ∧ head l ≠ Some SP ∧ last l ≠ Some SP.

#[export] Instance trimmed_dec l : Decision (trimmed l).
Proof. unfold trimmed. apply _. Defined.

Section trim.
Context `{Build}.

Lemma ltrim_no_space l : head l ≠ Some SP → ltrim l = l.
Proof. intros Hl. destruct l as [|[] tl]; done. Qed.

Lemma ltrim_spaces n l : ltrim (replicate n SP ++ l) = ltrim l.
Proof. induction n as [|n IH]; cbn; [done|apply IH]. Qed.

Lemma ltrim_decompose l : ∃ n, l = replicate n SP ++ ltrim l ∧ head (ltrim l) ≠ Some SP.
Proof.
  induction l as [|c l (n & IH & Hh)]; [by exists 0|].
  destruct (decide (c = SP)) as [->|Hc].
  - exists (S n). cbn. split; [by f_equal|done].
  - exists 0. rewrite ltrim_no_space by (cbn; congruence). cbn. split; congruence.
Qed.

Context {E : Type}.

Lemma rtrim_body_snoc2 l c :
  rtrim_body (E:=E) (l ++ [c; SP]) = Ok (Continue l).
Proof.
  unfold rtrim_body. rewrite (usize_sub_Ok _ 1) by len_lia. cbn [mbind outcome_bind].
  replace (len (l ++ [c; SP]) - 1)%N with (N.of_nat (S (length l))) by len_lia.
  rewrite get_of_nat, lookup_app_r by lia.
  replace (S (length l) - length l) with 1 by lia.
  rewrite decide_True by done.
  rewrite usize_sub_Ok by len_lia. cbn [mbind outcome_bind].
  rewrite slice_to_Ok by len_lia. cbn [mbind outcome_bind].
  replace (N.to_nat (len (l ++ [c; SP]) - 2)) with (length l) by len_lia.
  by rewrite take_app_length.
Qed.

Lemma rtrim_body_stop l :
  l ≠ [] → last l ≠ Some SP → rtrim_body (E:=E) l = Ok (Break l).
Proof.
  intros Hl Hlast. destruct l as [|x l _] using rev_ind; [done|].
  rewrite last_snoc in Hlast. unfold rtrim_body.
  rewrite (usize_sub_Ok _ 1) by len_lia. cbn [mbind outcome_bind].
  replace (len (l ++ [x]) - 1)%N with (N.of_nat (length l)) by len_lia.
  rewrite get_of_nat, list_lookup_middle by done.
  by rewrite decide_False.
Qed.

(** On the empty slice [val.len() - 1] overflows; without overflow checks the
    wrapped index is out of range and [get] gives [None]. *)
Lemma rtrim_body_nil :
  rtrim_body (E:=E) [] =
    if overflow_checks then Panic SubOverflow else Ok (Break []).
Proof. unfold rtrim_body, usize_sub. cbn. by destruct overflow_checks. Qed.

(** On a lone space it is [val.len() - 2] that overflows. *)
Lemma rtrim_body_space :
  rtrim_body (E:=E) [SP] =
    Panic (if overflow_checks then SubOverflow else SliceOob).
Proof. unfold rtrim_body, usize_sub. cbn. by destruct overflow_checks. Qed.

Lemma rtrim_body_shrinks l :
  rtrim_body (E:=E) l ≠ Spin ∧
  ∀ l', rtrim_body (E:=E) l = Ok (Continue l') → length l' < length l.
Proof.
  destruct (snoc2_cases l) as [->|[[x ->]|(k & c & x & ->)]].
  - rewrite rtrim_body_nil. by destruct overflow_checks.
  - destruct (decide (x = SP)) as [->|Hx].
    + by rewrite rtrim_body_space.
    + rewrite rtrim_body_stop; cbn; [done|done|congruence].
  - destruct (decide (x = SP)) as [->|Hx].
    + rewrite rtrim_body_snoc2. split; [done|]. intros l' [= <-]. len_lia.
    + rewrite rtrim_body_stop; [done|by destruct k|].
      replace (k ++ [c; x]) with ((k ++ [c]) ++ [x]) by by rewrite <-app_assoc.
      rewrite last_snoc. congruence.
Qed.

Lemma rtrim_fuel n l : length l < n → loop n rtrim_body l ≠ Spin (E:=E).
Proof.
  apply (loop_not_spin rtrim_body (λ _, True) length); try done.
  - intros s _. apply rtrim_body_shrinks.
  - intros s s' _ Hs. split; [done|]. by apply rtrim_body_shrinks.
Qed.

Lemma rtrim_no_spin l : rtrim (E:=E) l ≠ Spin.
Proof. apply rtrim_fuel. lia. Qed.

Lemma rtrim_snoc2 l c : rtrim (E:=E) (l ++ [c; SP]) = rtrim l.
Proof.
  unfold rtrim. cbn [loop]. rewrite rtrim_body_snoc2.
  change (loop (length (l ++ [c; SP])) rtrim_body l = rtrim (E:=E) l).
  apply loop_mono; [by apply rtrim_no_spin|len_lia].
Qed.

Lemma rtrim_stop l : l ≠ [] → last l ≠ Some SP → rtrim (E:=E) l = Ok l.
Proof. intros. unfold rtrim. cbn [loop]. by rewrite rtrim_body_stop. Qed.

Lemma rtrim_nil :
  rtrim (E:=E) [] = if overflow_checks then Panic SubOverflow else Ok [].
Proof. unfold rtrim. cbn [loop]. rewrite rtrim_body_nil. by destruct overflow_checks. Qed.

Lemma rtrim_space :
  rtrim (E:=E) [SP] = Panic (if overflow_checks then SubOverflow else SliceOob).
Proof. unfold rtrim. cbn [loop length]. by rewrite rtrim_body_space. Qed.

(** Spaces go in pairs ... *)
Lemma rtrim_even k l : rtrim (E:=E) (l ++ replicate (2 * k) SP) = rtrim l.
Proof.
  induction k as [|k IH]; [by rewrite app_nil_r|].
  replace (2 * S k) with (2 * k + 2) by lia.
  rewrite replicate_add, app_assoc. change (replicate 2 SP) with [SP; SP].
  by rewrite rtrim_snoc2.
Qed.

(** ... and the odd one takes a byte of text with it. *)
Lemma rtrim_odd k l c : rtrim (E:=E) (l ++ c :: replicate (2 * k + 1) SP) = rtrim l.
Proof.
  rewrite Nat.add_comm. cbn [replicate Nat.add].
  replace (l ++ c :: SP :: replicate (2 * k) SP)
    with ((l ++ [c; SP]) ++ replicate (2 * k) SP) by by rewrite <-app_assoc.
  by rewrite rtrim_even, rtrim_snoc2.
Qed.

Lemma trim_trimmed l : trimmed l → (ltrim <$> rtrim (E:=E) l) = Ok l.
Proof.
  intros (Hn & Hh & Hl). rewrite rtrim_stop by done. cbn. by rewrite ltrim_no_space.
Qed.

Lemma trim_trimmed_left n l :
  trimmed l → (ltrim <$> rtrim (E:=E) (replicate n SP ++ l)) = Ok l.
Proof.
  intros (Hn & Hh & Hl). rewrite rtrim_stop.
  - cbn. by rewrite ltrim_spaces, ltrim_no_space.
  - intros [_ ?]%app_eq_nil. done.
  - rewrite last_app. by destruct (last l) eqn:El; [|apply last_None in El].
Qed.
End trim.

(** ** The status line *)

(** A status line the parser takes: [HTTP], one separator byte, the version,
    and after a space a code whose first three bytes are digits (whatever
    follows them), and after a space the reason, up to the next space. *)
Definition digit_at (c : byte) : Z := (u8_val c - u8_val Byte.x30)%Z.

Inductive status_line : bytes → N → bytes → bytes → Prop :=
| status_line_intro sep v c0 c1 c2 extra reason tail :
    SP ∉ sep :: v →
    SP ∉ c0 :: c1 :: c2 :: extra →
    SP ∉ reason →
    (tail = [] ∨ ∃ t, tail = SP :: t) →
    (1 ≤ digit_at c0 ≤ 5)%Z → (0 ≤ digit_at c1 ≤ 9)%Z → (0 ≤ digit_at c2 ≤ 9)%Z →
    status_line
      (b"HTTP" ++ (sep :: v) ++ SP :: (c0 :: c1 :: c2 :: extra) ++ SP :: reason ++ tail)
      (Z.to_N (digit_at c0 * 100 + digit_at c1 * 10 + digit_at c2)) v reason.

(** The first word of a line. *)
Definition first_word (input : bytes) : bytes :=
  default [] (head (split_by (is_byte SP) input)).

Section status.

Lemma slice4_spec (x : bytes) :
  slice_range (E:=ParseError) x 0 4 =
    if decide (4 ≤ length x) then Ok (take 4 x) else Panic SliceOob.
Proof.
  case_decide.
  - rewrite slice_range_Ok by len_lia. done.
  - rewrite slice_range_oob by len_lia. done.
Qed.

Lemma take4_http x : take 4 x = b"HTTP" → 4 ≤ length x ∧ x = b"HTTP" ++ drop 4 x.
Proof.
  intros Ht. split.
  - apply (f_equal length) in Ht. rewrite length_take in Ht.
    change (length (b"HTTP")) with 4 in Ht. lia.
  - by rewrite <-Ht, take_drop.
Qed.

(** What the three digit checks of the source accept. *)
Definition digits_ok (c0 c1 c2 : byte) : bool :=
  negb ((digit_at c0 <? 1) || (5 <? digit_at c0) || (digit_at c1 <? 0)
     || (9 <? digit_at c1) || (digit_at c2 <? 0) || (9 <? digit_at c2))%Z.

Lemma digits_ok_spec c0 c1 c2 :
  digits_ok c0 c1 c2 = true ↔
  (1 ≤ digit_at c0 ≤ 5)%Z ∧ (0 ≤ digit_at c1 ≤ 9)%Z ∧ (0 ≤ digit_at c2 ≤ 9)%Z.
Proof. unfold digits_ok. lia. Qed.

Lemma as_u16_small z : (0 ≤ z < 65536)%Z → as_u16 z = Z.to_N z.
Proof. intros Hz. unfold as_u16. by rewrite Z.mod_small. Qed.

(** [parse_status] as a function of the words of the line. *)
Definition status_of_words (input x : bytes) (ws : list bytes)
    : outcome ParseError (N * bytes * bytes) :=
  if decide (length x < 4) then Panic SliceOob
  else if decide (take 4 x ≠ b"HTTP") then Err (WrongStatusHeader (take 4 input))
  else if decide (length x = 4) then Panic SliceOob
  else match ws with
  | [] => Err (WrongStatusCode [])
  | (c0 :: c1 :: c2 :: extra) :: ws' =>
      if digits_ok c0 c1 c2 then
        match ws' with
        | [] => Err WrongStatusReason
        | reason :: _ =>
            Ok (Z.to_N (digit_at c0 * 100 + digit_at c1 * 10 + digit_at c2), drop 5 x, reason)
        end
      else Err (WrongStatusCode (c0 :: c1 :: c2 :: extra))
  | code :: _ => Err (WrongStatusCode code)
  end.

Lemma parse_status_words input x ws :
  split_by (is_byte SP) input = x :: ws →
  parse_status input = status_of_words input x ws.
Proof.
  intros Hs. unfold parse_status, status_of_words. rewrite Hs. cbn [iter_next ok_or].
  rewrite bind_Ok, (slice4_spec x).
  assert (length x ≤ length input) as Hlen.
  { destruct (split_byte_inv _ _ _ _ Hs) as (_ & [[_ ->]|(r & -> & _)]); [lia|len_lia]. }
  destruct (decide (length x < 4)); [by rewrite (decide_False (P:=4 ≤ length x)) by lia|].
  rewrite (decide_True (P:=4 ≤ length x)) by lia. rewrite bind_Ok.
  case_decide; [by rewrite slice4_spec, (decide_True (P:=4 ≤ length input)) by lia|].
  unfold slice_from. destruct (decide (length x = 4)) as [E|E].
  { by rewrite (proj2 (N.leb_gt 5 (len x))) by len_lia. }
  rewrite (proj2 (N.leb_le 5 (len x))) by len_lia. rewrite bind_Ok.
  destruct ws as [|code ws]; [done|]. cbn [iter_next ok_or]. rewrite bind_Ok.
  destruct code as [|c0 [|c1 [|c2 extra]]]; try done.
  rewrite (proj2 (N.ltb_ge _ 3)) by len_lia.
  unfold status_digit. cbn [lookup list_lookup unchecked]. rewrite !bind_Ok.
  fold (digit_at c0) (digit_at c1) (digit_at c2).
  destruct (digits_ok c0 c1 c2) eqn:Ed.
  - pose proof Ed as Hr%digits_ok_spec. unfold digits_ok in Ed.
    apply negb_true_iff in Ed. rewrite Ed.
    destruct ws as [|reason ws]; [done|]. cbn [iter_next ok_or]. rewrite bind_Ok.
    by rewrite as_u16_small by lia.
  - unfold digits_ok in Ed. apply negb_false_iff in Ed. by rewrite Ed.
Qed.

Lemma status_of_words_Ok input x ws code v reason :
  status_of_words input x ws = Ok (code, v, reason) →
  ∃ sep c0 c1 c2 extra ws',
    x = b"HTTP" ++ sep :: v ∧ ws = (c0 :: c1 :: c2 :: extra) :: reason :: ws' ∧
    digits_ok c0 c1 c2 = true ∧
    code = Z.to_N (digit_at c0 * 100 + digit_at c1 * 10 + digit_at c2).
Proof.
  unfold status_of_words. case_decide; [done|]. case_decide as Ht; [done|].
  apply take4_http in Ht as [Hlen Hx].
  case_decide; [done|].
  destruct ws as [|[|c0 [|c1 [|c2 extra]]] ws]; try done.
  destruct (digits_ok c0 c1 c2) eqn:Ed; [|done].
  destruct ws as [|r ws]; [done|]. intros [= <- <- <-].
  destruct (drop 4 x) as [|sep v] eqn:E4.
  { apply (f_equal length) in E4. rewrite length_drop in E4. cbn in E4. lia. }
  exists sep, c0, c1, c2, extra, ws. repeat split; try done.
  replace (drop 5 x) with (drop 1 (drop 4 x)) by by rewrite drop_drop.
  by rewrite E4.
Qed.
End status.

Lemma parse_status_sound input code v reason :
  parse_status input = Ok (code, v, reason) → status_line input code v reason.
Proof.
  destruct (split_by_cons (is_byte SP) input) as (x & ws & Hs).
  rewrite (parse_status_words _ _ _ Hs). intros Hok.
  destruct (status_of_words_Ok _ _ _ _ _ _ Hok)
    as (sep & c0 & c1 & c2 & extra & ws' & -> & -> & Hd%digits_ok_spec & ->).
  apply split_byte_inv in Hs as (Hx & [[? _]|(r & -> & Hr)]); [done|].
  symmetry in Hr. apply split_byte_inv in Hr as (Hc & [[? _]|(r' & -> & Hr)]); [done|].
  symmetry in Hr. apply split_byte_inv in Hr as (Hre & Htl).
  apply not_elem_of_app in Hx as [_ Hx]. destruct Hd as (? & ? & ?).
  assert (∃ tail, r' = reason ++ tail ∧ (tail = [] ∨ ∃ t, tail = SP :: t)) as (tail & -> & Ht).
  { destruct Htl as [[_ ->]|(r'' & -> & _)].
    - exists []. rewrite app_nil_r. auto.
    - exists (SP :: r''). eauto. }
  rewrite <-app_assoc. by constructor.
Qed.

Lemma parse_status_complete input code v reason :
  status_line input code v reason → parse_status input = Ok (code, v, reason).
Proof.
  intros [sep v' c0 c1 c2 extra reason' tail Hv Hc Hr Ht H0 H1 H2].
  assert (split_by (is_byte SP) (reason' ++ tail) = reason' ::
            match tail with [] => [] | _ :: t => split_by (is_byte SP) t end) as Es.
  { destruct Ht as [->|[t ->]].
    - rewrite app_nil_r. by apply split_byte_nosep.
    - by apply split_byte_app. }
  erewrite parse_status_words; cycle 1.
  { rewrite app_assoc, split_byte_app, split_byte_app, Es; [done|done|].
    apply not_elem_of_app. split; [|done]. by apply (bool_decide_unpack (SP ∉ b"HTTP")). }
  unfold status_of_words. rewrite decide_False by len_lia.
  rewrite decide_False by by intros []. rewrite decide_False by len_lia.
  by rewrite (proj2 (digits_ok_spec c0 c1 c2)) by done.
Qed.

(** A first word that cannot be sliced. *)
Lemma parse_status_short input :
  length (first_word input) < 4 ∨ first_word input = b"HTTP" →
  parse_status input = Panic SliceOob.
Proof.
  destruct (split_by_cons (is_byte SP) input) as (x & ws & Hs).
  assert (first_word input = x) as -> by (unfold first_word; by rewrite Hs).
  rewrite (parse_status_words _ _ _ Hs). unfold status_of_words.
  case_decide; [done|]. by intros [?| ->].
Qed.

(** The code of a status line the parser takes is in [100..=599]. *)
Lemma status_line_range input code v reason :
  status_line input code v reason → (100 ≤ code ≤ 599)%N.
Proof. intros []. lia. Qed.

(** C30: [parse_status] succeeds exactly on the lines [status_line] describes,
    with the status, the version and the reason they hold; in particular only
    the first three bytes of the code word are looked at, and the reason ends
    at its first space. *)
Theorem parse_status_iff input code v reason :
  parse_status input = Ok (code, v, reason) ↔ status_line input code v reason.
Proof. split; [apply parse_status_sound|apply parse_status_complete]. Qed.

(** [parse_status] panics exactly when the first word of the line is
    shorter than [HTTP] or is [HTTP] itself, always on a slice out of range;
    the [get_unchecked] accesses are never out of range, and no loop of it
    runs out of fuel. *)
Theorem parse_status_panics input :
  (is_panic (parse_status input) = true ↔
     length (first_word input) < 4 ∨ first_word input = b"HTTP") ∧
  parse_status input ≠ Panic Undefined ∧ parse_status input ≠ Spin.
Proof.
  destruct (split_by_cons (is_byte SP) input) as (x & ws & Hs).
  assert (first_word input = x) as -> by (unfold first_word; by rewrite Hs).
  rewrite (parse_status_words _ _ _ Hs).
  unfold status_of_words. case_decide as H1; [cbn; naive_solver|].
  case_decide as H2; [split; [|done]; split; [done|]; intros [?|E]; [lia|by subst x]|].
  apply take4_http in H2 as [_ Hx]. case_decide as H3.
  { split; [|done]. split; [intros _; right|done].
    rewrite Hx, drop_ge by lia. apply app_nil_r. }
  assert (¬ (length x < 4 ∨ x = b"HTTP")) as Hn by (intros [?|E]; [done|subst x; done]).
  destruct ws as [|[|c0 [|c1 [|c2 extra]]] ws]; try (split; [split; done|done]).
  destruct (digits_ok c0 c1 c2), ws; split; done.
Qed.

(** ** The trimming functions *)

(** [ltrim] removes the leading spaces and nothing else. *)
Theorem ltrim_spec val :
  ∃ n, val = replicate n SP ++ ltrim val ∧ head (ltrim val) ≠ Some SP.
Proof. apply ltrim_decompose. Qed.

Lemma rtrim_blank `{Build} {E} n :
  rtrim (E:=E) (replicate n SP) =
    if Nat.even n then if overflow_checks then Panic SubOverflow else Ok []
    else Panic (if overflow_checks then SubOverflow else SliceOob).
Proof.
  destruct (Nat.Even_or_Odd n) as [[m ->]|[m ->]].
  - rewrite Nat.even_even. by rewrite <-(app_nil_l (replicate _ _)), rtrim_even, rtrim_nil.
  - rewrite Nat.even_odd, Nat.add_comm. cbn [replicate Nat.add].
    change (SP :: replicate (2 * m) SP) with ([SP] ++ replicate (2 * m) SP).
    by rewrite rtrim_even, rtrim_space.
Qed.

(** C35: what [rtrim] does to every text: an even number of trailing spaces is
    removed, an odd number takes the last byte of the text with it (and goes
    on with what is left of it), and a text of spaces only ends in an integer
    overflow: with overflow checks always a panic, without them a panic for
    an odd number of spaces. *)
Theorem rtrim_spec `{Build} {E} k c n :
  c ≠ SP →
  rtrim (E:=E) (k ++ c :: replicate n SP) =
    (if Nat.even n then Ok (k ++ [c]) else rtrim k) ∧
  rtrim (E:=E) (replicate n SP) =
    (if Nat.even n then if overflow_checks then Panic SubOverflow else Ok []
     else Panic (if overflow_checks then SubOverflow else SliceOob)).
Proof.
  intros Hc. split; [|apply rtrim_blank]. destruct (Nat.Even_or_Odd n) as [[m ->]|[m ->]].
  - rewrite Nat.even_even, cons_middle, app_assoc, rtrim_even, rtrim_stop;
      [done|by destruct k|rewrite last_snoc; congruence].
  - rewrite Nat.even_odd. apply rtrim_odd.
Qed.

Lemma rtrim_spec_witness :
  rtrim (H:=false) (E:=Empty_set) (b"Foo" ++ Byte.x64 :: replicate 1 SP) = Ok (b"Foo").
Proof.
  destruct (rtrim_spec (H:=false) (E:=Empty_set) (b"Foo") Byte.x64 1) as [-> _];
    [discriminate|vm_compute; reflexivity].
Defined.

(** ** Header lines *)

Section header_lines.
Context `{Build}.

Lemma parse_header_pieces input x y ws name :
  split_by (is_byte COLON) input = x :: y :: ws →
  (ltrim <$> rtrim (E:=ParseError) x) = Ok name →
  parse_header input = (value ← (ltrim <$> rtrim y); Ok (name, value)).
Proof.
  intros Hs Hx. unfold parse_header. rewrite Hs. cbn [iter_next unwrap].
  rewrite bind_Ok, Hx. by rewrite bind_Ok.
Qed.

Lemma parse_header_line name k value tail :
  trimmed name → COLON ∉ name → trimmed value → COLON ∉ value →
  tail = [] ∨ (∃ t, tail = COLON :: t) →
  parse_header (name ++ COLON :: replicate k SP ++ value ++ tail) = Ok (name, value).
Proof.
  intros Hn Hnc Hv Hvc Ht.
  assert (COLON ∉ replicate k SP ++ value) as Hc.
  { apply not_elem_of_app. split; [|done]. intros [Hx _]%elem_of_replicate. done. }
  assert (∃ ws, split_by (is_byte COLON) (replicate k SP ++ value ++ tail)
                = (replicate k SP ++ value) :: ws) as [ws Hw].
  { destruct Ht as [->|[t ->]].
    - exists []. rewrite app_nil_r. by apply split_byte_nosep.
    - eexists. rewrite app_assoc. by apply split_byte_app. }
  erewrite (parse_header_pieces _ name _ ws name); cycle 1.
  { by rewrite split_byte_app, Hw. }
  { by apply trim_trimmed. }
  by rewrite trim_trimmed_left.
Qed.
End header_lines.

(** A header line [name: value] parses to the name and the value, when
    both are non-empty texts with no colon and no space at their ends. *)
Theorem parse_header_roundtrip `{Build} name value :
  trimmed name → COLON ∉ name → trimmed value → COLON ∉ value →
  parse_header (name ++ b": " ++ value) = Ok (name, value).
Proof.
  intros Hn Hnc Hv Hvc.
  pose proof (parse_header_line name 1 value [] Hn Hnc Hv Hvc (or_introl eq_refl)) as Hp.
  by rewrite app_nil_r in Hp.
Qed.

Lemma parse_header_roundtrip_witness :
  parse_header (H:=true) (b"Content-Length" ++ b": " ++ b"42")
    = Ok (b"Content-Length", b"42").
Proof.
  apply (parse_header_roundtrip (H:=true));
    apply (bool_decide_unpack _); vm_compute; exact I.
Defined.

(** A value that holds a colon is cut at it, whatever comes after. *)
Theorem parse_header_colon `{Build} name value t :
  trimmed name → COLON ∉ name → trimmed value → COLON ∉ value →
  parse_header (name ++ b": " ++ value ++ COLON :: t) = Ok (name, value).
Proof.
  intros Hn Hnc Hv Hvc.
  apply (parse_header_line name 1 value (COLON :: t) Hn Hnc Hv Hvc). right. by exists t.
Qed.

Lemma parse_header_colon_witness :
  parse_header (H:=true) (b"Location" ++ b": " ++ b"https" ++ COLON :: b"//example.org/")
    = Ok (b"Location", b"https").
Proof.
  apply (parse_header_colon (H:=true));
    apply (bool_decide_unpack _); vm_compute; exact I.
Defined.



(** ** The iterator *)

Section iterator.
Context `{Build}.

(** The item a first line and a later line give. *)
Definition status_item (r : (N * bytes * bytes) + ParseError) : Header + ParseError :=
  match r with
  | inl (status, version, reason) => inl (Status status version reason)
  | inr err => inr err
  end.
Definition field_item (r : (bytes * bytes) + ParseError) : Header + ParseError :=
  match r with
  | inl (name, value) => inl (HeaderField name value)
  | inr err => inr err
  end.

Lemma next_header_find input p idx :
  find_sub CRLF input = Some idx →
  next_header {| it_input := input; it_status_parsed := p |} =
    let line := take idx input in
    let s' := {| it_input := drop (idx + 2) input; it_status_parsed := true |} in
    if negb p then item ← as_result (parse_status line); Ok (Some (status_item item), s')
    else if (0 <? len line)%N then
      item ← as_result (parse_header line); Ok (Some (field_item item), s')
    else Ok (None, s').
Proof.
  intros Hf. pose proof (find_sub_length CRLF ltac:(done) _ _ Hf) as Hl. cbn in Hl.
  unfold next_header. cbn [it_input it_status_parsed]. rewrite Hf.
  rewrite slice_to_Ok by len_lia. rewrite bind_Ok.
  rewrite slice_from_Ok by len_lia. rewrite bind_Ok. by rewrite !Nat2N.id.
Qed.

Lemma next_header_line line rest p :
  no_crlf line →
  next_header {| it_input := line ++ CRLF ++ rest; it_status_parsed := p |} =
    let s' := {| it_input := rest; it_status_parsed := true |} in
    if negb p then item ← as_result (parse_status line); Ok (Some (status_item item), s')
    else if (0 <? len line)%N then
      item ← as_result (parse_header line); Ok (Some (field_item item), s')
    else Ok (None, s').
Proof.
  intros Hl. rewrite (next_header_find _ _ (length line)) by by apply find_crlf_line.
  rewrite take_app_length.
  replace (drop (length line + 2) (line ++ CRLF ++ rest)) with rest; [done|].
  by rewrite <-drop_drop, drop_app_length.
Qed.

Lemma parse_header_no_spin line : parse_header line ≠ Spin.
Proof.
  assert (∀ x, (ltrim <$> rtrim (E:=ParseError) x) ≠ Spin) as Ht.
  { intros x. pose proof (rtrim_no_spin (E:=ParseError) x). by destruct (rtrim x). }
  unfold parse_header.
  destruct (split_by_cons (is_byte COLON) line) as (h & t & ->).
  cbn [iter_next unwrap]. rewrite bind_Ok.
  apply bind_not_spin; [apply Ht|]. intros name _. cbn.
  destruct t as [|y ws]; [done|]. cbn. apply bind_not_spin; [apply Ht|done].
Qed.

Lemma parse_status_no_spin line : parse_status line ≠ Spin.
Proof.
  destruct (split_by_cons (is_byte SP) line) as (x & ws & Hs).
  rewrite (parse_status_words _ _ _ Hs). unfold status_of_words.
  repeat case_decide; try done.
  destruct ws as [|[|c0 [|c1 [|c2 extra]]] ws]; try done.
  destruct (digits_ok c0 c1 c2), ws; done.
Qed.

Lemma as_result_not_spin {E A} (m : outcome E A) : m ≠ Spin → as_result m ≠ Spin.
Proof. by destruct m. Qed.

Lemma next_header_not_spin s : next_header s ≠ Spin.
Proof.
  destruct s as [input p]. destruct (find_sub CRLF input) as [idx|] eqn:Hf.
  - rewrite (next_header_find _ _ _ Hf). cbn zeta.
    destruct (negb p); [|destruct (0 <? _)%N; [|done]].
    all: apply bind_not_spin; [|done]; apply as_result_not_spin.
    + apply parse_status_no_spin.
    + apply parse_header_no_spin.
  - unfold next_header. cbn [it_input]. by rewrite Hf.
Qed.

Lemma next_header_consumes s o s' :
  next_header s = Ok (o, s') →
  (o = None ∧ s' = s ∧ find_sub CRLF (it_input s) = None) ∨
  ∃ line, it_input s = line ++ CRLF ++ it_input s' ∧
          find_sub CRLF (it_input s) = Some (length line) ∧
          (it_status_parsed s = false → is_Some o).
Proof.
  destruct s as [input p]. cbn [it_input it_status_parsed].
  destruct (find_sub CRLF input) as [idx|] eqn:Hf.
  - rewrite (next_header_find _ _ _ Hf). intros Hn. right.
    pose proof (find_sub_length CRLF ltac:(done) _ _ Hf) as Hl. cbn in Hl.
    exists (take idx input).
    assert (it_input s' = drop (idx + 2) input ∧ (p = false → is_Some o)) as [-> Ho].
    { cbn zeta in Hn. destruct p; cbn [negb] in Hn.
      - destruct (0 <? _)%N; outcome_inv; split; done.
      - outcome_inv. split; [done|eauto]. }
    split_and!; [by apply find_sub_split| |done].
    rewrite length_take_le by lia. done.
  - unfold next_header. cbn [it_input]. rewrite Hf. intros [= <- <-]. by left.
Qed.
End iterator.

(** Every call of the iterator's [next] returns or panics; one that
    finds a line end consumes the input up to and with the first one, and one
    that finds none changes nothing and ends the iteration.  The first call
    that finds a line always gives an item. *)
Theorem next_header_progress `{Build} s :
  next_header s ≠ Spin ∧
  ∀ o s', next_header s = Ok (o, s') →
  (o = None ∧ s' = s ∧ find_sub CRLF (it_input s) = None) ∨
  ∃ line, it_input s = line ++ CRLF ++ it_input s' ∧
          find_sub CRLF (it_input s) = Some (length line) ∧
          (it_status_parsed s = false → is_Some o).
Proof.
  split; [apply next_header_not_spin|]. intros o s'. apply next_header_consumes.
Qed.

Lemma next_header_progress_witness :
  ∃ line, b"HTTP/1.1 200 OK" ++ CRLF ++ b"A: b" ++ CRLF
          = line ++ CRLF ++ b"A: b" ++ CRLF.
Proof.
  destruct (proj2 (next_header_progress (H:=true)
      (parse_headers (b"HTTP/1.1 200 OK" ++ CRLF ++ b"A: b" ++ CRLF)))
      (Some (inl (Status 200 (b"1.1") (b"OK"))))
      {| it_input := b"A: b" ++ CRLF; it_status_parsed := true |})
    as [(Hn & _)|(line & Hl & _)].
  - vm_compute. reflexivity.
  - discriminate Hn.
  - exists line. exact Hl.
Defined.
