(* ===== verification/Io.v ===== *)
(** * Errors, polls and connections

    [io::Error], the result of polling a future, and the interface of a
    connection: what the third-party crates [tokio_io] and [futures] promise
    of the streams the client reads and writes.  The promises are the laws of
    the classes [ReadContract] and [Delivers]; the scripted connection at the
    end of the file satisfies them. *)
From S2P Require Import Prelude.

Inductive ErrorKind :=
| Other
| InvalidInput
| WouldBlock
| OtherKind (code : N).

#[export] Instance ErrorKind_eq_dec : EqDecision ErrorKind.
Proof. solve_decision. Defined.

(** An error is its kind and the text of what it wraps. *)
Record io_error := IoError { kind : ErrorKind; text : bytes }.

#[export] Instance io_error_eq_dec : EqDecision io_error.
Proof. solve_decision. Defined.

(** What a poll gives: [Async::NotReady], [Async::Ready] or an error. *)
Inductive poll (A E : Type) :=
| NotReady
| Ready (a : A)
| Failed (e : E).
Arguments NotReady {A E}.
Arguments Ready {A E} a.
Arguments Failed {A E} e.

#[export] Instance poll_fmap {E} : FMap (λ A, poll A E) := λ A B f p,
  match p with NotReady => NotReady | Ready a => Ready (f a) | Failed e => Failed e end.

(** ** Computations in a world

    [io W A]: it changes the world outside, of type [W], and gives a value, an
    error or a panic. *)
Definition io (W A : Type) : Type := W → outcome io_error A * W.

#[export] Instance io_ret {W} : MRet (io W) := λ A a w, (Ok a, w).
#[export] Instance io_bind {W} : MBind (io W) := λ A B f m w,
  match m w with
  | (Ok a, w) => f a w
  | (Err e, w) => (Err e, w)
  | (Panic p, w) => (Panic p, w)
  | (Spin, w) => (Spin, w)
  end.

(** A computation that leaves the world alone, and a call that cannot fail. *)
Definition io_pure {W A} (m : outcome io_error A) : io W A := λ w, (m, w).
Definition io_call {W A} (f : W → A * W) : io W A := λ w, let '(a, w) := f w in (Ok a, w).

(** What polling a future gives: its result, and the future and the world
    after it.  A poll may panic. *)
Definition polled (W F A : Type) : Type := outcome Empty_set (poll A io_error * F * W).

(** The [?] of a poll on a computation: an error ends the poll with [fail]. *)
Definition try_io {W A R} (m : outcome io_error A * W) (fail : io_error → W → R)
    (k : A → W → outcome Empty_set R) : outcome Empty_set R :=
  match m with
  | (Ok a, w) => k a w
  | (Err e, w) => Ok (fail e w)
  | (Panic p, _) => Panic p
  | (Spin, _) => Spin
  end.

Lemma io_bind_Ok_inv {W A B} (m : io W A) (f : A → io W B) w b w' :
  (m ≫= f) w = (Ok b, w') → ∃ a w1, m w = (Ok a, w1) ∧ f a w1 = (Ok b, w').
Proof.
  unfold mbind, io_bind. destruct (m w) as [[a|e|p|] w1]; try done. eauto.
Qed.

Lemma io_pure_Ok_inv {W A} (m : outcome io_error A) (w : W) a w' :
  io_pure m w = (Ok a, w') → m = Ok a ∧ w' = w.
Proof. unfold io_pure. by intros [= -> ->]. Qed.

(** A computation that keeps an invariant of the world, never panics, and
    gives a value with a property or an error. *)
Section safe.
Context {W : Type} (I : W → Prop).

Definition safe {A} (m : io W A) (Q : A → Prop) : Prop :=
  ∀ w, I w →
  match m w with
  | (Ok a, w') => I w' ∧ Q a
  | (Err _, w') => I w'
  | _ => False
  end.

Lemma safe_ret {A} (a : A) (Q : A → Prop) : Q a → safe (mret a) Q.
Proof. intros Ha w Hw. by split. Qed.

Lemma safe_bind {A B} (m : io W A) (f : A → io W B) Q Q' :
  safe m Q → (∀ a, Q a → safe (f a) Q') → safe (m ≫= f) Q'.
Proof.
  intros Hm Hf w Hw. specialize (Hm w Hw). unfold mbind, io_bind.
  destruct (m w) as [[a|e|p|] w']; [|done..]. destruct Hm as [Hw' Ha]. by apply Hf.
Qed.

Lemma safe_call {A} (f : W → A * W) (Q : A → Prop) :
  (∀ w, I w → let '(a, w') := f w in I w' ∧ Q a) → safe (io_call f) Q.
Proof. intros Hf w Hw. specialize (Hf w Hw). unfold io_call. by destruct (f w). Qed.
End safe.

(** A computation that keeps an invariant and always gives a value. *)
Section sure.
Context {W : Type} (I : W → Prop).

Definition succeeds {A} (m : io W A) : Prop := ∀ w, I w → ∃ a w', m w = (Ok a, w').

Definition sure {A} (m : io W A) (Q : A → Prop) : Prop :=
  ∀ w, I w → ∃ a w', m w = (Ok a, w') ∧ I w' ∧ Q a.

Lemma safe_sure {A} (m : io W A) Q : safe I m Q → succeeds m → sure m Q.
Proof.
  intros Hm Hs w Hw. destruct (Hs w Hw) as (a & w' & E). specialize (Hm w Hw).
  rewrite E in Hm. by exists a, w'.
Qed.

Lemma sure_succeeds {A} (m : io W A) Q : sure m Q → succeeds m.
Proof. intros Hm w Hw. destruct (Hm w Hw) as (a & w' & E & _). by exists a, w'. Qed.

Lemma succeeds_ret {A} (a : A) : succeeds (mret a).
Proof. intros w _. by exists a, w. Qed.

Lemma succeeds_call {A} (f : W → A * W) : succeeds (io_call f).
Proof. intros w _. unfold io_call. destruct (f w) as [a w']. by exists a, w'. Qed.

Lemma succeeds_bind {A B} (m : io W A) (f : A → io W B) Q :
  safe I m Q → succeeds m → (∀ a, succeeds (f a)) → succeeds (m ≫= f).
Proof.
  intros Hm Hs Hf w Hw. destruct (safe_sure m Q Hm Hs w Hw) as (a & w1 & E & Hw1 & _).
  destruct (Hf a w1 Hw1) as (b & w2 & E2). exists b, w2.
  unfold mbind, io_bind. by rewrite E.
Qed.
End sure.

(** ** Connections

    [io_read c n] is [tokio_io::io::read] awaited on a buffer of [n] bytes: it
    gives the bytes put at the start of the buffer and the connection back.
    [io_write_all] is [tokio_io::io::write_all] awaited.  [poll_read] is one
    poll of the reader the body keeps.  A failed operation drops the
    connection. *)
Class Conn (T : Type) := {
  io_read : T → nat → outcome io_error (bytes * T);
  io_write_all : T → bytes → outcome io_error T;
  poll_read : T → nat → poll bytes io_error * T
}.

(** [AsyncWrite::write_buf] on the unwritten part of a buffer gives how much
    of it was written; [AsyncRead::read_buf] gives the bytes appended to the
    vector, which makes room as it needs. *)
Class BufStream (T : Type) := {
  write_buf : T → bytes → poll nat io_error * T;
  read_buf : T → bytes → poll bytes io_error * T
}.

(** Flushing and closing a stream. *)
Class Closing (T : Type) := {
  flush : T → outcome io_error T;
  shutdown : T → poll unit io_error * T
}.

(** [AsyncRead::prepare_uninitialized_buffer]: whether the buffer was
    initialized, and what it holds then; and what the trait does by default. *)
Class Prepare (T : Type) := prepare_uninitialized_buffer : T → bytes → bool * bytes.
Class DefaultPrepare := default_prepare : bytes → bool * bytes.

(** A read gives no more bytes than the buffer has room for, and it ends. *)
Class ReadContract (T : Type) `{Conn T} := {
  io_read_bound t n bs t' : io_read t n = Ok (bs, t') → length bs ≤ n;
  io_read_ends t n : io_read t n ≠ Spin;
  poll_read_bound t n bs t' : poll_read t n = (Ready bs, t') → length bs ≤ n
}.

(** [delivers t d]: the peer of [t] sends the bytes [d] and closes, and no
    read on the way fails.  Reads may split [d] in any way; a read gives no
    bytes only at the end.  [patience] bounds the polls that are not ready
    before one that is. *)
Class Delivers (T : Type) `{Conn T} := {
  delivers : T → bytes → Prop;
  patience : T → nat;
  delivers_read t d n :
    delivers t d → 0 < n →
    ∃ bs d' t', io_read t n = Ok (bs, t') ∧ d = bs ++ d' ∧ delivers t' d' ∧
      length bs ≤ n ∧ (bs = [] → d = []);
  delivers_read_0 t d : delivers t d → ∃ t', io_read t 0 = Ok ([], t');
  delivers_poll t d n :
    delivers t d → 0 < n →
    match poll_read t n with
    | (NotReady, t') => delivers t' d ∧ patience t' < patience t
    | (Ready bs, t') => ∃ d', d = bs ++ d' ∧ delivers t' d' ∧
        length bs ≤ n ∧ (bs = [] → d = [])
    | (Failed _, _) => False
    end
}.

(** ** A connection that follows a script

    The peer's bytes come in pieces ([Piece]), possibly after polls that are
    not ready ([Wait]), and a read may fail ([Fault]); [sent] collects what is written to it. *)
Module Script.

Inductive event :=
| Piece (c : byte) (l : bytes)
| Wait
| Fault (e : io_error).

Record script := Script { events : list event; sent : bytes }.

(** Reading at most [n] bytes of the next piece. *)
Fixpoint script_read (n : nat) (evs : list event) : outcome io_error (bytes * list event) :=
  match evs with
  | [] => Ok ([], [])
  | Wait :: evs => script_read n evs
  | Fault e :: _ => Err e
  | Piece c l :: evs =>
      let got := take n (c :: l) in
      match drop n (c :: l) with
      | [] => Ok (got, evs)
      | c' :: l' => Ok (got, Piece c' l' :: evs)
      end
  end.

#[export] Instance script_conn : Conn script := {|
  io_read s n := '(bs, evs) ← script_read n (events s);
                 Ok (bs, {| events := evs; sent := sent s |});
  io_write_all s bs := Ok {| events := events s; sent := sent s ++ bs |};
  poll_read s n :=
    match events s with
    | Wait :: evs => (NotReady, {| events := evs; sent := sent s |})
    | _ => match script_read n (events s) with
           | Ok (bs, evs) => (Ready bs, {| events := evs; sent := sent s |})
           | Err e => (Failed e, s)
           | _ => (NotReady, s)
           end
    end
|}.

(** What a script delivers, if nothing in it breaks. *)
Fixpoint script_data (evs : list event) : option bytes :=
  match evs with
  | [] => Some []
  | Wait :: evs => script_data evs
  | Fault _ :: _ => None
  | Piece c l :: evs => app (c :: l) <$> script_data evs
  end.

Fixpoint waits (evs : list event) : nat :=
  match evs with
  | Wait :: evs => S (waits evs)
  | _ => 0
  end.

Lemma script_read_data n evs d :
  script_data evs = Some d → 0 < n →
  ∃ bs d' evs', script_read n evs = Ok (bs, evs') ∧ d = bs ++ d' ∧
    script_data evs' = Some d' ∧ length bs ≤ n ∧ (bs = [] → d = []).
Proof.
  revert d. induction evs as [|[c l| |e] evs IH]; intros d; cbn [script_data script_read].
  - intros [= <-] Hn. exists [], [], []. cbn. split_and!; done || lia.
  - intros (d0 & Hd0 & ->)%fmap_Some Hn.
    assert (take n (c :: l) ≠ []) as Hne by by destruct n; [lia|].
    destruct (drop n (c :: l)) as [|c' l'] eqn:Ed.
    + exists (take n (c :: l)), d0, evs. split_and!; try done.
      * rewrite <-(take_drop n (c :: l)) at 1. by rewrite Ed, app_nil_r.
      * rewrite length_take. lia.
    + exists (take n (c :: l)), ((c' :: l') ++ d0), (Piece c' l' :: evs).
      split_and!; try done.
      * by rewrite <-(take_drop n (c :: l)), Ed, <-app_assoc at 1.
      * cbn [script_data]. by rewrite Hd0.
      * rewrite length_take. lia.
  - apply IH.
  - done.
Qed.

#[export] Instance script_contract : ReadContract script.
Proof.
  assert (∀ n evs bs evs', script_read n evs = Ok (bs, evs') → length bs ≤ n) as Hb.
  { intros n evs. induction evs as [|[c l| |e] evs IH]; intros bs evs'; cbn.
    - intros [= <- <-]. cbn. lia.
    - destruct (drop n (c :: l)); intros [= <- <-]; rewrite length_take; lia.
    - apply IH.
    - done. }
  assert (∀ n evs, script_read n evs ≠ Spin) as Hs.
  { intros n evs. induction evs as [|[c l| |e] evs IH]; cbn; try done.
    by destruct (drop n (c :: l)). }
  split.
  - intros t n bs t' Hr. cbn in Hr. outcome_inv. destruct x as [bs' evs]. outcome_inv. eauto.
  - intros t n. cbn. apply bind_not_spin; [apply Hs|]. by intros [] _.
  - intros [[|[c l| |e] evs] snt] n bs t'; cbn [poll_read script_conn events].
    + cbn. intros [= <- <-]. cbn. lia.
    + destruct (script_read n _) as [[bs' evs']| | |] eqn:E; intros [= <- <-]. eauto.
    + done.
    + done.
Qed.

#[export] Instance script_delivers : Delivers script.
Proof.
  refine {| delivers s d := script_data (events s) = Some d;
            patience s := waits (events s) |}.
  - intros [evs snt] d n Hd Hn.
    destruct (script_read_data n evs d Hd Hn) as (bs & d' & evs' & Hr & ? & ? & ? & ?).
    exists bs, d', {| events := evs'; sent := snt |}. split_and!; try done.
    cbn. by rewrite Hr.
  - intros [evs snt] d Hd. cbn in Hd. cbn [io_read script_conn events].
    assert (∃ evs', script_read 0 evs = Ok ([], evs')) as [evs' ->]; [|by eexists].
    revert d Hd. induction evs as [|[c l| |e] evs IH]; intros d Hd; cbn in *; eauto; done.
  - intros [evs snt] d n Hd Hn. cbn in Hd.
    destruct (script_read_data n evs d Hd Hn) as (bs & d' & evs' & Hr & ? & ? & ? & ?).
    destruct evs as [|[c l| |e] evs]; cbn [poll_read script_conn events].
    1, 2: rewrite Hr; by exists d'.
    + cbn. split; [done|lia].
    + done.
Defined.
End Script.
