(* ===== verification/Uri.v ===== *)
(** * URIs: the interface of the [http] crate

    [http::Uri] and its parts are third-party code: the model takes them as
    the class [UriLib], whose operations are the methods the source calls and
    whose laws are what their documentation states.  [Simple] is an instance
    the laws hold of. *)
From S2P Require Import Prelude RustStd.

(** [uri::Parts]. *)
Record Parts (Scheme Authority Path : Type) := MkParts {
  scheme : option Scheme;
  authority : option Authority;
  path_and_query : option Path
}.
Arguments MkParts {_ _ _} scheme authority path_and_query.
Arguments scheme {_ _ _} p.
Arguments authority {_ _ _} p.
Arguments path_and_query {_ _ _} p.

Class UriLib := {
  Scheme : Type;
  Authority : Type;
  Path : Type;
  Uri : Type;
  (* [Scheme] *)
  scheme_as_str : Scheme → bytes;
  scheme_parse : bytes → option Scheme;
  (* [Authority]: [parse] and [from_shared] take the same text *)
  authority_parse : bytes → option Authority;
  authority_host : Authority → bytes;
  authority_port_u16 : Authority → option N;
  (* [PathAndQuery] *)
  path_as_str : Path → bytes;
  (* [Uri] *)
  uri_default : Uri;
  uri_into_parts : Uri → Parts Scheme Authority Path;
  uri_from_parts : Parts Scheme Authority Path → option Uri
}.

Section uri.
Context `{UL : UriLib}.

(** The accessors of a URI read its parts. *)
Definition scheme_part (u : Uri) : option Scheme := scheme (uri_into_parts u).
Definition uri_host (u : Uri) : option bytes :=
  authority_host <$> authority (uri_into_parts u).
Definition uri_port_u16 (u : Uri) : option N :=
  authority (uri_into_parts u) ≫= authority_port_u16.
Definition uri_path_and_query (u : Uri) : option bytes :=
  path_as_str <$> path_and_query (uri_into_parts u).
End uri.

Definition HTTP : bytes := b"http".
Definition HTTPS : bytes := b"https".

(** A registered name or an IPv4 address: the hosts that are not an IPv6
    literal. *)
Definition reg_host (h : bytes) : Prop := h ≠ [] ∧ (COLON ∉ h) ∧ (Byte.x5b ∉ h).

#[export] Instance reg_host_dec h : Decision (reg_host h).
Proof. unfold reg_host. apply _. Defined.

(** What the source relies on.  The host of a URI that is not an IPv6 literal,
    with or without a port, is an authority with that host and that port, and
    putting an authority into an absolute URI's parts gives a URI again. *)
Class UriLaws `{UL : UriLib} := {
  into_from_parts p u : uri_from_parts p = Some u → uri_into_parts u = p;
  authority_with_port a n :
    (n < 65536)%N → reg_host (authority_host a) →
    ∃ a', authority_parse (authority_host a ++ b":" ++ dec n) = Some a' ∧
          authority_host a' = authority_host a ∧ authority_port_u16 a' = Some n;
  authority_without_port a :
    reg_host (authority_host a) →
    ∃ a', authority_parse (authority_host a) = Some a' ∧
          authority_host a' = authority_host a ∧ authority_port_u16 a' = None;
  from_parts_authority u a a' :
    authority (uri_into_parts u) = Some a →
    is_Some (uri_from_parts (MkParts (scheme (uri_into_parts u)) (Some a')
                                     (path_and_query (uri_into_parts u))));
  authority_parse_port h n a :
    (n < 65536)%N → reg_host h → (Byte.x40 ∉ h) → authority_parse (h ++ b":" ++ dec n) = Some a →
    authority_host a = h ∧ authority_port_u16 a = Some n;
  authority_parse_host h a :
    reg_host h → (Byte.x40 ∉ h) → authority_parse h = Some a → authority_port_u16 a = None →
    authority_host a = h;
  scheme_parse_as_str s t : scheme_parse t = Some s → scheme_as_str s = t;
  scheme_parse_http : is_Some (scheme_parse HTTP);
  scheme_parse_https : is_Some (scheme_parse HTTPS);
  (* a port is a 16-bit number *)
  port_bound a n : authority_port_u16 a = Some n → (n < 65536)%N
}.

(** ** A simple instance

    Schemes and paths are texts; an authority is a host without a colon and
    maybe a port; a URI is its parts, which are those of an absolute URI or
    have neither scheme nor authority. *)
Module Simple.

Record auth := MkAuth {
  host : bytes;
  port : option N;
  auth_ok : bool_decide (COLON ∉ host) && match port with Some n => (n <? 65536)%N | None => true end = true
}.

Definition mk_auth (h : bytes) (p : option N) : option auth :=
  match bool_dec (bool_decide (COLON ∉ h) &&
                  match p with Some n => (n <? 65536)%N | None => true end) true with
  | left E => Some (MkAuth h p E)
  | right _ => None
  end.

(** [host] or [host:port]. *)
Definition parse_auth (l : bytes) : option auth :=
  match split_by (is_byte COLON) l with
  | [h] => mk_auth h None
  | [h; p] => n ← parse_usize p; mk_auth h (Some n)
  | _ => None
  end.

Definition parts_ok (p : Parts bytes auth bytes) : bool :=
  match scheme p, authority p with
  | Some _, Some _ => true
  | None, None => true
  | _, _ => false
  end.

#[local] Instance lib : UriLib := {|
  Scheme := bytes;
  Authority := auth;
  Path := bytes;
  Uri := { p : Parts bytes auth bytes | parts_ok p = true };
  scheme_as_str s := s;
  scheme_parse t := if decide (COLON ∈ t) then None else Some t;
  authority_parse := parse_auth;
  authority_host := host;
  authority_port_u16 := port;
  path_as_str p := p;
  uri_default := exist _ (MkParts None None (Some (b"/"))) eq_refl;
  uri_into_parts := proj1_sig;
  uri_from_parts p :=
    match bool_dec (parts_ok p) true with
    | left E => Some (exist _ p E)
    | right _ => None
    end
|}.

Lemma mk_auth_ok h p :
  COLON ∉ h → match p with Some n => (n < 65536)%N | None => True end →
  ∃ a, mk_auth h p = Some a ∧ host a = h ∧ port a = p.
Proof.
  intros Hh Hp. unfold mk_auth.
  destruct (bool_dec _ true) as [E|E]; [by eexists|]. exfalso. apply E.
  rewrite bool_decide_true by done. destruct p; [|done]. by apply N.ltb_lt.
Qed.

Lemma mk_auth_inv h p a : mk_auth h p = Some a → host a = h ∧ port a = p.
Proof. unfold mk_auth. destruct (bool_dec _ true); [|done]. by intros [= <-]. Qed.

Lemma split_at_colon h r :
  COLON ∈ h → ∃ x y z t, split_by (is_byte COLON) (h ++ COLON :: r) = x :: y :: z :: t.
Proof.
  intros (h1 & h2 & -> & Hn)%list_elem_of_split_l.
  rewrite <-app_assoc. cbn [app]. rewrite split_byte_app by done.
  destruct (split_by_cons (is_byte COLON) h2) as (x & t & Hx).
  assert (∃ y z u, split_by (is_byte COLON) (h2 ++ COLON :: r) = y :: z :: u) as (y & z & u & ->); [|eauto].
  clear. induction h2 as [|c h2 (y & z & u & IH)]; cbn.
  - unfold is_byte at 1. rewrite bool_decide_true by done.
    destruct (split_by_cons (is_byte COLON) r) as (x & t & ->). eauto.
  - rewrite IH. destruct (is_byte COLON c); eauto.
Qed.

Lemma host_no_colon a : COLON ∉ host a.
Proof. destruct a as [h p E]. cbn. by apply andb_prop in E as [E%bool_decide_eq_true _]. Qed.

Lemma laws : UriLaws.
Proof.
  split.
  - intros p u. cbn. destruct (bool_dec _ true); [|done]. by intros [= <-].
  - intros a n Hn _.
    change (∃ a', parse_auth (host a ++ COLON :: dec n) = Some a' ∧
                  host a' = host a ∧ port a' = Some n).
    unfold parse_auth.
    rewrite split_byte_app by apply host_no_colon.
    rewrite split_byte_nosep by by apply not_in_dec.
    rewrite parse_dec by (unfold usize_width; lia). cbn [mbind option_bind].
    apply mk_auth_ok; [apply host_no_colon|done].
  - intros a _. cbn. unfold parse_auth. rewrite split_byte_nosep by apply host_no_colon.
    apply mk_auth_ok; [apply host_no_colon|done].
  - intros [p Hp] a a' Ha. cbn in *. destruct (bool_dec _ true) as [E|E]; [by eexists|].
    exfalso. apply E. unfold parts_ok in *. cbn. rewrite Ha in Hp.
    by destruct (scheme p).
  - intros h n a Hn _ _.
    change (parse_auth (h ++ COLON :: dec n) = Some a → host a = h ∧ port a = Some n).
    unfold parse_auth. destruct (decide (COLON ∈ h)) as [Hc|Hc].
    + destruct (split_at_colon h (dec n) Hc) as (x & y & z & r & ->). done.
    + rewrite split_byte_app, split_byte_nosep by (done || by apply not_in_dec).
      rewrite parse_dec by (unfold usize_width; lia). cbn [mbind option_bind].
      by apply mk_auth_inv.
  - intros h a _ _. change (parse_auth h = Some a → port a = None → host a = h).
    unfold parse_auth. destruct (split_by (is_byte COLON) h) as [|x [|y [|z r]]] eqn:E; try done.
    + apply split_byte_inv in E as [_ [[_ ->]|(r & _ & Hr)]].
      * by intros [-> _]%mk_auth_inv _.
      * destruct (split_by_cons (is_byte COLON) r) as (? & ? & Hc). congruence.
    + intros (n & _ & [_ ->]%mk_auth_inv)%bind_Some. done.
  - intros s t. cbn. case_decide; [done|]. by intros [= ->].
  - eexists. reflexivity.
  - eexists. reflexivity.
  - intros [h p E] n. cbn. intros ->. apply andb_prop in E as [_ E]. by apply N.ltb_lt.
Qed.

(** A URI from its parts, for concrete runs. *)
Definition uri (s h : bytes) (p : option N) (path : bytes) : option (Uri (UriLib:=lib)) :=
  a ← mk_auth h p; uri_from_parts (UriLib:=lib) (MkParts (Some s) (Some a) (Some path)).
End Simple.
