(* ===== verification/Response.v ===== *)
(** * Responses: [src/src/response.rs]

    [HeaderMap], a map from names to the values the response gave for them in
    order, and [Response].  [http::StatusCode] is third-party code, the class
    [StatusLib]. *)
From S2P Require Import Prelude RustStd.

Class StatusLib := {
  StatusCode : Type;
  from_u16 : N → option StatusCode;
  code_as_u16 : StatusCode → N;
  (* "Error: if the code is not a valid HTTP status code (100..599)". *)
  from_u16_valid n : (100 ≤ n ≤ 599)%N → is_Some (from_u16 n);
  from_u16_value n s : from_u16 n = Some s → code_as_u16 s = n
}.

(** An instance: the numbers themselves. *)
Definition numeric_status : StatusLib.
Proof.
  refine {| StatusCode := N;
            from_u16 n := if decide (100 ≤ n ≤ 599)%N then Some n else None;
            code_as_u16 n := n |}.
  - intros n Hn. rewrite decide_True by done. eauto.
  - intros n s. case_decide; congruence.
Defined.

Record HeaderMap := MkHeaderMap { hm_map : gmap bytes (list bytes) }.

(** One turn of the loop of [HeaderMap::new]. *)
Definition header_insert (m : gmap bytes (list bytes)) (kv : bytes * bytes)
    : gmap bytes (list bytes) :=
  let '(k, v) := kv in
  match m !! k with
  | Some vec => <[k := vec ++ [v]]> m
  | None => <[k := [v]]> m
  end.

Definition HeaderMap_new (vec : list (bytes * bytes)) : HeaderMap :=
  {| hm_map := foldl header_insert ∅ vec |}.

Definition HeaderMap_get (self : HeaderMap) (name : bytes) : option bytes :=
  val ← hm_map self !! name; val !! 0.

Record Response (S B : Type) := MkResponse {
  status_code : S;
  headers : HeaderMap;
  body : B
}.
Arguments MkResponse {S B} status_code headers body.
Arguments status_code {S B} r.
Arguments headers {S B} r.
Arguments body {S B} r.

Definition Response_new `{StatusLib} {E B} (code : N) (hs : list (bytes * bytes)) (bd : B)
    : outcome E (Response StatusCode B) :=
  s ← unwrap (from_u16 code);
  Ok {| status_code := s; headers := HeaderMap_new hs; body := bd |}.

(** The accessors, [into_body] among them. *)
Definition Response_headers {S B} (r : Response S B) : HeaderMap := headers r.
Definition Response_status {S B} (r : Response S B) : S := status_code r.
Definition Response_into_body {S B} (r : Response S B) : B := body r.

(** ** What the map holds *)

(** The values a list of pairs gives for a name, in order. *)
Definition values_of (k : bytes) (l : list (bytes * bytes)) : list bytes :=
  snd <$> filter (λ kv, kv.1 = k) l.

Lemma values_of_cons k kv l :
  values_of k (kv :: l) = (if decide (kv.1 = k) then [kv.2] else []) ++ values_of k l.
Proof. unfold values_of. rewrite filter_cons. by case_decide. Qed.

Lemma values_of_app k l r : values_of k (l ++ r) = values_of k l ++ values_of k r.
Proof. unfold values_of. by rewrite filter_app, fmap_app. Qed.

(** The map of a list [l]: each name that occurs has its values in order. *)
Definition represents (m : gmap bytes (list bytes)) (l : list (bytes * bytes)) : Prop :=
  ∀ k, m !! k = match values_of k l with [] => None | vs => Some vs end.

Lemma represents_insert m l kv : represents m l → represents (header_insert m kv) (l ++ [kv]).
Proof.
  intros Hm k. destruct kv as [k' v]. rewrite values_of_app, values_of_cons. cbn [fst snd].
  unfold header_insert. pose proof (Hm k') as Hk'. pose proof (Hm k) as Hk.
  case_decide as Hd; subst.
  - destruct (values_of k l) eqn:E; rewrite Hk'; rewrite lookup_insert_eq; done.
  - rewrite app_nil_r. destruct (m !! k'); by rewrite lookup_insert_ne.
Qed.

Lemma HeaderMap_new_represents l : represents (hm_map (HeaderMap_new l)) l.
Proof.
  unfold HeaderMap_new. cbn [hm_map].
  assert (∀ l' m l0, represents m l0 → represents (foldl header_insert m l') (l0 ++ l')) as Hf.
  { intros l'. induction l' as [|kv l' IH]; intros m l0 Hm; cbn; [by rewrite app_nil_r|].
    rewrite cons_middle, app_assoc. apply IH. by apply represents_insert. }
  apply (Hf l ∅ []). intros k. by rewrite lookup_empty.
Qed.

(** The map built from a list of pairs holds, for each name, all its
    values in the order of the list, and [get] gives the first of them. *)
Theorem HeaderMap_get_new l name :
  HeaderMap_get (HeaderMap_new l) name = head (values_of name l) ∧
  hm_map (HeaderMap_new l) !! name =
    match values_of name l with [] => None | vs => Some vs end.
Proof.
  pose proof (HeaderMap_new_represents l name) as Hl. split; [|done].
  unfold HeaderMap_get. rewrite Hl. by destruct (values_of name l).
Qed.
