(* ===== verification/Request.v ===== *)
(** * Requests: [src/src/request.rs]

    [Request], [Request::new] and the builder.  [http::Method] and
    [http::Version] are third-party: the class [HttpLib] has the values the
    source names and [Method::as_str]. *)
From S2P Require Import Prelude RustStd Io Uri.

Class HttpLib := {
  Method : Type;
  Version : Type;
  method_default : Method;
  version_default : Version;
  HTTP_10 : Version;
  method_as_str : Method → bytes
}.

(** An instance: names. *)
Definition named_http : HttpLib := {|
  Method := bytes; Version := bytes;
  method_default := b"GET"; version_default := b"HTTP/1.1"; HTTP_10 := b"HTTP/1.0";
  method_as_str m := m
|}.

Section request.
Context `{HL : HttpLib, UL : UriLib} {B : Type}.

Record Request := MkRequest {
  rq_method : Method;
  rq_version : Version;
  rq_uri : Uri;
  rq_headers : list (bytes * bytes);
  rq_body : option B
}.

Definition Request_new (method : Method) (uri : Uri) : Request := {|
  rq_method := method;
  rq_uri := uri;
  rq_version := HTTP_10;
  rq_headers := [(b"User-Agent", b"Simple http request")];
  rq_body := None
|}.

Record RequestBuilder := MkBuilder {
  rb_method : Method;
  rb_version : Version;
  rb_uri : Uri;
  rb_headers : list (bytes * bytes)
}.

Definition builder_default : RequestBuilder := {|
  rb_method := method_default;
  rb_version := version_default;
  rb_uri := uri_default;
  rb_headers := []
|}.

(** [Request::builder]. *)
Definition Request_builder : RequestBuilder := builder_default.

Definition builder_done (self : RequestBuilder) : outcome io_error Request := Ok {|
  rq_method := rb_method self;
  rq_version := rb_version self;
  rq_uri := rb_uri self;
  rq_headers := rb_headers self;
  rq_body := None
|}.

Definition builder_version (self : RequestBuilder) (version : Version) : RequestBuilder := {|
  rb_method := rb_method self;
  rb_version := version;
  rb_uri := rb_uri self;
  rb_headers := rb_headers self
|}.

Definition builder_uri (self : RequestBuilder) (uri : Uri) : RequestBuilder := {|
  rb_method := rb_method self;
  rb_version := rb_version self;
  rb_uri := uri;
  rb_headers := rb_headers self
|}.

Definition builder_header (self : RequestBuilder) (name value : bytes) : RequestBuilder := {|
  rb_method := rb_method self;
  rb_version := rb_version self;
  rb_uri := rb_uri self;
  rb_headers := rb_headers self ++ [(name, value)]
|}.

Definition builder_body (self : RequestBuilder) (bd : B) : outcome io_error Request := Ok {|
  rq_method := rb_method self;
  rq_version := rb_version self;
  rq_uri := rb_uri self;
  rq_headers := rb_headers self;
  rq_body := Some bd
|}.

(** A call of the builder's methods that return the builder. *)
Inductive builder_call :=
| CVersion (v : Version)
| CUri (u : Uri)
| CHeader (name value : bytes).

Definition builder_apply (r : RequestBuilder) (c : builder_call) : RequestBuilder :=
  match c with
  | CVersion v => builder_version r v
  | CUri u => builder_uri r u
  | CHeader n v => builder_header r n v
  end.

Definition call_header (c : builder_call) : option (bytes * bytes) :=
  match c with CHeader n v => Some (n, v) | _ => None end.
Definition call_uri (c : builder_call) : option Uri :=
  match c with CUri u => Some u | _ => None end.
Definition call_version (c : builder_call) : option Version :=
  match c with CVersion v => Some v | _ => None end.

Lemma builder_calls cs r :
  foldl builder_apply r cs = {|
    rb_method := rb_method r;
    rb_version := default (rb_version r) (last (omap call_version cs));
    rb_uri := default (rb_uri r) (last (omap call_uri cs));
    rb_headers := rb_headers r ++ omap call_header cs
  |}.
Proof.
  revert r. induction cs as [|c cs IH]; intros r; cbn [foldl].
  - destruct r. cbn. by rewrite app_nil_r.
  - rewrite IH. destruct c; cbn; rewrite <-?app_assoc; cbn; f_equal.
    + rewrite last_cons. by destruct (last (omap call_version cs)).
    + rewrite last_cons. by destruct (last (omap call_uri cs)).
Qed.

(** A request made by a chain of builder calls has the default method
    (the builder cannot set another), the last version and the last URI that
    were set, all the headers in the order of the calls, and the body of the
    final call. *)
Theorem builder_request cs bd :
  let r := foldl builder_apply Request_builder cs in
  let req body := Ok {|
    rq_method := method_default;
    rq_version := default version_default (last (omap call_version cs));
    rq_uri := default uri_default (last (omap call_uri cs));
    rq_headers := omap call_header cs;
    rq_body := body |} in
  builder_done r = req None ∧ builder_body r bd = req (Some bd).
Proof. cbn zeta. rewrite builder_calls. done. Qed.
End request.

Arguments Request {_ _} B.
