(* ===== verification/Body.v ===== *)
(** * Response bodies: [src/src/body.rs]

    [Body] is a stream of chunks: the bytes left over from reading the head,
    then what the reader gives, cut at the declared content length. *)
From S2P Require Import Prelude RustStd Io.

(** [Box<dyn AsyncRead>]: the connection, or the empty slice of
    [Body::empty]. *)
Inductive Reader (T : Type) :=
| FromSlice (l : bytes)
| FromConn (t : T).
Arguments FromSlice {T} l.
Arguments FromConn {T} t.

Record Body (T : Type) := MkBody {
  drained : bool;
  rest : option bytes;
  buf : bytes;
  counter : usize;
  content_length : option usize;
  reader : Reader T
}.
Arguments MkBody {T} drained rest buf counter content_length reader.
Arguments drained {T} b.
Arguments rest {T} b.
Arguments buf {T} b.
Arguments counter {T} b.
Arguments content_length {T} b.
Arguments reader {T} b.

(** The length of the buffers of the source. *)
Definition BUF_LEN : nat := 4096.

Section body.
Context `{Build} {T : Type} `{Conn T}.

Definition Body_empty : Body T := {|
  drained := true;
  rest := None;
  buf := [];
  counter := 0;
  content_length := None;
  reader := FromSlice []
|}.

(** [set_len] on a fresh vector: the buffer has [BUF_LEN] bytes of any value,
    the argument [uninit]. *)
Definition Body_new (uninit : bytes) (t : T) (rest : option bytes)
    (content_length : option usize) : Body T := {|
  drained := false;
  rest := rest;
  buf := take BUF_LEN (uninit ++ replicate BUF_LEN Byte.x00);
  counter := 0;
  content_length := content_length;
  reader := FromConn t
|}.

(** [poll_read] of the boxed reader on a buffer of [n] bytes. *)
Definition reader_poll_read (r : Reader T) (n : nat) : poll bytes io_error * Reader T :=
  match r with
  | FromSlice l => (Ready (take n l), FromSlice (drop n l))
  | FromConn t => let '(p, t') := poll_read t n in (p, FromConn t')
  end.

(** The bytes a read puts at the start of the buffer. *)
Definition overwrite (bs l : bytes) : bytes := bs ++ drop (length bs) l.

(** The length of the chunk: what was read, less what is over the limit. *)
Definition chunk_len {E} (limit : option usize) (counter n : usize) : outcome E usize :=
  match limit with
  | Some max =>
      if (max <? counter)%N then
        over ← usize_sub counter max;
        usize_sub n over
      else Ok n
  | None => Ok n
  end.

Definition poll_next (this : Body T) :
    outcome Empty_set (poll (option (bytes + io_error)) Empty_set * Body T) :=
  if drained this then Ok (Ready None, this)
  else match rest this with
  | Some vec =>
      Ok (Ready (Some (inl vec)),
          MkBody (drained this) None (buf this) (counter this) (content_length this) (reader this))
  | None =>
      let '(p, reader') := reader_poll_read (reader this) (length (buf this)) in
      match p with
      | NotReady =>
          Ok (NotReady, MkBody (drained this) None (buf this) (counter this)
                               (content_length this) reader')
      | Ready bs =>
          let buf' := overwrite bs (buf this) in
          counter' ← usize_add (counter this) (len bs);
          n ← chunk_len (content_length this) counter' (len bs);
          let this' := MkBody (drained this) None buf' counter' (content_length this) reader' in
          if (0 <? n)%N then
            chunk ← slice_range buf' 0 n;
            Ok (Ready (Some (inl chunk)), this')
          else Ok (Ready None, this')
      | Failed err =>
          Ok (Ready (Some (inr err)),
              MkBody true None (buf this) (counter this) (content_length this) reader')
      end
  end.

(** The consumer of [examples/simple.rs]: it extends [b] with every chunk and
    unwraps it, until the stream ends. *)
Definition collect_body_step (s : bytes * Body T) :
    outcome Empty_set (step (bytes * Body T) bytes) :=
  let '(b, bd) := s in
  '(p, bd') ← poll_next bd;
  match p with
  | NotReady => Ok (Continue (b, bd'))
  | Ready None => Ok (Break b)
  | Ready (Some (inl chunk)) => Ok (Continue (b ++ chunk, bd'))
  | Ready (Some (inr _)) => Panic UnwrapNone
  | Failed e => match (e : Empty_set) with end
  end.

Definition collect_body (fuel : nat) (bd : Body T) : outcome Empty_set bytes :=
  loop fuel collect_body_step ([], bd).
End body.

(** ** One poll *)

Lemma length_overwrite bs l : length bs ≤ length l → length (overwrite bs l) = length l.
Proof. intros Hle. unfold overwrite. rewrite length_app, length_drop. lia. Qed.

Lemma take_overwrite m bs l : m ≤ length bs → take m (overwrite bs l) = take m bs.
Proof. intros Hm. unfold overwrite. by rewrite take_app_le. Qed.

(** What the limit leaves of [l] when [k] bytes have been counted. *)
Definition within (limit : option usize) (k : usize) (l : bytes) : bytes :=
  match limit with
  | Some max => take (N.to_nat (max - k)) l
  | None => l
  end.

(** [k] bytes are not over the limit. *)
Definition not_over (limit : option usize) (k : usize) : Prop :=
  match limit with Some max => (k ≤ max)%N | None => True end.

#[export] Instance not_over_dec limit k : Decision (not_over limit k).
Proof. destruct limit; cbn; apply _. Defined.

(** No counter of a body gets anywhere near this. *)
Definition COUNTER_BOUND : N := usize_width - 4096.

(** The fields of the state a poll is given. *)
Ltac body_cbn :=
  cbn [drained rest buf counter content_length reader reader_poll_read].

Section one_poll.
Context `{Build} {T : Type} `{Conn T}.
Implicit Types (t : T) (bs bf : bytes) (k max : usize) (limit : option usize).

Lemma chunk_len_ok {E} limit k bs :
  not_over limit k → chunk_len (E:=E) limit (k + len bs) (len bs) = Ok (len (within limit k bs)).
Proof.
  destruct limit as [max|]; cbn; [|done]. intros Hk.
  destruct (N.ltb_spec max (k + len bs)).
  - rewrite usize_sub_Ok by lia. rewrite bind_Ok, usize_sub_Ok by lia.
    f_equal. unfold len in *. rewrite length_take. lia.
  - rewrite take_ge; [done|len_lia].
Qed.

Lemma chunk_len_over {E} max k n :
  (max < k)%N → (k + n < COUNTER_BOUND)%N →
  (chunk_len (E:=E) (Some max) (k + n) n = Panic SubOverflow ∧ overflow_checks = true) ∨
  ∃ m, chunk_len (E:=E) (Some max) (k + n) n = Ok m ∧ (4096 < m)%N ∧ overflow_checks = false.
Proof.
  unfold COUNTER_BOUND, usize_width. intros Hk Hb. cbn [chunk_len].
  rewrite (proj2 (N.ltb_lt _ _)) by lia.
  rewrite usize_sub_Ok by lia. rewrite bind_Ok. unfold usize_sub.
  rewrite (proj2 (N.leb_gt _ _)) by lia. unfold usize_width.
  destruct overflow_checks; [by left|right]. eexists. split_and!; [done|lia|done].
Qed.

Lemma poll_next_ready limit bf k t bs t' :
  poll_read t (length bf) = (Ready bs, t') → length bs ≤ length bf →
  not_over limit k → (k + len bs < usize_width)%N →
  poll_next (MkBody false None bf k limit (FromConn t)) =
    let this' := MkBody false None (overwrite bs bf) (k + len bs) limit (FromConn t') in
    Ok (Ready (match within limit k bs with [] => None | c => Some (inl c) end), this').
Proof.
  intros Hr Hl Hk Hb. unfold poll_next. body_cbn. rewrite Hr.
  rewrite usize_add_Ok by done. rewrite bind_Ok, chunk_len_ok by done. rewrite bind_Ok.
  assert (within limit k bs = take (length (within limit k bs)) bs) as Hw.
  { destruct limit as [max|]; cbn; [|by rewrite firstn_all].
    rewrite length_take. destruct (Nat.min_spec (N.to_nat (max - k)) (length bs)) as [[? ->]|[? ->]];
      [done|]. by rewrite !take_ge by lia. }
  assert (length (within limit k bs) ≤ length bs) as Hwl.
  { destruct limit; cbn; [rewrite length_take|]; lia. }
  destruct (within limit k bs) as [|c w] eqn:Ew; [done|].
  rewrite (proj2 (N.ltb_lt _ _)) by len_lia.
  rewrite slice_range_Ok by (unfold len; rewrite ?length_overwrite by done; cbn [length] in *; lia).
  rewrite bind_Ok, drop_0, Nat.sub_0_r. unfold len. rewrite Nat2N.id.
  rewrite take_overwrite by done. by rewrite <-Hw.
Qed.

(** A body whose reader has given more than the declared length panics at
    the next poll that is ready, at the end of the stream as well. *)
Lemma poll_next_over max bf k t bs t' :
  poll_read t (length bf) = (Ready bs, t') → length bs ≤ length bf →
  length bf = BUF_LEN → (max < k)%N → (k + len bs < COUNTER_BOUND)%N →
  poll_next (MkBody false None bf k (Some max) (FromConn t)) =
    Panic (if overflow_checks then SubOverflow else SliceOob).
Proof.
  intros Hr Hl Hbf Hk Hb. unfold poll_next. body_cbn. rewrite Hr.
  rewrite usize_add_Ok by (unfold COUNTER_BOUND, usize_width in *; lia). rewrite bind_Ok.
  destruct (chunk_len_over (E:=Empty_set) max k (len bs) Hk Hb) as [[-> ->]|(m & -> & Hm & ->)];
    [done|]. rewrite bind_Ok.
  rewrite (proj2 (N.ltb_lt _ _)) by lia.
  rewrite slice_range_oob; [done|].
  unfold len. rewrite length_overwrite by done. unfold BUF_LEN in Hbf. lia.
Qed.

Lemma poll_next_wait limit bf k t t' :
  poll_read t (length bf) = (NotReady, t') →
  poll_next (MkBody false None bf k limit (FromConn t)) =
    Ok (NotReady, MkBody false None bf k limit (FromConn t')).
Proof. intros Hr. unfold poll_next. body_cbn. by rewrite Hr. Qed.
End one_poll.

(** ** The whole stream *)

Section stream.
Context `{Build} {T : Type} `{Delivers T}.

(** The state of a consumer: it has [b], the reader still delivers [d]. *)
Inductive streaming (out : bytes) : bytes * Body T → bytes → Prop :=
| streaming_intro b rst bf k limit t d :
    length bf = BUF_LEN →
    delivers t d →
    (k + len d < COUNTER_BOUND)%N →
    (not_over limit k → b ++ default [] rst ++ within limit k d = out) →
    streaming out (b, MkBody false rst bf k limit (FromConn t)) d.

Lemma within_app limit k bs d :
  not_over limit (k + len bs) →
  within limit k (bs ++ d) = within limit k bs ++ within limit (k + len bs) d.
Proof.
  destruct limit as [max|]; cbn; [|done]. intros Hm.
  rewrite take_app, (take_ge bs) by (unfold len in *; lia).
  do 2 f_equal. unfold len in *. lia.
Qed.

Lemma not_over_app limit k n : not_over limit (k + n) → not_over limit k.
Proof. destruct limit; cbn; [lia|done]. Qed.

Lemma collect_step_sound out s d :
  streaming out s d →
  (∀ s', collect_body_step s = Ok (Continue s') → ∃ d', streaming out s' d') ∧
  (∀ r, collect_body_step s = Ok (Break r) → r = out).
Proof.
  intros [b rst bf k limit t d' Hbf Hd Hk Hout]. unfold collect_body_step.
  destruct rst as [vec|].
  { cbn. split; [|done]. intros s' [= <-]. exists d'. constructor; try done.
    intros Hno. rewrite <-Hout by done. cbn. by rewrite <-app_assoc. }
  pose proof (delivers_poll t d' (length bf) Hd ltac:(rewrite Hbf; unfold BUF_LEN; lia)) as Hp.
  destruct (poll_read t (length bf)) as [[|bs|e] t'] eqn:Er; [| |done].
  { destruct Hp as [Hd' _]. rewrite (poll_next_wait _ _ _ _ _ Er), bind_Ok.
    split; [|done]. intros s' [= <-]. exists d'. by constructor. }
  destruct Hp as (d1 & -> & Hd1 & Hbs & Hend).
  rewrite len_app in Hk. unfold COUNTER_BOUND, usize_width in Hk.
  destruct (decide (not_over limit k)) as [Hno|Hover]; cycle 1.
  { destruct limit as [max|]; [|done]. cbn in Hover.
    erewrite poll_next_over by (done || (unfold COUNTER_BOUND, usize_width; lia)). done. }
  rewrite (poll_next_ready _ _ _ _ _ _ Er Hbs Hno) by (unfold usize_width; lia).
  cbn zeta. rewrite bind_Ok. specialize (Hout Hno). cbn in Hout.
  destruct (within limit k bs) as [|c w] eqn:Ew.
  - split; [done|]. intros r [= <-]. rewrite <-Hout.
    enough (within limit k (bs ++ d1) = []) as -> by by rewrite app_nil_r.
    destruct bs as [|x bs]; [rewrite (Hend eq_refl); destruct limit; cbn; by rewrite ?take_nil|].
    destruct limit as [max|]; cbn in Ew; [|done]. cbn.
    by destruct (N.to_nat (max - k)).
  - split; [|done]. intros s' [= <-]. exists d1. constructor.
    + by rewrite length_overwrite.
    + done.
    + unfold COUNTER_BOUND, usize_width; lia.
    + intros Hno'. rewrite <-Hout. cbn. rewrite within_app by done.
      by rewrite Ew, <-app_assoc.
Qed.

Lemma collect_sound out n s d r :
  streaming out s d → loop n collect_body_step s = Ok r → r = out.
Proof.
  intros Hs. apply (loop_Ok collect_body_step (λ s, ∃ d, streaming out s d) (λ r, r = out)).
  - intros s1 s2 [d1 Hs1]. apply (collect_step_sound _ _ _ Hs1).
  - intros s1 r1 [d1 Hs1]. apply (collect_step_sound _ _ _ Hs1).
  - by exists d.
Qed.

(** With the whole of [d] inside the limit the stream comes to its end: every
    poll shortens what is to come or the wait for it. *)
Lemma collect_ends b bf k limit t d :
  length bf = BUF_LEN → delivers t d →
  (k + len d < COUNTER_BOUND)%N → not_over limit (k + len d) →
  ∃ n, loop n collect_body_step (b, MkBody false None bf k limit (FromConn t)) = Ok (b ++ d).
Proof.
  remember (length d) as m eqn:Em. remember (patience t) as w eqn:Ew.
  revert w b bf k t d Em Ew.
  induction m as [m IHm] using lt_wf_ind; intros w.
  induction w as [w IHw] using lt_wf_ind; intros b bf k t d Em Ew Hbf Hd Hk Hno.
  pose proof (delivers_poll t d (length bf) Hd ltac:(rewrite Hbf; unfold BUF_LEN; lia)) as Hp.
  destruct (poll_read t (length bf)) as [[|bs|e] t'] eqn:Er; [| |done].
  - destruct Hp as [Hd' Hw].
    destruct (IHw (patience t') ltac:(lia) b bf k t' d Em eq_refl Hbf Hd' Hk Hno) as [n Hn].
    exists (S n). cbn [loop collect_body_step].
    by rewrite (poll_next_wait _ _ _ _ _ Er), bind_Ok.
  - destruct Hp as (d1 & -> & Hd1 & Hbs & Hend). rewrite len_app in Hk, Hno.
    rewrite N.add_assoc in Hno, Hk. unfold COUNTER_BOUND, usize_width in Hk.
    assert (within limit k bs = bs) as Hw.
    { apply not_over_app in Hno. destruct limit; [|done]. cbn in *.
      rewrite take_ge; [done|len_lia]. }
    assert (not_over limit k) as Hk0 by (by do 2 apply not_over_app in Hno).
    pose proof (poll_next_ready _ _ _ _ _ _ Er Hbs Hk0 ltac:(unfold usize_width; lia)) as Hpn.
    rewrite Hw in Hpn. cbn zeta in Hpn. destruct bs as [|c bs].
    + exists 1. cbn [loop collect_body_step]. rewrite Hpn, bind_Ok.
      by rewrite (Hend eq_refl), app_nil_r.
    + destruct (IHm (length d1) ltac:(rewrite Em, length_app; cbn; lia) _
                  (b ++ c :: bs) (overwrite (c :: bs) bf) (k + len (c :: bs))%N t' d1
                  eq_refl eq_refl) as [n Hn]; try done.
      { by rewrite length_overwrite. }
      exists (S n). cbn [loop collect_body_step]. rewrite Hpn, bind_Ok.
      by rewrite Hn, <-app_assoc.
Qed.

Lemma Body_new_streaming uninit t rst limit d b :
  delivers t d → (len d < COUNTER_BOUND)%N →
  streaming (b ++ default [] rst ++ within limit 0 d) (b, Body_new uninit t rst limit) d.
Proof.
  intros Hd Hk. constructor; try done.
  rewrite length_take, length_app, length_replicate. lia.
Qed.
End stream.

(** C28: whatever the fragmentation of the reads, a body whose stream comes to
    its end has given the bytes left over from the head and then what the
    peer sent, cut at the content length counted from the first byte after
    the leftover; nothing is lost, repeated or reordered. *)
Theorem collect_body_sound `{Build, Delivers T} uninit t rst limit d fuel out :
  delivers t d → (len d < COUNTER_BOUND)%N →
  collect_body fuel (Body_new uninit t rst limit) = Ok out →
  out = default [] rst ++ within limit 0 d.
Proof.
  intros Hd Hb. apply collect_sound with (d := d).
  by apply (Body_new_streaming uninit t rst limit d []).
Qed.

Lemma collect_new_complete `{Build, Delivers T} uninit t rst limit d :
  delivers t d → (len d < COUNTER_BOUND)%N → not_over limit (len d) →
  ∃ fuel, collect_body fuel (Body_new uninit t rst limit) = Ok (default [] rst ++ d).
Proof.
  intros Hd Hb Hno.
  assert (∀ b, ∃ n, loop n collect_body_step (b, Body_new uninit t None limit) = Ok (b ++ d)) as Hn.
  { intros b. apply collect_ends; [|done|done|done].
    rewrite length_take, length_app, length_replicate. lia. }
  destruct rst as [vec|]; [|apply (Hn [])].
  destruct (Hn vec) as [n Hl]. by exists (S n).
Qed.

(** C29: when the peer sends no more than the declared content length, or none
    is declared, the stream comes to its end and gives everything. *)
Theorem collect_body_complete `{Build, Delivers T} uninit t rst limit d :
  delivers t d → (len d < COUNTER_BOUND)%N → not_over limit (len d) →
  ∃ fuel, collect_body fuel (Body_new uninit t rst limit) = Ok (default [] rst ++ d).
Proof. apply collect_new_complete. Qed.

(** C37: a peer that sends more than the declared length in one read that
    crosses it: the chunk is cut at the limit, but the next poll that is
    ready panics, because the bytes over the limit were counted; with
    overflow checks on the subtraction, without them on the slice. *)
Theorem body_overrun_panics `{Build, Conn T} uninit t max bs t' bs' t'' :
  poll_read t BUF_LEN = (Ready bs, t') → length bs ≤ BUF_LEN →
  poll_read t' BUF_LEN = (Ready bs', t'') → length bs' ≤ BUF_LEN →
  (0 < max < len bs)%N →
  ∃ bd', poll_next (Body_new uninit t None (Some max)) =
           Ok (Ready (Some (inl (take (N.to_nat max) bs))), bd') ∧
         poll_next bd' = Panic (if overflow_checks then SubOverflow else SliceOob).
Proof.
  intros Hr Hl Hr' Hl' Hmax. unfold Body_new.
  set (bf := take BUF_LEN _).
  assert (length bf = BUF_LEN) as Hbf.
  { unfold bf. rewrite length_take, length_app, length_replicate. lia. }
  rewrite <-Hbf in Hr, Hl, Hr', Hl'. unfold BUF_LEN in Hbf.
  rewrite (poll_next_ready (Some max) bf 0 t bs t' Hr Hl); cbn [not_over within].
  2: lia. 2: unfold len, usize_width; lia.
  rewrite N.sub_0_r, N.add_0_l.
  destruct (take (N.to_nat max) bs) as [|c w] eqn:Et.
  { apply (f_equal length) in Et. rewrite length_take in Et. unfold len in *. cbn in Et. lia. }
  eexists. split; [done|].
  assert (length (overwrite bs bf) = length bf) as Ho by by apply length_overwrite.
  apply (poll_next_over _ _ _ t' bs' t''); rewrite ?Ho; try done.
  - lia.
  - unfold COUNTER_BOUND, usize_width, len. lia.
Qed.

(** A failed read ends the stream: the error is the last item. *)
Theorem body_error_is_last `{Build, Conn T} bf k limit t e t' :
  poll_read t (length bf) = (Failed e, t') →
  ∃ bd', poll_next (MkBody false None bf k limit (FromConn t)) =
           Ok (Ready (Some (inr e)), bd') ∧
         poll_next bd' = Ok (Ready None, bd').
Proof. intros Hr. unfold poll_next at 1. body_cbn. rewrite Hr. by eexists. Qed.

(** ** Witnesses: scripted connections *)

Import Script.

Definition body_script : script :=
  Script [Piece Byte.x6c (b"o "); Wait; Piece Byte.x77 (b"orld")] [].

Lemma collect_body_sound_witness :
  default [] (Some (b"Hel")) ++ within (Some 7%N) 0 (b"lo world") = b"Hello worl".
Proof.
  symmetry. apply (collect_body_sound (H:=true) (T:=script) [] 
    (Script [Piece Byte.x6c (b"o worl"); Wait; Piece Byte.x64 []] [])
    (Some (b"Hel")) (Some 7%N) (b"lo world") 10); vm_compute; reflexivity.
Defined.

Lemma collect_body_complete_witness :
  ∃ fuel, collect_body (H:=false) (T:=script) fuel
    (Body_new [] body_script (Some (b"Hel")) (Some 8%N)) = Ok (b"Hello world").
Proof.
  apply (collect_body_complete (H:=false) (T:=script) [] body_script
    (Some (b"Hel")) (Some 8%N) (b"lo world")); [reflexivity|reflexivity|].
  vm_compute. discriminate.
Defined.

Lemma body_overrun_panics_witness :
  ∃ bd', poll_next (H:=false) (Body_new [] (Script [Piece Byte.x61 (b"bcd")] []) None (Some 3%N))
           = Ok (Ready (Some (inl (b"abc"))), bd') ∧
         poll_next (H:=false) bd' = Panic SliceOob.
Proof.
  apply (body_overrun_panics (H:=false) [] (Script [Piece Byte.x61 (b"bcd")] []) 3
           (b"abcd") (Script [] []) [] (Script [] []));
    solve [vm_compute; reflexivity | apply Nat.leb_le; reflexivity | vm_compute; split; reflexivity].
Defined.

Lemma body_error_is_last_witness :
  ∃ bd', poll_next (H:=true) (MkBody false None [SP] 0 None
             (FromConn (Script [Fault (IoError Other (b"reset"))] []))) =
           Ok (Ready (Some (inr (IoError Other (b"reset")))), bd') ∧
         poll_next (H:=true) bd' = Ok (Ready None, bd').
Proof.
  apply (body_error_is_last (H:=true) [SP] 0 None
    (Script [Fault (IoError Other (b"reset"))] [])
    (IoError Other (b"reset")) (Script [Fault (IoError Other (b"reset"))] [])).
  reflexivity.
Defined.
