(* ===== verification/BodyStates.v ===== *)
(** * The states of a body

    What holds of a response body after any number of polls, on any stream that
    keeps to the contract of [read]: an invariant of the state machine
    [poll_next] is, with what has been handed out so far. *)
From S2P Require Import Prelude RustStd Io Body.

Section states.
Context `{BP : Build} {T : Type} `{RC : ReadContract T}.

(** The chunk a poll gives, if it gives one. *)
Definition chunk_of (p : poll (option (bytes + io_error)) Empty_set) : list bytes :=
  match p with Ready (Some (inl chunk)) => [chunk] | _ => [] end.

(** A body, polled any number of times: what it was, the chunks it gave, and
    what it is. *)
Inductive polled_to (bd0 : Body T) : list bytes → Body T → Prop :=
| polled_start : polled_to bd0 [] bd0
| polled_next chunks bd p bd' :
    polled_to bd0 chunks bd → poll_next bd = Ok (p, bd') →
    polled_to bd0 (chunks ++ chunk_of p) bd'.

(** How many of [k] bytes that were read are handed out. *)
Definition counted (limit : option usize) (k : usize) : usize :=
  match limit with Some max => N.min max k | None => k end.

(** The counter is at most one buffer over the limit. *)
Definition near (limit : option usize) (k : usize) : Prop :=
  match limit with Some max => (k ≤ max + 4096)%N | None => True end.

(** The state of a body made from [rst] and [limit] that has given [chunks]:
    first the bytes left over, then chunks that fit the buffer and are not
    empty, as many bytes in all as were read, up to the limit. *)
Record body_inv (rst : option bytes) (limit : option usize) (chunks : list bytes) (bd : Body T)
    : Prop := BodyInv {
  bi_buf : length (buf bd) = BUF_LEN;
  bi_limit : content_length bd = limit;
  bi_reader : ∃ t, reader bd = FromConn t;
  bi_near : near limit (counter bd);
  bi_chunks :
    (rest bd = rst ∧ is_Some rst ∧ chunks = [] ∧ counter bd = 0%N) ∨
    (rest bd = None ∧ ∃ cs, chunks = option_list rst ++ cs ∧
       Forall (λ c, c ≠ [] ∧ length c ≤ BUF_LEN) cs ∧
       len (concat cs) = counted limit (counter bd))
}.

(** More bytes than this would bring the counter to an overflow. *)
Definition HANDED_BOUND : N := COUNTER_BOUND - 8192.

Lemma body_inv_new uninit t rst limit : body_inv rst limit [] (Body_new uninit t rst limit).
Proof.
  split; unfold Body_new; body_cbn; [|done|by eexists| |].
  - rewrite length_take, length_app, length_replicate. lia.
  - destruct limit; cbn; [lia|done].
  - destruct rst as [v|]; [left|right]; [by split_and!|].
    split; [done|]. exists []. split_and!; [done|constructor|]. cbn. by destruct limit as [[]|].
Qed.

Lemma counted_over limit k :
  not_over limit k ∨ (∃ max, limit = Some max ∧ (max < k)%N ∧ counted limit k = max).
Proof.
  destruct limit as [max|]; cbn; [|by left].
  destruct (N.leb_spec k max); [by left|right]. exists max. split_and!; [done..|lia].
Qed.

Lemma counted_within limit k bs :
  not_over limit k → counted limit (k + len bs) = (counted limit k + len (within limit k bs))%N.
Proof. destruct limit as [max|]; cbn; [|done]. intros Hk. unfold len. rewrite length_take. lia. Qed.

(** A poll of the reader that gave some bytes. *)
Lemma body_inv_read rst limit cs bf k t bs t' :
  length bf = BUF_LEN → near limit k →
  len (concat cs) = counted limit k → (len (concat cs) < HANDED_BOUND)%N →
  Forall (λ c, c ≠ [] ∧ length c ≤ BUF_LEN) cs →
  poll_read t (length bf) = (Ready bs, t') →
  match poll_next (MkBody false None bf k limit (FromConn t)) with
  | Ok (p, bd') => body_inv rst limit ((option_list rst ++ cs) ++ chunk_of p) bd'
  | Panic _ => ∃ max, limit = Some max ∧ (max < k)%N
  | _ => False
  end.
Proof.
  intros Hbf Hn Hcs Hb Hall Hr. pose proof (poll_read_bound _ _ _ _ Hr) as Hl.
  unfold HANDED_BOUND, COUNTER_BOUND, usize_width in Hb. pose proof Hbf as H4. unfold BUF_LEN in H4.
  destruct (counted_over limit k) as [Hno|(max & -> & Hk & Hmax)].
  - assert (counted limit k = k) as Hck by (destruct limit; cbn in *; lia).
    rewrite (poll_next_ready limit bf k t bs t' Hr Hl Hno) by (unfold usize_width, len in *; lia).
    cbn zeta. pose proof (counted_within limit k bs Hno) as Hc.
    assert (length (within limit k bs) ≤ BUF_LEN) as Hw.
    { rewrite Hbf in Hl. unfold within. destruct limit; [rewrite length_take|]; lia. }
    split; body_cbn.
    + by rewrite length_overwrite.
    + done.
    + by eexists.
    + destruct limit; cbn in *; [unfold len in *; lia|done].
    + right. split; [done|]. destruct (within limit k bs) as [|c w] eqn:Ew; cbn [chunk_of].
      * exists cs. rewrite app_nil_r. split_and!; [done..|]. rewrite Hcs, Hc. by rewrite N.add_0_r.
      * exists (cs ++ [c :: w]). rewrite app_assoc. split_and!; [done| |].
        -- apply Forall_app. split; [done|]. apply Forall_cons. split; [by split|constructor].
        -- rewrite concat_app, len_app, Hc, Hcs. cbn [concat]. by rewrite app_nil_r.
  - rewrite (poll_next_over max bf k t bs t' Hr Hl Hbf Hk); [by exists max|].
    cbn in Hn. unfold COUNTER_BOUND, usize_width, len in *. lia.
Qed.

Lemma body_inv_poll rst limit chunks bd :
  body_inv rst limit chunks bd → (len (concat chunks) < HANDED_BOUND)%N →
  match poll_next bd with
  | Ok (p, bd') => body_inv rst limit (chunks ++ chunk_of p) bd'
  | Panic _ => ∃ max, limit = Some max ∧ (max < counter bd)%N
  | _ => False
  end.
Proof.
  destruct bd as [dr rs bf k lim r]. intros [Hbf Hlim [t Hr] Hn Hch] Hb. cbn in *. subst lim r.
  destruct dr.
  { unfold poll_next. body_cbn. rewrite app_nil_r. split; cbn; eauto. }
  destruct Hch as [(-> & [v ->] & -> & ->)|(-> & cs & -> & Hall & Hcs)].
  { unfold poll_next. body_cbn. split; cbn; eauto. right. split; [done|].
    exists []. split_and!; [done|constructor|]. by destruct limit as [[]|]. }
  destruct (poll_read t (length bf)) as [[|bs|e] t'] eqn:Er.
  - rewrite (poll_next_wait limit bf k t t' Er), app_nil_r. split; cbn; eauto 10.
  - rewrite concat_app, len_app in Hb.
    refine (body_inv_read rst limit cs bf k t bs t' Hbf Hn Hcs _ Hall Er). lia.
  - unfold poll_next. body_cbn. rewrite Er. rewrite app_nil_r. split; cbn; eauto 10.
Qed.
End states.

(** C21: the states of a response body, after any number of polls, on every
    stream that keeps to the contract of [read].  The buffer keeps its length
    and the limit its value; what was handed out is the leftover bytes and then
    chunks that are not empty and fit the buffer, in all exactly the bytes
    counted, cut at the limit; the counter is at most one buffer over it.  The
    next poll returns, unless the counter is already over the limit: there is
    no other panic. *)
Theorem body_states `{Build} {T} `{RC : ReadContract T} uninit t rst limit chunks (bd : Body T) :
  polled_to (Body_new uninit t rst limit) chunks bd → (len (concat chunks) < HANDED_BOUND)%N →
  body_inv rst limit chunks bd ∧
  match poll_next bd with
  | Ok (p, bd') => body_inv rst limit (chunks ++ chunk_of p) bd'
  | Panic _ => ∃ max, limit = Some max ∧ (max < counter bd)%N
  | _ => False
  end.
Proof.
  intros Hp Hb. assert (body_inv rst limit chunks bd) as Hi.
  { revert Hb. induction Hp as [|chunks bd p bd' _ IH Hpoll]; intros Hb; [apply body_inv_new|].
    rewrite concat_app, len_app in Hb.
    pose proof (body_inv_poll rst limit chunks bd (IH ltac:(lia)) ltac:(lia)) as Hi.
    by rewrite Hpoll in Hi. }
  split; [done|]. by apply body_inv_poll.
Qed.

(** ** Witness *)

Module Examples.
Import Script.

(** Two polls of a stream that sends more than the limit in one piece. *)
Definition over : Body script := Body_new [] (Script [Piece Byte.x61 (b"bcd")] []) (Some (b"_")) (Some 3%N).

Lemma body_states_witness :
  ∃ bd, polled_to (BP:=false) over [b"_"; b"abc"] bd ∧ body_inv (Some (b"_")) (Some 3%N) [b"_"; b"abc"] bd.
Proof.
  assert (∃ bd, polled_to (BP:=false) over [b"_"; b"abc"] bd) as [bd Hbd].
  { eexists. eapply (polled_next over [b"_"] _ (Ready (Some (inl (b"abc"))))).
    - apply (polled_next over [] over (Ready (Some (inl (b"_"))))); [constructor|reflexivity].
    - vm_compute. reflexivity. }
  exists bd. split; [exact Hbd|]. apply (body_states (H:=false) _ _ _ _ _ _ Hbd). reflexivity.
Defined.
End Examples.
