(* ===== verification/Connect.v ===== *)
(** * Destinations and the connector trait: [src/src/connect.rs]

    [Destination] wraps a URI; its setters change one part of it through
    [update_uri], which restores the old URI on an error.  The trait [Connect]
    is the class of the same name: what a connector promises the client. *)
From S2P Require Import Prelude RustStd Io Uri.

(** [connect::Error]. *)
Inductive Error := Parse.

(** [hyper::client::connect::Connected] and the [bytes::BytesMut] buffer are
    third-party code.  A buffer created for [n] bytes has room for [n] at
    least. *)
Class HyperLib := {
  Connected : Type;
  connected_new : Connected;
  connected_proxy : Connected → bool → Connected;
  is_proxied : Connected → bool;
  is_proxied_proxy c p : is_proxied (connected_proxy c p) = p
}.

Class BytesLib := {
  alloc_capacity : nat → nat;
  alloc_capacity_ge n : n ≤ alloc_capacity n
}.

(** Instances: a flag, and exact allocation. *)
Definition flag_connected : HyperLib.
Proof.
  refine {| Connected := bool; connected_new := false; connected_proxy _ p := p;
            is_proxied c := c |}. done.
Defined.

Definition exact_bytes : BytesLib.
Proof. refine {| alloc_capacity n := n |}. done. Defined.

(** [BytesMut]: its capacity and its bytes.  [put_slice] panics when the room
    is not enough, [write_str] returns an error. *)
Record BytesMut := MkBytesMut { capacity : nat; contents : bytes }.

Definition with_capacity `{BytesLib} (n : nat) : BytesMut :=
  {| capacity := alloc_capacity n; contents := [] |}.
Definition put_slice {E} (bm : BytesMut) (s : bytes) : outcome E BytesMut :=
  if length (contents bm) + length s <=? capacity bm
  then Ok {| capacity := capacity bm; contents := contents bm ++ s |}
  else Panic (Expect "not enough room in the buffer").
Definition write_str (bm : BytesMut) (s : bytes) : option BytesMut :=
  if length (contents bm) + length s <=? capacity bm
  then Some {| capacity := capacity bm; contents := contents bm ++ s |}
  else None.

Section destination.
Context `{UL : UriLib, BL : BytesLib}.

Record Destination := MkDestination { uri : Uri }.

Definition dst_scheme (self : Destination) : bytes :=
  default [] (scheme_as_str <$> scheme_part (uri self)).
Definition dst_host (self : Destination) : bytes :=
  default [] (uri_host (uri self)).
Definition dst_port (self : Destination) : option N := uri_port_u16 (uri self).

(** A method taking [&mut self]: its result and what [self] is after it. *)
Definition update_uri (self : Destination)
    (f : Parts Scheme Authority Path → Parts Scheme Authority Path)
    : (unit + Error) * Destination :=
  let old_uri := uri self in
  let self := {| uri := uri_default |} in
  let parts := f (uri_into_parts old_uri) in
  match uri_from_parts parts with
  | Some u => (inl tt, {| uri := u |})
  | None => (inr Parse, {| uri := old_uri |})
  end.

Definition set_scheme_part (s : Scheme) (p : Parts Scheme Authority Path) :=
  MkParts (Some s) (authority p) (path_and_query p).
Definition set_authority_part (a : Authority) (p : Parts Scheme Authority Path) :=
  MkParts (scheme p) (Some a) (path_and_query p).

Definition set_scheme (self : Destination) (scheme : bytes) : (unit + Error) * Destination :=
  match scheme_parse scheme with
  | None => (inr Parse, self)
  | Some s => update_uri self (set_scheme_part s)
  end.

(** The authority [set_host] builds: with the port there is, or without one. *)
Definition host_authority (self : Destination) (host : bytes) : option Authority :=
  match dst_port self with
  | Some port => authority_parse (host ++ b":" ++ dec port)
  | None =>
      auth ← authority_parse host;
      match authority_port_u16 auth with Some _ => None | None => Some auth end
  end.

Definition set_host (self : Destination) (host : bytes) : (unit + Error) * Destination :=
  if decide (Byte.x40 ∈ host) then (inr Parse, self)
  else match host_authority self host with
  | None => (inr Parse, self)
  | Some auth => update_uri self (set_authority_part auth)
  end.

(** The authority [set_port_opt] builds, in a buffer of the host's length and
    six bytes. *)
Definition port_authority (self : Destination) (port : option N)
    : outcome Empty_set Authority :=
  match port with
  | Some port =>
      let host := dst_host self in
      let cap := length host + 1 + 5 in
      let buf := with_capacity cap in
      buf ← put_slice buf host;
      buf ← put_slice buf [COLON];
      buf ← expect (write_str buf (dec port)) "should have space for 5 digits";
      expect (authority_parse (contents buf)) "valid host + :port should be valid authority"
  | None =>
      expect (authority_parse (dst_host self))
             "valid host without port should be valid authority"
  end.

Definition set_port_opt (self : Destination) (port : option N) : outcome Empty_set Destination :=
  auth ← port_authority self port;
  match update_uri self (set_authority_part auth) with
  | (inl _, self) => Ok self
  | (inr _, _) => Panic (Expect "valid uri should be valid with port")
  end.

(** [set_port] is [set_port_opt] on the converted argument. *)
Definition set_port (self : Destination) (port : option N) : outcome Empty_set Destination :=
  set_port_opt self port.
End destination.

Arguments MkDestination {_} uri.
Arguments Destination {_}.

(** What a connector promises: from a destination and the state of the world
    outside, a transport or an error.  The future [connect] returns is
    awaited at once everywhere, so the class has the awaited result. *)
Class Connect `{UL : UriLib, HY : HyperLib} (W C T : Type) :=
  connect : C → Destination → io W (T * Connected).

(** ** The setters *)

Section setters.
Context `{UL : UriLib, LAWS : !UriLaws, BL : BytesLib}.

Lemma update_uri_cases self f :
  (∃ u, uri_from_parts (f (uri_into_parts (uri self))) = Some u ∧
        update_uri self f = (inl tt, MkDestination u)) ∨
  (uri_from_parts (f (uri_into_parts (uri self))) = None ∧ update_uri self f = (inr Parse, self)).
Proof.
  unfold update_uri. destruct (uri_from_parts _) as [u|]; [left; eauto|right].
  by destruct self.
Qed.

Lemma update_uri_parts self f self' :
  update_uri self f = (inl tt, self') →
  uri_into_parts (uri self') = f (uri_into_parts (uri self)).
Proof.
  destruct (update_uri_cases self f) as [(u & Hu & ->)|[_ ->]]; [|done].
  intros [= <-]. by apply into_from_parts.
Qed.

(** An absolute destination: it has an authority. *)
Definition absolute (self : Destination) : Prop :=
  is_Some (authority (uri_into_parts (uri self))).

Lemma update_authority_ok self a' :
  absolute self → ∃ self', update_uri self (set_authority_part a') = (inl tt, self').
Proof.
  intros [a Ha]. destruct (from_parts_authority (uri self) a a' Ha) as [u Hu].
  destruct (update_uri_cases self (set_authority_part a')) as [(v & _ & ->)|[Hn _]]; [eauto|].
  unfold set_authority_part in Hn. congruence.
Qed.

Lemma put_slice_ok {E} bm s :
  length (contents bm) + length s ≤ capacity bm →
  put_slice (E:=E) bm s = Ok (MkBytesMut (capacity bm) (contents bm ++ s)).
Proof. intros Hle%Nat.leb_le. unfold put_slice. by rewrite Hle. Qed.

Lemma write_str_ok bm s :
  length (contents bm) + length s ≤ capacity bm →
  write_str bm s = Some (MkBytesMut (capacity bm) (contents bm ++ s)).
Proof. intros Hle%Nat.leb_le. unfold write_str. by rewrite Hle. Qed.

(** The buffer is large enough for every 16-bit port. *)
Lemma port_authority_some self n :
  (n < 65536)%N →
  port_authority self (Some n) =
    expect (authority_parse (dst_host self ++ b":" ++ dec n))
           "valid host + :port should be valid authority".
Proof.
  intros Hn. pose proof (dec_u16_length n Hn) as Hl.
  pose proof (alloc_capacity_ge (length (dst_host self) + 1 + 5)) as Hc.
  unfold port_authority, with_capacity.
  set (cap := alloc_capacity _) in *.
  rewrite put_slice_ok by (cbn [capacity contents length]; lia).
  cbn [capacity contents app]. rewrite bind_Ok.
  rewrite put_slice_ok by (cbn [capacity contents length]; lia).
  cbn [capacity contents]. rewrite bind_Ok, write_str_ok
    by (cbn [capacity contents]; rewrite length_app; cbn [length]; lia).
  cbn [expect capacity contents]. rewrite bind_Ok. by rewrite <-app_assoc.
Qed.

Lemma dst_parts self a :
  authority (uri_into_parts (uri self)) = Some a →
  dst_host self = authority_host a ∧ dst_port self = authority_port_u16 a.
Proof.
  intros Ha. unfold dst_host, dst_port, uri_host, uri_port_u16. by rewrite Ha.
Qed.

Lemma set_authority_result self a' self' :
  update_uri self (set_authority_part a') = (inl tt, self') →
  dst_host self' = authority_host a' ∧ dst_port self' = authority_port_u16 a' ∧
  scheme_part (uri self') = scheme_part (uri self) ∧
  uri_path_and_query (uri self') = uri_path_and_query (uri self).
Proof.
  intros Hu%update_uri_parts.
  destruct (dst_parts self' a') as [-> ->]; [by rewrite Hu|].
  unfold scheme_part, uri_path_and_query. by rewrite Hu.
Qed.

(** The authority of the new port keeps the host. *)
Lemma port_authority_ok self port :
  absolute self → reg_host (dst_host self) →
  match port with Some n => (n < 65536)%N | None => True end →
  ∃ a', port_authority self port = Ok a' ∧
    authority_host a' = dst_host self ∧ authority_port_u16 a' = port.
Proof.
  intros [a Ha] Hr Hp. destruct (dst_parts self a Ha) as [Hh _]. rewrite Hh in Hr.
  destruct port as [n|].
  - destruct (authority_with_port a n Hp Hr) as (a' & Ha' & ? & ?).
    exists a'. rewrite port_authority_some, Hh, Ha' by done. done.
  - destruct (authority_without_port a Hr) as (a' & Ha' & ? & ?).
    exists a'. cbn [port_authority]. by rewrite Hh, Ha'.
Qed.

Lemma set_port_absolute self port :
  absolute self → reg_host (dst_host self) →
  match port with Some n => (n < 65536)%N | None => True end →
  ∃ self', set_port self port = Ok self' ∧ absolute self' ∧
    dst_port self' = port ∧ dst_host self' = dst_host self ∧
    scheme_part (uri self') = scheme_part (uri self) ∧
    uri_path_and_query (uri self') = uri_path_and_query (uri self).
Proof.
  intros Ha Hr Hp. destruct (port_authority_ok self port Ha Hr Hp) as (a' & Hok & Hh & Hpo).
  destruct (update_authority_ok self a' Ha) as [self' Hu].
  pose proof (set_authority_result _ _ _ Hu) as (E1 & E2 & E3 & E4).
  exists self'. unfold set_port, set_port_opt. rewrite Hok, bind_Ok, Hu.
  apply update_uri_parts in Hu. split_and!; try congruence.
  unfold absolute. rewrite Hu. eexists. reflexivity.
Qed.

Lemma host_authority_spec self h a :
  reg_host h → (Byte.x40 ∉ h) → host_authority self h = Some a →
  authority_host a = h ∧ authority_port_u16 a = dst_port self.
Proof.
  intros Hr Hat. unfold host_authority, dst_port, uri_port_u16.
  destruct (authority (uri_into_parts (uri self))) as [a0|] eqn:Ha0; cbn [mbind option_bind].
  - destruct (authority_port_u16 a0) as [n|] eqn:En.
    + intros Hp. apply (authority_parse_port h n a); [by apply (port_bound a0)|done..].
    + intros (a1 & Ha1 & Hs)%bind_Some. destruct (authority_port_u16 a1) eqn:E1; [done|].
      injection Hs as <-. split; [by apply authority_parse_host|done].
  - intros (a1 & Ha1 & Hs)%bind_Some. destruct (authority_port_u16 a1) eqn:E1; [done|].
    injection Hs as <-. split; [by apply authority_parse_host|done].
Qed.

Lemma set_host_inv self h self' :
  set_host self h = (inl tt, self') →
  ∃ a, (Byte.x40 ∉ h) ∧ host_authority self h = Some a ∧
       update_uri self (set_authority_part a) = (inl tt, self').
Proof.
  unfold set_host. case_decide; [done|]. destruct (host_authority self h); [eauto|done].
Qed.

Lemma set_host_ok self h self' :
  reg_host h → set_host self h = (inl tt, self') →
  absolute self' ∧ dst_host self' = h ∧ dst_port self' = dst_port self ∧
  scheme_part (uri self') = scheme_part (uri self) ∧
  uri_path_and_query (uri self') = uri_path_and_query (uri self).
Proof.
  intros Hr (a & Hat & Ha & Hu)%set_host_inv.
  destruct (host_authority_spec self h a Hr Hat Ha) as [Hh Hp].
  pose proof (set_authority_result _ _ _ Hu) as (E1 & E2 & E3 & E4).
  apply update_uri_parts in Hu. split_and!; try congruence.
  unfold absolute. rewrite Hu. eexists. reflexivity.
Qed.

Lemma set_scheme_ok self s self' :
  set_scheme self s = (inl tt, self') →
  dst_scheme self' = s ∧ dst_host self' = dst_host self ∧ dst_port self' = dst_port self ∧
  uri_path_and_query (uri self') = uri_path_and_query (uri self).
Proof.
  unfold set_scheme. destruct (scheme_parse s) as [sc|] eqn:Es; [|done].
  intros Hu%update_uri_parts.
  unfold dst_scheme, dst_host, dst_port, uri_host, uri_port_u16, scheme_part, uri_path_and_query.
  rewrite Hu. cbn. split_and!; [by apply scheme_parse_as_str|done..].
Qed.

(** A setter that returns an error leaves the destination as it was. *)
Theorem setters_atomic self s :
  (fst (set_scheme self s) = inr Parse → snd (set_scheme self s) = self) ∧
  (fst (set_host self s) = inr Parse → snd (set_host self s) = self).
Proof.
  assert (∀ f, fst (update_uri self f) = inr Parse → snd (update_uri self f) = self) as Hu.
  { intros f. by destruct (update_uri_cases self f) as [(u & _ & ->)|[_ ->]]. }
  unfold set_scheme, set_host. split.
  - destruct (scheme_parse s); [apply Hu|done].
  - case_decide; [done|]. destruct (host_authority self s); [apply Hu|done].
Qed.

(** A registered name or IPv4 address that is set as the host is the one
    asked for, has no user information, and the port, the scheme and the path
    stay. *)
Theorem set_host_spec self h self' :
  reg_host h → set_host self h = (inl tt, self') →
  (Byte.x40 ∉ h) ∧ dst_host self' = h ∧ dst_port self' = dst_port self ∧
  scheme_part (uri self') = scheme_part (uri self) ∧
  uri_path_and_query (uri self') = uri_path_and_query (uri self).
Proof.
  intros Hr Hs. pose proof (set_host_ok _ _ _ Hr Hs) as (_ & ?).
  by apply set_host_inv in Hs as (a & ? & _).
Qed.

(** On an absolute destination whose host is not an IPv6 literal
    [set_port] never panics, for every 16-bit port and for none: the buffer has
    room for the digits, the authority
    parses and the URI is rebuilt; the port is the one asked for and the rest
    stays. *)
Theorem set_port_spec self port :
  absolute self → reg_host (dst_host self) →
  match port with Some n => (n < 65536)%N | None => True end →
  ∃ self', set_port self port = Ok self' ∧
    dst_port self' = port ∧ dst_host self' = dst_host self ∧
    scheme_part (uri self') = scheme_part (uri self) ∧
    uri_path_and_query (uri self') = uri_path_and_query (uri self).
Proof.
  intros Ha Hr Hp. destruct (set_port_absolute self port Ha Hr Hp) as (self' & ? & _ & ?). eauto.
Qed.
End setters.

(** A destination of the simple URIs. *)
Definition simple_dst (s h : bytes) (p : option N) : @Destination Simple.lib :=
  @MkDestination Simple.lib
    (default (uri_default (UriLib:=Simple.lib)) (Simple.uri s h p (b"/"))).

Lemma setters_atomic_witness :
  snd (set_host (UL:=Simple.lib) (simple_dst HTTP (b"a.org") (Some 80%N)) (b"u@b.org"))
    = simple_dst HTTP (b"a.org") (Some 80%N).
Proof.
  apply (setters_atomic (UL:=Simple.lib) (simple_dst HTTP (b"a.org") (Some 80%N)) (b"u@b.org")).
  reflexivity.
Defined.

Lemma set_host_spec_witness :
  dst_port (UL:=Simple.lib)
    (snd (set_host (UL:=Simple.lib) (simple_dst HTTP (b"a.org") (Some 8080%N)) (b"proxy"))) =
  Some 8080%N.
Proof.
  apply (set_host_spec (UL:=Simple.lib) (LAWS:=Simple.laws)
           (simple_dst HTTP (b"a.org") (Some 8080%N)) (b"proxy"));
    [apply (bool_decide_unpack _); vm_compute; exact I|].
  apply injective_projections; [vm_compute; reflexivity|reflexivity].
Defined.

Lemma set_port_spec_witness :
  ∃ d, set_port (UL:=Simple.lib) (BL:=exact_bytes) (simple_dst HTTP (b"a.org") None)
         (Some 65535%N) = Ok d ∧ dst_port (UL:=Simple.lib) d = Some 65535%N.
Proof.
  destruct (set_port_spec (UL:=Simple.lib) (LAWS:=Simple.laws) (BL:=exact_bytes)
              (simple_dst HTTP (b"a.org") None) (Some 65535%N)) as (d & Hd & Hp & _).
  - eexists. reflexivity.
  - apply (bool_decide_unpack _). vm_compute. exact I.
  - reflexivity.
  - by exists d.
Defined.
