(* ===== verification/Client.v ===== *)
(** * The client: [src/src/lib.rs]

    [Client::request]: connect, send the head that [build_req] prints and the
    body, read the response head into a buffer of [BUF_LEN] bytes, parse it
    and hand out the response with a [Body] for what follows. *)
From S2P Require Import Prelude RustStd Utf8 Httparse Io Uri Response Request Body Connect.

(** [x.next()] of the request's body stream, awaited. *)
Class ReqStream (B : Type) := next_chunk : B → option ((bytes + io_error) * B).

(** A body whose chunks are known. *)
#[export] Instance list_stream : ReqStream (list (bytes + io_error)) := λ l,
  match l with [] => None | c :: l => Some (c, l) end.

(** [Iterator::find_map]. *)
Fixpoint find_map {A B} (f : A → option B) (l : list A) : option B :=
  match l with
  | [] => None
  | x :: tl => match f x with Some y => Some y | None => find_map f tl end
  end.

Definition BROKEN_HEADERS : io_error := IoError Other (b"Broken headers").
Definition PARSE_HEADER_ERROR : io_error := IoError Other (b"Parse header error").

Record Client (C : Type) := MkClient { inner : C }.
Arguments MkClient {C} inner.
Arguments inner {C} c.

Definition Client_new {C} (inner : C) : Client C := MkClient inner.

(** [Client::builder()] gives a value without data, whose [build] is [new]. *)
Record ClientBuilder (C : Type) := MkClientBuilder {}.
Definition Client_builder {C} : ClientBuilder C := MkClientBuilder C.
Definition ClientBuilder_build {C} (self : ClientBuilder C) (connector : C) : Client C :=
  Client_new connector.

(** The head of a response as the client keeps it. *)
Abbreviation Head := (N * bytes * list (bytes * bytes))%type.

Section client.
Context `{BP : Build, LC : Lowercase, HL : HttpLib, UL : UriLib, HY : HyperLib, SL : StatusLib}.

(** ** The request head *)

(** One turn of the loop over the headers. *)
Definition push_header (header : bytes) (nv : bytes * bytes) : bytes :=
  let '(name, value) := nv in
  if decide (to_lowercase name = b"host") then header
  else header ++ name ++ b": " ++ value ++ CRLF.

Definition build_req (method : Method) (url : Uri) (headers : list (bytes * bytes))
    : outcome io_error bytes :=
  let req := default (b"/") (uri_path_and_query url) in
  let header := method_as_str method ++ b" " ++ req ++ b" HTTP/1.0" ++ CRLF in
  let header := header ++ b"Host: " in
  host ← unwrap (uri_host url);
  let header := header ++ host in
  let header := header ++ CRLF in
  let header := header ++ b"Connection: close" ++ CRLF in
  let header := foldl push_header header headers in
  Ok (header ++ CRLF).

(** ** The response head *)

(** One turn of the [for] loop over [parse_headers]. *)
Definition parse_block_step (s : HeaderIter * Head) : outcome io_error (step (HeaderIter * Head) Head) :=
  let '(it, (status, reason, headers)) := s in
  '(o, it) ← lift (next_header it);
  match o with
  | None => Ok (Break (status, reason, headers))
  | Some (inr _) => Err PARSE_HEADER_ERROR
  | Some (inl (Status code r _)) =>
      Ok (Continue (it, (code, from_utf8_lossy r, headers)))
  | Some (inl (HeaderField name value)) =>
      Ok (Continue (it, (status, reason,
        headers ++ [(to_lowercase (from_utf8_lossy name), from_utf8_lossy value)])))
  end.

Definition parse_block (block : bytes) : outcome io_error Head :=
  loop (S (length block)) parse_block_step (parse_headers block, (0%N, [], [])).

Definition find_content_length (headers : list (bytes * bytes)) : option usize :=
  find_map (λ kv, if decide (kv.1 = b"content-length") then parse_usize kv.2 else None) headers.

Section transport.
Context {T : Type} `{CO : Conn T}.

(** Bytes written into a buffer at a place. *)
Definition write_at (filled : nat) (bs buf : bytes) : bytes :=
  take filled buf ++ bs ++ drop (filled + length bs) buf.

(** One turn of the loop that reads the response head; [filled] is [left] in
    the source. *)
Definition recv_step (s : T * bytes * nat)
    : outcome io_error (step (T * bytes * nat) (Head * bytes * T)) :=
  let '(conn, buf, filled) := s in
  free ← slice_from buf (N.of_nat filled);
  '(bs, conn) ← io_read conn (length free);
  if decide (length bs = 0) then Err BROKEN_HEADERS else
  let buf := write_at filled bs buf in
  let filled := filled + length bs in
  match find_sub CRLF2 (take filled buf) with
  | None => Ok (Continue (conn, buf, filled))
  | Some idx =>
      let idx := idx + 4 in
      block ← slice_range buf 0 (N.of_nat idx);
      head ← parse_block block;
      rest ← slice_range buf (N.of_nat idx) (N.of_nat filled);
      Ok (Break (head, rest, conn))
  end.

(** The buffer is not initialized: its bytes are those of [uninit]. *)
Definition recv_head (uninit : bytes) (conn : T) : outcome io_error (Head * bytes * T) :=
  let buf := take BUF_LEN (uninit ++ replicate BUF_LEN Byte.x00) in
  loop (BUF_LEN + 2) recv_step (conn, buf, 0).

(** One turn of the loop that sends the body. *)
Definition send_step {B} `{RS : ReqStream B} (s : T * B) : outcome io_error (step (T * B) T) :=
  let '(conn, x) := s in
  match next_chunk x with
  | None => Ok (Break conn)
  | Some (res, x) =>
      chunk ← match res with inl chunk => Ok chunk | inr e => Err e end;
      conn ← io_write_all conn chunk;
      Ok (Continue (conn, x))
  end.

Definition send_body {B} `{RS : ReqStream B} (fuel : nat) (conn : T) (body : option B)
    : outcome io_error T :=
  match body with
  | Some x => loop fuel send_step (conn, x)
  | None => Ok conn
  end.

(** What [request] does with the connection. *)
Definition exchange {B} `{RS : ReqStream B} (fuel : nat) (uninit uninit' : bytes)
    (conn : T) (req : Request B) : outcome io_error (Response StatusCode (Body T)) :=
  header ← build_req (rq_method req) (rq_uri req) (rq_headers req);
  conn ← io_write_all conn header;
  conn ← send_body fuel conn (rq_body req);
  '((status, _, headers), rest, conn) ← recv_head uninit conn;
  let content_length := find_content_length headers in
  Response_new status headers (Body_new uninit' conn (Some rest) content_length).

(** [fuel] is for the request's body, which may be endless. *)
Definition request {W C B} `{CN : !Connect W C T, RS : ReqStream B} (fuel : nat) (uninit uninit' : bytes)
    (self : Client C) (req : Request B) (w : W)
    : outcome io_error (Response StatusCode (Body T)) * W :=
  let '(r, w) := connect (inner self) (MkDestination (rq_uri req)) w in
  ('(conn, _) ← r; exchange fuel uninit uninit' conn req, w).
End transport.
End client.

(** ** The block parser *)

Section block.
Context `{BP : Build, LC : Lowercase}.

Lemma lift_not_spin {E A} (m : outcome Empty_set A) : m ≠ Spin → lift (E:=E) m ≠ Spin.
Proof. by destruct m. Qed.

Lemma parse_block_step_shrinks it hd :
  parse_block_step (it, hd) ≠ Spin ∧
  ∀ it' hd', parse_block_step (it, hd) = Ok (Continue (it', hd')) →
    length (it_input it') < length (it_input it).
Proof.
  destruct hd as [[st rs] hs]. unfold parse_block_step. split.
  - apply bind_not_spin; [apply lift_not_spin, next_header_not_spin|].
    by intros [[[[]|]|] ?] _.
  - intros it' hd' Hs. outcome_inv. destruct x as [o it1].
    match goal with Hl : lift _ = Ok _ |- _ => apply lift_Ok in Hl end.
    assert (is_Some o ∧ it1 = it') as [Ho ->].
    { destruct o as [[[]|]|]; outcome_inv; eauto; done. }
    destruct (next_header_consumes _ _ _ ltac:(eassumption)) as [(-> & _)|(l & Hl & _)].
    + by apply is_Some_None in Ho.
    + rewrite Hl, !length_app. cbn. lia.
Qed.

Lemma parse_block_fuel n s :
  length (it_input (fst s)) < n → loop n parse_block_step s ≠ Spin.
Proof.
  apply (loop_not_spin parse_block_step (λ _, True) (λ s, length (it_input (fst s)))); [..|done].
  - intros [it hd] _. apply parse_block_step_shrinks.
  - intros [it hd] [it' hd'] _ Hs. split; [done|]. by eapply parse_block_step_shrinks.
Qed.

Lemma parse_block_no_spin block : parse_block block ≠ Spin.
Proof. apply parse_block_fuel. cbn. lia. Qed.

(** After its first item the iterator gives header fields only. *)
Lemma next_header_fields s o s' :
  next_header s = Ok (o, s') → it_status_parsed s = true →
  match o with Some (inl (Status _ _ _)) => False | _ => True end ∧ it_status_parsed s' = true.
Proof.
  intros Hn Hp. destruct s as [input p]. cbn in Hp. subst p.
  destruct (find_sub CRLF input) as [idx|] eqn:Hf.
  - rewrite (next_header_find _ _ _ Hf) in Hn. cbn in Hn.
    destruct (0 <? _)%N; outcome_inv; [|done]. by destruct x as [[]|].
  - unfold next_header in Hn. cbn in Hn. rewrite Hf in Hn. by outcome_inv.
Qed.

Lemma next_header_status s o s' :
  next_header s = Ok (o, s') → it_status_parsed s = false →
  match o with
  | Some (inl (Status c _ _)) => (100 ≤ c ≤ 599)%N
  | Some (inl (HeaderField _ _)) => False
  | _ => True
  end ∧ (is_Some o → it_status_parsed s' = true).
Proof.
  intros Hn Hp. destruct s as [input p]. cbn in Hp. subst p.
  destruct (find_sub CRLF input) as [idx|] eqn:Hf.
  - rewrite (next_header_find _ _ _ Hf) in Hn. cbn in Hn. outcome_inv.
    split; [|done]. destruct x as [[[c v] r]|e]; [|done]. cbn.
    destruct (parse_status _) eqn:E; cbn in *; outcome_inv.
    by apply parse_status_sound, status_line_range in E.
  - unfold next_header in Hn. cbn in Hn. rewrite Hf in Hn. outcome_inv.
    split; [done|]. by intros [].
Qed.

(** The status of a parsed block that has a line is one a response can have. *)
Lemma parse_block_range block st rs hs :
  find_sub CRLF block ≠ None →
  parse_block block = Ok (st, rs, hs) → (100 ≤ st ≤ 599)%N.
Proof.
  intros Hf Hp. unfold parse_block in Hp. cbn [loop] in Hp.
  destruct (parse_block_step (parse_headers block, (0%N, [], []))) as [[[it hd]|hd]|e|p|] eqn:E;
    try done.
  - assert (it_status_parsed it = true ∧ (100 ≤ (hd.1).1 ≤ 599)%N) as Hi.
    { cbn [parse_block_step] in E. outcome_inv. destruct x as [o it1].
      match goal with Hl : lift _ = Ok _ |- _ => apply lift_Ok in Hl;
        apply next_header_status in Hl as [Hc Hs]; [|done] end.
      destruct o as [[[c v r|n v]|err]|]; outcome_inv; done || eauto. }
    revert Hp. apply (loop_Ok parse_block_step
      (λ s, it_status_parsed (fst s) = true ∧ (100 ≤ ((snd s).1).1 ≤ 599)%N)
      (λ hd, (100 ≤ (hd.1).1 ≤ 599)%N) ) with (r := (st, rs, hs)); [..|exact Hi].
    + intros [it0 [[st0 rs0] hs0]] s' [Hi1 Hi2] Hs. cbn in Hi1, Hi2.
      cbn [parse_block_step] in Hs. outcome_inv. destruct x as [o it1].
      match goal with Hl : lift _ = Ok _ |- _ => apply lift_Ok in Hl;
        apply next_header_fields in Hl as [Hc Hs']; [|done] end.
      destruct o as [[[]|]|]; outcome_inv; done.
    + intros [it0 [[st0 rs0] hs0]] r [_ Hi2] Hs. cbn in Hi2.
      cbn [parse_block_step] in Hs. outcome_inv. destruct x as [o it1].
      destruct o as [[[]|]|]; outcome_inv; done.
  - exfalso. cbn [parse_block_step] in E. outcome_inv. destruct x as [o it1].
    match goal with Hl : lift _ = Ok _ |- _ => apply lift_Ok in Hl;
      apply next_header_consumes in Hl as [(_ & _ & Hn)|(l & _ & _ & Ho)] end; [done|].
    destruct (Ho eq_refl) as [y ->]. destruct y as [[]|]; outcome_inv.
Qed.

(** *** A well-formed head *)

(** The three digits of a status code. *)
Definition dec3 (code : N) : bytes :=
  [digit_of (code / 100); digit_of (code / 10 mod 10); digit_of (code mod 10)].

Definition render_status (version : bytes) (code : N) (reason : bytes) : bytes :=
  b"HTTP/" ++ version ++ b" " ++ dec3 code ++ b" " ++ reason.

Definition render_head (version : bytes) (code : N) (reason : bytes)
    (fields : list (bytes * bytes)) : bytes :=
  render_status version code reason ++ CRLF ++
  concat (map (λ nv, render_field nv ++ CRLF) fields) ++ CRLF.

(** What the parser keeps of a value: the text before its first colon. *)
Definition kept (value : bytes) : bytes := default [] (head (split_by (is_byte COLON) value)).

(** A field that comes through: the name is an ASCII text, not empty, without a
    colon and without a space at its ends; so is what is kept of the value,
    which may be of any bytes; both are on one line. *)
Definition plain_field (nv : bytes * bytes) : Prop :=
  (trimmed nv.1 ∧ (COLON ∉ nv.1) ∧ ascii_text nv.1 ∧ no_crlf nv.1) ∧
  trimmed (kept nv.2) ∧ no_crlf nv.2.

(** Any reason phrase, of several words too. *)
Definition plain_status (version : bytes) (code : N) (reason : bytes) : Prop :=
  (100 ≤ code ≤ 599)%N ∧ (SP ∉ version) ∧ no_crlf version ∧ no_crlf reason.

#[export] Instance plain_field_dec nv : Decision (plain_field nv).
Proof. unfold plain_field. apply _. Defined.
#[export] Instance plain_status_dec v c r : Decision (plain_status v c r).
Proof. unfold plain_status. apply _. Defined.

(** The header a field gives: the name in lower case, and what is kept of the
    value, as text. *)
Definition received (nv : bytes * bytes) : bytes * bytes :=
  (map ascii_lower nv.1, from_utf8_lossy (kept nv.2)).

Lemma kept_split value :
  (COLON ∉ kept value) ∧
  ∃ tail, value = kept value ++ tail ∧ (tail = [] ∨ ∃ t, tail = COLON :: t).
Proof.
  destruct (split_by_cons (is_byte COLON) value) as (h & t & Hs). unfold kept. rewrite Hs. cbn.
  apply split_byte_inv in Hs as (Hh & [[_ ->]|(r & -> & _)]).
  - split; [done|]. exists []. rewrite app_nil_r. auto.
  - split; [done|]. eauto.
Qed.

Lemma kept_no_colon value : (COLON ∉ value) → kept value = value.
Proof. intros Hv. unfold kept. by rewrite split_byte_nosep. Qed.

Lemma digit_of_cases (P : byte → Prop) d :
  (d < 10)%N → (∀ i, i < 10 → P (digit_of (N.of_nat i))) → P (digit_of d).
Proof. intros Hd HP. rewrite <-(N2Nat.id d). apply HP. lia. Qed.

Lemma digit_at_of d : (d < 10)%N → digit_at (digit_of d) = Z.of_N d.
Proof.
  intros Hd. assert (d = 0 ∨ d = 1 ∨ d = 2 ∨ d = 3 ∨ d = 4 ∨ d = 5 ∨ d = 6
    ∨ d = 7 ∨ d = 8 ∨ d = 9)%N as Hc by lia.
  repeat (destruct Hc as [->|Hc]; [done|]). by subst.
Qed.

Lemma dec3_not_in c code : digit_val c = None → (code < 1000)%N → c ∉ dec3 code.
Proof.
  intros Hc Hcode. unfold dec3.
  assert (∀ d, (d < 10)%N → c ≠ digit_of d) as Hd.
  { intros d Hd ->. by rewrite digit_val_of in Hc. }
  rewrite !not_elem_of_cons. split_and!; [apply Hd..|apply not_elem_of_nil].
  - apply N.Div0.div_lt_upper_bound. lia.
  - apply N.mod_lt. lia.
  - apply N.mod_lt. lia.
Qed.

Lemma dec3_value code :
  (100 ≤ code ≤ 599)%N →
  ∃ c0 c1 c2, dec3 code = [c0; c1; c2] ∧
    (1 ≤ digit_at c0 ≤ 5)%Z ∧ (0 ≤ digit_at c1 ≤ 9)%Z ∧ (0 ≤ digit_at c2 ≤ 9)%Z ∧
    Z.to_N (digit_at c0 * 100 + digit_at c1 * 10 + digit_at c2) = code.
Proof.
  intros Hc. do 3 eexists. split; [done|].
  pose proof (N.div_mod code 10 ltac:(lia)) as H1.
  pose proof (N.mod_lt code 10 ltac:(lia)) as H2.
  pose proof (N.div_mod (code / 10) 10 ltac:(lia)) as H3.
  pose proof (N.mod_lt (code / 10) 10 ltac:(lia)) as H4.
  rewrite N.Div0.div_div in H3. change (10 * 10)%N with 100%N in H3.
  generalize dependent (code / 10 mod 10)%N. generalize dependent (code / 10)%N.
  generalize dependent (code mod 10)%N. generalize dependent (code / 100)%N.
  intros q c Hm q' Hq c' Hq' Hm'. rewrite !digit_at_of by lia. lia.
Qed.

Lemma render_status_line version code reason :
  plain_status version code reason →
  ∃ word, status_line (render_status version code reason) code version word.
Proof.
  intros (Hc & Hv & _ & _).
  pose proof (dec3_not_in SP code eq_refl ltac:(lia)) as Hd.
  destruct (dec3_value code Hc) as (c0 & c1 & c2 & Hd3 & ? & ? & ? & Hval).
  destruct (split_by_cons (is_byte SP) reason) as (word & ws & Hs).
  assert (∃ tail, reason = word ++ tail ∧ (tail = [] ∨ ∃ t, tail = SP :: t)) as (tail & Htl & Ht).
  { apply split_byte_inv in Hs as (_ & [[_ ->]|(r & -> & _)]); [|by eauto].
    exists []. rewrite app_nil_r. auto. }
  apply split_byte_inv in Hs as [Hw _]. exists word.
  unfold render_status. rewrite Hd3 in *. rewrite <-Hval, Htl.
  apply (status_line_intro Byte.x2f version c0 c1 c2 [] word tail); try done.
  by apply not_elem_of_cons.
Qed.

Lemma render_status_no_crlf version code reason :
  plain_status version code reason → no_crlf (render_status version code reason).
Proof.
  intros (Hc & _ & Hv & Hr). unfold render_status. rewrite !no_crlf_app.
  split_and!; try done; try by apply (bool_decide_unpack _).
  split; apply dec3_not_in; done || lia.
Qed.

Lemma render_field_no_crlf nv : plain_field nv → no_crlf (render_field nv).
Proof.
  intros ((_ & _ & _ & Hn) & _ & Hv). unfold render_field.
  rewrite !no_crlf_app. split_and!; try done. by apply (bool_decide_unpack _).
Qed.

Lemma parse_fields fields r n st rs hs :
  Forall plain_field fields →
  let input := concat (map (λ nv, render_field nv ++ CRLF) fields) ++ CRLF ++ r in
  length input < n →
  loop n parse_block_step (Build_HeaderIter input true, (st, rs, hs)) =
    Ok (st, rs, hs ++ map received fields).
Proof.
  intros Hf. revert n hs. induction Hf as [|nv fields Hnv _ IH]; intros [|n] hs; cbn zeta.
  1, 3: lia.
  - intros _. cbn [map concat app loop parse_block_step].
    rewrite (next_header_line [] r true) by by apply (bool_decide_unpack _).
    cbn. by rewrite app_nil_r.
  - intros Hlen. cbn [map concat] in *. rewrite <-!app_assoc in *.
    cbn [loop parse_block_step].
    rewrite next_header_line by by apply render_field_no_crlf.
    destruct nv as [name value].
    destruct Hnv as ((Hn1 & Hn2 & Hn3 & Hn4) & Hv1 & Hv2); cbn [fst snd] in *.
    destruct (kept_split value) as (Hk & tail & Hval & Htl).
    rewrite (proj2 (N.ltb_lt 0 _)); cycle 1.
    { unfold render_field. destruct name; [by destruct Hn1|]. len_lia. }
    pose proof (parse_header_line name 1 (kept value) tail Hn1 Hn2 Hv1 Hk Htl) as Hp.
    rewrite <-Hval in Hp.
    change (name ++ COLON :: replicate 1 SP ++ value) with (render_field (name, value)) in Hp.
    cbn [negb]. rewrite Hp. cbn -[loop].
    rewrite (lossy_id name), to_lowercase_ascii by (done || by apply utf8_ascii).
    rewrite IH by (rewrite !length_app in *; change (length CRLF) with 2 in *; lia).
    by rewrite <-app_assoc.
Qed.

Lemma parse_block_render version code reason fields :
  plain_status version code reason → Forall plain_field fields →
  parse_block (render_head version code reason fields) =
    Ok (code, from_utf8_lossy version, map received fields).
Proof.
  intros Hs Hf. destruct (render_status_line _ _ _ Hs) as [word Hw].
  unfold parse_block, render_head, parse_headers.
  cbn [loop parse_block_step].
  rewrite next_header_line by by apply render_status_no_crlf.
  rewrite (parse_status_complete _ _ _ _ Hw). cbn -[loop].
  pose proof (parse_fields fields []) as Hp. rewrite app_nil_r in Hp.
  rewrite Hp; [done|done|].
  rewrite !length_app. cbn [length]. rewrite length_app. change (length CRLF) with 2. lia.
Qed.
End block.

(** ** Reading the head *)

Section write_at.
Implicit Types (bs buf : bytes).

Lemma length_write_at k bs buf :
  k + length bs ≤ length buf → length (write_at k bs buf) = length buf.
Proof. intros Hk. unfold write_at. rewrite !length_app, length_take, length_drop. lia. Qed.

Lemma take_write_at k bs buf :
  k + length bs ≤ length buf → take (k + length bs) (write_at k bs buf) = take k buf ++ bs.
Proof.
  intros Hk. unfold write_at. rewrite app_assoc.
  rewrite take_app_length'; [done|]. rewrite length_app, length_take. lia.
Qed.

(** A slice of what has been written is a slice of that. *)
Lemma take_take_le {A} j k (l m : list A) : j ≤ k → take k l = m → take j l = take j m.
Proof. intros Hj <-. by rewrite take_take, Nat.min_l. Qed.

Lemma drop_take_slice {A} i k (l m : list A) :
  i ≤ k → take k l = m → take (k - i) (drop i l) = drop i m.
Proof. intros Hi <-. rewrite take_drop_commute. by replace (i + (k - i)) with k by lia. Qed.
End write_at.

Section recv.
Context `{BP : Build, LC : Lowercase} {T : Type} `{CO : Conn T}.

(** What a response's bytes mean, however they arrive: the head is what ends
    at the first empty line of the first [BUF_LEN] bytes. *)
Definition response_spec (d : bytes) : outcome io_error (Head * bytes) :=
  match find_sub CRLF2 (take BUF_LEN d) with
  | Some idx =>
      head ← parse_block (take (idx + 4) d);
      Ok (head, drop (idx + 4) d)
  | None => Err BROKEN_HEADERS
  end.

(** A turn whose read gave [bs]. *)
Lemma recv_step_read t buf k bs t' :
  length buf = BUF_LEN → k ≤ BUF_LEN → length bs ≤ BUF_LEN - k →
  io_read t (BUF_LEN - k) = Ok (bs, t') → bs ≠ [] →
  recv_step (t, buf, k) =
    let buf' := write_at k bs buf in
    match find_sub CRLF2 (take k buf ++ bs) with
    | None => Ok (Continue (t', buf', k + length bs))
    | Some idx =>
        head ← parse_block (take (idx + 4) (take k buf ++ bs));
        Ok (Break (head, drop (idx + 4) (take k buf ++ bs), t'))
    end.
Proof.
  intros Hbuf Hk Hbs Hr Hne. unfold recv_step.
  assert (length (take k buf ++ bs) = k + length bs) as Hlen.
  { rewrite length_app, length_take. lia. }
  rewrite slice_from_Ok by (unfold len; lia). rewrite bind_Ok, length_drop, Nat2N.id, Hbuf, Hr.
  rewrite bind_Ok. rewrite decide_False by by destruct bs.
  pose proof (take_write_at k bs buf ltac:(lia)) as Ht. rewrite Ht. cbn zeta.
  destruct (find_sub CRLF2 (take k buf ++ bs)) as [idx|] eqn:Hf; [|done].
  pose proof (find_sub_length CRLF2 ltac:(done) _ _ Hf) as Hl.
  rewrite Hlen in Hl. change (length CRLF2) with 4 in Hl.
  pose proof (length_write_at k bs buf ltac:(lia)) as Hw.
  rewrite (slice_range_Ok _ 0) by (unfold len; lia). rewrite bind_Ok.
  rewrite drop_0, Nat2N.id, Nat.sub_0_r.
  rewrite (take_take_le (idx + 4) (k + length bs) _ (take k buf ++ bs)) by (done || lia).
  destruct (parse_block _) as [hd|e|p|]; [|done..]. rewrite !bind_Ok.
  rewrite slice_range_Ok by (unfold len; lia). rewrite bind_Ok, !Nat2N.id.
  by rewrite (drop_take_slice _ _ _ (take k buf ++ bs)) by (done || lia).
Qed.

Lemma recv_step_end t buf k t' :
  length buf = BUF_LEN → k ≤ BUF_LEN →
  io_read t (BUF_LEN - k) = Ok ([], t') → recv_step (t, buf, k) = Err BROKEN_HEADERS.
Proof.
  intros Hbuf Hk Hr. unfold recv_step.
  rewrite slice_from_Ok by (unfold len; lia). by rewrite bind_Ok, length_drop, Nat2N.id, Hbuf, Hr.
Qed.

Lemma recv_init_length uninit :
  length (take BUF_LEN (uninit ++ replicate BUF_LEN Byte.x00)) = BUF_LEN.
Proof. rewrite length_take, length_app, length_replicate. lia. Qed.

(** The block handed to the parser has a line end. *)
Lemma head_has_line k l idx :
  find_sub CRLF2 (take k l) = Some idx → find_sub CRLF (take (idx + 4) l) ≠ None.
Proof.
  intros Hf Hn. pose proof (find_sub_length CRLF2 ltac:(done) _ _ Hf) as Hl.
  apply (find_sub_Some CRLF2 ltac:(done)) in Hf as [Hf _].
  apply (proj1 (find_sub_None CRLF ltac:(done) _) Hn idx).
  change (length CRLF2) with 4 in Hl. rewrite length_take in Hl.
  unfold occurs_at in *. change (length CRLF2) with 4 in Hf. change (length CRLF) with 2.
  apply (f_equal (take 2)) in Hf. change (take 2 CRLF2) with CRLF in Hf. rewrite <-Hf.
  rewrite take_take, !take_drop_commute, !take_take. do 2 f_equal. lia.
Qed.

(** *** Termination and bounds *)

Lemma recv_step_bound `{RC : !ReadContract T} t buf k :
  length buf = BUF_LEN → k ≤ BUF_LEN →
  recv_step (t, buf, k) ≠ Spin ∧
  ∀ t' buf' k', recv_step (t, buf, k) = Ok (Continue (t', buf', k')) →
    length buf' = BUF_LEN ∧ k < k' ∧ k' ≤ BUF_LEN.
Proof.
  intros Hbuf Hk. pose proof (io_read_ends t (BUF_LEN - k)) as Hs.
  destruct (io_read t (BUF_LEN - k)) as [[bs t1]|e|p|] eqn:Er; [..|done].
  - pose proof (io_read_bound _ _ _ _ Er) as Hb. destruct bs as [|c bs].
    + by rewrite (recv_step_end _ _ _ _ Hbuf Hk Er).
    + rewrite (recv_step_read _ _ _ _ _ Hbuf Hk Hb Er) by done. cbn zeta.
      destruct (find_sub _ _).
      * split; [apply bind_not_spin; [apply parse_block_no_spin|done]|].
        intros t' buf' k' Hc. outcome_inv.
      * split; [done|]. intros t' buf' k' Hc. injection Hc as <- <- <-.
        rewrite length_write_at by lia. cbn [length] in *. lia.
  - unfold recv_step. rewrite slice_from_Ok by (unfold len; lia).
    by rewrite bind_Ok, length_drop, Nat2N.id, Hbuf, Er.
  - unfold recv_step. rewrite slice_from_Ok by (unfold len; lia).
    by rewrite bind_Ok, length_drop, Nat2N.id, Hbuf, Er.
Qed.

Lemma recv_head_no_spin `{RC : !ReadContract T} uninit t : recv_head uninit t ≠ Spin.
Proof.
  unfold recv_head.
  apply (loop_not_spin recv_step
           (λ s, length s.1.2 = BUF_LEN ∧ s.2 ≤ BUF_LEN) (λ s, BUF_LEN - s.2)).
  - intros [[t1 buf] k] [Hb Hk]. by apply recv_step_bound.
  - intros [[t1 buf] k] [[t2 buf'] k'] [Hb Hk] Hs. cbn [fst snd] in *.
    apply (proj2 (recv_step_bound t1 buf k Hb Hk)) in Hs. lia.
  - cbn [fst snd]. split; [apply recv_init_length|lia].
  - cbn [snd]. lia.
Qed.

(** *** Independence of the fragmentation *)

(** A read that gives nothing, with room or without. *)
Lemma recv_end d n t buf k t' :
  length buf = BUF_LEN → k ≤ BUF_LEN → find_sub CRLF2 (take k d) = None →
  io_read t (BUF_LEN - k) = Ok ([], t') → (k < BUF_LEN → drop k d = []) →
  response_spec d = Err BROKEN_HEADERS ∧
  loop (S n) recv_step (t, buf, k) = Err BROKEN_HEADERS.
Proof.
  intros Hbuf Hk Hnone Hr Hdr. cbn [loop]. rewrite (recv_step_end _ _ _ _ Hbuf Hk Hr).
  split; [|done]. unfold response_spec.
  assert (take BUF_LEN d = take k d) as ->; [|by rewrite Hnone].
  destruct (decide (k = BUF_LEN)) as [->|Hne]; [done|].
  assert (length d ≤ k); [|by rewrite !take_ge by lia].
  specialize (Hdr ltac:(lia)). apply (f_equal length) in Hdr.
  rewrite length_drop in Hdr. cbn in Hdr. lia.
Qed.

(** Where a read of [bs] leaves the stream. *)
Lemma take_drop_read k (d bs d' : bytes) :
  k ≤ length d → drop k d = bs ++ d' →
  take k d ++ bs = take (k + length bs) d ∧ drop (k + length bs) d = d' ∧
  k + length bs ≤ length d.
Proof.
  intros Hkd Hsplit. split_and!.
  - rewrite <-(take_drop k d) at 2. rewrite Hsplit.
    rewrite take_app, length_take, (take_ge (take k d)) by (rewrite length_take; lia).
    replace (k + length bs - k `min` length d) with (length bs) by lia.
    by rewrite take_app_length.
  - rewrite <-drop_drop, Hsplit. by rewrite drop_app_length.
  - apply (f_equal length) in Hsplit. rewrite length_drop, length_app in Hsplit. lia.
Qed.

Lemma recv_loop_spec `{DL : !Delivers T} d n t buf k :
  length buf = BUF_LEN → k ≤ BUF_LEN → k ≤ length d →
  take k buf = take k d → delivers t (drop k d) →
  find_sub CRLF2 (take k d) = None → BUF_LEN + 1 - k < n →
  match response_spec d with
  | Ok (hd, bd) => ∃ rst t' d', loop n recv_step (t, buf, k) = Ok (hd, rst, t') ∧
                     delivers t' d' ∧ bd = rst ++ d'
  | Err e => loop n recv_step (t, buf, k) = Err e
  | Panic p => loop n recv_step (t, buf, k) = Panic p
  | Spin => False
  end.
Proof.
  revert t buf k. induction n as [|n IH]; intros t buf k Hbuf Hk Hkd Htk Hd Hnone Hn; [lia|].
  destruct (decide (k = BUF_LEN)) as [Hfull|Hroom].
  { destruct (delivers_read_0 t _ Hd) as [t' Hr].
    destruct (recv_end d n t buf k t') as [-> ->]; try done; [|lia].
    by replace (BUF_LEN - k) with 0 by lia. }
  destruct (delivers_read t _ (BUF_LEN - k) Hd ltac:(lia))
    as (bs & d' & t' & Hr & Hsplit & Hd' & Hbs & Hnil).
  destruct (decide (bs = [])) as [->|Hne].
  { destruct (recv_end d n t buf k t') as [-> ->]; try done. by auto. }
  destruct (take_drop_read k d bs d' Hkd Hsplit) as (Hbs' & Hdrop & Hkd').
  cbn [loop]. rewrite (recv_step_read _ _ _ _ _ Hbuf Hk Hbs Hr Hne). cbn zeta.
  rewrite Htk, Hbs'. destruct (find_sub CRLF2 (take (k + length bs) d)) as [idx|] eqn:Hf.
  - pose proof (find_sub_length CRLF2 ltac:(done) _ _ Hf) as Hl.
    rewrite length_take_le in Hl by done. change (length CRLF2) with 4 in Hl.
    assert (find_sub CRLF2 (take BUF_LEN d) = Some idx) as Hf'.
    { rewrite <-(take_drop (k + length bs) (take BUF_LEN d)).
      rewrite take_take, Nat.min_l by lia. by apply find_sub_app. }
    unfold response_spec. rewrite Hf'.
    rewrite take_take, Nat.min_l by lia.
    destruct (parse_block (take (idx + 4) d)) as [hd|e|p|] eqn:Ep; cbn; try done.
    + eexists _, t', d'. split_and!; [done|done|].
      rewrite <-Hdrop, <-(take_drop (k + length bs) d) at 1.
      rewrite drop_app_le; [done|]. rewrite length_take_le; lia.
    + by apply parse_block_no_spin in Ep.
  - apply IH; try done.
    + rewrite length_write_at; lia.
    + lia.
    + by rewrite take_write_at, Htk by lia.
    + by rewrite Hdrop.
    + destruct bs; [done|]. cbn [length]. lia.
Qed.

Lemma recv_head_spec `{DL : !Delivers T} d uninit t :
  delivers t d →
  match response_spec d with
  | Ok (hd, bd) => ∃ rst t' d', recv_head uninit t = Ok (hd, rst, t') ∧
                     delivers t' d' ∧ bd = rst ++ d'
  | Err e => recv_head uninit t = Err e
  | Panic p => recv_head uninit t = Panic p
  | Spin => False
  end.
Proof.
  intros Hd. apply recv_loop_spec; try done; [apply recv_init_length|lia..|lia].
Qed.

(** The status a response head gives is one [Response::new] accepts. *)
Lemma recv_head_range uninit t st rs hs rst t' :
  recv_head uninit t = Ok ((st, rs, hs), rst, t') → (100 ≤ st ≤ 599)%N.
Proof.
  unfold recv_head.
  apply (loop_Ok recv_step (λ _, True) (λ r, (100 ≤ r.1.1.1.1 ≤ 599)%N)); [done| |done].
  intros [[t0 buf] k] [[[[st0 rs0] hs0] rst0] t0'] _ Hs. cbn [fst snd].
  unfold recv_step in Hs. outcome_inv. destruct x0 as [bs t1].
  case_decide; [done|].
  destruct (find_sub CRLF2 _) as [idx|] eqn:Hf; outcome_inv.
  match goal with Hp : parse_block _ = Ok _, Hl : slice_range _ 0 _ = Ok _ |- _ =>
    apply parse_block_range in Hp; [done|]; revert Hl end.
  unfold slice_range. destruct (_ && _)%N eqn:Eb; [|done]. intros [= <-].
  rewrite drop_0, Nat2N.id, Nat.sub_0_r.
  by eapply head_has_line.
Qed.
End recv.

(** ** The request head as a server reads it *)

Section build_req.
Context `{LC : Lowercase, HL : HttpLib, UL : UriLib}.

Definition is_host_field (nv : bytes * bytes) : Prop := to_lowercase nv.1 = b"host".

#[export] Instance is_host_field_dec nv : Decision (is_host_field nv).
Proof. unfold is_host_field. apply _. Defined.

Definition request_lines (m : Method) (url : Uri) (host : bytes) (hs : list (bytes * bytes))
    : list bytes :=
  (method_as_str m ++ b" " ++ default (b"/") (uri_path_and_query url) ++ b" HTTP/1.0") ::
  (b"Host: " ++ host) :: (b"Connection: close") ::
  map render_field (filter (λ nv, ¬ is_host_field nv) hs).

Lemma push_headers h hs :
  foldl push_header h hs =
  h ++ end_lines (map render_field (filter (λ nv, ¬ is_host_field nv) hs)).
Proof.
  revert h. induction hs as [|[n v] hs IH]; intros h; cbn [foldl]; [by rewrite app_nil_r|].
  rewrite IH, filter_cons. unfold is_host_field at 2. cbn [push_header fst].
  destruct (decide (to_lowercase n = b"host")) as [Hh|Hh].
  - by rewrite decide_False by tauto.
  - rewrite decide_True by done. unfold end_lines, render_field. cbn [map concat fst snd].
    by rewrite <-!app_assoc.
Qed.

Lemma build_req_lines m url host hs :
  uri_host url = Some host →
  build_req m url hs = Ok (end_lines (request_lines m url host hs) ++ CRLF).
Proof.
  intros Hh. unfold build_req. rewrite Hh. cbn [unwrap]. rewrite bind_Ok, push_headers.
  unfold request_lines, end_lines. cbn [map concat]. by rewrite <-!app_assoc.
Qed.

(** A target that keeps to its line. *)
Definition plain_target (m : Method) (url : Uri) (host : bytes) : Prop :=
  no_crlf (method_as_str m) ∧ no_crlf (default (b"/") (uri_path_and_query url)) ∧ no_crlf host.

Lemma request_lines_no_crlf m url host hs :
  plain_target m url host → Forall (λ nv, no_crlf nv.1 ∧ no_crlf nv.2) hs →
  Forall (λ l, no_crlf l ∧ l ≠ []) (request_lines m url host hs).
Proof.
  intros (Hm & Hp & Hho) Hf. unfold request_lines.
  rewrite !Forall_cons. split_and!.
  - rewrite !no_crlf_app. split_and!; try done; by apply (bool_decide_unpack _).
  - by destruct (method_as_str m).
  - rewrite no_crlf_app. split; [by apply (bool_decide_unpack _)|done].
  - done.
  - by apply (bool_decide_unpack (no_crlf _)).
  - done.
  - apply Forall_map. apply (Forall_impl _ _ _ (Forall_filter_keep _ _ _ Hf)).
    intros [n v] [Hn Hv]. unfold render_field. cbn in *. split.
    + rewrite !no_crlf_app. split_and!; try done. by apply (bool_decide_unpack _).
    + by destruct n.
Qed.

Lemma request_lines_length m url host hs :
  length (request_lines m url host hs) < 4 + length hs.
Proof.
  unfold request_lines. cbn [length]. rewrite length_map.
  pose proof (length_filter (λ nv, ¬ is_host_field nv) hs). lia.
Qed.
End build_req.

(** The name a server reads on a header line. *)
Definition line_name (line : bytes) : bytes :=
  default [] (head (split_by (is_byte COLON) line)).

Lemma line_name_colon n v : (COLON ∉ n) → line_name (n ++ COLON :: v) = n.
Proof. intros Hn. unfold line_name. by rewrite split_byte_app. Qed.

Section build_req_facts.
Context `{LC : Lowercase, HL : HttpLib, UL : UriLib}.

Lemma render_field_name nv : (COLON ∉ nv.1) → line_name (render_field nv) = nv.1.
Proof. intros Hn. unfold render_field. by apply (line_name_colon nv.1 (SP :: nv.2)). Qed.

Lemma no_host_lines hs :
  Forall (λ nv, COLON ∉ nv.1) hs →
  filter (λ l, to_lowercase (line_name l) = b"host")
    (map render_field (filter (λ nv, ¬ is_host_field nv) hs)) = [].
Proof.
  induction 1 as [|nv hs Hn _ IH]; [done|].
  rewrite filter_cons. case_decide as Hd; [|done].
  cbn [map]. rewrite filter_cons, render_field_name by done.
  by rewrite decide_False.
Qed.

Lemma to_lowercase_lit s t :
  forallb is_ascii (b s) = true → map ascii_lower (b s) = t → to_lowercase (b s) = t.
Proof.
  intros Ha Hm. rewrite to_lowercase_ascii; [done|].
  unfold ascii_text. rewrite forallb_forall in Ha.
  apply list.Forall_forall. intros x Hx%list_elem_of_In. by apply Ha.
Qed.

(** The head [build_req] prints is what a server reads back, whatever
    follows it: the request line, the host of the URI, [Connection: close] and
    then the given headers in order, except those named [host], which are
    left out; when no text put into it holds a line end. *)
Theorem build_req_server_view m url host hs :
  uri_host url = Some host → plain_target m url host →
  Forall (λ nv, no_crlf nv.1 ∧ no_crlf nv.2) hs →
  ∃ header, build_req m url hs = Ok header ∧
    ∀ body, server_lines (4 + length hs) (header ++ body) =
              Some (request_lines m url host hs, body).
Proof.
  intros Hh Ht Hf. eexists. split; [by apply build_req_lines|]. intros body.
  rewrite <-app_assoc. apply server_lines_end; [by apply request_lines_no_crlf|].
  apply request_lines_length.
Qed.

Lemma one_host_line m url host hs :
  Forall (λ nv, COLON ∉ nv.1) hs →
  filter (λ l, to_lowercase (line_name l) = b"host") (tail (request_lines m url host hs)) =
    [b"Host: " ++ host].
Proof.
  intros Hf. unfold request_lines. cbn [tail].
  assert (line_name (b"Host: " ++ host) = b"Host") as H1.
  { apply (line_name_colon (b"Host") (SP :: host)). by apply (bool_decide_unpack _). }
  assert (line_name (b"Connection: close") = b"Connection") as H2 by done.
  rewrite filter_cons, H1, decide_True by by apply to_lowercase_lit.
  rewrite filter_cons, H2, decide_False; [by rewrite no_host_lines|].
  by rewrite (to_lowercase_lit "Connection" (b"connection")).
Qed.

(** C26: of the header lines a server reads in the head [build_req] prints,
    exactly one is named [host], in any case of letters: the one the client
    writes from the URI, whatever [host] headers the caller gave; when no text
    put into the head holds a line end and no name holds a colon. *)
Theorem build_req_one_host m url host hs :
  uri_host url = Some host → plain_target m url host →
  Forall (λ nv, no_crlf nv.1 ∧ no_crlf nv.2 ∧ (COLON ∉ nv.1)) hs →
  ∃ header, build_req m url hs = Ok header ∧
    ∀ body, ∃ line lines,
      server_lines (4 + length hs) (header ++ body) = Some (line :: lines, body) ∧
      filter (λ l, to_lowercase (line_name l) = b"host") lines = [b"Host: " ++ host].
Proof.
  intros Hh Ht Hf. eexists. split; [by apply build_req_lines|]. intros body.
  rewrite <-app_assoc, server_lines_end; cycle 1.
  - apply request_lines_no_crlf; [done|]. apply (Forall_impl _ _ _ Hf). tauto.
  - apply request_lines_length.
  - eexists _, _. split; [reflexivity|]. apply (one_host_line m url host).
    apply (Forall_impl _ _ _ Hf). tauto.
Qed.

(** Nothing checks what the caller puts into a header: a value that holds a line
    end gives the server one more line, of the caller's choice. *)
Theorem header_injection m url host n v line :
  uri_host url = Some host → plain_target m url host →
  no_crlf n → no_crlf v → no_crlf line → line ≠ [] → to_lowercase n ≠ b"host" →
  ∃ header, build_req m url [(n, v ++ CRLF ++ line)] = Ok header ∧
    ∀ body, server_lines 6 (header ++ body) =
              Some (request_lines m url host [(n, v)] ++ [line], body).
Proof.
  intros Hh Ht Hn Hv Hl Hne Hho. eexists. split; [by apply build_req_lines|]. intros body.
  assert (Forall (λ l, no_crlf l ∧ l ≠ []) (request_lines m url host [(n, v)] ++ [line])) as Hf.
  { apply Forall_app. split; [|by apply Forall_singleton].
    apply request_lines_no_crlf; [done|by apply Forall_singleton]. }
  assert (¬ is_host_field (n, v)) as H1 by done.
  assert (¬ is_host_field (n, v ++ CRLF ++ line)) as H2 by done.
  assert (end_lines (request_lines m url host [(n, v ++ CRLF ++ line)]) =
          end_lines (request_lines m url host [(n, v)] ++ [line])) as ->.
  { unfold request_lines. rewrite !filter_cons, !decide_True by done.
    unfold end_lines, render_field. cbn [map concat app filter list_filter fst snd].
    by rewrite <-!app_assoc. }
  rewrite <-app_assoc. apply server_lines_end; [done|].
  unfold request_lines. rewrite filter_cons, decide_True by done. cbn. lia.
Qed.
End build_req_facts.

(** ** A whole exchange *)

Section exchange.
Context `{BP : Build, LC : Lowercase, HL : HttpLib, UL : UriLib, HY : HyperLib, SL : StatusLib}.

Lemma render_head_lines version code reason fields :
  render_head version code reason fields =
    end_lines (render_status version code reason :: map render_field fields) ++ CRLF.
Proof.
  unfold render_head, end_lines. cbn [map concat]. by rewrite <-!app_assoc, map_map.
Qed.

Lemma response_spec_render version code reason fields payload :
  plain_status version code reason → Forall plain_field fields →
  length (render_head version code reason fields) ≤ BUF_LEN →
  response_spec (render_head version code reason fields ++ payload) =
    Ok ((code, from_utf8_lossy version, map received fields), payload).
Proof.
  intros Hs Hf Hlen. set (hd := render_head _ _ _ _) in *.
  assert (find_sub CRLF2 (hd ++ take (BUF_LEN - length hd) payload) = Some (length hd - 4)
          ∧ 4 ≤ length hd) as [Hfind H4].
  { unfold hd. rewrite render_head_lines, <-app_assoc, find_end_of_lines; cycle 1.
    - apply Forall_cons. split.
      + split; [by apply render_status_no_crlf|done].
      + apply Forall_map. apply (Forall_impl _ _ _ Hf). intros nv Hnv. split.
        * by apply render_field_no_crlf.
        * by destruct nv as [[] ?], Hnv as [[[] _] _].
    - rewrite length_app. change (length CRLF) with 2. split; [f_equal; lia|].
      unfold end_lines. cbn [map concat]. rewrite !length_app.
      change (length CRLF) with 2. lia. }
  unfold response_spec. rewrite take_app, (take_ge hd) by done. rewrite Hfind.
  replace (length hd - 4 + 4) with (length hd) by lia.
  rewrite take_app_length, drop_app_length. unfold hd. by rewrite parse_block_render.
Qed.

Lemma find_content_length_values hs :
  find_content_length hs = head (omap parse_usize (values_of (b"content-length") hs)).
Proof.
  unfold find_content_length. induction hs as [|kv hs IH]; [done|].
  cbn [find_map]. rewrite values_of_cons. case_decide; cbn; [|done].
  by destruct (parse_usize kv.2).
Qed.

Lemma Response_new_ok {E B} code hs (bd : B) :
  (100 ≤ code ≤ 599)%N →
  ∃ s, Response_new (E:=E) code hs bd = Ok (MkResponse s (HeaderMap_new hs) bd) ∧
       code_as_u16 s = code.
Proof.
  intros Hc. destruct (from_u16_valid code Hc) as [s Hs]. exists s.
  unfold Response_new. rewrite Hs. split; [done|]. by apply from_u16_value.
Qed.
End exchange.

(** A request body that comes to an end gives these chunks. *)
Inductive stream_list {B} `{RS : ReqStream B} : B → list (bytes + io_error) → Prop :=
| stream_nil x : next_chunk x = None → stream_list x []
| stream_cons x c x' l :
    next_chunk x = Some (c, x') → stream_list x' l → stream_list x (c :: l).

(** Writing them one after the other, up to the first error. *)
Fixpoint write_chunks {T} `{CO : Conn T} (conn : T) (l : list (bytes + io_error))
    : outcome io_error T :=
  match l with
  | [] => Ok conn
  | inr e :: _ => Err e
  | inl chunk :: l => conn ← io_write_all conn chunk; write_chunks conn l
  end.

Section client_facts.
Context `{BP : Build, LC : Lowercase, HL : HttpLib, UL : UriLib, HY : HyperLib, SL : StatusLib}.
Context {T : Type} `{CO : Conn T}.

Lemma send_body_chunks {B} `{RS : ReqStream B} (x : B) l n conn :
  stream_list x l → length l < n → loop n send_step (conn, x) = write_chunks conn l.
Proof.
  intros Hs. revert n conn. induction Hs as [x Hx|x c x' l Hx _ IH]; intros [|n] conn Hn;
    try (cbn in Hn; lia).
  - cbn. by rewrite Hx.
  - cbn [loop send_step write_chunks]. rewrite Hx. destruct c as [chunk|e]; [|done].
    rewrite bind_Ok. destruct (io_write_all conn chunk); [|done..]. rewrite !bind_Ok.
    apply IH. cbn in Hn. lia.
Qed.

(** Reading the response head refines its specification on the bytes
    alone: however the reads cut the stream and whatever the buffer held, the
    head is the one that ends at the first empty line of the first 4096
    bytes, the bytes after it are the leftover and what the connection still
    delivers, and with no empty line there the result is the error. *)
Theorem recv_head_refines `{DL : !Delivers T} d uninit t :
  delivers t d →
  match response_spec d with
  | Ok (hd, bd) => ∃ rst t' d', recv_head uninit t = Ok (hd, rst, t') ∧
                     delivers t' d' ∧ bd = rst ++ d'
  | Err e => recv_head uninit t = Err e
  | Panic p => recv_head uninit t = Panic p
  | Spin => False
  end.
Proof. apply recv_head_spec. Qed.

(** C22: on every connection that respects the contract of [read], the loop
    that reads the head ends: a read that gives no byte ends it, and the
    buffer is full after 4096 others. *)
Theorem recv_head_total `{RC : !ReadContract T} uninit t : recv_head uninit t ≠ Spin.
Proof. apply recv_head_no_spin. Qed.

(** The status of a head that was read is one [Response::new] takes: its
    [unwrap] never panics, and the response has that status. *)
Theorem received_status_valid {B} uninit t st rs hs rst t' (bd : B) :
  recv_head uninit t = Ok ((st, rs, hs), rst, t') →
  ∃ resp, Response_new (E:=io_error) st hs bd = Ok resp ∧ code_as_u16 (status_code resp) = st.
Proof.
  intros Hr%recv_head_range. destruct (Response_new_ok (E:=io_error) st hs bd Hr) as (s & ? & ?).
  eauto.
Qed.

(** A peer can make the client panic: a status line whose first word is
    shorter than [HTTP], an empty one say, or is [HTTP] itself, in a response
    that has an empty line. *)
Theorem hostile_status_line_panics `{DL : !Delivers T} uninit t line r :
  no_crlf line →
  length (first_word line) < 4 ∨ first_word line = b"HTTP" →
  find_sub CRLF2 (take BUF_LEN (line ++ CRLF ++ r)) ≠ None →
  delivers t (line ++ CRLF ++ r) →
  recv_head uninit t = Panic SliceOob.
Proof.
  intros Hl Hw Hf Hd. pose proof (recv_head_spec _ uninit t Hd) as Hr.
  enough (response_spec (line ++ CRLF ++ r) = Panic SliceOob) as Hp by by rewrite Hp in Hr.
  unfold response_spec. destruct (find_sub CRLF2 _) as [idx|] eqn:Hfi; [|done].
  assert (find_sub CRLF (take (idx + 4) (line ++ CRLF ++ r)) = Some (length line)) as Hline.
  { destruct (find_sub CRLF (take (idx + 4) (line ++ CRLF ++ r))) as [i|] eqn:E.
    - apply (find_sub_app CRLF ltac:(done) _ (drop (idx + 4) (line ++ CRLF ++ r))) in E.
      rewrite take_drop, find_crlf_line in E by done. congruence.
    - by apply head_has_line in Hfi. }
  pose proof (find_sub_length CRLF ltac:(done) _ _ Hline) as Hlen.
  unfold parse_block, parse_headers. cbn [loop parse_block_step].
  rewrite (next_header_find _ _ _ Hline). cbn [negb].
  rewrite take_take, Nat.min_l, take_app_length by (rewrite length_take in Hlen; lia).
  by rewrite (parse_status_short _ Hw).
Qed.

(** C32: the ways a request fails before anything is received: an error of the
    connector is returned; a URI without a host makes the client panic; an
    error of writing the head, of the body's stream or of writing one of its
    chunks is returned, after the chunks before it were written in order. *)
Theorem request_send_errors {W C B} `{CN : !Connect W C T, RS : ReqStream B}
    fuel uninit uninit' (self : Client C) (req : Request B) w r w' :
  connect (inner self) (MkDestination (rq_uri req)) w = (r, w') →
  (∀ e, r = Err e → request (T:=T) fuel uninit uninit' self req w = (Err e, w')) ∧
  (∀ conn c, r = Ok (conn, c) → uri_host (rq_uri req) = None →
     request fuel uninit uninit' self req w = (Panic UnwrapNone, w')) ∧
  (∀ conn c header, r = Ok (conn, c) →
     build_req (rq_method req) (rq_uri req) (rq_headers req) = Ok header →
     (∀ e, io_write_all conn header = Err e →
        request fuel uninit uninit' self req w = (Err e, w')) ∧
     (∀ conn' x l e, io_write_all conn header = Ok conn' → rq_body req = Some x →
        stream_list x l → length l < fuel → write_chunks conn' l = Err e →
        request fuel uninit uninit' self req w = (Err e, w'))).
Proof.
  intros Hc. unfold request. rewrite Hc. split_and!.
  - by intros e ->.
  - intros conn c -> Hh. rewrite bind_Ok. unfold exchange, build_req. by rewrite Hh.
  - intros conn c header -> Hb. rewrite bind_Ok. unfold exchange. rewrite Hb, bind_Ok. split.
    + by intros e ->.
    + intros conn' x l e -> Hx Hs Hl He. rewrite bind_Ok, Hx. cbn [send_body].
      by rewrite (send_body_chunks _ _ _ _ Hs Hl), He.
Qed.

Lemma exchange_facts {B} `{RS : ReqStream B, DL : !Delivers T}
    fuel uninit uninit' (req : Request B) conn header conn1 conn2
    version code reason fields payload :
  build_req (rq_method req) (rq_uri req) (rq_headers req) = Ok header →
  io_write_all conn header = Ok conn1 →
  send_body fuel conn1 (rq_body req) = Ok conn2 →
  delivers conn2 (render_head version code reason fields ++ payload) →
  plain_status version code reason → Forall plain_field fields →
  length (render_head version code reason fields) ≤ BUF_LEN →
  (len payload < COUNTER_BOUND)%N →
  not_over (find_content_length (map received fields)) (len payload) →
  ∃ resp, exchange fuel uninit uninit' conn req = Ok resp ∧
    code_as_u16 (status_code resp) = code ∧
    (∀ name, HeaderMap_get (headers resp) name =
               head (values_of name (map received fields))) ∧
    ∃ n, collect_body n (body resp) = Ok payload.
Proof.
  intros Hb Hw Hsb Hd Hs Hf Hl Hp Hno.
  pose proof (recv_head_spec _ uninit _ Hd) as Hr.
  rewrite (response_spec_render _ _ _ _ _ Hs Hf Hl) in Hr.
  destruct Hr as (rst & t' & d' & Hr & Hd' & ->). rewrite len_app in Hp, Hno.
  set (bd := Body_new uninit' t' (Some rst) (find_content_length (map received fields))).
  destruct (Response_new_ok (E:=io_error) code (map received fields) bd) as (s & Hresp & Hc);
    [apply Hs|].
  exists (MkResponse s (HeaderMap_new (map received fields)) bd). split_and!.
  - unfold exchange. rewrite Hb, bind_Ok, Hw, bind_Ok, Hsb, bind_Ok, Hr, bind_Ok. done.
  - done.
  - intros name. cbn [headers]. unfold HeaderMap_get.
    rewrite (HeaderMap_new_represents (map received fields) name).
    by destruct (values_of _ _).
  - cbn [body]. apply (collect_new_complete uninit' t' (Some rst)); [done|lia|].
    destruct (find_content_length _); cbn in *; [lia|done].
Qed.

(** C2: a whole exchange.  When the head and the body of the request can be
    sent and the peer answers with a head of at most 4096 bytes (a status line
    with any reason phrase, and header lines whose names are ASCII words
    without a colon, and whose values are, up to their first colon, neither
    empty nor with a space at their ends) and with a payload no longer than the
    content length it declares, if it declares one, then the response has the
    peer's status; each header has, under its name in lower case, the first
    value the peer gave, cut at the value's first colon if it has one; and
    reading the body gives the payload. *)
Theorem exchange_roundtrip {B} `{RS : ReqStream B, DL : !Delivers T}
    fuel uninit uninit' (req : Request B) conn header conn1 conn2
    version code reason fields payload :
  build_req (rq_method req) (rq_uri req) (rq_headers req) = Ok header →
  io_write_all conn header = Ok conn1 →
  send_body fuel conn1 (rq_body req) = Ok conn2 →
  delivers conn2 (render_head version code reason fields ++ payload) →
  plain_status version code reason → Forall plain_field fields →
  length (render_head version code reason fields) ≤ BUF_LEN →
  (len payload < COUNTER_BOUND)%N →
  not_over (find_content_length (map received fields)) (len payload) →
  ∃ resp, exchange fuel uninit uninit' conn req = Ok resp ∧
    code_as_u16 (status_code resp) = code ∧
    (∀ name, HeaderMap_get (headers resp) name =
               head (values_of name (map received fields))) ∧
    ∃ n, collect_body n (body resp) = Ok payload.
Proof. apply exchange_facts. Qed.

(** The content length handed to the body is the first value under
    [content-length] that parses; a printed 64-bit number parses to itself. *)
Theorem find_content_length_spec hs :
  find_content_length hs = head (omap parse_usize (values_of (b"content-length") hs)) ∧
  ∀ n, (n < usize_width)%N → find_content_length ((b"content-length", dec n) :: hs) = Some n.
Proof.
  split; [apply find_content_length_values|]. intros n Hn.
  unfold find_content_length. cbn [find_map fst snd].
  by rewrite decide_True, parse_dec.
Qed.
End client_facts.

(** ** Witnesses: a scripted peer and simple URIs *)

Import Script.

#[local] Existing Instance ascii_lowercase.
#[local] Existing Instance named_http.
#[local] Existing Instance Simple.lib.
#[local] Existing Instance flag_connected.
#[local] Existing Instance numeric_status.

(** A connector that always gives the same result. *)
#[local] Instance fixed_connector : Connect unit (outcome io_error script) script :=
  λ c _ w, (conn ← c; Ok (conn, connected_new), w).

Definition GET : Method := b"GET".

Definition example_url : Uri := uri (simple_dst HTTP (b"a.org") None).

(** A peer that sends a text cut in two, with a wait. *)
Definition peer (n : nat) (d : bytes) : script :=
  Script (match take n d with c :: l => [Piece c l; Wait] | [] => [] end ++
          match drop n d with c :: l => [Piece c l] | [] => [] end) [].

Definition example_head : bytes :=
  render_head (b"1.1") 200 (b"OK") [(b"Content-Length", b"5"); (b"X-A", b"b")].

Lemma build_req_server_view_witness :
  ∃ header, build_req GET example_url [(b"hOsT", b"evil"); (b"X-A", b"b")] = Ok header ∧
    ∀ body, server_lines 6 (header ++ body) =
      Some ([b"GET / HTTP/1.0"; b"Host: a.org"; b"Connection: close"; b"X-A: b"], body).
Proof.
  destruct (build_req_server_view GET example_url (b"a.org")
           [(b"hOsT", b"evil"); (b"X-A", b"b")]) as (header & Hb & Hv).
  - reflexivity.
  - split_and!; apply (bool_decide_unpack (no_crlf _)); vm_compute; exact I.
  - repeat constructor; apply (bool_decide_unpack (_ ∉ _)); vm_compute; exact I.
  - exists header. split; [exact Hb|]. intros body. etransitivity; [apply (Hv body)|].
    vm_compute. reflexivity.
Defined.

Lemma build_req_one_host_witness :
  ∃ header, build_req GET example_url [(b"hOsT", b"evil"); (b"X-A", b"b")] = Ok header ∧
    ∃ line lines, server_lines 6 (header ++ b"body") = Some (line :: lines, b"body") ∧
      filter (λ l, to_lowercase (line_name l) = b"host") lines = [b"Host: a.org"].
Proof.
  destruct (build_req_one_host GET example_url (b"a.org") [(b"hOsT", b"evil"); (b"X-A", b"b")])
    as (header & Hb & Hl).
  - reflexivity.
  - split_and!; apply (bool_decide_unpack (no_crlf _)); vm_compute; exact I.
  - repeat constructor; apply (bool_decide_unpack (_ ∉ _)); vm_compute; exact I.
  - exists header. split; [exact Hb|exact (Hl (b"body"))].
Defined.

Lemma header_injection_witness :
  ∃ header, build_req GET example_url [(b"X-A", b"b" ++ CRLF ++ b"Host: evil")] = Ok header ∧
    ∀ body, server_lines 6 (header ++ body) =
      Some ([b"GET / HTTP/1.0"; b"Host: a.org"; b"Connection: close"; b"X-A: b"; b"Host: evil"], body).
Proof.
  destruct (header_injection GET example_url (b"a.org") (b"X-A") (b"b") (b"Host: evil"))
    as (header & Hb & Hl); [reflexivity|..].
  - split_and!; apply (bool_decide_unpack (no_crlf _)); vm_compute; exact I.
  - apply (bool_decide_unpack (no_crlf _)); vm_compute; exact I.
  - apply (bool_decide_unpack (no_crlf _)); vm_compute; exact I.
  - apply (bool_decide_unpack (no_crlf _)); vm_compute; exact I.
  - discriminate.
  - vm_compute. discriminate.
  - exists header. split; [exact Hb|exact Hl].
Defined.

Lemma recv_head_refines_witness :
  ∃ rst t' d', recv_head (BP:=true) [] (peer 20 (example_head ++ b"hello")) =
      Ok ((200%N, b"1.1", [(b"content-length", b"5"); (b"x-a", b"b")]), rst, t') ∧
    delivers t' d' ∧ b"hello" = rst ++ d'.
Proof.
  pose proof (recv_head_refines (BP:=true) (example_head ++ b"hello") []
                (peer 20 (example_head ++ b"hello")) eq_refl) as Hr.
  assert (response_spec (BP:=true) (example_head ++ b"hello") =
    Ok ((200%N, b"1.1", [(b"content-length", b"5"); (b"x-a", b"b")]), b"hello")) as E
    by (vm_compute; reflexivity).
  rewrite E in Hr. exact Hr.
Defined.

Lemma recv_head_total_witness :
  recv_head (BP:=false) [] (peer 20 example_head) ≠ Spin.
Proof. apply (recv_head_total (BP:=false) [] (peer 20 example_head)). Defined.

Lemma received_status_valid_witness :
  ∃ resp, Response_new (E:=io_error) 200 [(b"content-length", b"5"); (b"x-a", b"b")] tt
            = Ok resp ∧ code_as_u16 (status_code resp) = 200%N.
Proof.
  apply (received_status_valid (BP:=true) [] (peer 0 example_head) 200 (b"1.1") _ []
           (Script [] []) tt).
  vm_compute. reflexivity.
Defined.

Lemma hostile_status_line_panics_witness :
  recv_head (BP:=false) [] (peer 0 (CRLF2 ++ b"x")) = Panic SliceOob.
Proof.
  apply (hostile_status_line_panics (BP:=false) [] (peer 0 (CRLF2 ++ b"x")) [] (CRLF ++ b"x")).
  - apply (bool_decide_unpack _). vm_compute. exact I.
  - left. apply Nat.ltb_lt. reflexivity.
  - vm_compute. discriminate.
  - reflexivity.
Defined.

Definition example_request : Request (list (bytes + io_error)) :=
  MkRequest GET HTTP_10 example_url [] (Some [inl (b"abc"); inr (IoError Other (b"gone"))]).

Lemma request_send_errors_witness :
  request (BP:=true) (T:=script) 5 [] [] (MkClient (Ok (Script [] []))) example_request tt =
    (Err (IoError Other (b"gone")), tt).
Proof.
  eapply (request_send_errors (BP:=true) (T:=script) 5 [] [] (MkClient (Ok (Script [] [])))
            example_request tt _ tt).
  - reflexivity.
  - reflexivity.
  - vm_compute. reflexivity.
  - reflexivity.
  - reflexivity.
  - do 2 (eapply stream_cons; [reflexivity|]). by apply stream_nil.
  - cbn. lia.
  - reflexivity.
Defined.

(** A redirect: a reason of two words, and a value with a colon, which is cut. *)
Definition moved_fields : list (bytes * bytes) :=
  [(b"Content-Length", b"5"); (b"Location", b"https://b.org/")].

Definition moved_head : bytes := render_head (b"1.1") 301 (b"Moved Permanently") moved_fields.

Definition get_request : Request (list (bytes + io_error)) := Request_new GET example_url.

Definition get_head : bytes :=
  match build_req GET example_url (rq_headers get_request) with Ok h => h | _ => [] end.

Lemma exchange_roundtrip_witness :
  ∃ resp, exchange (BP:=true) (T:=script) 1 [] [] (peer 30 (moved_head ++ b"hello"))
            get_request = Ok resp ∧
    code_as_u16 (status_code resp) = 301%N ∧
    HeaderMap_get (headers resp) (b"location") = Some (b"https") ∧
    ∃ n, collect_body (H:=true) n (body resp) = Ok (b"hello").
Proof.
  set (server := peer 30 (moved_head ++ b"hello")).
  set (sent := Script (events server) ([] ++ get_head)).
  destruct (exchange_roundtrip (BP:=true) (LC:=ascii_lowercase) (T:=script) 1 [] [] get_request
    server get_head sent sent (b"1.1") 301 (b"Moved Permanently") moved_fields (b"hello"))
    as (resp & Hx & Hc & Hh & Hb).
  - vm_compute. reflexivity.
  - reflexivity.
  - reflexivity.
  - reflexivity.
  - apply (bool_decide_unpack _); vm_compute; exact I.
  - apply (bool_decide_unpack _); vm_compute; exact I.
  - apply Nat.leb_le. reflexivity.
  - reflexivity.
  - vm_compute. discriminate.
  - exists resp. split_and!; [exact Hx|exact Hc| |exact Hb].
    rewrite (Hh (b"location")). vm_compute. reflexivity.
Defined.

Lemma find_content_length_spec_witness :
  find_content_length [(b"content-length", dec 18446744073709551615)] =
    Some 18446744073709551615%N.
Proof. apply find_content_length_spec. reflexivity. Defined.
