(* ===== verification/Texts.v ===== *)
(** * The strings of the client

    A [String] holds UTF-8.  The model has its bytes only; here is that every
    string the client makes, of its own arguments or of what a peer sends, is
    well-formed text, as the type demands. *)
From S2P Require Import Prelude RustStd Utf8 Httparse Io Uri Response Request Body Connect Client.

Definition utf8_field (nv : bytes * bytes) : Prop := utf8 nv.1 ∧ utf8 nv.2.

#[export] Instance utf8_field_dec nv : Decision (utf8_field nv).
Proof. unfold utf8_field. apply _. Defined.

(** The strings of a head, and of a header map, which has a value for each of
    its names. *)
Definition utf8_head (hd : Head) : Prop := utf8 hd.1.2 ∧ Forall utf8_field hd.2.
Definition utf8_headers (m : gmap bytes (list bytes)) : Prop :=
  ∀ k vs, m !! k = Some vs → utf8 k ∧ vs ≠ [] ∧ Forall utf8 vs.

(** ** The head of a response *)

Section response.
Context `{BP : Build, LC : Lowercase, LU : !LowercaseUtf8}.

Lemma parse_block_step_utf8 s :
  utf8_head s.2 →
  match parse_block_step s with
  | Ok (Continue s') => utf8_head s'.2
  | Ok (Break hd) => utf8_head hd
  | _ => True
  end.
Proof.
  destruct s as [it [[st rs] hs]]. intros [Hr Hh]. cbn [fst snd] in *. unfold parse_block_step.
  destruct (lift (next_header it)) as [[o it']|e|p|]; cbn; [|done..].
  destruct o as [[[code r v|name value]|err]|]; cbn; [| |done|done]; split; cbn.
  - apply lossy_utf8.
  - done.
  - done.
  - apply Forall_app. split; [done|]. apply Forall_singleton. split; cbn; auto with http.
Qed.

Lemma parse_block_utf8 block hd : parse_block block = Ok hd → utf8_head hd.
Proof.
  apply (loop_Ok parse_block_step (λ s, utf8_head s.2) utf8_head).
  - intros s s' Hs Hb. pose proof (parse_block_step_utf8 s Hs) as H. by rewrite Hb in H.
  - intros s r Hs Hb. pose proof (parse_block_step_utf8 s Hs) as H. by rewrite Hb in H.
  - split; [apply utf8_nil|constructor].
Qed.

Context {T : Type} `{CO : Conn T}.

Lemma recv_head_utf8 uninit (t : T) hd rst t' :
  recv_head uninit t = Ok (hd, rst, t') → utf8_head hd.
Proof.
  unfold recv_head. apply (loop_Ok recv_step (λ _, True) (λ r, utf8_head r.1.1)); [done| |done].
  intros [[t0 buf] k] [[hd0 rst0] t0'] _ Hs. cbn [fst snd]. unfold recv_step in Hs.
  outcome_inv. destruct x0 as [bs t1]. case_decide; [done|].
  destruct (find_sub CRLF2 _) as [idx|]; outcome_inv. by eapply parse_block_utf8.
Qed.

Lemma HeaderMap_new_utf8 hs :
  Forall utf8_field hs → utf8_headers (hm_map (HeaderMap_new hs)).
Proof.
  intros Hhs k vs Hk. rewrite (HeaderMap_new_represents hs k) in Hk.
  assert (Forall utf8 (values_of k hs)) as Hvs.
  { unfold values_of. apply Forall_map. apply (Forall_impl _ _ _ (Forall_filter_keep _ _ _ Hhs)).
    by intros nv []. }
  assert (∀ v, v ∈ values_of k hs → utf8 k) as Hkey.
  { intros v (kv & -> & (Hkv & Hin)%list_elem_of_filter)%list_elem_of_fmap. subst k.
    rewrite list.Forall_forall in Hhs. apply (Hhs kv Hin). }
  destruct (values_of k hs) as [|v l] eqn:E; [done|]. injection Hk as <-.
  split_and!; [|done|done]. apply (Hkey v). by left.
Qed.
End response.

Section client.
Context `{BP : Build, LC : Lowercase, LU : !LowercaseUtf8, HL : HttpLib, UL : UriLib}.
Context `{HY : HyperLib, SL : StatusLib} {T : Type} `{CO : Conn T}.

(** C19: whatever bytes the peer sends, the names and values in the header map
    of a response are text, each name in it has a value, and the status is
    one of an HTTP response. *)
Theorem response_texts {B} `{RS : ReqStream B} fuel uninit uninit' (conn : T) (req : Request B) resp :
  exchange fuel uninit uninit' conn req = Ok resp →
  utf8_headers (hm_map (headers resp)) ∧ (100 ≤ code_as_u16 (status_code resp) ≤ 599)%N.
Proof.
  unfold exchange. intros H. outcome_inv. destruct x2 as [[[[st rs] hs] rst] t'].
  match goal with Hr : recv_head _ _ = _ |- _ =>
    pose proof (recv_head_range _ _ _ _ _ _ _ Hr) as Hst; apply recv_head_utf8 in Hr as [_ Hh] end.
  destruct (Response_new_ok (E:=io_error) st hs
    (Body_new uninit' t' (Some rst) (find_content_length hs)) Hst) as (s & Hn & Hc).
  match goal with Hr : Response_new _ _ _ = _ |- _ => rewrite Hn in Hr; injection Hr as <- end.
  cbn [headers status_code]. rewrite Hc. split; [by apply HeaderMap_new_utf8|done].
Qed.

(** ** The head of a request *)

Lemma utf8_b s : forallb is_ascii (b s) = true → utf8 (b s).
Proof.
  intros Ha. apply utf8_ascii, list.Forall_forall. intros c Hc%list_elem_of_In.
  rewrite forallb_forall in Ha. by apply Ha.
Qed.

Lemma utf8_crlf : utf8 CRLF.
Proof. by apply utf8_ascii, (bool_decide_unpack _). Qed.

Lemma end_lines_utf8 ls : Forall utf8 ls → utf8 (end_lines ls).
Proof.
  induction 1 as [|l ls Hl _ IH]; [apply utf8_nil|].
  change (end_lines (l :: ls)) with ((l ++ CRLF) ++ end_lines ls). auto using utf8_crlf with http.
Qed.

Lemma request_lines_utf8 m url host hs :
  utf8 (method_as_str m) → utf8 (default (b"/") (uri_path_and_query url)) → utf8 host →
  Forall utf8_field hs → Forall utf8 (request_lines m url host hs).
Proof.
  intros Hm Hp Hh Hhs. unfold request_lines. rewrite !Forall_cons. split_and!.
  - auto using utf8_b with http.
  - auto using utf8_b with http.
  - by apply utf8_b.
  - apply Forall_map. apply (Forall_impl _ _ _ (Forall_filter_keep _ _ _ Hhs)).
    intros nv [Hn Hv]. unfold render_field. auto using utf8_b with http.
Qed.

(** The head [build_req] prints is text when the method, the path, the
    host and the caller's headers are: the writes of the client send UTF-8. *)
Theorem request_texts m url hs header :
  utf8 (method_as_str m) → utf8 (default (b"/") (uri_path_and_query url)) →
  (∀ host, uri_host url = Some host → utf8 host) → Forall utf8_field hs →
  build_req m url hs = Ok header → utf8 header.
Proof.
  intros Hm Hp Hhost Hhs Hb. destruct (uri_host url) as [host|] eqn:Eh.
  - rewrite (build_req_lines m url host hs Eh) in Hb. injection Hb as <-.
    apply utf8_app; [|apply utf8_crlf]. apply end_lines_utf8, request_lines_utf8; auto.
  - unfold build_req in Hb. by rewrite Eh in Hb.
Qed.
End client.

(** ** Witnesses *)

Import Script.

#[local] Existing Instance ascii_lowercase.
#[local] Existing Instance named_http.
#[local] Existing Instance Simple.lib.
#[local] Existing Instance flag_connected.
#[local] Existing Instance numeric_status.

(** A head with bytes that are no text, and with a character outside ASCII. *)
Definition odd_head : bytes :=
  b"HTTP/1.0 200 OK" ++ CRLF ++ b"X-Odd: " ++ [Byte.xff; Byte.x61] ++ CRLF ++
  b"X-" ++ encode 0xE9 ++ b": " ++ encode 0x1F600 ++ CRLF2.

Definition odd_headers : list (bytes * bytes) :=
  [(b"x-odd", REPLACEMENT ++ [Byte.x61]); (b"x-" ++ encode 0xE9, encode 0x1F600)].

Lemma response_texts_witness :
  ∃ resp, exchange (BP:=true) (T:=script) 1 [] [] (peer 20 odd_head)
            (Request_new (B:=list (bytes + io_error)) GET example_url) = Ok resp ∧
    headers resp = HeaderMap_new odd_headers ∧ utf8_headers (hm_map (headers resp)).
Proof.
  assert (∀ A B C : Prop, A → B → (A → C) → A ∧ B ∧ C) as Hand by tauto.
  eexists. apply Hand; [vm_compute; reflexivity|vm_compute; reflexivity|].
  intros Hx. apply (response_texts (BP:=true) _ _ _ _ _ _ Hx).
Defined.

Lemma request_texts_witness :
  ∃ header, build_req GET example_url [(b"X-A", encode 0xE9)] = Ok header ∧ utf8 header.
Proof.
  assert (∀ A B : Prop, A → (A → B) → A ∧ B) as Hand by tauto.
  eexists. apply Hand; [reflexivity|]. intros Hx.
  apply (request_texts GET example_url [(b"X-A", encode 0xE9)]); [..|exact Hx].
  - apply (bool_decide_unpack _). vm_compute. exact I.
  - apply (bool_decide_unpack _). vm_compute. exact I.
  - intros host [= <-]. apply (bool_decide_unpack _). vm_compute. exact I.
  - apply (bool_decide_unpack _). vm_compute. exact I.
Defined.
