(* ===== verification/Exchange.v ===== *)
(** * An exchange as a function of the bytes

    What [request] does once it is connected, as a function of the bytes the
    peer sends: the reference is [response_spec], which parses the head of a
    stream given as one list. *)
From S2P Require Import Prelude RustStd Utf8 Httparse Io Uri Response Request Body Connect Client.

Section exchange.
Context `{BP : Build, LC : Lowercase, HL : HttpLib, UL : UriLib, HY : HyperLib, SL : StatusLib}.
Context {T B : Type} `{CO : Conn T, DL : !Delivers T, RS : ReqStream B}.

(** A body that reads as the payload [p], of which [rst] was read with the
    head: what comes out is [rst] and then the rest within the limit, and all
    of it when the rest is no longer. *)
Definition reads_as (bd : Body T) (limit : option usize) (p : bytes) : Prop :=
  ∃ rst d, p = rst ++ d ∧ ((len d < COUNTER_BOUND)%N →
    (∀ n out, collect_body n bd = Ok out → out = rst ++ within limit 0 d) ∧
    (not_over limit (len d) → ∃ n, collect_body n bd = Ok p)).

Lemma Body_new_reads_as uninit t rst limit d :
  delivers t d → reads_as (Body_new uninit t (Some rst) limit) limit (rst ++ d).
Proof.
  intros Hd. exists rst, d. split; [done|]. intros Hb. split.
  - intros n out Hc. eapply collect_sound; [|exact Hc].
    exact (Body_new_streaming uninit t (Some rst) limit d [] Hd Hb).
  - intros Hno. exact (collect_new_complete uninit t (Some rst) limit d Hd Hb Hno).
Qed.

Lemma exchange_spec fuel uninit uninit' (req : Request B) conn header conn1 conn2 d :
  build_req (rq_method req) (rq_uri req) (rq_headers req) = Ok header →
  io_write_all conn header = Ok conn1 →
  send_body fuel conn1 (rq_body req) = Ok conn2 →
  delivers conn2 d →
  match response_spec d with
  | Ok ((st, _, hs), payload) =>
      ∃ resp, exchange fuel uninit uninit' conn req = Ok resp ∧
        code_as_u16 (status_code resp) = st ∧ headers resp = HeaderMap_new hs ∧
        reads_as (body resp) (find_content_length hs) payload
  | Err e => exchange fuel uninit uninit' conn req = Err e
  | Panic p => exchange fuel uninit uninit' conn req = Panic p
  | Spin => False
  end.
Proof.
  intros Hb Hw Hsb Hd. pose proof (recv_head_spec _ uninit _ Hd) as Hr.
  unfold exchange. rewrite Hb, bind_Ok, Hw, bind_Ok, Hsb, bind_Ok.
  destruct (response_spec d) as [[[[st rs] hs] payload]|e|p|]; [|by rewrite Hr..|done].
  destruct Hr as (rst & t' & d' & Hr & Hd' & ->).
  set (bd := Body_new uninit' t' (Some rst) (find_content_length hs)).
  destruct (Response_new_ok (E:=io_error) st hs bd) as (s & Hresp & Hc);
    [by eapply recv_head_range|].
  exists (MkResponse s (HeaderMap_new hs) bd). rewrite Hr, bind_Ok. split_and!; [done..|].
  by apply Body_new_reads_as.
Qed.

(** C3: the exchange refines its specification on the bytes the peer sends,
    whatever those are: when the request can be sent, its result is the one
    of parsing the bytes as a whole.  A head that parses gives the response
    with its status, the map of its headers and a body that reads as the rest;
    every error and every panic of the parser is the exchange's. *)
Theorem exchange_refines fuel uninit uninit' (req : Request B) conn header conn1 conn2 d :
  build_req (rq_method req) (rq_uri req) (rq_headers req) = Ok header →
  io_write_all conn header = Ok conn1 →
  send_body fuel conn1 (rq_body req) = Ok conn2 →
  delivers conn2 d →
  match response_spec d with
  | Ok ((st, _, hs), payload) =>
      ∃ resp, exchange fuel uninit uninit' conn req = Ok resp ∧
        code_as_u16 (status_code resp) = st ∧ headers resp = HeaderMap_new hs ∧
        reads_as (body resp) (find_content_length hs) payload
  | Err e => exchange fuel uninit uninit' conn req = Err e
  | Panic p => exchange fuel uninit uninit' conn req = Panic p
  | Spin => False
  end.
Proof. apply exchange_spec. Qed.
End exchange.

(** ** Witness *)

Import Script.

#[local] Existing Instance ascii_lowercase.
#[local] Existing Instance named_http.
#[local] Existing Instance Simple.lib.
#[local] Existing Instance flag_connected.
#[local] Existing Instance numeric_status.

Definition plain_get : Request (list (bytes + io_error)) := Request_new GET example_url.

(** A peer with a good head, and one with a header line without a colon. *)
Lemma exchange_refines_witness :
  (∃ resp, exchange (BP:=true) (T:=script) 1 [] [] (peer 30 (example_head ++ b"hello")) plain_get
      = Ok resp ∧
    headers resp = HeaderMap_new [(b"content-length", b"5"); (b"x-a", b"b")] ∧
    reads_as (BP:=true) (body resp) (Some 5%N) (b"hello")) ∧
  exchange (BP:=true) (T:=script) 1 [] [] (peer 20 (b"HTTP/1.1 200 OK" ++ CRLF ++ b"oops" ++ CRLF2))
    plain_get = Err PARSE_HEADER_ERROR.
Proof.
  split.
  - pose proof (exchange_refines (BP:=true) (T:=script) 1 [] [] plain_get
      (peer 30 (example_head ++ b"hello")) _ _ _ (example_head ++ b"hello")
      eq_refl eq_refl eq_refl eq_refl) as H.
    assert (response_spec (BP:=true) (example_head ++ b"hello") =
      Ok ((200%N, b"1.1", [(b"content-length", b"5"); (b"x-a", b"b")]), b"hello")) as E
      by (vm_compute; reflexivity).
    rewrite E in H. destruct H as (resp & Hx & _ & Hh & Hr). exists resp. split_and!; [exact Hx|exact Hh|].
    exact Hr.
  - pose proof (exchange_refines (BP:=true) (T:=script) 1 [] [] plain_get
      (peer 20 (b"HTTP/1.1 200 OK" ++ CRLF ++ b"oops" ++ CRLF2)) _ _ _
      (b"HTTP/1.1 200 OK" ++ CRLF ++ b"oops" ++ CRLF2) eq_refl eq_refl eq_refl eq_refl) as H.
    assert (response_spec (BP:=true) (b"HTTP/1.1 200 OK" ++ CRLF ++ b"oops" ++ CRLF2) =
      Err PARSE_HEADER_ERROR) as E by (vm_compute; reflexivity).
    rewrite E in H. exact H.
Defined.
