(* ===== verification/Verdict.v ===== *)
(** * Which responses are taken

    Every response has a verdict: the client takes it, rejects it with an
    error, or crashes on it.  The verdict is a function of the lines of the
    head alone, stated without the parser: what its first word is, which
    pieces of its header lines are spaced in a way that trimming does not
    survive.  The client is shown to do what the verdict says, so the crashes
    named here are the only ones. *)
From S2P Require Import Prelude RustStd Httparse Io Uri Response Request Body Connect Client Exchange.

Inductive verdict :=
| Fine
| Rejected (e : io_error)
| Crashes.

(** An outcome is what the verdict says; a crash is an overflow or a slice out
    of range. *)
Definition judged {E A} (rejects : E → io_error → Prop) (v : verdict) (m : outcome E A) : Prop :=
  match m, v with
  | Ok _, Fine => True
  | Err e, Rejected e' => rejects e e'
  | Panic p, Crashes => p = SubOverflow ∨ p = SliceOob
  | _, _ => False
  end.

Section lines.
Context `{BP : Build}.

(** From its end, every second byte is a space, down to a single space; or down
    to nothing, when overflow is checked. *)
Fixpoint spaced (l : bytes) : bool :=
  match l with
  | [] => overflow_checks
  | [c] => bool_decide (c = SP)
  | c :: _ :: l => bool_decide (c = SP) && spaced l
  end.

Definition trim_crashes (l : bytes) : bool := spaced (rev l).

(** A header line is a name, a colon and a value, each of which is trimmed. *)
Definition field_verdict (line : bytes) : verdict :=
  match split_by (is_byte COLON) line with
  | [] => Crashes
  | name :: rest =>
      if trim_crashes name then Crashes
      else match rest with
      | [] => Rejected PARSE_HEADER_ERROR
      | value :: _ => if trim_crashes value then Crashes else Fine
      end
  end.

Fixpoint fields_verdict (lines : list bytes) : verdict :=
  match lines with
  | [] => Fine
  | line :: lines =>
      match field_verdict line with Fine => fields_verdict lines | v => v end
  end.

(** A status line has a first word longer than [HTTP], a code that starts with
    three digits, and a word after it. *)
Definition status_verdict (line : bytes) : verdict :=
  if decide (length (first_word line) < 4 ∨ first_word line = b"HTTP") then Crashes
  else match split_by (is_byte SP) line with
  | proto :: (c0 :: c1 :: c2 :: _) :: _ :: _ =>
      if bool_decide (take 4 proto = b"HTTP") && digits_ok c0 c1 c2 then Fine
      else Rejected PARSE_HEADER_ERROR
  | _ => Rejected PARSE_HEADER_ERROR
  end.

(** The lines of a text, up to an empty one. *)
Fixpoint head_lines (fuel : nat) (l : bytes) : list bytes :=
  match fuel with
  | O => []
  | S n => match find_sub CRLF l with
           | None | Some O => []
           | Some i => take i l :: head_lines n (drop (i + 2) l)
           end
  end.

Definition head_verdict (block : bytes) : verdict :=
  match find_sub CRLF block with
  | None => Fine
  | Some i =>
      match status_verdict (take i block) with
      | Fine => fields_verdict (head_lines (length block) (drop (i + 2) block))
      | v => v
      end
  end.

(** The head ends at the first empty line, within the first 4096 bytes. *)
Definition response_verdict (d : bytes) : verdict :=
  match find_sub CRLF2 (take BUF_LEN d) with
  | None => Rejected BROKEN_HEADERS
  | Some idx => head_verdict (take (idx + 4) d)
  end.

(** ** The parser does what the verdicts say *)

Lemma trim_crashes_snoc2 l c x :
  trim_crashes (l ++ [c; x]) = bool_decide (x = SP) && trim_crashes l.
Proof. unfold trim_crashes. by rewrite rev_app_distr. Qed.

Lemma rtrim_judged l :
  judged (E:=ParseError) (λ _ _, False) (if trim_crashes l then Crashes else Fine) (rtrim l).
Proof.
  induction l as [l IH] using (induction_ltof1 _ length). unfold ltof in IH.
  destruct (snoc2_cases l) as [->|[[x ->]|(k & c & x & ->)]].
  - rewrite rtrim_nil. unfold trim_crashes. cbn [rev spaced]. destruct overflow_checks; cbn; [by left|done].
  - unfold trim_crashes. cbn [rev app spaced]. case_bool_decide as Hx.
    + subst x. rewrite rtrim_space. destruct overflow_checks; cbn; tauto.
    + rewrite rtrim_stop; [done|done|cbn; congruence].
  - rewrite trim_crashes_snoc2. case_bool_decide as Hx; cbn [andb].
    + subst x. rewrite rtrim_snoc2. apply IH. len_lia.
    + rewrite rtrim_stop; [done|by destruct k|].
      replace (k ++ [c; x]) with ((k ++ [c]) ++ [x]) by by rewrite <-app_assoc.
      rewrite last_snoc. congruence.
Qed.

(** The errors of a line are all the same to the client. *)
Definition as_parse_error (_ : ParseError) (e : io_error) : Prop := e = PARSE_HEADER_ERROR.

Lemma parse_header_judged line : judged as_parse_error (field_verdict line) (parse_header line).
Proof.
  unfold parse_header, field_verdict.
  destruct (split_by_cons (is_byte COLON) line) as (name & ws & ->).
  cbn [iter_next unwrap]. rewrite bind_Ok. pose proof (rtrim_judged name) as Hn.
  destruct (trim_crashes name), (rtrim name) as [nm|e|p|]; cbn in Hn; try done.
  cbn [fmap outcome_fmap mbind outcome_bind]. destruct ws as [|value ws]; [done|].
  cbn [iter_next ok_or mbind outcome_bind]. pose proof (rtrim_judged value) as Hv.
  by destruct (trim_crashes value), (rtrim value) as [v|e|p|].
Qed.

Lemma parse_status_judged line : judged as_parse_error (status_verdict line) (parse_status line).
Proof.
  destruct (split_by_cons (is_byte SP) line) as (x & ws & Hs). unfold status_verdict.
  rewrite (parse_status_words _ _ _ Hs), Hs.
  assert (first_word line = x) as -> by (unfold first_word; by rewrite Hs).
  unfold status_of_words. case_decide as H.
  { destruct H as [H| ->]; [rewrite decide_True by done; by right|vm_compute; by right]. }
  rewrite (decide_False (P:=length x < 4)) by tauto. case_decide as H2.
  - rewrite bool_decide_false by done. by destruct ws as [|[|? [|? [|? ?]]] [|? ?]].
  - assert (take 4 x = b"HTTP") as Hx by (destruct (decide (take 4 x = b"HTTP")); tauto).
    pose proof (take4_http x Hx) as [_ Hx4].
    rewrite decide_False.
    2: { intros Hl. apply H. right. rewrite Hx4, drop_ge by lia. apply app_nil_r. }
    rewrite bool_decide_true by done. cbn [andb].
    destruct ws as [|[|c0 [|c1 [|c2 extra]]] [|reason ws]]; cbn [judged]; try done;
      by destruct (digits_ok c0 c1 c2).
Qed.

Context `{LC : Lowercase}.

(** One line of the head, as the loop sees it. *)
Definition same_error (e e' : io_error) : Prop := e = e'.

Lemma fields_judged n input hd :
  length input < n →
  judged same_error (fields_verdict (head_lines n input))
    (loop n parse_block_step ({| it_input := input; it_status_parsed := true |}, hd)).
Proof.
  revert input hd. induction n as [|n IH]; intros input [[st rs] hs] Hn; [lia|].
  cbn [loop head_lines parse_block_step].
  destruct (find_sub CRLF input) as [idx|] eqn:Hf.
  - rewrite (next_header_find _ _ _ Hf). cbn zeta. cbn [negb].
    pose proof (find_sub_length CRLF ltac:(done) _ _ Hf) as Hl. change (length CRLF) with 2 in Hl.
    destruct idx as [|i]; [done|].
    replace (0 <? len (take (S i) input))%N with true by (symmetry; apply N.ltb_lt; len_lia).
    cbn [fields_verdict]. pose proof (parse_header_judged (take (S i) input)) as Hp.
    destruct (field_verdict _), (parse_header (take (S i) input)) as [[nm v]|e'|p|]; cbn in Hp; try done.
    cbn [as_result lift map_err mbind outcome_bind field_item]. apply IH. rewrite length_drop. lia.
  - unfold next_header. cbn [it_input]. by rewrite Hf.
Qed.

Lemma parse_block_judged block : judged same_error (head_verdict block) (parse_block block).
Proof.
  unfold parse_block, head_verdict. cbn [loop parse_block_step].
  destruct (find_sub CRLF block) as [i|] eqn:Hf.
  - unfold parse_headers. rewrite (next_header_find _ _ _ Hf). cbn zeta. cbn [negb].
    pose proof (find_sub_length CRLF ltac:(done) _ _ Hf) as Hl. change (length CRLF) with 2 in Hl.
    pose proof (parse_status_judged (take i block)) as Hp.
    destruct (status_verdict _), (parse_status (take i block)) as [[[c v] r]|e'|p|]; cbn in Hp; try done.
    cbn [as_result lift map_err mbind outcome_bind status_item]. apply fields_judged.
    rewrite length_drop. lia.
  - unfold parse_headers, next_header. cbn [it_input]. by rewrite Hf.
Qed.

Lemma response_spec_judged d : judged same_error (response_verdict d) (response_spec d).
Proof.
  unfold response_spec, response_verdict. destruct (find_sub CRLF2 _) as [idx|]; [|done].
  pose proof (parse_block_judged (take (idx + 4) d)) as Hp.
  by destruct (head_verdict _), (parse_block _) as [[[st rs] hs]| | |].
Qed.
End lines.

Section exchange.
Context `{BP : Build, LC : Lowercase, HL : HttpLib, UL : UriLib, HY : HyperLib, SL : StatusLib}.
Context {T B : Type} `{CO : Conn T, DL : !Delivers T, RS : ReqStream B}.

(** C4: which responses are taken.  Once the request is sent, the client gives
    a response, an error or a panic as the verdict on the bytes says: it is
    taken when its status line and its header lines are in form, rejected with
    the error of the first line that is not, or for want of an empty line in
    4096 bytes, and it crashes the client, by an overflow or a slice out of
    range, only when the first word of the status line is [HTTP] or shorter,
    or a name or a value is spaced so that trimming runs off its start. *)
Theorem exchange_verdict fuel uninit uninit' (req : Request B) conn header conn1 conn2 d :
  build_req (rq_method req) (rq_uri req) (rq_headers req) = Ok header →
  io_write_all conn header = Ok conn1 →
  send_body fuel conn1 (rq_body req) = Ok conn2 →
  delivers conn2 d →
  match exchange fuel uninit uninit' conn req, response_verdict d with
  | Ok _, Fine => True
  | Err e, Rejected e' => e = e'
  | Panic p, Crashes => p = SubOverflow ∨ p = SliceOob
  | _, _ => False
  end.
Proof.
  intros Hb Hw Hs Hd.
  pose proof (exchange_spec fuel uninit uninit' req conn header conn1 conn2 d Hb Hw Hs Hd) as Hx.
  pose proof (response_spec_judged d) as Hj.
  destruct (response_spec d) as [[[[st rs] hs] payload]|e|p|]; [|by rewrite Hx..|done].
  by destruct Hx as (resp & -> & _).
Qed.
End exchange.

(** ** Witness *)

Module Examples.
Import Script.

#[local] Existing Instance ascii_lowercase.
#[local] Existing Instance named_http.
#[local] Existing Instance Simple.lib.
#[local] Existing Instance flag_connected.
#[local] Existing Instance numeric_status.

(** A head whose last header has this value. *)
Definition answer (value : bytes) : bytes :=
  b"HTTP/1.1 200 OK" ++ CRLF ++ b"X-A: " ++ value ++ CRLF2.

Definition answered (value : bytes) : outcome io_error (Response StatusCode (Body script)) :=
  exchange (BP:=false) (T:=script) 1 [] [] (peer 30 (answer value)) plain_get.

(** A value with two spaces after it is taken; one of spaces only, three or one
    with the space after the colon, crashes the client. *)
Lemma exchange_verdict_witness :
  (∃ resp, answered (b"v  ") = Ok resp) ∧ (∃ p, answered (b"  ") = Panic p) ∧
  (∃ p, answered (b"") = Panic p).
Proof.
  split_and!.
  all: match goal with |- context [answered ?v] =>
    pose proof (exchange_verdict (BP:=false) (T:=script) 1 [] [] plain_get (peer 30 (answer v)) _ _ _
      (answer v) eq_refl eq_refl eq_refl eq_refl) as H end.
  - replace (response_verdict (BP:=false) (answer (b"v  "))) with Fine in H by (vm_compute; reflexivity).
    unfold answered. destruct (exchange _ _ _ _ _) as [resp|e|p|]; [by exists resp|done..].
  - replace (response_verdict (BP:=false) (answer (b"  "))) with Crashes in H by (vm_compute; reflexivity).
    unfold answered. destruct (exchange _ _ _ _ _) as [resp|e|p|]; [done..|by exists p|done].
  - replace (response_verdict (BP:=false) (answer (b""))) with Crashes in H by (vm_compute; reflexivity).
    unfold answered. destruct (exchange _ _ _ _ _) as [resp|e|p|]; [done..|by exists p|done].
Defined.
End Examples.
