(* ===== verification/Relate.v ===== *)
(** * Streams that behave alike

    A simulation between two types of connections ([ConnSim]) carries through
    everything the client does with a connection: sending the request, reading
    the head and handing out the body.  The wrappers the connectors put around
    a stream are such simulations, so the client cannot tell them from the
    stream inside.  [fetch] is the program of [src/examples/simple.rs]. *)
From S2P Require Import Prelude RustStd Httparse Io Uri Response Request Body Connect Client.

(** ** Related outcomes *)

(** The same outcome, with related values. *)
Definition outcome_rel {E A B} (R : A → B → Prop) (m : outcome E A) (m' : outcome E B) : Prop :=
  match m, m' with
  | Ok a, Ok a' => R a a'
  | Err e, Err e' => e = e'
  | Panic p, Panic p' => p = p'
  | Spin, Spin => True
  | _, _ => False
  end.

Definition step_rel {S S' R R'} (I : S → S' → Prop) (J : R → R' → Prop)
    (x : step S R) (x' : step S' R') : Prop :=
  match x, x' with
  | Continue s, Continue s' => I s s'
  | Break r, Break r' => J r r'
  | _, _ => False
  end.

Definition pair_rel {A A' B B'} (R : A → A' → Prop) (R' : B → B' → Prop)
    (x : A * B) (y : A' * B') : Prop := R x.1 y.1 ∧ R' x.2 y.2.

Lemma outcome_rel_eq {E A} (m m' : outcome E A) : outcome_rel (=) m m' ↔ m = m'.
Proof. destruct m, m'; cbn; split; congruence || done. Qed.

Lemma outcome_rel_impl {E A B} (R R' : A → B → Prop) (m : outcome E A) m' :
  (∀ a b, R a b → R' a b) → outcome_rel R m m' → outcome_rel R' m m'.
Proof. destruct m, m'; cbn; eauto. Qed.

Lemma outcome_rel_bind {E A B A' B'} (R : A → B → Prop) (R' : A' → B' → Prop)
    (m : outcome E A) m' (f : A → outcome E A') (g : B → outcome E B') :
  outcome_rel R m m' → (∀ a b, R a b → outcome_rel R' (f a) (g b)) →
  outcome_rel R' (m ≫= f) (m' ≫= g).
Proof. destruct m, m'; cbn; eauto || done. Qed.

(** The same first computation on both sides. *)
Lemma outcome_rel_bind_same {E A A' B'} (R' : A' → B' → Prop)
    (m : outcome E A) (f : A → outcome E A') (g : A → outcome E B') :
  (∀ a, outcome_rel R' (f a) (g a)) → outcome_rel R' (m ≫= f) (m ≫= g).
Proof. intros Hf. apply (outcome_rel_bind (=)); [by apply outcome_rel_eq|]. by intros a ? <-. Qed.

Lemma outcome_rel_loop {E S S' R R'} (I : S → S' → Prop) (J : R → R' → Prop)
    (body : S → outcome E (step S R)) (body' : S' → outcome E (step S' R')) n s s' :
  (∀ s s', I s s' → outcome_rel (step_rel I J) (body s) (body' s')) → I s s' →
  outcome_rel J (loop n body s) (loop n body' s').
Proof.
  intros Hb HI. apply (loop_sim body body' I J); [|done].
  intros t t' Ht. specialize (Hb t t' Ht).
  by destruct (body t) as [[]| | |], (body' t') as [[]| | |].
Qed.

#[export] Hint Resolve outcome_rel_bind_same : http.

(** ** Related connections *)

(** Every operation on related connections gives the same bytes, errors and
    panics, and related connections again. *)
Class ConnSim {T T' : Type} `{CO : Conn T, CO' : Conn T'} (R : T → T' → Prop) := {
  sim_read t t' n : R t t' →
    outcome_rel (pair_rel (=) R) (io_read t n) (io_read t' n);
  sim_write_all t t' bs : R t t' → outcome_rel R (io_write_all t bs) (io_write_all t' bs);
  sim_poll_read t t' n : R t t' → pair_rel (=) R (poll_read t n) (poll_read t' n)
}.

Section sim.
Context `{BP : Build, LC : Lowercase, HL : HttpLib, UL : UriLib, HY : HyperLib, SL : StatusLib}.
Context {T T' : Type} `{CO : Conn T, CO' : Conn T'} (R : T → T' → Prop) `{CS : !ConnSim R}.

(** *** The request *)

Lemma send_step_sim {B} `{RS : ReqStream B} (s : T * B) (s' : T' * B) :
  pair_rel R (=) s s' →
  outcome_rel (step_rel (pair_rel R (=)) R) (send_step s) (send_step s').
Proof.
  destruct s as [t x], s' as [t' x']. intros [Ht [= <-]]. cbn [fst] in Ht. unfold send_step.
  destruct (next_chunk x) as [[res y]|]; [|done].
  apply outcome_rel_bind_same. intros chunk.
  apply (outcome_rel_bind R); [by apply sim_write_all|]. by intros u u' Hu.
Qed.

Lemma send_body_sim {B} `{RS : ReqStream B} fuel t t' (body : option B) :
  R t t' → outcome_rel R (send_body fuel t body) (send_body fuel t' body).
Proof.
  intros Ht. unfold send_body. destruct body; [|done].
  apply (outcome_rel_loop (pair_rel R (=))); [apply send_step_sim|done].
Qed.

(** *** The head *)

Lemma recv_step_sim t t' buf k :
  R t t' →
  outcome_rel (step_rel (pair_rel (pair_rel R (=)) (=)) (pair_rel (=) R))
    (recv_step (t, buf, k)) (recv_step (t', buf, k)).
Proof.
  intros Ht. unfold recv_step. apply outcome_rel_bind_same. intros free.
  apply (outcome_rel_bind (pair_rel (=) R)); [by apply sim_read|].
  intros [bs u] [bs' u'] [[= <-] Hu]. cbn [snd] in Hu. case_decide; [done|].
  destruct (find_sub _ _); [|done].
  do 3 (apply outcome_rel_bind_same; intros ?). done.
Qed.

Lemma recv_head_sim uninit t t' :
  R t t' → outcome_rel (pair_rel (=) R) (recv_head uninit t) (recv_head uninit t').
Proof.
  intros Ht. unfold recv_head.
  apply (outcome_rel_loop (pair_rel (pair_rel R (=)) (=))); [|done].
  intros [[u buf] k] [[u' buf'] k'] [[Hu [= <-]] [= <-]]. by apply recv_step_sim.
Qed.

(** *** Bodies and responses *)

Inductive reader_sim : Reader T → Reader T' → Prop :=
| slice_sim l : reader_sim (FromSlice l) (FromSlice l)
| conn_sim t t' : R t t' → reader_sim (FromConn t) (FromConn t').

(** Bodies that differ in their readers only. *)
Record body_sim (bd : Body T) (bd' : Body T') : Prop := BodySim {
  bs_drained : drained bd = drained bd';
  bs_rest : rest bd = rest bd';
  bs_buf : buf bd = buf bd';
  bs_counter : counter bd = counter bd';
  bs_limit : content_length bd = content_length bd';
  bs_reader : reader_sim (reader bd) (reader bd')
}.

Lemma reader_poll_sim r r' n :
  reader_sim r r' → pair_rel (=) reader_sim (reader_poll_read r n) (reader_poll_read r' n).
Proof.
  intros [l|t t' Ht]; cbn; [by repeat constructor|].
  pose proof (sim_poll_read t t' n Ht) as [Hp Hr].
  destruct (poll_read t n), (poll_read t' n). by repeat constructor.
Qed.

Lemma poll_next_sim bd bd' :
  body_sim bd bd' →
  outcome_rel (pair_rel (=) body_sim) (poll_next bd) (poll_next bd').
Proof.
  destruct bd as [? ? ? ? ? r], bd' as [dr rst bf k lim r'].
  intros [Hd Hrs Hb Hk Hl Hr]. cbn in *. subst. unfold poll_next. body_cbn.
  destruct dr; [by repeat constructor|]. destruct rst; [by repeat constructor|].
  pose proof (reader_poll_sim r r' (length bf) Hr) as [Hp Hr'].
  destruct (reader_poll_read r _) as [p u], (reader_poll_read r' _) as [p' u'].
  cbn in Hp, Hr'. subst p'. destruct p as [|bs|e]; [by repeat constructor| |by repeat constructor].
  do 2 (apply outcome_rel_bind_same; intros ?).
  destruct (0 <? _)%N; [|by repeat constructor].
  apply outcome_rel_bind_same. intros ?. by repeat constructor.
Qed.

Lemma collect_body_sim n bd bd' : body_sim bd bd' → collect_body n bd = collect_body n bd'.
Proof.
  intros Hb. apply outcome_rel_eq. unfold collect_body.
  apply (outcome_rel_loop (pair_rel (=) body_sim)); [|done].
  intros [o u] [o' u'] [[= <-] Hu]. cbn [snd] in Hu. unfold collect_body_step.
  apply (outcome_rel_bind (pair_rel (=) body_sim)); [by apply poll_next_sim|].
  intros [p v] [p' v'] [[= <-] Hv]. cbn [snd] in Hv.
  destruct p as [|[[chunk|e]|]|[]]; cbn; try done.
Qed.

(** Responses with the same status and headers, and related bodies. *)
Definition response_sim (r : Response StatusCode (Body T)) (r' : Response StatusCode (Body T'))
    : Prop :=
  status_code r = status_code r' ∧ headers r = headers r' ∧ body_sim (body r) (body r').

Lemma exchange_sim {B} `{RS : ReqStream B} fuel uninit uninit' t t' (req : Request B) :
  R t t' →
  outcome_rel response_sim (exchange fuel uninit uninit' t req)
    (exchange fuel uninit uninit' t' req).
Proof.
  intros Ht. unfold exchange. apply outcome_rel_bind_same. intros header.
  apply (outcome_rel_bind R); [by apply sim_write_all|]. intros t1 t1' Ht1.
  apply (outcome_rel_bind R); [by apply send_body_sim|]. intros t2 t2' Ht2.
  apply (outcome_rel_bind (pair_rel (=) R)); [by apply recv_head_sim|].
  intros [[hd rst] t3] [[hd' rst'] t3'] [[= <- <-] Ht3]. cbn [snd] in Ht3.
  destruct hd as [[st rs] hs]. unfold Response_new. apply outcome_rel_bind_same. intros s.
  split_and!; [done..|]. by repeat constructor.
Qed.
End sim.

(** ** Related connectors *)

(** Computations that leave the same world and have related outcomes. *)
Definition io_rel {W A B} (R : A → B → Prop) (m : outcome io_error A * W)
    (m' : outcome io_error B * W) : Prop := outcome_rel R m.1 m'.1 ∧ m.2 = m'.2.

Section request.
Context `{BP : Build, LC : Lowercase, HL : HttpLib, UL : UriLib, HY : HyperLib, SL : StatusLib}.
Context {T T' W C C' B : Type} `{CO : Conn T, CO' : Conn T', RS : ReqStream B}.
Context `{CN : !Connect W C T, CN' : !Connect W C' T'} (R : T → T' → Prop) `{CS : !ConnSim R}.

(** The connections two connectors give for a destination, when they are
    related. *)
Definition connect_sim (c : C) (c' : C') (dst : Destination) (w : W) : Prop :=
  io_rel (λ x y, R x.1 y.1) (connect c dst w) (connect c' dst w).

Lemma request_sim fuel uninit uninit' c c' (req : Request B) w :
  connect_sim c c' (MkDestination (rq_uri req)) w →
  io_rel (response_sim R) (request fuel uninit uninit' (MkClient c) req w)
    (request fuel uninit uninit' (MkClient c') req w).
Proof.
  unfold connect_sim, request. cbn [inner].
  destruct (connect c _ w) as [r w1], (connect c' _ w) as [r' w1']. intros [Hr Hw].
  split; [|done]. apply (outcome_rel_bind (λ x y, R x.1 y.1)); [done|].
  intros [t ?] [t' ?] Ht. by apply exchange_sim.
Qed.
End request.

(** A stream behaves like itself, and simulations compose. *)
#[export] Instance ConnSim_eq `{CO : Conn T} : ConnSim (T:=T) (=).
Proof.
  split.
  - intros t ? n <-. by destruct (io_read t n) as [[]| | |].
  - intros t ? bs <-. by destruct (io_write_all t bs).
  - by intros t ? n <-.
Qed.

Definition rel_compose {A B C} (R : A → B → Prop) (R' : B → C → Prop) (a : A) (c : C) : Prop :=
  ∃ b, R a b ∧ R' b c.

#[export] Instance ConnSim_compose {T1 T2 T3} `{C1 : Conn T1, C2 : Conn T2, C3 : Conn T3}
    (R : T1 → T2 → Prop) (R' : T2 → T3 → Prop) `{CS : !ConnSim R, CS' : !ConnSim R'} :
  ConnSim (rel_compose R R').
Proof.
  split.
  - intros t1 t3 n (t2 & Ht1 & Ht2).
    pose proof (sim_read _ _ n Ht1) as E. pose proof (sim_read _ _ n Ht2) as E'.
    destruct (io_read t1 n) as [[]| | |], (io_read t2 n) as [[]| | |],
      (io_read t3 n) as [[]| | |]; cbn in *; try done; try congruence.
    destruct E, E'; cbn in *. split; cbn; [congruence|by eexists].
  - intros t1 t3 bs (t2 & Ht1 & Ht2).
    pose proof (sim_write_all _ _ bs Ht1). pose proof (sim_write_all _ _ bs Ht2).
    destruct (io_write_all t1 bs), (io_write_all t2 bs), (io_write_all t3 bs);
      cbn in *; try done; try congruence. by eexists.
  - intros t1 t3 n (t2 & Ht1 & Ht2).
    pose proof (sim_poll_read _ _ n Ht1) as [? ?]. pose proof (sim_poll_read _ _ n Ht2) as [? ?].
    split; [congruence|by eexists].
Qed.

(** ** The example program *)

Section fetch.
Context `{BP : Build, LC : Lowercase, HL : HttpLib, UL : UriLib, HY : HyperLib, SL : StatusLib}.

(** [unwrap], the status, the loop over the body and the text of all its
    bytes: what the program prints of a result of [client.request(req)]. *)
Definition consume {T} `{CO : Conn T} (n : nat)
    (r : outcome io_error (Response StatusCode (Body T))) : outcome Empty_set (StatusCode * bytes) :=
  r ← as_result r;
  res ← unwrap (match r with inl res => Some res | inr _ => None end);
  let code := Response_status res in
  b ← collect_body n (Response_into_body res);
  Ok (code, from_utf8_lossy b).

Definition fetch {W C T B} `{CO : Conn T, CN : !Connect W C T, RS : ReqStream B}
    (fuel : nat) (uninit uninit' : bytes) (n : nat) (connector : C) (req : Request B) (w : W)
    : outcome Empty_set (StatusCode * bytes) * W :=
  let client := Client_new connector in
  let '(r, w) := request fuel uninit uninit' client req w in
  (consume n r, w).

Lemma consume_sim {T T'} `{CO : Conn T, CO' : Conn T'} (R : T → T' → Prop) `{CS : !ConnSim R} n r r' :
  outcome_rel (response_sim R) r r' → consume n r = consume n r'.
Proof.
  destruct r as [res|e|p|], r' as [res'|e'|p'|]; cbn; try done; [|congruence].
  intros (Hs & _ & Hb). unfold Response_status, Response_into_body.
  by rewrite Hs, (collect_body_sim R n _ _ Hb).
Qed.
End fetch.
