(* ===== verification/Tunnel.v ===== *)
(** * The CONNECT tunnel: [src/src/proxy/tunnel.rs]

    [tunnel::new] prints the request, [Tunnel::poll] writes it and reads the
    reply.  The header map and the stream are third-party: the classes
    [HeaderLib] and [BufStream]; [Observed] and [Reliable] are what is assumed
    of streams in the theorems that need it. *)
From S2P Require Import Prelude RustStd Io Uri Connect.

(** [http::HeaderMap]: iterating it gives names and values in some order;
    [HeaderValue::to_str] fails on a value that is not visible ASCII. *)
Class HeaderLib := {
  HMap : Type;
  HValue : Type;
  hm_empty : HMap;
  hm_insert : HMap → bytes → HValue → HMap;
  hm_iter : HMap → list (bytes * HValue);
  to_str : HValue → option bytes;
  hm_iter_empty : hm_iter hm_empty = [];
  hm_iter_insert m k v : (k, v) ∈ hm_iter (hm_insert m k v);
  hm_iter_insert_ne m k v k' v' :
    k' ≠ k → ((k', v') ∈ hm_iter (hm_insert m k v) ↔ (k', v') ∈ hm_iter m)
}.

(** An instance: a list without double names, values that are all texts. *)
Definition list_headers : HeaderLib.
Proof.
  refine {| HMap := list (bytes * bytes); HValue := bytes; hm_empty := [];
            hm_insert m k v := (k, v) :: filter (λ kv, kv.1 ≠ k) m;
            hm_iter m := m; to_str v := if decide (no_crlf v) then Some v else None |}.
  - done.
  - intros m k v. left.
  - intros m k v k' v' Hne. rewrite elem_of_cons, list_elem_of_filter. cbn.
    split; [intros [[=]|[_ ?]]; done|intros ?; by right].
Defined.

Inductive TunnelState := Writing | Reading.

Record TunnelConnect := MkTunnelConnect { tc_buf : bytes }.

Definition EOF_WRITING : io_error := IoError Other (b"unexpected EOF while tunnel writing").
Definition EOF_READING : io_error := IoError Other (b"unexpected EOF while tunnel reading").
Definition UNSUCCESSFUL : io_error := IoError Other (b"unsuccessful tunnel").

(** [slice::starts_with] and [slice::ends_with]. *)
Definition starts_with (l p : bytes) : bool := bool_decide (take (length p) l = p).
Definition ends_with (l p : bytes) : bool :=
  bool_decide (length p ≤ length l ∧ drop (length l - length p) l = p).

Section tunnel.
Context `{HY : HyperLib, HDR : HeaderLib} {S : Type} `{BS : BufStream S}.

(** The cursor is the vector [tn_buf] and the position [tn_pos]. *)
Record Tunnel := MkTunnel {
  tn_buf : bytes;
  tn_pos : nat;
  tn_stream : option S;
  tn_connected : option Connected;
  tn_state : TunnelState
}.

Definition with_stream (self : TunnelConnect) (stream : S) (connected : Connected) : Tunnel := {|
  tn_buf := tc_buf self;
  tn_pos := 0;
  tn_stream := Some stream;
  tn_connected := Some connected;
  tn_state := Writing
|}.

(** [HeadersDisplay]: [None] is [fmt::Error]. *)
Fixpoint headers_display (l : list (bytes * HValue)) : option bytes :=
  match l with
  | [] => Some []
  | (key, value) :: l =>
      value_str ← to_str value;
      tail ← headers_display l;
      Some (key ++ b": " ++ value_str ++ CRLF ++ tail)
  end.

(** [format!] panics when a [Display] gives an error. *)
Definition tunnel_new (host : bytes) (port : N) (headers : HMap) : outcome io_error TunnelConnect :=
  hs ← expect (headers_display (hm_iter headers))
              "a formatting trait implementation returned an error";
  let target := host ++ b":" ++ dec port in
  Ok {| tc_buf := b"CONNECT " ++ target ++ b" HTTP/1.1" ++ CRLF ++
                  b"Host: " ++ target ++ CRLF ++ hs ++ CRLF |}.

Definition set_stream (self : Tunnel) (s : S) : Tunnel :=
  MkTunnel (tn_buf self) (tn_pos self) (Some s) (tn_connected self) (tn_state self).

(** One turn of the loop of [poll]. *)
Definition tunnel_step (self : Tunnel)
    : outcome Empty_set (step Tunnel (poll (S * Connected) io_error * Tunnel)) :=
  s ← unwrap (tn_stream self);
  match tn_state self with
  | Writing =>
      let '(p, s) := write_buf s (drop (tn_pos self) (tn_buf self)) in
      let self := set_stream self s in
      match p with
      | NotReady => Ok (Break (NotReady, self))
      | Failed e => Ok (Break (Failed e, self))
      | Ready n =>
          let pos := tn_pos self + n in
          if decide (length (tn_buf self) - pos = 0) then
            Ok (Continue (MkTunnel [] pos (tn_stream self) (tn_connected self) Reading))
          else
            let self := MkTunnel (tn_buf self) pos (tn_stream self) (tn_connected self) Writing in
            if decide (n = 0) then Ok (Break (Failed EOF_WRITING, self))
            else Ok (Continue self)
      end
  | Reading =>
      let '(p, s) := read_buf s (tn_buf self) in
      let self := set_stream self s in
      match p with
      | NotReady => Ok (Break (NotReady, self))
      | Failed e => Ok (Break (Failed e, self))
      | Ready bs =>
          let read := tn_buf self ++ bs in
          let self := MkTunnel read (tn_pos self) (tn_stream self) (tn_connected self) Reading in
          if decide (length bs = 0) then Ok (Break (Failed EOF_READING, self))
          else if decide (12 < length read) then
            if starts_with read (b"HTTP/1.1 200") || starts_with read (b"HTTP/1.0 200") then
              if ends_with read CRLF2 then
                s ← unwrap (tn_stream self);
                c ← unwrap (tn_connected self);
                Ok (Break (Ready (s, connected_proxy c true),
                           MkTunnel read (tn_pos self) None None Reading))
              else Ok (Continue self)
            else Ok (Break (Failed UNSUCCESSFUL, self))
          else Ok (Continue self)
      end
  end.

(** The loop has no bound of its own: [fuel] is for the reads that are ready. *)
Definition tunnel_poll (fuel : nat) (self : Tunnel)
    : outcome Empty_set (poll (S * Connected) io_error * Tunnel) :=
  match tn_stream self, tn_connected self with
  | Some _, Some _ => loop fuel tunnel_step self
  | _, _ => Panic (Expect "must not poll after future is complete")
  end.

(** Awaiting the future: polling it, with [fuel] each time, until it is ready
    or fails. *)
Definition await_step (fuel : nat) (self : Tunnel)
    : outcome Empty_set (step Tunnel (poll (S * Connected) io_error * Tunnel)) :=
  '(p, self) ← tunnel_poll fuel self;
  match p with
  | NotReady => Ok (Continue self)
  | _ => Ok (Break (p, self))
  end.

Definition tunnel_await (fuel polls : nat) (self : Tunnel)
    : outcome Empty_set (poll (S * Connected) io_error * Tunnel) :=
  loop polls (await_step fuel) self.
End tunnel.
Arguments Tunnel {_} S.

(** ** Streams *)

(** What can be observed of a stream: what has been written to it, and what
    its peer sends.  Writing appends a part of what it is given, reading takes
    the next bytes, and an operation that is not ready does neither. *)
Class Observed (S : Type) `{BS : BufStream S} := {
  written : S → bytes;
  incoming : S → bytes → Prop;
  observed_write s bs d :
    incoming s d →
    match write_buf s bs with
    | (Ready n, s') => n ≤ length bs ∧ written s' = written s ++ take n bs ∧ incoming s' d
    | (NotReady, s') => written s' = written s ∧ incoming s' d
    | (Failed _, _) => True
    end;
  observed_read s v d :
    incoming s d →
    match read_buf s v with
    | (Ready bs, s') => written s' = written s ∧ ∃ d', d = bs ++ d' ∧ incoming s' d'
    | (NotReady, s') => written s' = written s ∧ incoming s' d
    | (Failed _, _) => True
    end
}.

(** A stream that does not fail: a write takes at least a byte, a read gives
    none only at the end, and [idle] bounds the polls that are not ready. *)
Class Reliable (S : Type) `{OB : Observed S} := {
  idle : S → nat;
  reliable_write s bs d :
    incoming s d → bs ≠ [] →
    match write_buf s bs with
    | (Ready n, _) => 0 < n
    | (NotReady, s') => idle s' < idle s
    | (Failed _, _) => False
    end;
  reliable_read s v d :
    incoming s d →
    match read_buf s v with
    | (Ready bs, _) => bs = [] → d = []
    | (NotReady, s') => idle s' < idle s
    | (Failed _, _) => False
    end
}.
(** ** The verdict on a reply *)

(** The reply so far has a 200 status. *)
Definition status_200 (read : bytes) : bool :=
  (12 <? length read) &&
  (starts_with read (b"HTTP/1.1 200") || starts_with read (b"HTTP/1.0 200")).

(** A reply that establishes the tunnel: status 200 and an empty line last. *)
Definition accepted (read : bytes) : bool := status_200 read && ends_with read CRLF2.

Lemma starts_with_app p l r : length p ≤ length l → starts_with (l ++ r) p = starts_with l p.
Proof. intros Hl. unfold starts_with. by rewrite take_app_le. Qed.

Lemma status_200_app l r : 12 < length l → status_200 (l ++ r) = status_200 l.
Proof.
  intros Hl. unfold status_200. rewrite !starts_with_app by len_lia.
  rewrite length_app. by rewrite !(proj2 (Nat.ltb_lt _ _)) by lia.
Qed.

(** A head of lines and an empty line ends with one. *)
Lemma ends_with_app l p : ends_with (l ++ p) p = true.
Proof.
  apply bool_decide_eq_true. rewrite length_app. split; [lia|].
  by rewrite Nat.add_sub, drop_app_length.
Qed.

Lemma accepted_lines line lines :
  line ≠ [] → take 12 line ∈ [b"HTTP/1.1 200"; b"HTTP/1.0 200"] →
  accepted (end_lines (line :: lines) ++ CRLF) = true.
Proof.
  intros Hne Hst.
  assert (12 ≤ length line) as H12.
  { assert (length (take 12 line) = 12) as Hl; [|rewrite length_take in Hl; lia].
    by apply list_elem_of_In in Hst as [<-|[<-|[]]]. }
  apply andb_true_intro. split.
  - unfold end_lines. cbn [map concat]. rewrite <-!app_assoc. rewrite app_assoc.
    rewrite status_200_app by (rewrite length_app; cbn [length CRLF]; lia).
    unfold status_200. rewrite length_app, !starts_with_app by done. cbn [length CRLF].
    rewrite (proj2 (Nat.ltb_lt _ _)) by lia. unfold starts_with.
    change (length (b"HTTP/1.1 200")) with 12. change (length (b"HTTP/1.0 200")) with 12.
    apply list_elem_of_In in Hst as [<-|[<-|[]]]; by rewrite ?bool_decide_true by done.
  - induction lines as [|l ls _] using rev_ind.
    + unfold end_lines. cbn [map concat]. rewrite app_nil_r, <-app_assoc. apply (ends_with_app line CRLF2).
    + unfold end_lines. rewrite app_comm_cons, map_app, concat_app.
      generalize (concat (map (λ l, l ++ CRLF) (line :: ls))). intros h. cbn [map concat].
      rewrite app_nil_r, <-!app_assoc, app_assoc. apply (ends_with_app (h ++ l) CRLF2).
Qed.

Section tunnel_facts.
Context `{HY : HyperLib, HDR : HeaderLib} {T : Type} `{OB : Observed T}.
Context (w0 req d0 : bytes) (c : Connected).

(** The tunnel while it runs: what is written is the part of the request the
    cursor has passed, and the buffer holds the reply read so far. *)
Definition running (self : Tunnel T) : Prop :=
  tn_connected self = Some c ∧ ∃ s, tn_stream self = Some s ∧
  match tn_state self with
  | Writing => tn_buf self = req ∧ tn_pos self ≤ length req ∧
      (req ≠ [] → tn_pos self < length req) ∧
      written s = w0 ++ take (tn_pos self) req ∧ incoming s d0
  | Reading => written s = w0 ++ req ∧ accepted (tn_buf self) = false ∧
      (12 < length (tn_buf self) → status_200 (tn_buf self) = true) ∧
      ∃ d, d0 = tn_buf self ++ d ∧ incoming s d
  end.

(** What the future may give. *)
Definition verdict (out : poll (T * Connected) io_error) : Prop :=
  match out with
  | NotReady => True
  | Ready (s, c') => c' = connected_proxy c true ∧ written s = w0 ++ req ∧
      ∃ reply d, d0 = reply ++ d ∧ accepted reply = true ∧ incoming s d
  | Failed e => True
  end.

Lemma tunnel_step_writing self s :
  tn_state self = Writing → tn_stream self = Some s → running self →
  match tunnel_step self with
  | Ok (Continue self') => running self'
  | Ok (Break (out, self')) => verdict out ∧ (out = NotReady → running self')
  | _ => False
  end.
Proof.
  destruct self as [buf pos st co state]. unfold running. cbn.
  intros -> -> (-> & s' & [= <-] & -> & Hp & Hlt & Hw & Hi).
  unfold tunnel_step. cbn [tn_stream unwrap tn_state tn_buf tn_pos tn_connected].
  rewrite bind_Ok. pose proof (observed_write s (drop pos req) d0 Hi) as Ho.
  destruct (write_buf s (drop pos req)) as [[|n|e] s'].
  - destruct Ho as [Hw' Hi']. split; [done|]. intros _. split; [done|]. exists s'.
    cbn. split_and!; try done. congruence.
  - destruct Ho as (Hn & Hw' & Hi'). rewrite length_drop in Hn.
    assert (written s' = w0 ++ take (pos + n) req) as Hw2.
    { by rewrite Hw', Hw, <-app_assoc, take_take_drop. }
    cbn [set_stream tn_buf tn_pos tn_stream tn_connected].
    case_decide as Hd; [|case_decide as Hz].
    + split; [done|]. exists s'. cbn. rewrite take_ge in Hw2 by lia.
      split_and!; try done; [lia|by exists d0].
    + done.
    + split; [done|]. exists s'. cbn. split_and!; try done; lia.
  - done.
Qed.

Lemma accepted_status_200 read : accepted read = true → status_200 read = true.
Proof. unfold accepted. by intros [? _]%andb_prop. Qed.

Lemma tunnel_step_reading self s :
  tn_state self = Reading → tn_stream self = Some s → running self →
  match tunnel_step self with
  | Ok (Continue self') => running self'
  | Ok (Break (out, self')) => verdict out ∧ (out = NotReady → running self')
  | _ => False
  end.
Proof.
  destruct self as [buf pos st co state]. unfold running. cbn.
  intros -> -> (-> & s' & [= <-] & Hw & Ha & H200 & d & -> & Hi).
  unfold tunnel_step. cbn [tn_stream unwrap tn_state tn_buf tn_pos tn_connected].
  rewrite bind_Ok. pose proof (observed_read s buf d Hi) as Ho.
  destruct (read_buf s buf) as [[|bs|e] s'].
  - destruct Ho as [Hw' Hi']. split; [done|]. intros _. split; [done|]. exists s'.
    cbn. split_and!; try done; [congruence|]. eauto.
  - destruct Ho as (Hw' & d' & -> & Hi'). cbn [set_stream tn_buf tn_pos tn_stream tn_connected].
    case_decide; [done|].
    destruct (decide (12 < length (buf ++ bs))) as [Hlt|Hlt].
    + assert (status_200 (buf ++ bs) =
        starts_with (buf ++ bs) (b"HTTP/1.1 200") || starts_with (buf ++ bs) (b"HTTP/1.0 200")) as E.
      { unfold status_200. by rewrite (proj2 (Nat.ltb_lt _ _) Hlt). }
      rewrite <-E. destruct (status_200 (buf ++ bs)) eqn:E2; [|done].
      destruct (ends_with (buf ++ bs) CRLF2) eqn:E3; cbn [unwrap mbind outcome_bind].
      * split; [|done]. split_and!; [done|congruence|]. exists (buf ++ bs), d'.
        split_and!; [by rewrite <-app_assoc| |done]. unfold accepted. by rewrite E2, E3.
      * split; [done|]. exists s'. cbn. split_and!; try done;
        [congruence| |exists d'; by rewrite <-app_assoc].
        unfold accepted. by rewrite E3, andb_false_r.
    + split; [done|]. exists s'. cbn. split_and!; try done; 
      [congruence| |exists d'; by rewrite <-app_assoc].
      unfold accepted, status_200. by rewrite (proj2 (Nat.ltb_ge _ _)) by lia.
  - done.
Qed.

Lemma tunnel_step_running self :
  running self →
  match tunnel_step self with
  | Ok (Continue self') => running self'
  | Ok (Break (out, self')) => verdict out ∧ (out = NotReady → running self')
  | _ => False
  end.
Proof.
  intros Hr. pose proof Hr as (_ & s & Hs & _).
  destruct (tn_state self) eqn:Est;
    [by eapply tunnel_step_writing|by eapply tunnel_step_reading].
Qed.

(** ** Progress on reliable streams *)

(** Why the future fails, when the stream does not: the reply [d0] has another
    status, or it ends without establishing the tunnel. *)
Definition failure (e : io_error) : Prop :=
  (e = UNSUCCESSFUL ∧ 12 < length d0 ∧ status_200 d0 = false) ∨
  (e = EOF_READING ∧ accepted d0 = false ∧ (12 < length d0 → status_200 d0 = true)).

(** The bytes left to write and to read, and the polls left to wait. *)
Definition work (self : Tunnel T) : nat :=
  match tn_state self with
  | Writing => (length req - tn_pos self) + length d0 + 1
  | Reading => length d0 - length (tn_buf self)
  end.

Definition tn_idle `{RB : !Reliable T} (self : Tunnel T) : nat :=
  match tn_stream self with Some s => idle s | None => 0 end.

Definition progress `{RB : !Reliable T} (self : Tunnel T)
    (r : step (Tunnel T) (poll (T * Connected) io_error * Tunnel T)) : Prop :=
  match r with
  | Continue self' => work self' < work self
  | Break (NotReady, self') => work self' = work self ∧ tn_idle self' < tn_idle self
  | Break (Ready _, _) => True
  | Break (Failed e, _) => failure e
  end.

Lemma tunnel_progress_writing `{RB : !Reliable T} self r :
  req ≠ [] → tn_state self = Writing → running self → tunnel_step self = Ok r → progress self r.
Proof.
  intros Hne. destruct self as [buf pos st co state]. unfold running. cbn.
  intros -> (-> & s & -> & -> & Hp & Hlt & Hw & Hi). specialize (Hlt Hne).
  unfold tunnel_step. cbn [tn_stream unwrap tn_state tn_buf tn_pos tn_connected].
  rewrite bind_Ok.
  assert (drop pos req ≠ []) as Hd.
  { intros E%(f_equal length). rewrite length_drop in E. cbn in E. lia. }
  pose proof (observed_write s (drop pos req) d0 Hi) as Ho.
  pose proof (reliable_write s (drop pos req) d0 Hi Hd) as Hr.
  destruct (write_buf s (drop pos req)) as [[|n|e] s'].
  - by intros [= <-].
  - cbn [set_stream tn_buf tn_pos tn_stream tn_connected].
    case_decide; [|case_decide; [lia|]]; intros [= <-]; unfold progress, work; cbn; lia.
  - done.
Qed.

Lemma reply_app l r :
  (12 < length l → status_200 l = true) → 12 < length (l ++ r) →
  status_200 (l ++ r) = true ∨ length l ≤ 12.
Proof.
  intros Hl Hr. destruct (decide (12 < length l)); [|right; lia].
  left. rewrite status_200_app; auto.
Qed.

Lemma tunnel_progress_reading `{RB : !Reliable T} self r :
  tn_state self = Reading → running self → tunnel_step self = Ok r → progress self r.
Proof.
  destruct self as [buf pos st co state]. unfold running. cbn.
  intros -> (-> & s & -> & Hw & Ha & H200 & d & Hd & Hi).
  unfold tunnel_step. cbn [tn_stream unwrap tn_state tn_buf tn_pos tn_connected].
  rewrite bind_Ok. pose proof (observed_read s buf d Hi) as Ho.
  pose proof (reliable_read s buf d Hi) as Hr.
  destruct (read_buf s buf) as [[|bs|e] s'].
  - by intros [= <-].
  - destruct Ho as (Hw' & d' & -> & Hi'). cbn [set_stream tn_buf tn_pos tn_stream tn_connected].
    case_decide as Hb.
    + apply length_zero_iff_nil in Hb as ->. specialize (Hr eq_refl). cbn in Hr. subst d'.
      cbn in Hd. rewrite app_nil_r in Hd. intros [= <-]. right. by rewrite Hd.
    + assert (work (MkTunnel (buf ++ bs) pos (Some s') (Some c) Reading) <
              work (MkTunnel buf pos (Some s) (Some c) Reading)) as Hwork.
      { unfold work. cbn. rewrite Hd, !length_app. lia. }
      case_decide as H12; [|by intros [= <-]].
      assert (status_200 (buf ++ bs) =
        starts_with (buf ++ bs) (b"HTTP/1.1 200") || starts_with (buf ++ bs) (b"HTTP/1.0 200")) as E.
      { unfold status_200. by rewrite (proj2 (Nat.ltb_lt _ _) H12). }
      rewrite <-E. destruct (status_200 (buf ++ bs)) eqn:E2.
      * destruct (ends_with _ _); [|by intros [= <-]]. cbn. by intros [= <-].
      * intros [= <-]. left. rewrite Hd, app_assoc. split_and!; [done| |].
        -- rewrite length_app. lia.
        -- by rewrite status_200_app.
  - done.
Qed.

Lemma tunnel_poll_total `{RB : !Reliable T} n self :
  req ≠ [] → running self → work self < n →
  ∃ out self', loop n tunnel_step self = Ok (out, self') ∧ verdict out ∧
    match out with
    | NotReady => running self' ∧
        (work self' < work self ∨ work self' = work self ∧ tn_idle self' < tn_idle self)
    | Failed e => failure e
    | Ready _ => True
    end.
Proof.
  intros Hne. revert self. induction n as [|n IH]; intros self Hr Hn; [lia|].
  pose proof (tunnel_step_running self Hr) as Hs.
  assert (∀ r, tunnel_step self = Ok r → progress self r) as Hp.
  { intros r. destruct (tn_state self) eqn:Est;
      [by apply tunnel_progress_writing|by apply tunnel_progress_reading]. }
  cbn [loop]. destruct (tunnel_step self) as [[self'|[out self']]| | |]; try done.
  - specialize (Hp _ eq_refl). cbn in Hp.
    destruct (IH self' Hs ltac:(lia)) as (out & self2 & Hl & Hv & Ho).
    exists out, self2. split_and!; [done..|]. destruct out; [|done..]. split; [apply Ho|].
    left. destruct Ho as [_ [|[]]]; lia.
  - specialize (Hp _ eq_refl). exists out, self'. destruct Hs as [Hv Hr']. split_and!; [done..|].
    destruct out; [|done..]. split; [by apply Hr'|]. by right.
Qed.

(** Awaiting ends: between two polls there is progress, or less to wait. *)
Lemma tunnel_await_total `{RB : !Reliable T} F self :
  req ≠ [] → running self → length req + length d0 + 1 < F →
  ∃ n out self', loop n (await_step F) self = Ok (out, self') ∧ verdict out ∧
    match out with NotReady => False | Failed e => failure e | Ready _ => True end.
Proof.
  intros Hne Hr HF. remember (work self) as k eqn:Hk. revert self Hr Hk.
  induction (lt_wf k) as [k _ IHk]. intros self Hr Hk.
  remember (tn_idle self) as i eqn:Hi. revert self Hr Hk Hi.
  induction (lt_wf i) as [i _ IHi]. intros self Hr Hk Hi.
  assert (work self < F) as Hw by (unfold work; destruct (tn_state self); lia).
  destruct (tunnel_poll_total F self Hne Hr Hw) as (out & self' & Hl & Hv & Ho).
  assert (tunnel_poll F self = Ok (out, self')) as Hpoll.
  { unfold tunnel_poll. destruct Hr as (-> & s & -> & _). done. }
  assert (out = NotReady →
    ∃ n out self2, loop n (await_step F) self' = Ok (out, self2) ∧ verdict out ∧
    match out with NotReady => False | Failed e => failure e | Ready _ => True end) as Hnext.
  { intros ->. destruct Ho as [Hr' [Hlt|[Heq Hlt]]].
    - eapply (IHk (work self')); [lia|done..].
    - eapply (IHi (tn_idle self')); [lia|done|lia|done]. }
  destruct out as [|a|e].
  - destruct (Hnext eq_refl) as (n & out & self2 & Hn & ?). exists (S n), out, self2.
    cbn [loop]. unfold await_step at 1. rewrite Hpoll. cbn. done.
  - exists 1, (Ready a), self'. cbn [loop]. unfold await_step. by rewrite Hpoll.
  - exists 1, (Failed e), self'. cbn [loop]. unfold await_step. by rewrite Hpoll.
Qed.
End tunnel_facts.

Section tunnel_runs.
Context `{HY : HyperLib, HDR : HeaderLib} {T : Type} `{OB : Observed T}.

Lemma running_with_stream req s c d :
  incoming s d → running (written s) req d c (with_stream (MkTunnelConnect req) s c).
Proof.
  intros Hi. split; [done|]. exists s. cbn. rewrite app_nil_r. split_and!; try done; [lia|].
  intros Hne. destruct req; [done|cbn; lia].
Qed.

Lemma poll_verdict w0 req d c F self p self' :
  running w0 req d c self → tunnel_poll F self = Ok (p, self') →
  verdict w0 req d c p ∧ (p = NotReady → running w0 req d c self').
Proof.
  intros Hr Hp. unfold tunnel_poll in Hp.
  destruct (tn_stream self); [|done]. destruct (tn_connected self); [|done].
  refine (loop_Ok tunnel_step (running w0 req d c)
    (λ r, verdict w0 req d c r.1 ∧ (r.1 = NotReady → running w0 req d c r.2))
    _ _ F self (p, self') Hr Hp).
  all: intros tn r Ht Hs; pose proof (tunnel_step_running w0 req d c tn Ht) as Hrun;
    rewrite Hs in Hrun; by try destruct r.
Qed.

Lemma await_verdict w0 req d c F n self out self' :
  running w0 req d c self → tunnel_await F n self = Ok (out, self') → verdict w0 req d c out.
Proof.
  unfold tunnel_await. intros Hr Hl.
  refine (loop_Ok (await_step F) (running w0 req d c) (λ r, verdict w0 req d c r.1)
    _ _ n self (out, self') Hr Hl).
  all: intros tn r Ht Hs; unfold await_step in Hs; outcome_inv; destruct x as [p tn'];
    apply (poll_verdict w0 req d c) in H as [Hv Hn]; [|done]; destruct p; outcome_inv; auto.
Qed.

(** The end of an accepted reply is an empty line. *)
Lemma ends_with_occurs p l : ends_with l p = true → occurs_at p l (length l - length p).
Proof.
  intros [_ Hd]%bool_decide_eq_true. unfold occurs_at. by rewrite Hd, firstn_all.
Qed.

Lemma accepted_prefix reply d i :
  find_sub CRLF2 (reply ++ d) = Some i → accepted reply = true → i + 4 ≤ length reply.
Proof.
  intros [_ Hm]%find_sub_Some [_ He]%andb_prop; [|done].
  pose proof He as [Hl _]%bool_decide_eq_true. apply ends_with_occurs in He.
  change (length CRLF2) with 4 in *. destruct (decide (i ≤ length reply - 4)); [lia|].
  exfalso. apply (Hm (length reply - 4)); [lia|]. apply occurs_at_app; [|done].
  change (length CRLF2) with 4. lia.
Qed.

(** C12: a tunnel that is established: the whole CONNECT request, and nothing
    else, was written; the proxy's reply was read up to an empty line that
    follows a 200 status, and what comes after it is left on the stream; the
    connection is marked as proxied.  This holds of every stream, however it
    splits reads and writes and however often it is not ready. *)
Theorem tunnel_established F n req s c d s' c' self' :
  incoming s d →
  tunnel_await F n (with_stream (MkTunnelConnect req) s c) = Ok (Ready (s', c'), self') →
  written s' = written s ++ req ∧ is_proxied c' = true ∧
  ∃ reply d', d = reply ++ d' ∧ accepted reply = true ∧ incoming s' d'.
Proof.
  intros Hi Ha. apply (await_verdict (written s) req d c) in Ha as (-> & Hw & Hrep);
    [|by apply running_with_stream].
  split_and!; [done|apply is_proxied_proxy|done].
Qed.

(** C23: awaiting a tunnel ends on every stream that does not fail itself, with
    the verdict the reply deserves: it is established, and then the request was
    written and a part of what the peer sent, up to an empty line and with a
    200 status, was read; or it fails because the reply has another status; or
    because all the peer sent is not such a reply, without another status. *)
Theorem tunnel_await_ends `{RB : !Reliable T} F req s c d :
  incoming s d → req ≠ [] → length req + length d + 1 < F →
  ∃ n out self', tunnel_await F n (with_stream (MkTunnelConnect req) s c) = Ok (out, self') ∧
    match out with
    | Ready (s', c') => written s' = written s ++ req ∧ is_proxied c' = true ∧
        ∃ reply d', d = reply ++ d' ∧ accepted reply = true ∧ incoming s' d'
    | Failed e => (e = UNSUCCESSFUL ∧ 12 < length d ∧ status_200 d = false) ∨
                  (e = EOF_READING ∧ accepted d = false ∧
                   (12 < length d → status_200 d = true))
    | NotReady => False
    end.
Proof.
  intros Hi Hne HF. pose proof (running_with_stream req s c d Hi) as Hr.
  destruct (tunnel_await_total (written s) req d c F _ Hne Hr HF)
    as (n & out & self' & Hl & Hv & Ho).
  exists n, out, self'. split; [done|]. destruct out as [|[s' c']|e]; [done| |done].
  destruct Hv as (-> & ? & ?). split_and!; [done|apply is_proxied_proxy|done].
Qed.

Lemma tunnel_accepts_facts `{RB : !Reliable T} F req s c line lines :
  let reply := end_lines (line :: lines) ++ CRLF in
  Forall (λ l, no_crlf l ∧ l ≠ []) (line :: lines) →
  take 12 line ∈ [b"HTTP/1.1 200"; b"HTTP/1.0 200"] →
  incoming s reply → req ≠ [] → length req + length reply + 1 < F →
  ∃ n s' c' self',
    tunnel_await F n (with_stream (MkTunnelConnect req) s c) = Ok (Ready (s', c'), self') ∧
    written s' = written s ++ req ∧ is_proxied c' = true ∧ incoming s' [].
Proof.
  intros reply Hl Hst Hi Hne HF.
  pose proof (find_end_of_lines line lines [] Hl) as Hf. rewrite app_nil_r in Hf.
  fold reply in Hf.
  assert (accepted reply = true) as Hacc.
  { apply accepted_lines; [|done]. by apply Forall_cons in Hl as [[_ ?] _]. }
  destruct (tunnel_await_total (written s) req reply c F _ Hne
              (running_with_stream req s c reply Hi) HF) as (n & out & self' & Hrun & Hv & Ho).
  destruct out as [|[s' c']|e]; [done| |].
  - destruct Hv as (-> & Hw & rep & d' & Hd & Ha & Hi'). exists n, s', (connected_proxy c true), self'.
    split_and!; [done|done|apply is_proxied_proxy|].
    pose proof Hf as Hle. rewrite Hd in Hle. apply accepted_prefix in Hle; [|done].
    enough (d' = []) as -> by done.
    apply length_zero_iff_nil. apply (f_equal length) in Hd.
    unfold reply in Hd. rewrite !length_app in Hd. change (length CRLF) with 2 in Hd.
    assert (2 ≤ length (end_lines (line :: lines))); [|lia].
    unfold end_lines. cbn [map concat]. rewrite !length_app. change (length CRLF) with 2. lia.
  - exfalso. destruct Ho as [(_ & _ & Hn)|(_ & Hn & _)]; [|congruence].
    apply accepted_status_200 in Hacc. congruence.
Qed.

(** C24: a proxy that answers with a well-formed head, status 200 and then
    waits establishes the tunnel, however the answer is split: the future
    gives the stream with nothing left to read. *)
Theorem tunnel_accepts `{RB : !Reliable T} F req s c line lines :
  let reply := end_lines (line :: lines) ++ CRLF in
  Forall (λ l, no_crlf l ∧ l ≠ []) (line :: lines) →
  take 12 line ∈ [b"HTTP/1.1 200"; b"HTTP/1.0 200"] →
  incoming s reply → req ≠ [] → length req + length reply + 1 < F →
  ∃ n s' c' self',
    tunnel_await F n (with_stream (MkTunnelConnect req) s c) = Ok (Ready (s', c'), self') ∧
    written s' = written s ++ req ∧ is_proxied c' = true ∧ incoming s' [].
Proof. apply tunnel_accepts_facts. Qed.
End tunnel_runs.

(** ** The request text *)

Section tunnel_text.
Context `{HDR : HeaderLib}.

(** The texts of the headers, if they are all texts. *)
Definition header_texts (l : list (bytes * HValue)) : option (list (bytes * bytes)) :=
  mapM (λ kv, pair kv.1 <$> to_str kv.2) l.

Lemma headers_display_texts l :
  headers_display l = (λ hs, end_lines (map render_field hs)) <$> header_texts l.
Proof.
  induction l as [|[k v] l IH]; [done|]. cbn [headers_display header_texts mapM].
  unfold header_texts in IH. rewrite IH. cbn [fst snd].
  destruct (to_str v) as [s|]; [|done]. cbn. destruct (mapM _ l) as [hs|]; [|done].
  cbn. unfold end_lines, render_field. cbn [map concat fst snd]. by rewrite <-!app_assoc.
Qed.

(** C40: the CONNECT request reads back, line by line, as the target with its
    port, the same target as host, and the proxy's headers in order, whatever
    follows, when the host and the headers hold no line end. *)
Theorem tunnel_request_view host port headers hs :
  no_crlf host →
  header_texts (hm_iter headers) = Some hs → Forall (λ nv, no_crlf nv.1 ∧ no_crlf nv.2) hs →
  ∃ t, tunnel_new host port headers = Ok t ∧
    ∀ body, server_lines (3 + length hs) (tc_buf t ++ body) =
      Some ((b"CONNECT " ++ host ++ b":" ++ dec port ++ b" HTTP/1.1") ::
            (b"Host: " ++ host ++ b":" ++ dec port) :: map render_field hs, body).
Proof.
  intros Hh Hhs Hf. unfold tunnel_new. rewrite headers_display_texts, Hhs.
  cbn [fmap option_fmap option_map expect].
  rewrite bind_Ok. eexists. split; [done|]. intros body. cbn [tc_buf].
  set (lines := (b"CONNECT " ++ host ++ b":" ++ dec port ++ b" HTTP/1.1") ::
                (b"Host: " ++ host ++ b":" ++ dec port) :: map render_field hs).
  assert (Forall (λ l, no_crlf l ∧ l ≠ []) lines) as Hl.
  { assert (no_crlf (dec port)) as Hd by (split; by apply not_in_dec).
    unfold lines. rewrite !Forall_cons. split_and!.
    1, 3: rewrite !no_crlf_app; split_and!; try done; by apply (bool_decide_unpack _).
    1, 2: done.
    apply Forall_map. apply (Forall_impl _ _ _ Hf). intros [n v] [Hn Hv].
    by apply render_field_line. }
  rewrite <-(server_lines_end lines body (3 + length hs)); [|done|].
  - f_equal. unfold end_lines, lines. cbn [map concat]. by rewrite <-!app_assoc.
  - unfold lines. cbn [length]. rewrite length_map. lia.
Qed.
End tunnel_text.

(** Scripted connections, which take at most seven bytes at a write. *)
(** *** Bytes after the reply *)

Section early.
Context `{HY : HyperLib} {T : Type} `{BS : BufStream T}.


End early.

Module ScriptStream.
Import Script.

#[export] Instance script_buf : BufStream script := {|
  write_buf s bs :=
    let n := Nat.min 7 (length bs) in
    (Ready n, {| events := events s; sent := sent s ++ take n bs |});
  read_buf s _ := poll_read s 64
|}.

Lemma poll_read_sent s n p s' : poll_read s n = (p, s') → sent s' = sent s.
Proof.
  destruct s as [[|[c l| |e] evs] snt]; cbn [poll_read script_conn events].
  - cbn. by intros [= <- <-].
  - destruct (script_read _ _) as [[]| | |]; by intros [= <- <-].
  - by intros [= <- <-].
  - cbn. by intros [= <- <-].
Qed.

#[export] Instance script_observed : Observed script.
Proof.
  refine {| written := sent; incoming := delivers |}.
  - intros s bs d Hd. unfold write_buf, script_buf. split_and!; [lia|done|done].
  - intros s v d Hd. cbn [read_buf script_buf].
    pose proof (delivers_poll s d 64 Hd ltac:(lia)) as Hp.
    destruct (poll_read s 64) as [[|bs|e] s'] eqn:E.
    + apply poll_read_sent in E. split; [done|apply Hp].
    + apply poll_read_sent in E. split; [done|]. destruct Hp as (d' & ? & ? & _). eauto.
    + done.
Defined.

#[export] Instance script_reliable : Reliable script.
Proof.
  refine {| idle := patience |}.
  - intros s [|c bs] d _ Hne; [done|]. cbn. lia.
  - intros s v d Hd. cbn [read_buf script_buf].
    pose proof (delivers_poll s d 64 Hd ltac:(lia)) as Hp.
    destruct (poll_read s 64) as [[|bs|e] s']; [apply Hp| |done].
    by destruct Hp as (d' & _ & _ & _ & ?).
Defined.
End ScriptStream.

(** ** Concrete runs *)

Module Examples.
Import Script ScriptStream.

#[local] Existing Instance flag_connected.
#[local] Existing Instance list_headers.

Definition example_headers : list (bytes * bytes) := [(b"proxy-authorization", b"Basic eA==")].

Definition example_req : bytes := b"CONNECT a.org:443 HTTP/1.1" ++ CRLF ++ CRLF.

Definition example_lines : list bytes := [b"HTTP/1.1 200 Established"; b"Via: proxy"].

Definition example_reply : bytes := end_lines example_lines ++ CRLF.

(** The reply in two pieces, with a poll that is not ready before each. *)
Definition example_proxy (d : bytes) : script :=
  Script [Wait; Piece (default Byte.x00 (head d)) (tail (take 20 d)); Wait;
          Piece (default Byte.x00 (head (drop 20 d))) (tail (drop 20 d))] [].

Lemma tunnel_established_witness :
  ∃ s' c' self', tunnel_await 100 10 (with_stream (MkTunnelConnect example_req)
      (example_proxy example_reply) false) = Ok (Ready (s', c'), self') ∧
    written s' = example_req ∧ c' = true.
Proof.
  eexists _, _, _.
  assert (∀ A B C : Prop, A → (A → B ∧ C) → A ∧ B ∧ C) as Hand by tauto.
  apply Hand; [vm_compute; reflexivity|]. intros Hrun.
  assert (incoming (example_proxy example_reply) example_reply) as Hi by reflexivity.
  destruct (tunnel_established (HY:=flag_connected) 100 10 example_req (example_proxy example_reply) false
              example_reply _ _ _ Hi Hrun) as (Hw & Hp & _).
  split; [exact Hw|exact Hp].
Defined.

(** Another status is refused. *)
Lemma tunnel_await_ends_witness :
  ∃ n e self', tunnel_await 200 n (with_stream (MkTunnelConnect example_req)
      (example_proxy (b"HTTP/1.1 403 Forbidden")) false) = Ok (Failed e, self') ∧
    e = UNSUCCESSFUL.
Proof.
  destruct (tunnel_await_ends (HY:=flag_connected) 200 example_req
    (example_proxy (b"HTTP/1.1 403 Forbidden")) false (b"HTTP/1.1 403 Forbidden"))
    as (n & out & self' & Hr & Ho).
  - reflexivity.
  - discriminate.
  - apply (bool_decide_unpack _). vm_compute. exact I.
  - destruct out as [|[s' c']|e]; [destruct Ho|exfalso|].
    + destruct Ho as (_ & _ & reply & d' & Hd & Ha & _).
      apply accepted_status_200 in Ha. assert (12 < length reply) as Hl.
      { unfold status_200 in Ha. by apply andb_prop in Ha as [Ha%Nat.ltb_lt _]. }
      pose proof (status_200_app reply d' Hl) as H. rewrite <-Hd, Ha in H. discriminate H.
    + exists n, e, self'. split; [exact Hr|]. destruct Ho as [[He _]|(_ & _ & Hn)]; [exact He|].
      exfalso. assert (status_200 (b"HTTP/1.1 403 Forbidden") = true) as H; [|discriminate H].
      apply Hn. apply (bool_decide_unpack _). vm_compute. exact I.
Defined.

Lemma tunnel_accepts_witness :
  ∃ n s' c' self', tunnel_await 200 n (with_stream (MkTunnelConnect example_req)
      (example_proxy example_reply) false) = Ok (Ready (s', c'), self') ∧
    written s' = example_req ∧ c' = true ∧ incoming s' [].
Proof.
  destruct (tunnel_accepts (HY:=flag_connected) 200 example_req (example_proxy example_reply) false
              (b"HTTP/1.1 200 Established") [b"Via: proxy"])
    as (n & s' & c' & self' & Hr & Hw & Hc & Hi).
  - apply (bool_decide_unpack _). vm_compute. exact I.
  - left.
  - reflexivity.
  - discriminate.
  - apply (bool_decide_unpack _). vm_compute. exact I.
  - exists n, s', c', self'. split_and!; [exact Hr|exact Hw|exact Hc|exact Hi].
Defined.


Lemma tunnel_request_view_witness :
  ∃ t, tunnel_new (b"a.org") 443 example_headers = Ok t ∧
    ∀ body, server_lines 4 (tc_buf t ++ body) =
      Some ([b"CONNECT a.org:443 HTTP/1.1"; b"Host: a.org:443";
             b"proxy-authorization: Basic eA=="], body).
Proof.
  apply (tunnel_request_view (HDR:=list_headers) (b"a.org") 443 example_headers example_headers).
  - apply (bool_decide_unpack _). vm_compute. exact I.
  - reflexivity.
  - apply (bool_decide_unpack _). vm_compute. exact I.
Defined.
End Examples.
