(* ===== verification/Net.v ===== *)
(** * [std::net]: addresses and their texts

    Addresses, and [str::parse] for [Ipv4Addr] and [Ipv6Addr] as the parser of
    the standard library reads them.  The releases the crate was written for
    take an octet of up to three digits with leading zeros; [::] stands for
    one group of zeros at least. *)
From S2P Require Import Prelude RustStd.

(** The octets of an IPv4 address, the 16-bit segments of an IPv6 address. *)
Definition Ipv4Addr : Type := N * N * N * N.
Definition Ipv6Addr : Type := list N.

Inductive IpAddr :=
| V4 (ip : Ipv4Addr)
| V6 (ip : Ipv6Addr).

#[export] Instance IpAddr_eq_dec : EqDecision IpAddr.
Proof. solve_decision. Defined.

(** An IPv6 socket address has a flow label and a scope. *)
Inductive SocketAddr :=
| SockV4 (ip : Ipv4Addr) (port : N)
| SockV6 (ip : Ipv6Addr) (port flowinfo scope_id : N).

#[export] Instance SocketAddr_eq_dec : EqDecision SocketAddr.
Proof. solve_decision. Defined.

(** [SocketAddr::new], [ip], [port] and [is_ipv6]. *)
Definition socket_addr (ip : IpAddr) (port : N) : SocketAddr :=
  match ip with V4 ip => SockV4 ip port | V6 ip => SockV6 ip port 0 0 end.
Definition sock_ip (a : SocketAddr) : IpAddr :=
  match a with SockV4 ip _ => V4 ip | SockV6 ip _ _ _ => V6 ip end.
Definition sock_port (a : SocketAddr) : N :=
  match a with SockV4 _ p => p | SockV6 _ p _ _ => p end.
Definition is_ipv6 (a : SocketAddr) : bool :=
  match a with SockV4 _ _ => false | SockV6 _ _ _ _ => true end.

Lemma sock_ip_new ip port : sock_ip (socket_addr ip port) = ip.
Proof. by destruct ip. Qed.
Lemma sock_port_new ip port : sock_port (socket_addr ip port) = port.
Proof. by destruct ip. Qed.

(** ** The parser

    A reader takes the text that is left and gives a value and what is left
    after it; a reader that fails leaves the text as it is. *)

Definition reader (A : Type) : Type := bytes → option (A * bytes).

Definition hex_val (c : byte) : option N :=
  let n := Byte.to_N c in
  if ((48 <=? n) && (n <=? 57))%N then Some (n - 48)%N
  else if ((97 <=? n) && (n <=? 102))%N then Some (n - 87)%N
  else if ((65 <=? n) && (n <=? 70))%N then Some (n - 55)%N
  else None.

(** [read_digit]. *)
Definition digit_in (radix : N) (c : byte) : option N :=
  match hex_val c with
  | Some d => if (d <? radix)%N then Some d else None
  | None => None
  end.

(** [read_number]: at least one digit and at most [max_digits], below [upto]. *)
Fixpoint read_digits (radix : N) (max_digits : nat) (upto : N) (count : nat) (r : N) (l : bytes)
    : option (N * bytes) :=
  let stop := if decide (count = 0) then None else Some (r, l) in
  match l with
  | [] => stop
  | c :: tl =>
      match digit_in radix c with
      | None => stop
      | Some d =>
          let r := (r * radix + d)%N in
          if decide (max_digits < S count ∨ (upto ≤ r)%N) then None
          else read_digits radix max_digits upto (S count) r tl
      end
  end.

Definition read_number (radix : N) (max_digits : nat) (upto : N) : reader N :=
  read_digits radix max_digits upto 0 0.

Definition read_given_char (c : byte) : reader unit := λ l,
  match l with
  | x :: tl => if decide (x = c) then Some (tt, tl) else None
  | [] => None
  end.

Definition DOT : byte := Byte.x2e.

Definition read_ipv4_addr : reader Ipv4Addr := λ l,
  '(a, l) ← read_number 10 3 256 l;
  '(_, l) ← read_given_char DOT l;
  '(b, l) ← read_number 10 3 256 l;
  '(_, l) ← read_given_char DOT l;
  '(c, l) ← read_number 10 3 256 l;
  '(_, l) ← read_given_char DOT l;
  '(d, l) ← read_number 10 3 256 l;
  Some ((a, b, c, d), l).

(** A reader behind a colon, except for the first group. *)
Definition after_colon {A} (i : nat) (p : reader A) : reader A := λ l,
  if decide (i = 0) then p l else '(_, l) ← read_given_char COLON l; p l.

(** [read_groups]: at most [limit] groups, the last two maybe as an IPv4
    address; what is read, and whether it ends in an IPv4 address.  [n] is what
    is left of [limit], [i] the number of groups so far. *)
Fixpoint read_groups (n i : nat) (l : bytes) : list N * bool * bytes :=
  match n with
  | O => ([], false, l)
  | S n' =>
      match (if decide (1 < n) then after_colon i read_ipv4_addr l else None) with
      | Some ((a, b, c, d), l) => ([a * 256 + b; c * 256 + d]%N, true, l)
      | None =>
          match after_colon i (read_number 16 4 65536) l with
          | Some (g, l) =>
              let '(gs, v4, l) := read_groups n' (S i) l in (g :: gs, v4, l)
          | None => ([], false, l)
          end
      end
  end.

Definition read_ipv6_addr : reader Ipv6Addr := λ l,
  let '(hd, head_ipv4, l) := read_groups 8 0 l in
  if decide (length hd = 8) then Some (hd, l)
  else if head_ipv4 then None
  else
    '(_, l) ← read_given_char COLON l;
    '(_, l) ← read_given_char COLON l;
    let '(tl, _, l) := read_groups (8 - (length hd + 1)) 0 l in
    Some (hd ++ replicate (8 - length hd - length tl) 0%N ++ tl, l).

(** [read_till_eof]. *)
Definition parse_all {A} (p : reader A) (l : bytes) : option A :=
  match p l with
  | Some (a, []) => Some a
  | _ => None
  end.

Definition parse_ipv4 : bytes → option Ipv4Addr := parse_all read_ipv4_addr.
Definition parse_ipv6 : bytes → option Ipv6Addr := parse_all read_ipv6_addr.

Example parse_v4 : parse_ipv4 (b"127.0.0.1") = Some (127, 0, 0, 1)%N.
Proof. reflexivity. Qed.
Example parse_v4_large : parse_ipv4 (b"127.0.0.256") = None.
Proof. reflexivity. Qed.
Example parse_v6_short : parse_ipv6 (b"fe80::1:2") = Some [65152; 0; 0; 0; 0; 0; 1; 2]%N.
Proof. reflexivity. Qed.
Example parse_v6_full : parse_ipv6 (b"1:2:3:4:5:6:7:8") = Some [1; 2; 3; 4; 5; 6; 7; 8]%N.
Proof. reflexivity. Qed.
Example parse_v6_v4 : parse_ipv6 (b"::ffff:10.0.0.1") = Some [0; 0; 0; 0; 0; 65535; 2560; 1]%N.
Proof. reflexivity. Qed.
Example parse_v6_no_zeros : parse_ipv6 (b"1:2:3:4::5:6:7:8") = None.
Proof. reflexivity. Qed.
Example parse_v6_none : parse_ipv6 (b"1:2:3") = None.
Proof. reflexivity. Qed.

(** ** Reading what is printed *)

Definition no_digit_first (radix : N) (l : bytes) : Prop :=
  match l with c :: _ => digit_in radix c = None | [] => True end.

Lemma digit_in_10 c d : digit_val c = Some d → digit_in 10 c = Some d ∧ (d < 10)%N.
Proof. destruct c; cbn; intros [= <-]; done. Qed.

Lemma parse_digits_ge acc l v : parse_digits acc l = Some v → (acc ≤ v)%N.
Proof.
  revert acc. induction l as [|c l IH]; intros acc; cbn; [intros [= ->]; lia|].
  destruct (digit_val c) as [d|]; [|done]. cbn.
  destruct (_ <? _)%N; [|done]. intros Hle%IH. lia.
Qed.

(** Digits that are within both bounds are read up to the first other byte. *)
Lemma read_digits_dec ds acc v count max upto rest :
  Forall (λ c, is_Some (digit_val c)) ds → parse_digits acc ds = Some v → (v < upto)%N →
  0 < count + length ds ≤ max → no_digit_first 10 rest →
  read_digits 10 max upto count acc (ds ++ rest) = Some (v, rest).
Proof.
  intros Hds. revert acc count. induction Hds as [|c ds [d Hd] _ IH]; intros acc count Hp Hv Hc Hr.
  - injection Hp as ->. cbn in *. destruct rest as [|x rest]; cbn.
    + by rewrite decide_False by lia.
    + cbn in Hr. by rewrite Hr, decide_False by lia.
  - cbn in *. rewrite Hd in Hp. cbn in Hp. destruct (digit_in_10 c d Hd) as [-> _].
    destruct (_ <? _)%N in Hp; [|done]. pose proof (parse_digits_ge _ _ _ Hp).
    rewrite decide_False by lia. apply IH; [done|done|lia|done].
Qed.

Lemma read_number_dec n rest :
  (n < 256)%N → no_digit_first 10 rest → read_number 10 3 256 (dec n ++ rest) = Some (n, rest).
Proof.
  intros Hn Hr. assert (0 < length (dec n) ≤ 3) as Hl.
  { split.
    - pose proof (dec_not_nil n). destruct (dec n); [done|cbn; lia].
    - unfold dec. apply dec_aux_length; lia. }
  apply read_digits_dec; [apply dec_digits| |lia|lia|done].
  apply dec_aux_parse; [lia|]. unfold usize_width. lia.
Qed.

(** The text of an IPv4 address. *)
Definition ipv4_text (ip : Ipv4Addr) : bytes :=
  let '(a, b, c, d) := ip in
  dec a ++ DOT :: dec b ++ DOT :: dec c ++ DOT :: dec d.

Definition ipv4_ok (ip : Ipv4Addr) : Prop :=
  let '(a, b, c, d) := ip in (a < 256 ∧ b < 256 ∧ c < 256 ∧ d < 256)%N.

Lemma parse_ipv4_text ip : ipv4_ok ip → parse_ipv4 (ipv4_text ip) = Some ip.
Proof.
  destruct ip as [[[a b] c] d]. intros (Ha & Hb & Hc & Hd).
  unfold parse_ipv4, parse_all, ipv4_text, read_ipv4_addr.
  rewrite read_number_dec by done. cbn [mbind option_bind].
  change (read_given_char DOT (DOT :: ?l)) with (Some (tt, l)). cbn [mbind option_bind].
  rewrite read_number_dec by done. cbn [mbind option_bind].
  change (read_given_char DOT (DOT :: ?l)) with (Some (tt, l)). cbn [mbind option_bind].
  rewrite read_number_dec by done. cbn [mbind option_bind].
  change (read_given_char DOT (DOT :: ?l)) with (Some (tt, l)). cbn [mbind option_bind].
  rewrite <-(app_nil_r (dec d)), read_number_dec by done. done.
Qed.

(** ** What the readers take *)

(** The bytes of an address: hexadecimal digits, dots and colons. *)
Definition addr_byte (c : byte) : Prop := is_Some (hex_val c) ∨ c = DOT ∨ c = COLON.

Definition takes (l l' : bytes) : Prop := ∃ p, l = p ++ l' ∧ Forall addr_byte p.

Lemma takes_refl l : takes l l.
Proof. by exists []. Qed.
Lemma takes_trans l1 l2 l3 : takes l1 l2 → takes l2 l3 → takes l1 l3.
Proof.
  intros (p & -> & Hp) (q & -> & Hq). exists (p ++ q). rewrite <-app_assoc.
  split; [done|]. by apply Forall_app.
Qed.
Lemma takes_cons c l : addr_byte c → takes (c :: l) l.
Proof. intros Hc. exists [c]. split; [done|]. by constructor. Qed.

Lemma read_digits_takes radix max upto count r l n l' :
  read_digits radix max upto count r l = Some (n, l') → takes l l'.
Proof.
  revert count r. induction l as [|c l IH]; intros count r; cbn.
  - case_decide; [done|]. intros [= _ <-]. apply takes_refl.
  - destruct (digit_in radix c) as [d|] eqn:Ed.
    + case_decide; [done|]. intros Ht%IH. eapply takes_trans; [|exact Ht].
      apply takes_cons. left. unfold digit_in in Ed. by destruct (hex_val c).
    + case_decide; [done|]. intros [= _ <-]. apply takes_refl.
Qed.

Lemma read_given_char_takes c l u l' :
  addr_byte c → read_given_char c l = Some (u, l') → takes l l'.
Proof.
  intros Hc. destruct l as [|x l]; cbn; [done|]. case_decide; [|done]. subst.
  intros [= <- <-]. by apply takes_cons.
Qed.

Definition reader_takes {A} (p : reader A) : Prop := ∀ l a l', p l = Some (a, l') → takes l l'.

Lemma read_number_takes radix max upto : reader_takes (read_number radix max upto).
Proof. intros l a l'. apply read_digits_takes. Qed.

Lemma read_colon_takes l u l' : read_given_char COLON l = Some (u, l') → takes l l'.
Proof. apply read_given_char_takes. by right; right. Qed.
Lemma read_dot_takes l u l' : read_given_char DOT l = Some (u, l') → takes l l'.
Proof. apply read_given_char_takes. by right; left. Qed.

Lemma read_ipv4_takes : reader_takes read_ipv4_addr.
Proof.
  intros l ip l' H. unfold read_ipv4_addr in H.
  repeat match type of H with
  | mbind _ _ = Some _ => apply bind_Some in H as ([? ?] & ? & H)
  end.
  injection H as _ <-.
  repeat match goal with
  | H : read_number _ _ _ _ = Some _ |- _ => apply read_number_takes in H
  | H : read_given_char _ _ = Some _ |- _ => apply read_dot_takes in H
  end.
  repeat (eapply takes_trans; [eassumption|]). apply takes_refl.
Qed.

Lemma after_colon_takes {A} i (p : reader A) : reader_takes p → reader_takes (after_colon i p).
Proof.
  intros Hp l a l'. unfold after_colon. case_decide; [apply Hp|].
  intros ([u m] & Hm%read_colon_takes & Hl%Hp)%bind_Some. by eapply takes_trans.
Qed.

Lemma read_groups_takes n i l gs v4 l' : read_groups n i l = (gs, v4, l') → takes l l'.
Proof.
  revert i l gs v4 l'. induction n as [|n IH]; intros i l gs v4 l' H; cbn [read_groups] in H.
  { injection H as _ _ <-. apply takes_refl. }
  destruct (if decide (1 < S n) then _ else _) as [[[[[x y] z] w] m]|] eqn:E.
  - injection H as _ _ <-. case_decide; [|done].
    by apply (after_colon_takes i _ read_ipv4_takes) in E.
  - destruct (after_colon i (read_number 16 4 65536) l) as [[g m]|] eqn:Eg.
    + destruct (read_groups n (S i) m) as [[gs' v'] m'] eqn:Er. injection H as _ _ <-.
      apply (after_colon_takes i _ (read_number_takes _ _ _)) in Eg.
      eapply takes_trans; [exact Eg|by eapply IH].
    + injection H as _ _ <-. apply takes_refl.
Qed.

Lemma read_ipv6_takes : reader_takes read_ipv6_addr.
Proof.
  intros l ip l' H. unfold read_ipv6_addr in H.
  destruct (read_groups 8 0 l) as [[hd v4] m] eqn:Eh. apply read_groups_takes in Eh.
  case_decide; [by injection H as _ <-|]. destruct v4; [done|].
  apply bind_Some in H as ([u1 m1] & H1%read_colon_takes & H).
  apply bind_Some in H as ([u2 m2] & H2%read_colon_takes & H).
  destruct (read_groups (8 - (length hd + 1)) 0 m2) as [[tl v'] m3] eqn:Et.
  apply read_groups_takes in Et. injection H as _ <-.
  by repeat (eapply takes_trans; [eassumption|]); apply takes_refl.
Qed.

(** A text with another byte in it is no address. *)
Lemma parse_all_takes {A} (p : reader A) l a :
  reader_takes p → parse_all p l = Some a → Forall addr_byte l.
Proof.
  unfold parse_all. intros Hp. destruct (p l) as [[a' [|]]|] eqn:E; try done.
  apply Hp in E as (q & -> & Hq). by rewrite app_nil_r.
Qed.

Lemma parse_ipv4_name l : ¬ Forall addr_byte l → parse_ipv4 l = None.
Proof.
  intros Hl. destruct (parse_ipv4 l) eqn:E; [|done].
  by apply (parse_all_takes _ _ _ read_ipv4_takes) in E.
Qed.
Lemma parse_ipv6_name l : ¬ Forall addr_byte l → parse_ipv6 l = None.
Proof.
  intros Hl. destruct (parse_ipv6 l) eqn:E; [|done].
  by apply (parse_all_takes _ _ _ read_ipv6_takes) in E.
Qed.
