(* ===== verification/Dns.v ===== *)
(** * Resolving names: [src/src/http/dns.rs]

    The trait [Resolve] is the class of the same name.  [IpAddrs] and its
    split by address family are modelled in full; the resolvers on
    [getaddrinfo] are in [Gai]. *)
From S2P Require Import Prelude RustStd Io Net.

Record Name := MkName { name_host : bytes }.

Definition Name_new (host : bytes) : Name := {| name_host := host |}.
Definition name_as_str (self : Name) : bytes := name_host self.

(** [trait Resolve]: the future of a name, and the addresses it gives. *)
Class Resolve (W R : Type) := {
  Addrs : Type;
  Future : Type;
  addrs_list : Addrs → list IpAddr;
  resolve : R → Name → W → Future * W;
  future_poll : Future → W → polled W Future Addrs
}.

(** ** Address lists *)

(** An iterator over a vector is the list of what it has left. *)
Record IpAddrs := MkIpAddrs { iter : list SocketAddr }.

Definition IpAddrs_new (addrs : list SocketAddr) : IpAddrs := {| iter := addrs |}.

Definition try_parse (host : bytes) (port : N) : option IpAddrs :=
  match parse_ipv4 host with
  | Some addr => Some {| iter := [SockV4 addr port] |}
  | None =>
      match parse_ipv6 host with
      | Some addr => Some {| iter := [SockV6 addr port 0 0] |}
      | None => None
      end
  end.

(** [Iterator::partition]. *)
Fixpoint partition {A} (p : A → bool) (l : list A) : list A * list A :=
  match l with
  | [] => ([], [])
  | x :: l => let '(yes, no) := partition p l in
              if p x then (x :: yes, no) else (yes, x :: no)
  end.

Definition split_by_preference (self : IpAddrs) : IpAddrs * IpAddrs :=
  let preferring_v6 := default false (is_ipv6 <$> head (iter self)) in
  let '(preferred, fallback) :=
    partition (λ addr, Bool.eqb (is_ipv6 addr) preferring_v6) (iter self) in
  (IpAddrs_new preferred, IpAddrs_new fallback).

Definition is_empty (self : IpAddrs) : bool :=
  match iter self with [] => true | _ => false end.

Definition ip_addrs_next (self : IpAddrs) : option SocketAddr * IpAddrs :=
  match iter self with
  | [] => (None, self)
  | a :: l => (Some a, {| iter := l |})
  end.

(** [impl Resolve for Arc<T>]: the shared resolver resolves. *)
Record Arc (T : Type) := MkArc { deref : T }.
Arguments MkArc {T} deref.
Arguments deref {T} a.

#[export] Instance arc_resolver {W T} `{RV : Resolve W T} : Resolve W (Arc T) := {|
  Addrs := Addrs;
  Future := Future;
  addrs_list := addrs_list;
  resolve self := resolve (deref self);
  future_poll := future_poll
|}.

(** ** Facts *)

Lemma partition_filter {A} (p : A → bool) l :
  partition p l = (filter (λ x, p x = true) l, filter (λ x, p x ≠ true) l).
Proof.
  induction l as [|x l IH]; [done|]. cbn [partition]. rewrite IH, !filter_cons.
  destruct (p x); [by rewrite decide_True, decide_False by auto|].
  by rewrite decide_False, decide_True by auto.
Qed.

Lemma filter_Permutation {A} (P : A → Prop) `{∀ x, Decision (P x)} l :
  filter P l ++ filter (λ x, ¬ P x) l ≡ₚ l.
Proof.
  induction l as [|x l IH]; [done|]. rewrite !filter_cons.
  destruct (decide (P x)).
  - rewrite decide_False by tauto. cbn. by rewrite IH.
  - rewrite decide_True by done. by rewrite <-Permutation_middle, IH.
Qed.

Lemma split_by_preference_facts l p f :
  split_by_preference (IpAddrs_new l) = (p, f) →
  iter p ++ iter f ≡ₚ l ∧ iter p `sublist_of` l ∧ iter f `sublist_of` l ∧
  head (iter p) = head l ∧
  (∀ a x, head l = Some a → x ∈ iter p → is_ipv6 x = is_ipv6 a) ∧
  (∀ a x, head l = Some a → x ∈ iter f → is_ipv6 x = negb (is_ipv6 a)).
Proof.
  unfold split_by_preference. cbn [iter IpAddrs_new]. rewrite partition_filter.
  intros [= <- <-]. cbn [iter IpAddrs_new]. split_and!.
  - apply filter_Permutation.
  - apply sublist_filter.
  - apply sublist_filter.
  - destruct l as [|a l]; [done|]. cbn [head fmap option_fmap option_map default].
    rewrite filter_cons, decide_True; [done|]. apply eqb_reflx.
  - intros a x Ha [Hx _]%list_elem_of_filter. rewrite Ha in Hx. by apply eqb_prop in Hx.
  - intros a x Ha [Hx _]%list_elem_of_filter. rewrite Ha in Hx. cbn in Hx.
    destruct (is_ipv6 x), (is_ipv6 a); done.
Qed.

(** Splitting the addresses by preference keeps each of them once and in
    order; the first address stays the first one to try, the preferred
    addresses have its family and the fallback ones the other. *)
Theorem split_by_preference_spec l p f :
  split_by_preference (IpAddrs_new l) = (p, f) →
  iter p ++ iter f ≡ₚ l ∧ iter p `sublist_of` l ∧ iter f `sublist_of` l ∧
  head (iter p) = head l ∧
  (∀ a x, head l = Some a → x ∈ iter p → is_ipv6 x = is_ipv6 a) ∧
  (∀ a x, head l = Some a → x ∈ iter f → is_ipv6 x = negb (is_ipv6 a)).
Proof. apply split_by_preference_facts. Qed.

(** The text of an IPv4 address is not resolved: it is that address, with
    the port. *)
Theorem try_parse_ipv4 ip port :
  ipv4_ok ip → try_parse (ipv4_text ip) port = Some (IpAddrs_new [SockV4 ip port]).
Proof. intros Hok. unfold try_parse. by rewrite parse_ipv4_text. Qed.

Lemma try_parse_facts host port a :
  try_parse host port = Some a →
  (∃ ip, iter a = [socket_addr ip port]) ∧ Forall addr_byte host.
Proof.
  unfold try_parse. destruct (parse_ipv4 host) as [ip|] eqn:E4.
  - intros [= <-]. split; [by exists (V4 ip)|].
    by apply (parse_all_takes _ _ _ read_ipv4_takes) in E4.
  - destruct (parse_ipv6 host) as [ip|] eqn:E6; [|done].
    intros [= <-]. split; [by exists (V6 ip)|].
    by apply (parse_all_takes _ _ _ read_ipv6_takes) in E6.
Qed.

(** What [try_parse] takes for an address is one address with the port,
    and its text has nothing but hexadecimal digits, dots and colons, so every
    other name goes to the resolver. *)
Theorem try_parse_sound host port a :
  try_parse host port = Some a →
  (∃ ip, iter a = [socket_addr ip port]) ∧ Forall addr_byte host.
Proof. apply try_parse_facts. Qed.

(** ** Concrete runs *)

Definition example_addrs : list SocketAddr :=
  [SockV6 [1; 2; 3; 4; 5; 6; 7; 8]%N 80 0 0; SockV4 (10, 0, 0, 1)%N 80;
   SockV6 [8; 7; 6; 5; 4; 3; 2; 1]%N 80 0 0].

Lemma split_by_preference_spec_witness :
  ∃ p f, split_by_preference (IpAddrs_new example_addrs) = (p, f) ∧
    iter p ++ iter f ≡ₚ example_addrs ∧ head (iter p) = head example_addrs.
Proof.
  eexists _, _. split; [reflexivity|].
  destruct (split_by_preference_spec example_addrs _ _ eq_refl) as (H1 & _ & _ & H4 & _).
  split; [exact H1|exact H4].
Defined.

Lemma try_parse_ipv4_witness :
  try_parse (b"127.0.0.1") 8080 = Some (IpAddrs_new [SockV4 (127, 0, 0, 1)%N 8080]).
Proof. apply (try_parse_ipv4 (127, 0, 0, 1)%N 8080). repeat split; reflexivity. Defined.

Lemma try_parse_sound_witness :
  (∃ ip, [SockV6 [0; 0; 0; 0; 0; 0; 0; 1]%N 443 0 0] = [socket_addr ip 443]) ∧
  Forall addr_byte (b"::1").
Proof. apply (try_parse_sound (b"::1") 443 (IpAddrs_new _)). reflexivity. Defined.
