(* ===== verification/Ares.v ===== *)
(** * The caching resolver: [src/src/http/ares.rs]

    A cache of answers behind a mutex, shared by all futures, in front of the
    c-ares resolver.  Resolving and polling interleave in any order: [step]
    is one operation of one of the futures. *)
From S2P Require Import Prelude RustStd Io Net Dns.

(** The c-ares resolver and the clock, with the world outside as the state.
    The addresses of [c_ares::AResults] are IPv4 addresses; its error is a
    text. *)
Class AresLib (E : Type) := {
  CAresFuture : Type;
  query_a : bytes → E → CAresFuture * E;
  cares_poll : CAresFuture → E → poll (list Ipv4Addr) bytes * CAresFuture * E;
  instant_now : E → N * E
}.

(** [Mutex<HashMap<String, (Vec<IpAddr>, Instant)>>].  A mutex is poisoned when
    a thread panics holding it; [lookup] and [add] do not panic there, so
    nothing sets [poisoned]. *)
Record ResolverCache := MkResolverCache {
  poisoned : bool;
  cache : gmap bytes (list IpAddr * N)
}.

(** [ResolverCache::default]. *)
Definition cache_default : ResolverCache := {| poisoned := false; cache := ∅ |}.

Section ares.
Context `{AL : AresLib E}.

(** What the resolver shares with its futures, and the world outside. *)
Record world := MkWorld { cell : ResolverCache; env : E }.

Inductive CAresResolverFuture :=
| FromResolver (fut : CAresFuture) (name : bytes)
| FromCache (vec : list IpAddr)
| Done.

Definition lookup (name : bytes) (w : world) : option (list IpAddr) * world :=
  if poisoned (cell w) then (None, w)
  else match cache (cell w) !! name with
  | None => (None, w)
  | Some (vec, ttl) =>
      let '(now, e) := instant_now (env w) in
      (if (ttl <? now)%N then Some vec else None, {| cell := cell w; env := e |})
  end.

Definition add (name : bytes) (addrs : list IpAddr) (w : world) : outcome Empty_set world :=
  if poisoned (cell w) then Panic UnwrapNone
  else
    let '(now, e) := instant_now (env w) in
    Ok {| cell := {| poisoned := false; cache := <[name := (addrs, now)]> (cache (cell w)) |};
          env := e |}.

Definition ares_resolve (name : Name) (w : world) : CAresResolverFuture * world :=
  match lookup (name_as_str name) w with
  | (Some values, w) => (FromCache values, w)
  | (None, w) =>
      let '(fut, e) := query_a (name_as_str name) (env w) in
      (FromResolver fut (name_as_str name), {| cell := cell w; env := e |})
  end.

Definition ares_poll (self : CAresResolverFuture) (w : world)
    : polled world CAresResolverFuture (list IpAddr) :=
  match self with
  | FromResolver fut name =>
      let '(p, fut, e) := cares_poll fut (env w) in
      let w := {| cell := cell w; env := e |} in
      match p with
      | Ready vals =>
          let items := V4 <$> vals in
          w ← add name items w;
          Ok (Ready items, Done, w)
      | Failed err => Ok (Failed (IoError Other err), Done, w)
      | NotReady => Ok (NotReady, FromResolver fut name, w)
      end
  | FromCache vec => Ok (Ready vec, Done, w)
  | Done => Panic (Expect "cannot poll resolved future")
  end.

(** [CAresResolverImpl], whose state is in the world. *)
Record CAresResolverImpl := MkCAresResolverImpl {}.

(** [CAresResolverImpl::new]: the c-ares resolver, if it could be made
    ([built]), with an empty cache. *)
Definition CAresResolverImpl_new {R Er} (built : R + Er)
    : outcome Empty_set (CAresResolverImpl * R * ResolverCache) :=
  resolver ← unwrap (match built with inl r => Some r | inr _ => None end);
  Ok (MkCAresResolverImpl, resolver, cache_default).

#[export] Instance ares_resolver : Resolve world CAresResolverImpl := {|
  Addrs := list IpAddr;
  Future := CAresResolverFuture;
  addrs_list a := a;
  resolve _ := ares_resolve;
  future_poll := ares_poll
|}.

(** ** Interleavings

    The futures by number, each with the name it is for. *)
Definition state : Type := world * gmap nat (bytes * CAresResolverFuture).

Inductive step : state → state → Prop :=
| step_resolve w fs i name f w' :
    ares_resolve name w = (f, w') →
    step (w, fs) (w', <[i := (name_as_str name, f)]> fs)
| step_poll w fs i name f p f' w' :
    fs !! i = Some (name, f) → ares_poll f w = Ok (p, f', w') →
    step (w, fs) (w', <[i := (name, f')]> fs)
| step_drop w fs i :
    step (w, fs) (w, delete i fs)
| step_env w fs e :
    step (w, fs) ({| cell := cell w; env := e |}, fs).

Definition start (e : E) : state := ({| cell := cache_default; env := e |}, ∅).

Definition reachable (e : E) : state → Prop := rtc step (start e).
End ares.

Arguments world E : clear implicits.
Arguments CAresResolverFuture E {AL}.
Arguments state E {AL}.

(** What is known of c-ares: [answers name vals] says that a query for the
    name may be answered so, and a future answers the query it is for. *)
Class AresAnswers (E : Type) `{AL : AresLib E} := {
  answers : bytes → list Ipv4Addr → Prop;
  is_query : CAresFuture → bytes → Prop;
  query_a_is_query name e : is_query (fst (query_a name e)) name;
  cares_poll_answers f name e :
    is_query f name →
    match cares_poll f e with
    | (Ready vals, _, _) => answers name vals
    | (NotReady, f', _) => is_query f' name
    | (Failed _, _, _) => True
    end
}.

Section facts.
Context `{AL : AresLib E, AA : !AresAnswers E}.
Implicit Types (w : world E) (f : CAresResolverFuture E).

(** The cache is not poisoned, and each entry is an answer for its name. *)
Definition cache_ok (c : ResolverCache) : Prop :=
  poisoned c = false ∧
  ∀ name vec t, cache c !! name = Some (vec, t) → ∃ vals, answers name vals ∧ vec = V4 <$> vals.

Definition future_ok (name : bytes) f : Prop :=
  match f with
  | FromResolver fut n => n = name ∧ is_query fut name
  | FromCache vec => ∃ vals, answers name vals ∧ vec = V4 <$> vals
  | Done => True
  end.

Definition state_ok (s : state E) : Prop :=
  cache_ok (cell s.1) ∧ ∀ i name f, s.2 !! i = Some (name, f) → future_ok name f.

Lemma lookup_ok name w o w' :
  cache_ok (cell w) → lookup name w = (o, w') →
  cell w' = cell w ∧
  match o with Some vec => ∃ vals, answers name vals ∧ vec = V4 <$> vals | None => True end.
Proof.
  intros [Hp Hc]. unfold lookup. rewrite Hp.
  destruct (cache (cell w) !! name) as [[vec ttl]|] eqn:El; [|by intros [= <- <-]].
  destruct (instant_now (env w)) as [now e]. intros [= <- <-]. split; [done|].
  destruct (ttl <? now)%N; [by eapply Hc|done].
Qed.

Lemma resolve_ok name w f w' :
  cache_ok (cell w) → ares_resolve name w = (f, w') →
  cell w' = cell w ∧ future_ok (name_as_str name) f.
Proof.
  intros Hc. unfold ares_resolve. destruct (lookup _ w) as [[vec|] w1] eqn:El;
    apply lookup_ok in El as [Hcell Ho]; [|done| |done].
  - by intros [= <- <-].
  - pose proof (query_a_is_query (name_as_str name) (env w1)) as Hq.
    destruct (query_a _ _) as [fut e]. intros [= <- <-]. by cbn in *.
Qed.

Lemma cache_ok_add name vals now c :
  cache_ok c → answers name vals →
  cache_ok {| poisoned := false; cache := <[name := (V4 <$> vals, now)]> (cache c) |}.
Proof.
  intros [_ Hc] Ha. split; [done|]. cbn. intros n vec t.
  rewrite lookup_insert_Some. intros [[<- [= <- <-]]|[_ Hl]]; [eauto|by eapply Hc].
Qed.

(** One poll of a future that is for [name]. *)
Lemma poll_ok name f w :
  cache_ok (cell w) → future_ok name f →
  match ares_poll f w with
  | Ok (p, f', w') =>
      cache_ok (cell w') ∧ future_ok name f' ∧
      match p with
      | Ready addrs => f' = Done ∧ ∃ vals, answers name vals ∧ addrs = V4 <$> vals
      | Failed e => f' = Done ∧ kind e = Other
      | NotReady => f' ≠ Done
      end
  | Panic p => f = Done ∧ p = Expect "cannot poll resolved future"
  | _ => False
  end.
Proof.
  intros Hc. destruct f as [fut n|vec|]; cbn [ares_poll future_ok].
  - intros [-> Hq]. pose proof (cares_poll_answers fut name (env w) Hq) as Ha.
    destruct (cares_poll fut (env w)) as [[[|vals|err] fut'] e]; [done| |done].
    unfold add. cbn [cell env]. rewrite (proj1 Hc). destruct (instant_now e) as [now e'].
    cbn [mbind outcome_bind cell]. split_and!; [by apply cache_ok_add|done..|eauto].
  - done.
  - done.
Qed.

Lemma step_ok s s' : step s s' → state_ok s → state_ok s'.
Proof.
  intros Hs [Hc Hf]. destruct Hs as [w fs i name f w' Hr|w fs i name f p f' w' Hi Hp|w fs i|w fs e];
    cbn in *.
  - apply resolve_ok in Hr as [Hcell Hok]; [|done]. split; cbn; [by rewrite Hcell|].
    intros j n g. rewrite lookup_insert_Some. intros [[_ [= <- <-]]|[_ Hl]]; [done|by eapply Hf].
  - pose proof (poll_ok name f w Hc (Hf _ _ _ Hi)) as Hok. rewrite Hp in Hok.
    destruct Hok as (Hc' & Hok & _). split; cbn; [done|].
    intros j n g. rewrite lookup_insert_Some. intros [[_ [= <- <-]]|[_ Hl]]; [done|by eapply Hf].
  - split; cbn; [done|]. intros j n g [_ Hl]%lookup_delete_Some. by eapply Hf.
  - done.
Qed.

Lemma reachable_ok e s : reachable e s → state_ok s.
Proof.
  intros Hr. assert (state_ok (start e)) as H0.
  { split; [split; [done|]|].
    - intros n vec t Hl. cbn in Hl. by rewrite lookup_empty in Hl.
    - intros i n f Hl. cbn in Hl. by rewrite lookup_empty in Hl. }
  revert H0. induction Hr as [|s s1 s2 Hs _ IH]; [done|]. intros Hok. by eapply IH, step_ok.
Qed.

(** An entry stays, or is replaced by a newer one. *)
Lemma step_cached s s' name :
  state_ok s → step s s' → is_Some (cache (cell s.1) !! name) → is_Some (cache (cell s'.1) !! name).
Proof.
  intros [Hc Hf] Hs. destruct Hs as [w fs i n f w' Hr|w fs i n f p f' w' Hi Hp|w fs i|w fs e];
    cbn in *; [| |done..].
  - by apply resolve_ok in Hr as [-> _].
  - destruct f as [fut m|vec|]; cbn [ares_poll] in Hp; [|by injection Hp as _ _ <-|done].
    destruct (cares_poll fut (env w)) as [[[|vals|err] fut'] e];
      [by injection Hp as _ _ <-| |by injection Hp as _ _ <-].
    unfold add in Hp. cbn [cell env] in Hp. rewrite (proj1 Hc) in Hp.
    destruct (instant_now e) as [now e']. cbn in Hp. injection Hp as _ _ <-. cbn.
    intros Hl. destruct (decide (m = name)) as [->|Hne].
    + by rewrite lookup_insert_eq.
    + by rewrite lookup_insert_ne.
Qed.

(** C20: under every interleaving of resolving, polling and dropping futures
    over the shared cache, a future that is ready gives addresses c-ares
    answered for the very name it was made for, whether it took them from the
    cache or not; and polling panics only for a future that has already given
    its result. *)
Theorem ares_sound e w fs i name f :
  reachable e (w, fs) → fs !! i = Some (name, f) →
  match ares_poll f w with
  | Ok (Ready addrs, f', _) => f' = Done ∧ ∃ vals, answers name vals ∧ addrs = V4 <$> vals
  | Ok (Failed err, f', _) => f' = Done ∧ kind err = Other
  | Ok (NotReady, f', _) => f' ≠ Done
  | Panic p => f = Done ∧ p = Expect "cannot poll resolved future"
  | _ => False
  end.
Proof.
  intros [Hc Hf]%reachable_ok Hi. pose proof (poll_ok name f w Hc (Hf _ _ _ Hi)) as Hok.
  destruct (ares_poll f w) as [[[p f'] w']| | |]; [|done..]. by destruct Hok as (_ & _ & ?).
Qed.

(** C34: a name that is once in the cache is never asked for again: whatever
    happens in between and however much later, resolving it gives the cached
    addresses, as long as the clock has moved since they were stored. *)
Theorem cache_never_expires e s s' name :
  reachable e s → rtc step s s' → is_Some (cache (cell s.1) !! name_as_str name) →
  ∃ vec t0, cache (cell s'.1) !! name_as_str name = Some (vec, t0) ∧
    ∀ now e', instant_now (env s'.1) = (now, e') → (t0 < now)%N →
      ares_resolve name s'.1 = (FromCache vec, {| cell := cell s'.1; env := e' |}).
Proof.
  intros Hok%reachable_ok Hr Hl.
  assert (is_Some (cache (cell s'.1) !! name_as_str name) ∧ state_ok s') as [[[vec t0] Hv] Hok'].
  { induction Hr as [|s s1 s2 Hs _ IH]; [done|].
    apply IH; [by eapply step_ok|by eapply step_cached]. }
  exists vec, t0. split; [done|]. intros now e' Hn Hlt%N.ltb_lt.
  unfold ares_resolve, lookup. rewrite (proj1 (proj1 Hok')), Hv, Hn. by rewrite Hlt.
Qed.
End facts.

(** ** Concrete runs

    A world that is a clock, and a resolver that knows one name and is ready
    at the second poll. *)
Module Examples.

Definition zone (name : bytes) : list Ipv4Addr :=
  if decide (name = b"a.org") then [(10, 0, 0, 1)%N] else [].

#[local] Instance clock_ares : AresLib N := {|
  CAresFuture := bool * bytes;
  query_a name e := ((false, name), e);
  cares_poll f e := if f.1 then (Ready (zone f.2), f, e) else (NotReady, (true, f.2), e);
  instant_now e := (e, e + 1)%N
|}.

#[local] Instance clock_answers : AresAnswers N.
Proof.
  refine {| answers name vals := vals = zone name; is_query f name := f.2 = name |}.
  - done.
  - by intros [[] n] name e; cbn; intros <-.
Defined.

Definition a_org : Name := Name_new (b"a.org").

(** The name is asked for, and answered at the second poll, at time 5. *)
Definition asked : state N :=
  ({| cell := cache_default; env := 5%N |}, {[0 := (b"a.org", FromResolver (true, b"a.org") (b"a.org"))]}).

Lemma asked_reachable : reachable 5%N asked.
Proof.
  eapply rtc_l; [eapply (step_resolve _ _ 0 a_org); reflexivity|].
  eapply rtc_l; [eapply (step_poll _ _ 0); reflexivity|].
  apply reflexive_eq. reflexivity.
Qed.

Definition cached : world N :=
  {| cell := {| poisoned := false; cache := {[b"a.org" := ([V4 (10, 0, 0, 1)%N], 5%N)]} |};
     env := 6%N |}.

Lemma ares_sound_witness :
  ares_poll (FromResolver (true, b"a.org") (b"a.org")) (fst asked) =
    Ok (Ready [V4 (10, 0, 0, 1)%N], Done, cached) ∧
  ∃ vals, answers (b"a.org") vals ∧ [V4 (10, 0, 0, 1)%N] = V4 <$> vals.
Proof.
  split; [reflexivity|].
  pose proof (ares_sound 5%N (fst asked) (snd asked) 0 (b"a.org")
    (FromResolver (true, b"a.org") (b"a.org")) asked_reachable eq_refl) as H.
  exact (proj2 H).
Defined.

(** Ten thousand ticks later. *)
Lemma cache_never_expires_witness :
  ares_resolve a_org {| cell := cell cached; env := 10006%N |} =
    (FromCache [V4 (10, 0, 0, 1)%N], {| cell := cell cached; env := 10007%N |}).
Proof.
  pose (s := (cached, ∅) : state N).
  assert (reachable 5%N s) as Hs.
  { unfold reachable. etrans; [exact asked_reachable|].
    eapply rtc_l; [eapply (step_poll _ _ 0); reflexivity|].
    eapply rtc_l; [eapply (step_drop _ _ 0)|].
    apply reflexive_eq. reflexivity. }
  destruct (cache_never_expires 5%N s ({| cell := cell cached; env := 10006%N |}, ∅) a_org Hs)
    as (vec & t0 & Hv & Hr).
  - eapply rtc_l; [exact (step_env cached ∅ 10006%N)|]. apply rtc_refl.
  - eexists. reflexivity.
  - cbn in Hv. assert (Some (vec, t0) = Some ([V4 (10, 0, 0, 1)%N], 5%N)) as E
      by (rewrite <-Hv; reflexivity).
    injection E as -> ->. apply (Hr 10006%N 10007%N); reflexivity.
Defined.
End Examples.
