(* ===== verification/Http.v ===== *)
(** * The HTTP connector: [src/src/http/mod.rs]

    [HttpConnector::connect] checks the URI and gives the future
    [HttpConnecting]: it resolves the host, unless it is an address, and
    connects to the addresses, preferring one family and falling back to the
    other after a delay.  The resolver is any instance of [Resolve]; sockets
    and timers are third-party code: the class [TcpLib]. *)
From S2P Require Import Prelude RustStd Io Uri Connect Net Dns.

(** [net2::TcpBuilder], [tokio_tcp], [tokio_reactor::Handle] and
    [tokio_timer::Delay].  A duration is a number of milliseconds. *)
Class TcpLib (W : Type) := {
  Builder : Type;
  StdStream : Type;
  TcpStream : Type;
  ConnectFuture : Type;
  Handle : Type;
  Delay : Type;
  handle_default : Handle;
  new_v4 : io W Builder;
  new_v6 : io W Builder;
  set_reuse_address : Builder → bool → io W unit;
  bind : Builder → SocketAddr → io W unit;
  to_tcp_stream : Builder → io W StdStream;
  connect_std : StdStream → SocketAddr → Handle → W → ConnectFuture * W;
  connect_poll : ConnectFuture → W → poll TcpStream io_error * ConnectFuture * W;
  set_keepalive : TcpStream → option N → io W unit;
  set_nodelay : TcpStream → bool → io W unit;
  peer_addr : TcpStream → io W SocketAddr;
  delay_new : N → W → Delay * W;
  delay_poll : Delay → W → poll unit unit * Delay * W
}.

(** [cfg!(windows)]. *)
Class Target := cfg_windows : bool.

Record HttpInfo := MkHttpInfo { remote_addr : SocketAddr }.

(** [Connected::extra] attaches a value to the connection. *)
Class HyperExtra `{HY : HyperLib} := {
  connected_extra : Connected → HttpInfo → Connected;
  connected_info : Connected → option HttpInfo;
  connected_info_extra c i : connected_info (connected_extra c i) = Some i
}.

Inductive InvalidUrl := MissingScheme | NotHttp | MissingAuthority.

(** [StdError::description]; the error that wraps it has this text. *)
Definition description (self : InvalidUrl) : bytes :=
  match self with
  | MissingScheme => b"invalid URL, missing scheme"
  | NotHttp => b"invalid URL, scheme must be http"
  | MissingAuthority => b"invalid URL, missing domain"
  end.

(** [Display] writes the description. *)
Definition invalid_url_display (self : InvalidUrl) : bytes := description self.

(** [HttpInfo::remote_addr]. *)
Definition info_remote_addr (self : HttpInfo) : SocketAddr := remote_addr self.

Section http.
Context {W : Type} `{TL : TcpLib W, TG : Target}.

(** ** One family of addresses *)

Record ConnectingTcpRemote := MkRemote {
  addrs : IpAddrs;
  current : option ConnectFuture
}.

Definition remote_new (addrs : IpAddrs) : ConnectingTcpRemote :=
  {| addrs := addrs; current := None |}.

(** [fn connect]: a socket for the address's family. *)
Definition tcp_connect (addr : SocketAddr) (local_addr : option IpAddr) (handle : option Handle)
    (reuse_address : bool) : io W ConnectFuture :=
  builder ← match addr with SockV4 _ _ => new_v4 | SockV6 _ _ _ _ => new_v6 end;
  _ ← (if reuse_address then set_reuse_address builder reuse_address else mret ());
  _ ← match local_addr with
      | Some local_addr => bind builder (socket_addr local_addr 0)
      | None =>
          if cfg_windows then
            let any := match addr with
              | SockV4 _ _ => SockV4 (0, 0, 0, 0)%N 0
              | SockV6 _ _ _ _ => SockV6 (replicate 8 0%N) 0 0 0
              end in
            bind builder any
          else mret ()
      end;
  let handle := match handle with Some handle => handle | None => handle_default end in
  stream ← to_tcp_stream builder;
  io_call (connect_std stream addr handle).

(** Going on to the next address, with the socket made for it; [err] is the
    error of the address tried before. *)
Definition try_next (local_addr : option IpAddr) (handle : option Handle) (reuse_address : bool)
    (self : ConnectingTcpRemote) (err : option io_error) (w : W)
    : outcome Empty_set (step (ConnectingTcpRemote * option io_error * W)
                              (poll TcpStream io_error * ConnectingTcpRemote * W)) :=
  match ip_addrs_next (addrs self) with
  | (Some addr, addrs') =>
      let self := MkRemote addrs' (current self) in
      try_io (tcp_connect addr local_addr handle reuse_address w)
        (λ e w, Break (Failed e, self, w))
        (λ f w, Ok (Continue (MkRemote addrs' (Some f), err, w)))
  | (None, _) =>
      e ← expect err "missing connect error";
      Ok (Break (Failed e, self, w))
  end.

(** One turn of the loop of [ConnectingTcpRemote::poll]. *)
Definition remote_step (local_addr : option IpAddr) (handle : option Handle) (reuse_address : bool)
    (s : ConnectingTcpRemote * option io_error * W)
    : outcome Empty_set (step (ConnectingTcpRemote * option io_error * W)
                              (poll TcpStream io_error * ConnectingTcpRemote * W)) :=
  let '(self, err, w) := s in
  match current self with
  | Some cur =>
      let '(p, cur, w) := connect_poll cur w in
      let self := MkRemote (addrs self) (Some cur) in
      match p with
      | Failed e => try_next local_addr handle reuse_address self (Some e) w
      | ok => Ok (Break (ok, self, w))
      end
  | None => try_next local_addr handle reuse_address self err w
  end.

(** Each turn takes an address, or is the last one: [remote_poll_total]. *)
Definition remote_poll (local_addr : option IpAddr) (handle : option Handle) (reuse_address : bool)
    (self : ConnectingTcpRemote) (w : W) : polled W ConnectingTcpRemote TcpStream :=
  loop (2 + length (iter (addrs self))) (remote_step local_addr handle reuse_address)
       (self, None, w).

(** ** Both families *)

Record ConnectingTcpFallback := MkFallback {
  delay : Delay;
  remote : ConnectingTcpRemote
}.

Record ConnectingTcp := MkConnectingTcp {
  ct_local_addr : option IpAddr;
  preferred : ConnectingTcpRemote;
  fallback : option ConnectingTcpFallback;
  ct_reuse_address : bool
}.

Definition connecting_tcp_new (local_addr : option IpAddr) (remote_addrs : IpAddrs)
    (fallback_timeout : option N) (reuse_address : bool) (w : W) : ConnectingTcp * W :=
  match fallback_timeout with
  | Some fallback_timeout =>
      let '(preferred_addrs, fallback_addrs) := split_by_preference remote_addrs in
      if is_empty fallback_addrs then
        (MkConnectingTcp local_addr (remote_new preferred_addrs) None reuse_address, w)
      else
        let '(delay, w) := delay_new fallback_timeout w in
        (MkConnectingTcp local_addr (remote_new preferred_addrs)
           (Some (MkFallback delay (remote_new fallback_addrs))) reuse_address, w)
  | None => (MkConnectingTcp local_addr (remote_new remote_addrs) None reuse_address, w)
  end.

Definition connecting_tcp_poll (handle : option Handle) (self : ConnectingTcp) (w : W)
    : polled W ConnectingTcp TcpStream :=
  let poll_remote r w := remote_poll (ct_local_addr self) handle (ct_reuse_address self) r w in
  let mk preferred fallback :=
    MkConnectingTcp (ct_local_addr self) preferred fallback (ct_reuse_address self) in
  match fallback self with
  | None =>
      '(p, preferred, w) ← poll_remote (preferred self) w;
      Ok (p, mk preferred None, w)
  | Some fb =>
      '(p, preferred, w) ← poll_remote (preferred self) w;
      match p with
      | Ready stream => Ok (Ready stream, mk preferred None, w)
      | NotReady =>
          let '(d, delay, w) := delay_poll (delay fb) w in
          match d with
          | Ready _ =>
              '(p, r, w) ← poll_remote (remote fb) w;
              match p with
              | Ready stream => Ok (Ready stream, mk r None, w)
              | NotReady => Ok (NotReady, mk preferred (Some (MkFallback delay r)), w)
              | Failed _ => Ok (NotReady, mk preferred None, w)
              end
          | NotReady => Ok (NotReady, mk preferred (Some (MkFallback delay (remote fb))), w)
          | Failed _ => Ok (NotReady, mk preferred None, w)
          end
      | Failed _ =>
          '(p, preferred, w) ← poll_remote (remote fb) w;
          Ok (p, mk preferred None, w)
      end
  end.
End http.

Arguments ConnectingTcpRemote W {TL}.
Arguments ConnectingTcpFallback W {TL}.
Arguments ConnectingTcp W {TL}.

(** ** The connector *)

Section connector.
Context {W R : Type} `{TL : TcpLib W, TG : Target, RV : Resolve W R}.
Context `{UL : UriLib, HY : HyperLib, HX : !HyperExtra}.

Record HttpConnector := MkHttpConnector {
  hc_enforce_http : bool;
  hc_handle : option Handle;
  hc_happy_eyeballs_timeout : option N;
  hc_keep_alive_timeout : option N;
  hc_local_address : option IpAddr;
  hc_nodelay : bool;
  hc_resolver : R;
  hc_reuse_address : bool
}.

Definition new_with_resolver (resolver : R) : HttpConnector := {|
  hc_enforce_http := true;
  hc_handle := None;
  hc_happy_eyeballs_timeout := Some 300%N;
  hc_keep_alive_timeout := None;
  hc_local_address := None;
  hc_nodelay := false;
  hc_resolver := resolver;
  hc_reuse_address := false
|}.

Definition enforce_http (self : HttpConnector) (is_enforced : bool) : HttpConnector :=
  MkHttpConnector is_enforced (hc_handle self) (hc_happy_eyeballs_timeout self)
    (hc_keep_alive_timeout self) (hc_local_address self) (hc_nodelay self)
    (hc_resolver self) (hc_reuse_address self).

Inductive State :=
| Lazy (resolver : R) (host : bytes) (local_addr : option IpAddr)
| Resolving (future : Future) (local_addr : option IpAddr)
| Connecting (c : ConnectingTcp W)
| Error (e : option io_error).

Record HttpConnecting := MkHttpConnecting {
  state : State;
  handle : option Handle;
  happy_eyeballs_timeout : option N;
  keep_alive_timeout : option N;
  nodelay : bool;
  port : N;
  reuse_address : bool
}.

Definition invalid_url (err : InvalidUrl) (handle : option Handle) : HttpConnecting := {|
  state := Error (Some (IoError InvalidInput (description err)));
  handle := handle;
  happy_eyeballs_timeout := None;
  keep_alive_timeout := None;
  nodelay := false;
  port := 0;
  reuse_address := false
|}.

(** Comparing [scheme_part] with [Scheme::HTTP] or [Scheme::HTTPS]. *)
Definition scheme_is (dst : Destination) (s : bytes) : bool :=
  bool_decide (scheme_as_str <$> scheme_part (uri dst) = Some s).

Definition http_connect (self : HttpConnector) (dst : Destination) : HttpConnecting :=
  if hc_enforce_http self && negb (scheme_is dst HTTP) then
    invalid_url NotHttp (hc_handle self)
  else if negb (hc_enforce_http self) && bool_decide (scheme_as_str <$> scheme_part (uri dst) = None) then
    invalid_url MissingScheme (hc_handle self)
  else match uri_host (uri dst) with
  | None => invalid_url MissingAuthority (hc_handle self)
  | Some host =>
      let port := match uri_port_u16 (uri dst) with
        | Some port => port
        | None => if scheme_is dst HTTPS then 443%N else 80%N
        end in
      {| state := Lazy (hc_resolver self) host (hc_local_address self);
         handle := hc_handle self;
         happy_eyeballs_timeout := hc_happy_eyeballs_timeout self;
         keep_alive_timeout := hc_keep_alive_timeout self;
         nodelay := hc_nodelay self;
         port := port;
         reuse_address := hc_reuse_address self |}
  end.

Definition set_state (self : HttpConnecting) (s : State) : HttpConnecting :=
  MkHttpConnecting s (handle self) (happy_eyeballs_timeout self) (keep_alive_timeout self)
    (nodelay self) (port self) (reuse_address self).

(** What is done with a connected socket. *)
Definition finish (self : HttpConnecting) (sock : TcpStream) : io W (TcpStream * Connected) :=
  _ ← match keep_alive_timeout self with
      | Some dur => set_keepalive sock (Some dur)
      | None => mret ()
      end;
  _ ← set_nodelay sock (nodelay self);
  remote_addr ← peer_addr sock;
  let extra := {| remote_addr := remote_addr |} in
  let connected := connected_extra connected_new extra in
  mret (sock, connected).

(** One turn of the loop of [HttpConnecting::poll]. *)
Definition http_step (s : HttpConnecting * W)
    : outcome Empty_set (step (HttpConnecting * W)
                              (poll (TcpStream * Connected) io_error * HttpConnecting * W)) :=
  let '(self, w) := s in
  let connect_to local_addr addrs w :=
    let '(c, w) := connecting_tcp_new local_addr addrs (happy_eyeballs_timeout self)
                                      (reuse_address self) w in
    Ok (Continue (set_state self (Connecting c), w)) in
  match state self with
  | Lazy resolver host local_addr =>
      match try_parse host (port self) with
      | Some addrs => connect_to local_addr addrs w
      | None =>
          let name := Name_new host in
          let '(f, w) := resolve resolver name w in
          Ok (Continue (set_state self (Resolving f local_addr), w))
      end
  | Resolving future local_addr =>
      '(p, future, w) ← future_poll (R:=R) future w;
      let self' := set_state self (Resolving future local_addr) in
      match p with
      | NotReady => Ok (Break (NotReady, self', w))
      | Failed e => Ok (Break (Failed e, self', w))
      | Ready addrs =>
          let addrs := (λ addr, socket_addr addr (port self)) <$> addrs_list addrs in
          connect_to local_addr (IpAddrs_new addrs) w
      end
  | Connecting c =>
      '(p, c, w) ← connecting_tcp_poll (handle self) c w;
      let self := set_state self (Connecting c) in
      match p with
      | NotReady => Ok (Break (NotReady, self, w))
      | Failed e => Ok (Break (Failed e, self, w))
      | Ready sock =>
          try_io (finish self sock w)
            (λ e w, Break (Failed e, self, w))
            (λ r w, Ok (Break (Ready r, self, w)))
      end
  | Error e =>
      e ← expect e "polled more than once";
      Ok (Break (Failed e, set_state self (Error None), w))
  end.

(** At most three states are left behind: [http_poll_total]. *)
Definition http_poll (self : HttpConnecting) (w : W)
    : polled W HttpConnecting (TcpStream * Connected) :=
  loop 4 http_step (self, w).

(** Awaiting the future, for at most [polls] polls; between them the reactor
    runs. *)
Definition http_await_step (turn : W → W) (s : HttpConnecting * W)
    : outcome Empty_set (step (HttpConnecting * W) (outcome io_error (TcpStream * Connected) * W)) :=
  let '(self, w) := s in
  '(p, self, w) ← http_poll self w;
  match p with
  | NotReady => Ok (Continue (self, turn w))
  | Ready r => Ok (Break (Ok r, w))
  | Failed e => Ok (Break (Err e, w))
  end.

Definition http_await (turn : W → W) (polls : nat) (self : HttpConnecting)
    : io W (TcpStream * Connected) := λ w,
  match loop polls (http_await_step turn) (self, w) with
  | Ok r => r
  | Err e => match (e : Empty_set) with end
  | Panic p => (Panic p, w)
  | Spin => (Spin, w)
  end.

Definition http_connector (turn : W → W) (polls : nat)
    : Connect W HttpConnector TcpStream :=
  λ self dst, http_await turn polls (http_connect self dst).
End connector.

(** ** What is assumed of sockets and resolvers

    Both keep an invariant of the world.  A connecting future is for the
    address it was made for, and a stream's peer is that address. *)

Class WorldInv (W : Type) := world_inv : W → Prop.

Class TcpContract (W : Type) `{TL : TcpLib W, WI : WorldInv W} := {
  target : ConnectFuture → SocketAddr;
  stream_peer : TcpStream → SocketAddr;
  new_v4_safe : safe world_inv new_v4 (λ _, True);
  new_v6_safe : safe world_inv new_v6 (λ _, True);
  set_reuse_address_safe b r : safe world_inv (set_reuse_address b r) (λ _, True);
  bind_safe b a : safe world_inv (bind b a) (λ _, True);
  to_tcp_stream_safe b : safe world_inv (to_tcp_stream b) (λ _, True);
  set_keepalive_safe s d : safe world_inv (set_keepalive s d) (λ _, True);
  set_nodelay_safe s v : safe world_inv (set_nodelay s v) (λ _, True);
  peer_addr_safe s : safe world_inv (peer_addr s) (λ a, a = stream_peer s);
  connect_std_ok s a h w :
    world_inv w → let '(f, w') := connect_std s a h w in world_inv w' ∧ target f = a;
  connect_poll_ok f w :
    world_inv w →
    let '(p, f', w') := connect_poll f w in
    world_inv w' ∧ target f' = target f ∧ ∀ s, p = Ready s → stream_peer s = target f;
  delay_new_ok d w : world_inv w → world_inv (snd (delay_new d w));
  delay_poll_ok d w : world_inv w → world_inv (snd (delay_poll d w))
}.

(** [gives host ip]: the resolver may answer the name with this address. *)
Class ResolveContract (W R : Type) `{RV : Resolve W R, WI : WorldInv W} := {
  gives : bytes → IpAddr → Prop;
  for_name : Future → bytes → Prop;
  resolve_ok (r : R) n w :
    world_inv w →
    let '(f, w') := resolve r n w in world_inv w' ∧ for_name f (name_host n);
  future_poll_ok f n w :
    world_inv w → for_name f n →
    match future_poll f w with
    | Ok (Ready a, _, w') => world_inv w' ∧ Forall (gives n) (addrs_list a)
    | Ok (NotReady, f', w') => world_inv w' ∧ for_name f' n
    | Ok (Failed _, _, w') => world_inv w'
    | _ => False
    end
}.

Definition MISSING : panic := Expect "missing connect error".

Section tcp_facts.
Context {W : Type} `{TL : TcpLib W, TG : Target, WI : WorldInv W, TC : !TcpContract W}.
Context (al : SocketAddr → Prop).

Lemma tcp_connect_safe a la h ra :
  safe world_inv (tcp_connect a la h ra) (λ f, target f = a).
Proof.
  unfold tcp_connect.
  eapply (safe_bind _ _ _ (λ _, True)).
  { destruct a; [apply new_v4_safe|apply new_v6_safe]. }
  intros bu _. eapply (safe_bind _ _ _ (λ _, True)).
  { destruct ra; [apply set_reuse_address_safe|by apply safe_ret]. }
  intros _ _. eapply (safe_bind _ _ _ (λ _, True)).
  { destruct la; [apply bind_safe|]. destruct cfg_windows; [apply bind_safe|by apply safe_ret]. }
  intros _ _. eapply (safe_bind _ _ _ (λ _, True)); [apply to_tcp_stream_safe|].
  intros s _. apply safe_call. intros w Hw. by apply connect_std_ok.
Qed.

(** Only addresses of [al] are left to try or being tried. *)
Definition remote_ok (self : ConnectingTcpRemote W) : Prop :=
  Forall al (iter (addrs self)) ∧ ∀ f, current self = Some f → al (target f).

Definition live (self : ConnectingTcpRemote W) : Prop :=
  is_Some (current self) ∨ iter (addrs self) ≠ [].

(** What a poll of one family may do. *)
Definition remote_result (lv : Prop) (r : polled W (ConnectingTcpRemote W) TcpStream) : Prop :=
  match r with
  | Ok (p, self, w) => world_inv w ∧
      match p with
      | Ready s => al (stream_peer s)
      | NotReady => remote_ok self ∧ live self
      | Failed _ => True
      end
  | Panic p => p = MISSING ∧ ¬ lv
  | _ => False
  end.

Lemma try_next_ok la h ra l cur err w :
  world_inv w → remote_ok (MkRemote (MkIpAddrs l) cur) →
  match try_next la h ra (MkRemote (MkIpAddrs l) cur) err w with
  | Ok (Continue (self', err', w')) =>
      world_inv w' ∧ remote_ok self' ∧ is_Some (current self') ∧
      length (iter (addrs self')) < length l
  | Ok (Break (p, _, w')) => world_inv w' ∧ ∃ e, p = Failed e
  | Panic p => p = MISSING ∧ l = [] ∧ err = None
  | _ => False
  end.
Proof.
  intros Hw [Ha Hc]. destruct l as [|a l]; cbn.
  { destruct err; cbn; eauto. }
  apply Forall_cons in Ha as [Ha Hl]. unfold try_next. cbn [ip_addrs_next iter addrs].
  pose proof (tcp_connect_safe a la h ra w Hw) as Hs. unfold try_io.
  destruct (tcp_connect a la h ra w) as [[f|e|p|] w']; [|by eauto|done..].
  destruct Hs as [Hw' Hf]. cbn. split_and!; [done| |by eexists|lia].
  split; [done|]. intros f' [= <-]. by rewrite Hf.
Qed.

Lemma remote_loop_ok la h ra n self err w :
  world_inv w → remote_ok self → length (iter (addrs self)) + 1 < n →
  remote_result (live self ∨ is_Some err) (loop n (remote_step la h ra) (self, err, w)).
Proof.
  revert self err w. induction n as [|n IH]; intros [[l] cur] err w Hw Hok Hn; [lia|].
  assert (∀ cur err w (P : Prop), world_inv w → remote_ok (MkRemote (MkIpAddrs l) cur) →
    (P → l ≠ [] ∨ is_Some err) →
    remote_result P
      match try_next la h ra (MkRemote (MkIpAddrs l) cur) err w with
      | Ok (Continue s') => loop n (remote_step la h ra) s'
      | Ok (Break r) => Ok r
      | Err e => Err e
      | Panic p => Panic p
      | Spin => Spin
      end) as Hnext.
  { cbn in Hn. clear cur err w Hw Hok. intros cur err w P Hw Hok HP.
    pose proof (try_next_ok la h ra l cur err w Hw Hok) as Ht.
    destruct (try_next _ _ _ _ _ _) as [[[[self' err'] w']|[[p self'] w']]| |p|]; try done.
    - destruct Ht as (Hw' & Hok' & Hcur & Hlen).
      pose proof (IH self' err' w' Hw' Hok' ltac:(lia)) as Hr. unfold remote_result in *.
      destruct (loop n _ _) as [[[p self2] w2]| |p|]; try done.
      exfalso. apply Hr. by left; left.
    - by destruct Ht as [? [e ->]].
    - destruct Ht as (-> & -> & ->). split; [done|]. by intros [|[]]%HP. }
  cbn [loop remote_step current addrs] in *. destruct Hok as [Ha Hc]. destruct cur as [f|].
  - pose proof (connect_poll_ok f w Hw) as Hp. specialize (Hc f eq_refl).
    destruct (connect_poll f w) as [[p f'] w']. destruct Hp as (Hw' & Ht & Hs).
    assert (remote_ok (MkRemote (MkIpAddrs l) (Some f'))) as Hok'.
    { split; [done|]. intros g [= <-]. by rewrite Ht. }
    destruct p as [|s|e].
    + cbn. split; [done|]. split; [done|]. left. by eexists.
    + cbn. split; [done|]. by rewrite (Hs s).
    + apply Hnext; [done..|]. intros _. right. by eexists.
  - apply Hnext; [done|by split|]. intros [[[? [=]]|Hl]|He]; tauto.
Qed.

Lemma remote_poll_ok la h ra self w :
  world_inv w → remote_ok self → remote_result (live self) (remote_poll la h ra self w).
Proof.
  intros Hw Hok.
  pose proof (remote_loop_ok la h ra (2 + length (iter (addrs self))) self None w Hw Hok ltac:(lia)) as Hr.
  fold (remote_poll la h ra self w) in Hr. unfold remote_result in *.
  destruct (remote_poll la h ra self w) as [[[p self'] w']| |p|]; try done.
  split; [apply Hr|]. intros Hl. apply Hr. by left.
Qed.
End tcp_facts.

(** ** A family fails when all its addresses have *)

Section exhausts.
Context {W : Type} `{TL : TcpLib W, TG : Target}.

Lemma remote_poll_exhausts la h ra (self : ConnectingTcpRemote W) w p self' w' :
  remote_poll la h ra self w = Ok (p, self', w') →
  match p with
  | Failed e => iter (addrs self') = [] ∨
      ∃ a w1 w2, a ∈ iter (addrs self) ∧ tcp_connect a la h ra w1 = (Err e, w2)
  | _ => is_Some (current self')
  end.
Proof.
  intros Hp. unfold remote_poll in Hp.
  refine (loop_Ok (remote_step la h ra)
    (λ s, iter (addrs s.1.1) ⊆ iter (addrs self))
    (λ r, match r.1.1 with
          | Failed e => iter (addrs r.1.2) = [] ∨
              ∃ a w1 w2, a ∈ iter (addrs self) ∧ tcp_connect a la h ra w1 = (Err e, w2)
          | _ => is_Some (current r.1.2)
          end) _ _ _ (self, None, w) (p, self', w') _ Hp); [| |done].
  all: clear; intros [[[[l] cur] err] w] r Hl Hs; cbn [fst snd addrs iter] in Hl;
    cbn [remote_step current addrs] in Hs; destruct cur as [f|];
    [destruct (connect_poll f w) as [[q f'] w'], q as [|s|e]|]; outcome_inv;
    try (by eexists); unfold try_next in Hs; destruct l as [|a l];
    cbn [ip_addrs_next iter addrs current] in Hs; outcome_inv;
    try (by left); unfold try_io in Hs;
    match type of Hs with context [tcp_connect ?a ?b ?c ?d ?w] =>
      destruct (tcp_connect a b c d w) as [[g|e'|pn|] w2] eqn:Et end; outcome_inv; cbn.
  1, 2: intros x Hx; apply Hl; by right.
  all: right; exists a; eexists _, _; split; [apply Hl; by left|exact Et].
Qed.
End exhausts.

Section http_facts.
Context {W R : Type} `{TL : TcpLib W, TG : Target, RV : Resolve W R}.
Context `{WI : WorldInv W, TC : !TcpContract W, RC : !ResolveContract W R}.
Context `{UL : UriLib, HY : HyperLib, HX : !HyperExtra}.

Definition ct_ok (al : SocketAddr → Prop) (c : ConnectingTcp W) : Prop :=
  remote_ok al (preferred c) ∧
  match fallback c with Some fb => remote_ok al (remote fb) ∧ live (remote fb) | None => True end.

Definition ct_result (al : SocketAddr → Prop) (lv : Prop)
    (r : polled W (ConnectingTcp W) TcpStream) : Prop :=
  match r with
  | Ok (p, c, w) => world_inv w ∧
      match p with
      | Ready s => al (stream_peer s)
      | NotReady => ct_ok al c ∧ live (preferred c)
      | Failed _ => True
      end
  | Panic p => p = MISSING ∧ ¬ lv
  | _ => False
  end.

Lemma connecting_tcp_poll_ok al h c w :
  world_inv w → ct_ok al c → ct_result al (live (preferred c)) (connecting_tcp_poll h c w).
Proof.
  destruct c as [la pr fb ra]. unfold ct_ok. cbn [preferred fallback].
  intros Hw [Hpr Hfb]. unfold connecting_tcp_poll. cbn [preferred fallback ct_local_addr ct_reuse_address].
  pose proof (remote_poll_ok al la h ra pr w Hw Hpr) as Hp. unfold remote_result in Hp.
  destruct fb as [[dl rm]|].
  - destruct (remote_poll la h ra pr w) as [[[p pr'] w1]| |p|]; cbn [mbind outcome_bind]; try done.
    destruct Hp as [Hw1 Hp]. destruct Hfb as [Hrm Hlive]. cbn [remote delay] in *.
    destruct p as [|s|e].
    + pose proof (delay_poll_ok dl w1 Hw1) as Hw2.
      destruct (delay_poll dl w1) as [[d dl'] w2]. cbn [snd] in Hw2.
      destruct d as [|[]|[]]; [unfold ct_result, ct_ok; cbn; tauto| |unfold ct_result, ct_ok; cbn; tauto].
      pose proof (remote_poll_ok al la h ra rm w2 Hw2 Hrm) as Hq. unfold remote_result in Hq.
      destruct (remote_poll la h ra rm w2) as [[[q rm'] w3]| |q|]; cbn [mbind outcome_bind]; try done.
      * destruct Hq as [Hw3 Hq]. destruct q; unfold ct_result, ct_ok; cbn; tauto.
      * by destruct Hq.
    + done.
    + pose proof (remote_poll_ok al la h ra rm w1 Hw1 Hrm) as Hq. unfold remote_result in Hq.
      destruct (remote_poll la h ra rm w1) as [[[q rm'] w3]| |q|]; cbn [mbind outcome_bind]; try done.
      * destruct Hq as [Hw3 Hq]. destruct q; unfold ct_result, ct_ok; cbn; tauto.
      * by destruct Hq.
  - destruct (remote_poll la h ra pr w) as [[[p pr'] w1]| |p|]; cbn [mbind outcome_bind]; try done.
    destruct Hp as [Hw1 Hp]. destruct p; unfold ct_result, ct_ok; cbn; tauto.
Qed.

Lemma connecting_tcp_new_ok (al : SocketAddr → Prop) la l t ra w :
  world_inv w → Forall al l →
  let '(c, w') := connecting_tcp_new la (IpAddrs_new l) t ra w in
  world_inv w' ∧ ct_ok al c ∧ (l ≠ [] → live (preferred c)).
Proof.
  intros Hw Hl. unfold connecting_tcp_new. destruct t as [t|].
  - destruct (split_by_preference (IpAddrs_new l)) as [p f] eqn:Es.
    destruct (split_by_preference_facts l p f Es) as (_ & Hsp & Hsf & Hh & _).
    assert (remote_ok al (remote_new p)) as Hp.
    { split; [|done]. cbn. by eapply Forall_sublist. }
    assert (l ≠ [] → live (remote_new p)) as Hlive.
    { intros Hne. right. cbn. destruct l; [done|]. by destruct (iter p). }
    destruct (is_empty f) eqn:Ef; [done|].
    pose proof (delay_new_ok t w Hw) as Hd. destruct (delay_new t w) as [dl w'].
    split; [done|]. split; [|done]. split; [done|]. cbn. split.
    + split; [|done]. cbn. by eapply Forall_sublist.
    + right. cbn. unfold is_empty in Ef. by destruct (iter f).
  - split; [done|]. split; [by split|]. intros Hne. by right.
Qed.

(** The addresses a host and a port stand for. *)
Definition allowed (host : bytes) (port : N) (a : SocketAddr) : Prop :=
  match try_parse host port with
  | Some l => a ∈ iter l
  | None => ∃ ip, gives host ip ∧ a = socket_addr ip port
  end.

(** The resolver may answer the name with no address at all. *)
Definition empty_answer (host : bytes) : Prop :=
  try_parse host 0 = None ∧
  ∃ f w a f' w', for_name f host ∧ future_poll f w = Ok (Ready a, f', w') ∧ addrs_list a = [].

Definition connecting_ok (host : bytes) (self : HttpConnecting) : Prop :=
  match state self with
  | Lazy _ h _ => h = host
  | Resolving f _ => for_name f host ∧ try_parse host (port self) = None
  | Connecting c => ct_ok (allowed host (port self)) c ∧ (live (preferred c) ∨ empty_answer host)
  | Error e => is_Some e
  end.

Definition poll_result (host : bytes) (pt : N)
    (r : polled W HttpConnecting (TcpStream * Connected)) : Prop :=
  match r with
  | Ok (p, self, w) => world_inv w ∧
      match p with
      | Ready (s, c) => allowed host pt (stream_peer s) ∧
          connected_info c = Some {| remote_addr := stream_peer s |}
      | NotReady => connecting_ok host self ∧ port self = pt
      | Failed _ => True
      end
  | Panic p => p = MISSING ∧ empty_answer host
  | _ => False
  end.

Lemma finish_safe self s :
  safe world_inv (finish self s)
    (λ r, r.1 = s ∧ connected_info r.2 = Some {| remote_addr := stream_peer s |}).
Proof.
  unfold finish. eapply (safe_bind _ _ _ (λ _, True)).
  { destruct (keep_alive_timeout self); [apply set_keepalive_safe|by apply safe_ret]. }
  intros _ _. eapply (safe_bind _ _ _ (λ _, True)); [apply set_nodelay_safe|].
  intros _ _. eapply safe_bind; [apply peer_addr_safe|].
  intros a ->. apply safe_ret. split; [done|apply connected_info_extra].
Qed.

Lemma try_parse_none host p q : try_parse host p = None → try_parse host q = None.
Proof. unfold try_parse. by destruct (parse_ipv4 host), (parse_ipv6 host). Qed.

(** The states that are left behind. *)
Definition phase (s : State) : nat :=
  match s with Lazy _ _ _ => 2 | Resolving _ _ => 1 | _ => 0 end.

Definition step_result (host : bytes) (pt : N) (self : HttpConnecting)
    (r : outcome Empty_set (step (HttpConnecting * W)
           (poll (TcpStream * Connected) io_error * HttpConnecting * W))) : Prop :=
  match r with
  | Ok (Continue (self', w)) =>
      world_inv w ∧ connecting_ok host self' ∧ port self' = pt ∧
      phase (state self') < phase (state self)
  | Ok (Break r) => poll_result host pt (Ok r)
  | Panic p => poll_result host pt (Panic p)
  | _ => False
  end.

(** Starting to connect to a list of addresses. *)
Lemma connect_to_ok host self la l w :
  world_inv w → Forall (allowed host (port self)) l →
  (l ≠ [] ∨ empty_answer host) → 0 < phase (state self) →
  step_result host (port self) self
    (let '(c, w) := connecting_tcp_new la (IpAddrs_new l) (happy_eyeballs_timeout self)
                                       (reuse_address self) w in
     Ok (Continue (set_state self (Connecting c), w))).
Proof.
  intros Hw Hl Hne Hph.
  pose proof (connecting_tcp_new_ok (allowed host (port self)) la l (happy_eyeballs_timeout self)
                (reuse_address self) w Hw Hl) as Hc.
  destruct (connecting_tcp_new _ _ _ _ w) as [c w']. destruct Hc as (Hw' & Hok & Hlive).
  unfold step_result, connecting_ok. cbn. split; [done|]. split; [|done]. split; [done|].
  destruct Hne; auto.
Qed.

Lemma resolving_step_ok host self f la w :
  state self = Resolving f la → world_inv w → connecting_ok host self →
  step_result host (port self) self (http_step (self, w)).
Proof.
  intros Est Hw Hok. unfold connecting_ok in Hok. rewrite Est in Hok. destruct Hok as [Hf Hn].
  cbn [http_step]. rewrite Est. pose proof (future_poll_ok f host w Hw Hf) as Hp.
  destruct (future_poll f w) as [[[p f'] w']| | |] eqn:Ef; [|done..]. cbn [mbind outcome_bind].
  destruct p as [|a|e].
  - destruct Hp as [Hw' Hf']. unfold step_result, poll_result, connecting_ok. cbn. tauto.
  - destruct Hp as [Hw' Ha]. apply connect_to_ok; [done| | |by rewrite Est; cbn; lia].
    + apply Forall_fmap. apply (Forall_impl _ _ _ Ha). intros ip Hip. cbn.
      unfold allowed. rewrite Hn. by exists ip.
    + destruct (addrs_list a) as [|ip l] eqn:El; [right|by left].
      split; [by eapply try_parse_none|]. by exists f, w, a, f', w'.
  - by cbn.
Qed.

Lemma connecting_step_ok host self c w :
  state self = Connecting c → world_inv w → connecting_ok host self →
  step_result host (port self) self (http_step (self, w)).
Proof.
  intros Est Hw Hok. unfold connecting_ok in Hok. rewrite Est in Hok. destruct Hok as [Hc Hl].
  cbn [http_step]. rewrite Est.
  pose proof (connecting_tcp_poll_ok _ (handle self) c w Hw Hc) as Hp. unfold ct_result in Hp.
  destruct (connecting_tcp_poll (handle self) c w) as [[[p c'] w']| |p|]; cbn [mbind outcome_bind]; try done.
  - destruct Hp as [Hw' Hp]. destruct p as [|s|e]; [| |by cbn].
    + unfold step_result, poll_result, connecting_ok. cbn. tauto.
    + pose proof (finish_safe (set_state self (Connecting c')) s w' Hw') as Hs. unfold try_io.
      destruct (finish _ s w') as [[[s' cn]|e|p|] w2]; [|by cbn|done..].
      destruct Hs as (Hw2 & Hs & Hcn). cbn in Hs, Hcn. subst s'. by cbn.
  - destruct Hp as [-> Hp]. split; [done|]. by destruct Hl.
Qed.

Lemma http_step_ok host self w :
  world_inv w → connecting_ok host self →
  step_result host (port self) self (http_step (self, w)).
Proof.
  intros Hw Hok. destruct (state self) as [r h la|f la|c|e] eqn:Est;
    [|by eapply resolving_step_ok|by eapply connecting_step_ok|].
  - unfold connecting_ok in Hok. rewrite Est in Hok. subst h.
    cbn [http_step]. rewrite Est. destruct (try_parse host (port self)) as [l|] eqn:Et.
    + destruct l as [l]. apply connect_to_ok; [done| | |by rewrite Est; cbn; lia].
      * apply list.Forall_forall. intros a Ha. unfold allowed. by rewrite Et.
      * left. apply try_parse_facts in Et as [[ip Hip] _]. cbn in Hip. by rewrite Hip.
    + pose proof (resolve_ok r (Name_new host) w Hw) as Hr.
      destruct (resolve r (Name_new host) w) as [f w']. destruct Hr as [Hw' Hf].
      unfold step_result, connecting_ok. rewrite Est. cbn in *. split_and!; [done..|lia].
  - unfold connecting_ok in Hok. rewrite Est in Hok. destruct Hok as [e' ->].
    cbn [http_step]. rewrite Est. by cbn.
Qed.

Lemma http_loop_ok host n self w :
  world_inv w → connecting_ok host self → phase (state self) < n →
  poll_result host (port self) (loop n http_step (self, w)).
Proof.
  revert self w. induction n as [|n IH]; intros self w Hw Hok Hn; [lia|]. cbn [loop].
  pose proof (http_step_ok host self w Hw Hok) as Hs.
  destruct (http_step (self, w)) as [[[self' w']|r]| |p|]; try done.
  destruct Hs as (Hw' & Hok' & Hpt & Hlt). rewrite <-Hpt. apply IH; [done..|lia].
Qed.

(** Four turns are enough, and what the poll does. *)
Lemma http_poll_ok host self w :
  world_inv w → connecting_ok host self → poll_result host (port self) (http_poll self w).
Proof.
  intros Hw Hok. apply http_loop_ok; [done..|]. destruct (state self); cbn; lia.
Qed.

(** The port of a destination: the one it has, or the one of its scheme. *)
Definition dst_port_or_default (dst : Destination) : N :=
  default (if scheme_is dst HTTPS then 443%N else 80%N) (uri_port_u16 (uri dst)).

Lemma http_connect_cases (self : HttpConnector) dst :
  (∃ e h, state (http_connect self dst) = Error (Some e) ∧ kind e = InvalidInput ∧
          handle (http_connect self dst) = h) ∨
  (∃ host, uri_host (uri dst) = Some host ∧
     (hc_enforce_http self = true → scheme_is dst HTTP = true) ∧
     state (http_connect self dst) = Lazy (hc_resolver self) host (hc_local_address self) ∧
     port (http_connect self dst) = dst_port_or_default dst).
Proof.
  unfold http_connect. destruct (hc_enforce_http self && _) eqn:E1; [left; by eexists _, _|].
  destruct (negb _ && _); [left; by eexists _, _|].
  destruct (uri_host (uri dst)) as [host|] eqn:Eh; [|left; by eexists _, _].
  right. exists host. split; [done|]. split.
  - intros He. rewrite He in E1. by destruct (scheme_is dst HTTP).
  - split; [done|]. unfold dst_port_or_default. cbn. by destruct (uri_port_u16 (uri dst)).
Qed.

(** The scheme is one the connector takes. *)
Definition scheme_allowed (self : HttpConnector (W:=W) (R:=R)) (dst : Destination) : Prop :=
  if hc_enforce_http self then scheme_is dst HTTP = true else is_Some (scheme_part (uri dst)).

(** The future for a destination that passes the guards. *)
Lemma http_connect_lazy (self : HttpConnector (W:=W) (R:=R)) dst host :
  uri_host (uri dst) = Some host → scheme_allowed self dst →
  http_connect self dst = {|
    state := Lazy (hc_resolver self) host (hc_local_address self);
    handle := hc_handle self;
    happy_eyeballs_timeout := hc_happy_eyeballs_timeout self;
    keep_alive_timeout := hc_keep_alive_timeout self;
    nodelay := hc_nodelay self;
    port := dst_port_or_default dst;
    reuse_address := hc_reuse_address self |}.
Proof.
  intros Hh Hs. unfold http_connect, scheme_allowed, dst_port_or_default in *. rewrite Hh.
  destruct (hc_enforce_http self); cbn [andb negb].
  - rewrite Hs. cbn. by destruct (uri_port_u16 (uri dst)).
  - destruct Hs as [sc ->]. cbn. by destruct (uri_port_u16 (uri dst)).
Qed.

(** Awaiting a future that is for [host]. *)
Lemma http_await_ok host turn polls self w :
  (∀ w, world_inv w → world_inv (turn w)) → world_inv w → connecting_ok host self →
  match http_await turn polls self w with
  | (Ok (s, c), _) => allowed host (port self) (stream_peer s) ∧
      connected_info c = Some {| remote_addr := stream_peer s |}
  | (Panic p, _) => p = MISSING ∧ empty_answer host
  | _ => True
  end.
Proof.
  intros Ht Hw Hok. unfold http_await.
  enough (match loop polls (http_await_step turn) (self, w) with
          | Ok (Ok (s, c), _) => allowed host (port self) (stream_peer s) ∧
              connected_info c = Some {| remote_addr := stream_peer s |}
          | Ok (Err _, _) => True
          | Panic p => p = MISSING ∧ empty_answer host
          | Spin => True
          | _ => False
          end) as H.
  { by destruct (loop polls _ _) as [[[[s c]|e|p|] w']| |p|]. }
  revert self w Hw Hok. induction polls as [|n IH]; intros self w Hw Hok; [done|].
  cbn [loop http_await_step]. pose proof (http_poll_ok host self w Hw Hok) as Hp.
  destruct (http_poll self w) as [[[p self'] w']| |p|]; [|done..]. destruct Hp as [Hw' Hp].
  cbn [mbind outcome_bind]. destruct p as [|[s c]|e]; [|done..].
  destruct Hp as [Hok' <-]. apply IH; [by apply Ht|done].
Qed.

Lemma http_await_error turn polls self e w :
  state self = Error (Some e) → http_await turn (S polls) self w = (Err e, w).
Proof.
  intros Est.
  assert (http_poll self w = Ok (Failed e, set_state self (Error None), w)) as Hp.
  { unfold http_poll. cbn [loop http_step]. by rewrite Est. }
  unfold http_await. cbn [loop http_await_step]. by rewrite Hp.
Qed.

Lemma http_connects_facts turn polls (self : HttpConnector) dst w s c w' :
  (∀ w, world_inv w → world_inv (turn w)) → world_inv w →
  http_connector turn polls self dst w = (Ok (s, c), w') →
  ∃ host, uri_host (uri dst) = Some host ∧
    (hc_enforce_http self = true → scheme_is dst HTTP = true) ∧
    allowed host (dst_port_or_default dst) (stream_peer s) ∧
    connected_info c = Some {| remote_addr := stream_peer s |}.
Proof.
  intros Ht Hw Hc. unfold http_connector in Hc.
  destruct (http_connect_cases self dst) as [(e & _ & Est & _)|(host & Hh & He & Est & Hp)].
  - destruct polls as [|n]; [done|]. by rewrite (http_await_error _ _ _ _ _ Est) in Hc.
  - exists host. split; [done|]. split; [done|]. rewrite <-Hp.
    pose proof (http_await_ok host turn polls (http_connect self dst) w Ht Hw) as Hok.
    rewrite Hc in Hok. apply Hok. unfold connecting_ok. by rewrite Est.
Qed.

(** C10: what a successful connection is connected to: the destination has a
    host (and the scheme [http], if it is enforced), and the peer, which is
    also the address the connection info reports, is an address the host
    stands for, by its text or by an answer of the resolver, with the port of
    the URI or the default one of its scheme.  For every resolver and network,
    whatever families, delays and failed addresses there were. *)
Theorem http_connects_where_told turn polls (self : HttpConnector) dst w s c w' :
  (∀ w, world_inv w → world_inv (turn w)) → world_inv w →
  http_connector turn polls self dst w = (Ok (s, c), w') →
  ∃ host, uri_host (uri dst) = Some host ∧
    (hc_enforce_http self = true → scheme_is dst HTTP = true) ∧
    allowed host (dst_port_or_default dst) (stream_peer s) ∧
    connected_info c = Some {| remote_addr := stream_peer s |}.
Proof. apply http_connects_facts. Qed.

(** C27: polling a future of the connector always returns, in any state polls
    lead to: it gives a result, or it is not ready and can be polled again.
    The one way to panic is a resolver that answers a host that is no address
    with an empty list. *)
Theorem http_poll_total host (self : HttpConnecting) w :
  world_inv w → connecting_ok host self →
  match http_poll self w with
  | Ok (NotReady, self', w') => world_inv w' ∧ connecting_ok host self'
  | Ok (_, _, w') => world_inv w'
  | Panic p => p = MISSING ∧ empty_answer host
  | _ => False
  end.
Proof.
  intros Hw Hok. pose proof (http_poll_ok host self w Hw Hok) as Hp. unfold poll_result in Hp.
  destruct (http_poll self w) as [[[[|[s c]|e] self'] w']| |p|]; tauto.
Qed.

(** C39: a resolver without an answer makes the connector panic: when the resolver's future is ready with no
    address at the first poll. *)
Theorem http_empty_answer_panics turn polls (self : HttpConnector) dst host w f w1 a f' w2 :
  uri_host (uri dst) = Some host → try_parse host 0 = None →
  scheme_allowed self dst →
  resolve (hc_resolver self) (Name_new host) w = (f, w1) →
  future_poll f w1 = Ok (Ready a, f', w2) → addrs_list a = [] →
  http_connector turn (S polls) self dst w = (Panic MISSING, w).
Proof.
  intros Hh Hn Hsch Hr Hf Ha. pose proof (http_connect_lazy self dst host Hh Hsch) as Hc.
  unfold http_connector, http_await. rewrite Hc. clear Hc.
  cbn [loop http_await_step]. unfold http_poll. cbn [loop http_step state port].
  rewrite (try_parse_none host 0 _ Hn), Hr. cbn [set_state state loop http_step mbind outcome_bind].
  rewrite Hf. cbn [mbind outcome_bind]. rewrite Ha.
  unfold connecting_tcp_new. by destruct (hc_happy_eyeballs_timeout self).
Qed.

(** The guards of [connect]: a destination with another scheme than
    [http] when it is enforced, without a scheme when it is not, or without a
    host, is an [InvalidInput] error with its own text, and nothing is done. *)
Theorem http_connect_guards turn polls (self : HttpConnector) dst w err :
  match err with
  | NotHttp => hc_enforce_http self = true ∧ scheme_is dst HTTP = false
  | MissingScheme => hc_enforce_http self = false ∧ scheme_part (uri dst) = None
  | MissingAuthority =>
      (if hc_enforce_http self then scheme_is dst HTTP = true
       else is_Some (scheme_part (uri dst))) ∧ uri_host (uri dst) = None
  end →
  http_connector turn (S polls) self dst w = (Err (IoError InvalidInput (description err)), w).
Proof.
  intros He. unfold http_connector. apply http_await_error. unfold http_connect.
  destruct err; [destruct He as [-> ->]|destruct He as [-> ->]|]; [done..|].
  destruct He as [Hs ->]. destruct (hc_enforce_http self); [by rewrite Hs|].
  by destruct Hs as [sc ->].
Qed.

(** Connecting to one family, with an address to try or being tried,
    always returns; it fails only when every address has been tried, or when a
    socket could not be made, and is otherwise still connecting or connected. *)
Theorem remote_poll_total la h ra (self : ConnectingTcpRemote W) w :
  world_inv w → live self →
  ∃ p self' w', remote_poll la h ra self w = Ok (p, self', w') ∧
    match p with
    | Failed e => iter (addrs self') = [] ∨
        ∃ a w1 w2, a ∈ iter (addrs self) ∧ tcp_connect a la h ra w1 = (Err e, w2)
    | _ => is_Some (current self')
    end.
Proof.
  intros Hw Hl.
  assert (remote_ok (λ _, True) self) as Hok.
  { split; [|done]. by apply list.Forall_forall. }
  pose proof (remote_poll_ok (λ _, True) la h ra self w Hw Hok) as Hr. unfold remote_result in Hr.
  destruct (remote_poll la h ra self w) as [[[p self'] w']| |p|] eqn:Ep; try done.
  - exists p, self', w'. split; [done|]. by eapply remote_poll_exhausts.
  - by destruct Hr.
Qed.
End http_facts.

(** ** Concrete runs

    A network of the addresses that are open, where connecting takes one poll
    that is not ready, and a resolver that knows one name. *)
Module Examples.

Definition a6 : Ipv6Addr := [8193; 3512; 0; 0; 0; 0; 0; 1]%N.
Definition a4 : Ipv4Addr := (10, 0, 0, 1)%N.

Record network := Network { open : list SocketAddr }.

#[local] Instance net : TcpLib network := {|
  Builder := unit;
  StdStream := unit;
  TcpStream := SocketAddr;
  ConnectFuture := bool * SocketAddr;
  Handle := unit;
  Delay := unit;
  handle_default := tt;
  new_v4 := mret tt;
  new_v6 := mret tt;
  set_reuse_address _ _ := mret tt;
  bind _ _ := mret tt;
  to_tcp_stream _ := mret tt;
  connect_std _ a _ w := ((false, a), w);
  connect_poll f w :=
    if f.1 then
      if decide (f.2 ∈ open w) then (Ready f.2, f, w)
      else (Failed (IoError Other (b"refused")), f, w)
    else (NotReady, (true, f.2), w);
  set_keepalive _ _ := mret tt;
  set_nodelay _ _ := mret tt;
  peer_addr s := mret s;
  delay_new _ w := (tt, w);
  delay_poll d w := (Ready tt, d, w)
|}.

#[local] Instance any_world : WorldInv network := λ _, True.
#[local] Instance not_windows : Target := false.

#[local] Instance net_contract : TcpContract network.
Proof.
  refine {| target f := f.2; stream_peer s := s |}; try done.
  - intros [[] a] w _; cbn; [|done]. case_decide; split_and!; try done. by intros s [= <-].
Defined.

Definition zone (name : bytes) : list IpAddr :=
  if decide (name = b"a.org") then [V6 a6; V4 a4] else [].

#[local] Instance zone_resolver : Resolve network unit := {|
  Addrs := list IpAddr;
  Future := bytes;
  addrs_list a := a;
  resolve _ n w := (name_host n, w);
  future_poll f w := Ok (Ready (zone f), f, w)
|}.

#[local] Instance zone_contract : ResolveContract network unit.
Proof.
  refine {| gives n ip := ip ∈ zone n; for_name f n := f = n |}; try done.
  intros f n w _ <-. cbn. split; [done|]. by apply list.Forall_forall.
Defined.

(** [Connected] with the info that is attached. *)
#[local] Instance info_connected : HyperLib.
Proof.
  refine {| Connected := bool * option HttpInfo; connected_new := (false, None);
            connected_proxy c p := (p, c.2); is_proxied c := c.1 |}. done.
Defined.

#[local] Instance info_extra : HyperExtra.
Proof.
  refine {| connected_extra c i := (c.1, Some i) : Connected; connected_info c := snd c |}. done.
Defined.

#[local] Existing Instance Simple.lib.

Definition connector : HttpConnector := new_with_resolver tt.

(** Only the IPv4 address is open: the fallback connects. *)
Lemma http_connects_where_told_witness :
  ∃ s c w', http_connector (λ w, w) 5 connector (simple_dst HTTP (b"a.org") None)
      (Network [SockV4 a4 80]) = (Ok (s, c), w') ∧
    s = SockV4 a4 80 ∧ connected_info c = Some (MkHttpInfo s).
Proof.
  eexists (SockV4 a4 80), (false, Some (MkHttpInfo (SockV4 a4 80))), (Network [SockV4 a4 80]).
  assert (∀ A B C : Prop, A → (A → B ∧ C) → A ∧ B ∧ C) as Hand by tauto.
  apply Hand; [vm_compute; reflexivity|]. intros Hrun. split; [reflexivity|].
  destruct (http_connects_where_told (λ w, w) 5 connector _ _ _ _ _ (λ w Hw, Hw) I Hrun)
    as (host & _ & _ & _ & Hinfo).
  exact Hinfo.
Defined.

Lemma http_poll_total_witness :
  match http_poll (http_connect connector (simple_dst HTTP (b"a.org") None)) (Network []) with
  | Panic _ => False
  | _ => True
  end.
Proof.
  pose proof (http_poll_total (b"a.org")
    (http_connect connector (simple_dst HTTP (b"a.org") None)) (Network []) I) as H.
  destruct (http_poll _ _) as [[[[] ?] ?]| |p|] eqn:E; try exact I.
  destruct H as [_ (_ & f & w & a & f' & w' & Hf & Ha & He)]; [reflexivity|].
  cbn in Hf, Ha. subst f. injection Ha as <- _ _. cbn in He. discriminate He.
Defined.

Lemma http_empty_answer_panics_witness :
  http_connector (λ w, w) 1 connector (simple_dst HTTP (b"b.org") None) (Network []) =
    (Panic MISSING, Network []).
Proof.
  eapply (http_empty_answer_panics (λ w, w) 0 connector (simple_dst HTTP (b"b.org") None) (b"b.org"));
    reflexivity.
Defined.

Lemma http_connect_guards_witness :
  http_connector (λ w, w) 1 connector (simple_dst HTTPS (b"a.org") None) (Network []) =
    (Err (IoError InvalidInput (b"invalid URL, scheme must be http")), Network []).
Proof.
  apply (http_connect_guards (λ w, w) 0 connector (simple_dst HTTPS (b"a.org") None)
           (Network []) NotHttp).
  split; reflexivity.
Defined.

(** An address that refuses, and one left. *)
Definition example_remote : ConnectingTcpRemote network :=
  MkRemote (TL:=net) (IpAddrs_new [SockV4 a4 80]) (Some (true, SockV6 a6 80 0 0)).

Lemma remote_poll_total_witness :
  ∃ self' w', remote_poll None None false example_remote (Network []) =
    Ok (NotReady, self', w') ∧ is_Some (current self').
Proof.
  destruct (remote_poll_total None None false example_remote (Network []) I)
    as (p & self' & w' & Hr & Hp).
  - left. eexists. reflexivity.
  - exists self', w'. assert (p = NotReady) as ->.
    { vm_compute in Hr. injection Hr as <- _ _. reflexivity. }
    split; [exact Hr|exact Hp].
Defined.
End Examples.
