(* ===== verification/Gai.v ===== *)
(** * Resolvers on [getaddrinfo]: [src/src/http/dns.rs]

    [GaiResolver] runs the blocking call as a task of an executor,
    [TokioThreadpoolGaiResolver] inside the tokio thread pool.  What
    [getaddrinfo] answers, executors, [oneshot] and the thread pools are
    third-party code: the classes [GetAddrInfo], [Executor], [Oneshot],
    [CpuPoolLib] and [Blocking].  Both resolvers are shown to be resolvers
    that [Http]'s theorems are about. *)
From S2P Require Import Prelude RustStd Io Uri Connect Net Dns Http.

Record GaiAddrs := MkGaiAddrs { inner : IpAddrs }.

Definition gai_addrs_next (self : GaiAddrs) : option IpAddr * GaiAddrs :=
  let '(sa, inner) := ip_addrs_next (inner self) in
  (sock_ip <$> sa, {| inner := inner |}).

(** [ToSocketAddrs] for a host and a port asks the operating system. *)
Class GetAddrInfo (W : Type) :=
  to_socket_addrs : bytes → N → W → (list SocketAddr + io_error) * W.

Record GaiBlocking := MkGaiBlocking { gb_host : bytes }.

Definition GaiBlocking_new (host : bytes) : GaiBlocking := {| gb_host := host |}.

Definition gai_blocking_poll `{GA : GetAddrInfo W} (self : GaiBlocking) (w : W)
    : polled W GaiBlocking IpAddrs :=
  let '(r, w) := to_socket_addrs (gb_host self) 0 w in
  Ok (match r with inl i => Ready {| iter := i |} | inr e => Failed e end, self, w).

(** ** Executors *)

(** [futures::future::ExecuteError] gives the task back. *)
Inductive ExecuteErrorKind := Shutdown | NoCapacity.

Record ExecuteError (F : Type) := MkExecuteError {
  ee_kind : ExecuteErrorKind;
  into_future : F
}.
Arguments MkExecuteError {F} ee_kind into_future.
Arguments ee_kind {F} e.
Arguments into_future {F} e.

(** [Executor<F>] for executors of type [X]. *)
Class Executor (W X F : Type) := execute : X → F → W → (unit + ExecuteError F) * W.

(** [futures::sync::oneshot]: [spawn] gives the executor a task that polls the
    future, and a handle for its result.  Its executor is the function that
    takes the task. *)
Class Oneshot (W : Type) := {
  Execute : Type;
  SpawnHandle : Type;
  execute_poll : Execute → W → poll unit unit * Execute * W;
  oneshot_spawn :
    GaiBlocking → (Execute → W → (unit + ExecuteError Execute) * W) → W → SpawnHandle * W;
  rx_poll : SpawnHandle → W → polled W SpawnHandle IpAddrs
}.

Section gai.
Context {W : Type} `{OS : Oneshot W}.

(** The task as the executor sees it. *)
Record GaiTask := MkGaiTask { work : Execute }.

Definition gai_task_poll (self : GaiTask) (w : W) : poll unit unit * GaiTask * W :=
  let '(p, work, w) := execute_poll (work self) w in (p, {| work := work |}, w).

Section executor.
Context {X : Type} `{EX : !Executor W X GaiTask}.

Record GaiExecutor := MkGaiExecutor { gx_executor : X }.

Definition gai_execute (self : GaiExecutor) (future : Execute) (w : W)
    : (unit + ExecuteError Execute) * W :=
  let '(r, w) := execute (gx_executor self) {| work := future |} w in
  (match r with
   | inl tt => inl tt
   | inr err => inr (MkExecuteError (ee_kind err) (work (into_future err)))
   end, w).

Record GaiResolver := MkGaiResolver { executor : GaiExecutor }.
Record GaiFuture := MkGaiFuture { rx : SpawnHandle }.

Definition new_with_executor (executor : X) : GaiResolver :=
  {| executor := {| gx_executor := executor |} |}.

Definition gai_resolve (self : GaiResolver) (name : Name) (w : W) : GaiFuture * W :=
  let blocking := GaiBlocking_new (name_host name) in
  let '(rx, w) := oneshot_spawn blocking (gai_execute (executor self)) w in
  ({| rx := rx |}, w).

Definition gai_future_poll (self : GaiFuture) (w : W) : polled W GaiFuture GaiAddrs :=
  '(p, rx, w) ← rx_poll (rx self) w;
  Ok (match p with
      | NotReady => NotReady
      | Failed e => Failed e
      | Ready addrs => Ready {| inner := addrs |}
      end, {| rx := rx |}, w).

#[export] Instance gai_resolver : Resolve W GaiResolver := {|
  Addrs := GaiAddrs;
  Future := GaiFuture;
  addrs_list a := sock_ip <$> iter (inner a);
  resolve := gai_resolve;
  future_poll := gai_future_poll
|}.
End executor.

(** [futures_cpupool::Builder] with a name prefix and a size; [create] panics
    for the size 0. *)
Class CpuPoolLib := {
  CpuPool : Type;
  pool_create : bytes → N → W → outcome Empty_set (CpuPool * W)
}.

Definition GaiResolver_new `{CP : CpuPoolLib} (threads : N) (w : W)
    : outcome Empty_set (GaiResolver (X:=CpuPool) * W) :=
  '(pool, w) ← pool_create (b"hyper-dns") threads w;
  Ok (new_with_executor pool, w).
End gai.
Arguments GaiResolver X : clear implicits.

(** ** The tokio thread pool *)

(** [tokio_threadpool::blocking] runs a closure when a thread is free, and
    fails outside of the thread pool, with an error whose text it gives. *)
Class Blocking (W : Type) := {
  blocking : ∀ A, (W → A * W) → W → poll A bytes * W
}.
Arguments blocking {W _ A}.

Record TokioThreadpoolGaiResolver := MkTokioThreadpoolGaiResolver {}.
Record TokioThreadpoolGaiFuture := MkTokioThreadpoolGaiFuture { tg_name : Name }.

Definition TokioThreadpoolGaiResolver_new : TokioThreadpoolGaiResolver :=
  MkTokioThreadpoolGaiResolver.

Definition threadpool_resolve {W} (self : TokioThreadpoolGaiResolver) (name : Name) (w : W)
    : TokioThreadpoolGaiFuture * W := ({| tg_name := name |}, w).

Definition threadpool_poll `{GA : GetAddrInfo W, BL : Blocking W}
    (self : TokioThreadpoolGaiFuture) (w : W) : polled W TokioThreadpoolGaiFuture GaiAddrs :=
  let '(p, w) := blocking (to_socket_addrs (name_as_str (tg_name self)) 0) w in
  Ok (match p with
      | Ready (inl iter) => Ready {| inner := {| iter := iter |} |}
      | Ready (inr e) => Failed e
      | NotReady => NotReady
      | Failed e => Failed (IoError Other e)
      end, self, w).

#[export] Instance threadpool_resolver `{GA : GetAddrInfo W, BL : Blocking W}
  : Resolve W TokioThreadpoolGaiResolver := {|
  Addrs := GaiAddrs;
  Future := TokioThreadpoolGaiFuture;
  addrs_list a := sock_ip <$> iter (inner a);
  resolve := threadpool_resolve;
  future_poll := threadpool_poll
|}.

(** ** Facts *)

(** Iterating [GaiAddrs] to the end. *)
Fixpoint gai_collect (fuel : nat) (self : GaiAddrs) : option (list IpAddr) :=
  match fuel with
  | O => None
  | S n => match gai_addrs_next self with
           | (None, _) => Some []
           | (Some a, self) => cons a <$> gai_collect n self
           end
  end.

Lemma gai_collect_list n self :
  length (iter (inner self)) < n → gai_collect n self = Some (sock_ip <$> iter (inner self)).
Proof.
  destruct self as [[l]]. cbn. revert n. induction l as [|a l IH]; intros [|n] Hn; try lia; [done|].
  cbn. unfold gai_addrs_next in *. cbn in *. by rewrite IH by lia.
Qed.

(** What is assumed: the invariant of the world is kept; a handle is ready with
    what polling the spawned task gave at some time, and a blocking section
    with what its closure gave. *)
Class GaiContract (W : Type) `{GA : GetAddrInfo W, WI : WorldInv W} :=
  to_socket_addrs_keeps h p w : world_inv w → world_inv (snd (to_socket_addrs h p w)).

Class ExecutorContract (W X F : Type) `{EX : !Executor W X F, WI : WorldInv W} :=
  execute_keeps x f w : world_inv w → world_inv (snd (execute x f w)).

Class OneshotContract (W : Type) `{OS : Oneshot W, GA : GetAddrInfo W, WI : WorldInv W} := {
  handle_for : SpawnHandle → bytes → Prop;
  oneshot_spawn_ok b exec w :
    (∀ t w, world_inv w → world_inv (snd (exec t w))) → world_inv w →
    let '(h, w') := oneshot_spawn b exec w in world_inv w' ∧ handle_for h (gb_host b);
  rx_poll_ok h host w :
    world_inv w → handle_for h host →
    match rx_poll h w with
    | Ok (Ready a, _, w') => world_inv w' ∧
        ∃ w0 b' w1, gai_blocking_poll (GaiBlocking_new host) w0 = Ok (Ready a, b', w1)
    | Ok (NotReady, h', w') => world_inv w' ∧ handle_for h' host
    | Ok (Failed _, _, w') => world_inv w'
    | _ => False
    end
}.

Class BlockingContract (W : Type) `{BL : Blocking W, WI : WorldInv W} :=
  blocking_ok A (f : W → A * W) w :
    (∀ w, world_inv w → world_inv (snd (f w))) → world_inv w →
    world_inv (snd (blocking f w)) ∧
    ∀ a, fst (blocking f w) = Ready a → ∃ w0 w1, f w0 = (a, w1).

(** [getaddrinfo] answered the host with this address, at some time. *)
Definition answered `{GA : GetAddrInfo W} (host : bytes) (ip : IpAddr) : Prop :=
  ∃ w0 l w1, to_socket_addrs host 0 w0 = (inl l, w1) ∧ ip ∈ sock_ip <$> l.

Section contracts.
Context {W : Type} `{GA : GetAddrInfo W, WI : WorldInv W, GC : !GaiContract W}.

Lemma blocking_poll_answered host w a b' w' :
  gai_blocking_poll (GaiBlocking_new host) w = Ok (Ready a, b', w') →
  Forall (answered host) (sock_ip <$> iter a).
Proof.
  unfold gai_blocking_poll. cbn [gb_host GaiBlocking_new].
  destruct (to_socket_addrs host 0 w) as [[l|e] w1] eqn:E; [|done]. intros [= <- _ _].
  apply list.Forall_forall. intros ip Hip. by exists w, l, w1.
Qed.

#[export] Instance gai_contract {X} `{OS : Oneshot W, EX : !Executor W X GaiTask}
    `{OC : !OneshotContract W, EC : !ExecutorContract W X GaiTask} :
  ResolveContract W (GaiResolver X).
Proof.
  refine {| gives := answered; for_name (f : @Future _ _ gai_resolver) n := handle_for (rx f) n |}.
  - intros r n w Hw. cbn. unfold gai_resolve.
    pose proof (oneshot_spawn_ok (GaiBlocking_new (name_host n)) (gai_execute (executor r)) w) as Hs.
    destruct (oneshot_spawn _ _ w) as [h w']. apply Hs; [|done].
    intros t w0 Hw0. unfold gai_execute.
    pose proof (execute_keeps (gx_executor (executor r)) (MkGaiTask t) w0 Hw0) as Hk.
    by destruct (execute _ _ w0).
  - intros [h] n w Hw Hf. cbn in *. unfold gai_future_poll. cbn [rx].
    pose proof (rx_poll_ok h n w Hw Hf) as Hp.
    destruct (rx_poll h w) as [[[p h'] w']| | |]; [|done..]. cbn. destruct p as [|a|e]; [done| |done].
    destruct Hp as (Hw' & w0 & b' & w1 & Hb). split; [done|]. by eapply blocking_poll_answered.
Defined.

#[export] Instance threadpool_contract `{BL : Blocking W, BC : !BlockingContract W} :
  ResolveContract W TokioThreadpoolGaiResolver.
Proof.
  refine {| gives := answered;
            for_name (f : @Future _ _ threadpool_resolver) n := name_host (tg_name f) = n |}.
  - intros r n w Hw. by cbn.
  - intros [nm] n w Hw <-. cbn in *. unfold threadpool_poll. cbn [tg_name].
    destruct (blocking_ok _ (to_socket_addrs (name_as_str nm) 0) w) as [Hk Ha]; [|done|].
    { intros w0. apply to_socket_addrs_keeps. }
    destruct (blocking _ w) as [p w']. cbn [fst snd] in *.
    destruct p as [|[l|e]|e]; [done| |done..]. split; [done|].
    destruct (Ha _ eq_refl) as (w0 & w1 & E). apply list.Forall_forall.
    intros ip Hip. by exists w0, l, w1.
Defined.

(** A shared resolver gives what the resolver gives. *)
#[export] Instance arc_contract {R} `{RV : Resolve W R, RC : !ResolveContract W R} :
  ResolveContract W (Arc R).
Proof.
  refine (@Build_ResolveContract W (Arc R) arc_resolver _
            (gives (W:=W) (R:=R)) (for_name (W:=W) (R:=R)) _ _).
  - intros r n w Hw. exact (resolve_ok (deref r) n w Hw).
  - intros f n w Hw Hf. exact (future_poll_ok (W:=W) (R:=R) f n w Hw Hf).
Defined.
End contracts.

Section connects.
Context {W X : Type} `{GA : GetAddrInfo W, WI : WorldInv W, GC : !GaiContract W}.
Context `{OS : Oneshot W, EX : !Executor W X GaiTask}.
Context `{OC : !OneshotContract W, EC : !ExecutorContract W X GaiTask}.
Context `{BL : Blocking W, BC : !BlockingContract W, TL : TcpLib W, TC : !TcpContract W}.
Context `{TG : Target, UL : UriLib, HY : HyperLib, HX : !HyperExtra}.

(** The peer is an address of the destination: the one its host is, or one
    [getaddrinfo] answered, with its port. *)
Definition peer_answered (dst : Destination) (s : TcpStream) : Prop :=
  ∃ host, uri_host (uri dst) = Some host ∧
    match try_parse host (dst_port_or_default dst) with
    | Some l => stream_peer s ∈ iter l
    | None => ∃ ip, answered host ip ∧ stream_peer s = socket_addr ip (dst_port_or_default dst)
    end.

Lemma connects_to_allowed {R} `{RV : Resolve W R, RC : !ResolveContract W R} turn polls
    (self : HttpConnector (W:=W) (R:=R)) dst w s c w' :
  (∀ n ip, gives n ip → answered n ip) →
  (∀ w, world_inv w → world_inv (turn w)) → world_inv w →
  http_connector turn polls self dst w = (Ok (s, c), w') → peer_answered dst s.
Proof.
  intros Hg Ht Hw Hc.
  destruct (http_connects_facts turn polls self dst w s c w' Ht Hw Hc) as (host & Hh & _ & Ha & _).
  exists host. split; [done|]. unfold allowed in Ha. destruct (try_parse host _); [done|].
  destruct Ha as (ip & Hip & Ha). exists ip. auto.
Qed.

(** C31: over [GaiResolver], which runs [getaddrinfo] as a task of an executor,
    over one that is shared, and over the resolver of the tokio thread pool,
    a connection is to an address [getaddrinfo] answered for the host of the
    destination, unless the host was an address itself, with the port of the
    destination; the port of the answer is not used. *)
Theorem getaddrinfo_connects_to_answers turn polls dst w s c w' :
  (∀ w, world_inv w → world_inv (turn w)) → world_inv w →
  (∃ self : HttpConnector (R:=GaiResolver X),
     http_connector turn polls self dst w = (Ok (s, c), w')) ∨
  (∃ self : HttpConnector (R:=Arc (GaiResolver X)),
     http_connector turn polls self dst w = (Ok (s, c), w')) ∨
  (∃ self : HttpConnector (R:=TokioThreadpoolGaiResolver),
     http_connector turn polls self dst w = (Ok (s, c), w')) →
  peer_answered dst s.
Proof.
  intros Ht Hw [[self Hc]|[[self Hc]|[self Hc]]].
  - exact (connects_to_allowed (RC:=gai_contract) _ _ _ _ _ _ _ _ (λ n ip H, H) Ht Hw Hc).
  - exact (connects_to_allowed (RC:=arc_contract (RC:=gai_contract)) _ _ _ _ _ _ _ _
             (λ n ip H, H) Ht Hw Hc).
  - exact (connects_to_allowed (RC:=threadpool_contract) _ _ _ _ _ _ _ _ (λ n ip H, H) Ht Hw Hc).
Qed.

(** A task the executor refuses is given back as it was, with the executor's
    reason. *)
Theorem gai_execute_spec (self : GaiExecutor) future w k t w' :
  execute (gx_executor self) (MkGaiTask future) w = (inr (MkExecuteError k t), w') →
  gai_execute self future w = (inr (MkExecuteError k (work t)), w').
Proof. intros He. unfold gai_execute. by rewrite He. Qed.
End connects.

(** ** A concrete run *)

Module Examples.
Import Http.Examples.

#[local] Existing Instance net.
#[local] Existing Instance not_windows.
#[local] Existing Instance any_world.
#[local] Existing Instance net_contract.
#[local] Existing Instance info_connected.
#[local] Existing Instance info_extra.
#[local] Existing Instance Simple.lib.

#[local] Instance zone_info : GetAddrInfo network := λ h p w,
  (match zone h with
   | [] => inr (IoError Other (b"unknown name"))
   | l => inl ((λ ip, socket_addr ip p) <$> l)
   end, w).

(** An executor that takes every task and runs it when the handle is polled. *)
#[local] Instance lazy_oneshot : Oneshot network.
Proof.
  refine {| Execute := unit; SpawnHandle := GaiBlocking;
            execute_poll t w := (Ready tt, t, w);
            oneshot_spawn b exec w := let '(_, w) := exec tt w in (b, w);
            rx_poll h w := gai_blocking_poll h w |}.
Defined.

#[local] Instance unit_executor : Executor network unit GaiTask := λ _ _ w, (inl tt, w).

#[local] Instance now_blocking : Blocking network :=
  {| blocking A f w := let '(a, w) := f w in (Ready a, w) |}.

#[local] Instance zone_info_keeps : GaiContract network.
Proof. done. Defined.

#[local] Instance unit_executor_keeps : ExecutorContract network unit GaiTask.
Proof. done. Defined.

#[local] Instance lazy_oneshot_contract : OneshotContract network.
Proof.
  refine {| handle_for h host := gb_host h = host |}.
  { intros b exec w _ _. cbn. by destruct (exec tt w). }
  intros h host w _ <-. cbn [rx_poll lazy_oneshot].
  destruct (gai_blocking_poll h w) as [[[[|a|e] h'] w']| | |] eqn:E.
  - by unfold gai_blocking_poll in E; destruct (to_socket_addrs _ 0 w) as [[]].
  - split; [done|]. exists w, h', w'. by destruct h.
  - done.
  - by destruct e.
  - by unfold gai_blocking_poll in E; destruct (to_socket_addrs _ 0 w) as [[]].
  - by unfold gai_blocking_poll in E; destruct (to_socket_addrs _ 0 w) as [[]].
Defined.

#[local] Instance now_blocking_contract : BlockingContract network.
Proof.
  intros A f w _ _. split; [done|]. unfold blocking, now_blocking. intros a.
  destruct (f w) as [a' w'] eqn:E. intros [= <-]. by exists w, w'.
Defined.

Definition gai_connector : HttpConnector (W:=network) (R:=GaiResolver unit) :=
  new_with_resolver (new_with_executor tt).

Lemma getaddrinfo_connects_to_answers_witness :
  ∃ s c, fst (http_connector (λ w, w) 5 gai_connector (simple_dst HTTP (b"a.org") None)
      (Network [SockV4 a4 80])) = Ok (s, c) ∧ peer_answered (simple_dst HTTP (b"a.org") None) s.
Proof.
  assert (∀ A B : Prop, A → (A → B) → A ∧ B) as Hand by tauto.
  eexists (SockV4 a4 80), (false, Some (MkHttpInfo (SockV4 a4 80))).
  apply Hand; [vm_compute; reflexivity|]. intros Hrun.
  eapply (getaddrinfo_connects_to_answers (X:=unit) (λ w, w) 5).
  - exact (λ w Hw, Hw).
  - exact I.
  - left. exists gai_connector. exact (injective_projections _ (_, _) Hrun eq_refl).
Defined.

Lemma gai_execute_spec_witness :
  gai_execute (EX:=λ _ t w, (inr (MkExecuteError Shutdown t), w)) (MkGaiExecutor tt) tt
    (Network []) = (inr (MkExecuteError Shutdown tt), Network []).
Proof.
  exact (gai_execute_spec (X:=unit) (EX:=λ _ t w, (inr (MkExecuteError Shutdown t), w))
    (MkGaiExecutor tt) tt (Network []) Shutdown (MkGaiTask tt) (Network []) eq_refl).
Defined.
End Examples.
