(* ===== verification/Eyeballs.v ===== *)
(** * Happy eyeballs: which address is connected to

    [Http] shows that a connection is to an allowed address and that polls
    return.  Here the network has a fate for every address, and the connector
    is shown to come to the right end: it connects when one of the two families
    has an address that answers before any that hangs, fails when every
    address refuses, never ends otherwise, and is to the address its order
    says. *)
From S2P Require Import Prelude RustStd Io Uri Connect Net Dns Http.

(** What becomes of a connection attempt. *)
Inductive Fate := Accepts | Refuses | Hangs.

#[export] Instance Fate_eq_dec : EqDecision Fate.
Proof. solve_decision. Defined.

(** A network where every address has a fate, found after finitely many polls
    unless it hangs; where delays elapse; and where sockets can be made.
    [fresh] streams are those that were just connected. *)
Class Fates (W : Type) `{TL : TcpLib W, WI : WorldInv W, TC : !TcpContract W} := {
  fate : SocketAddr → Fate;
  fresh : TcpStream → Prop;
  pending : ConnectFuture → nat;
  delay_left : Delay → nat;
  connect_poll_fate f w :
    world_inv w →
    match connect_poll f w with
    | (Ready s, _, _) => fate (target f) = Accepts ∧ fresh s
    | (Failed _, _, _) => fate (target f) = Refuses
    | (NotReady, f', _) => fate (target f) = Hangs ∨ pending f' < pending f
    end;
  delay_poll_left d w :
    world_inv w →
    match delay_poll d w with
    | (Ready _, d', _) => delay_left d' ≤ delay_left d
    | (NotReady, d', _) => delay_left d' < delay_left d
    | (Failed _, _, _) => False
    end;
  new_v4_succeeds : succeeds world_inv new_v4;
  new_v6_succeeds : succeeds world_inv new_v6;
  set_reuse_address_succeeds b r : succeeds world_inv (set_reuse_address b r);
  bind_succeeds b a : succeeds world_inv (bind b a);
  to_tcp_stream_succeeds b : succeeds world_inv (to_tcp_stream b);
  set_keepalive_succeeds s d : succeeds world_inv (set_keepalive s d);
  set_nodelay_succeeds s v : succeeds world_inv (set_nodelay s v);
  peer_addr_succeeds s : succeeds world_inv (peer_addr s)
}.

(** The address a list of candidates leads to: the first that does not
    refuse. *)
Fixpoint first_up `{FT : Fates W} (l : list SocketAddr) : option SocketAddr :=
  match l with
  | [] => None
  | a :: l => if decide (fate a = Refuses) then first_up l else Some a
  end.

Section family.
Context {W : Type} `{FT : Fates W, TG : Target}.
Implicit Types (r : ConnectingTcpRemote W).

Lemma tcp_connect_succeeds a la h ra : succeeds world_inv (tcp_connect a la h ra).
Proof.
  unfold tcp_connect.
  apply (succeeds_bind _ _ _ (λ _, True)).
  { destruct a; [apply new_v4_safe|apply new_v6_safe]. }
  { destruct a; [apply new_v4_succeeds|apply new_v6_succeeds]. }
  intros bu. apply (succeeds_bind _ _ _ (λ _, True)).
  { destruct ra; [apply set_reuse_address_safe|by apply safe_ret]. }
  { destruct ra; [apply set_reuse_address_succeeds|apply succeeds_ret]. }
  intros _. apply (succeeds_bind _ _ _ (λ _, True)).
  { destruct la; [apply bind_safe|]. destruct cfg_windows; [apply bind_safe|by apply safe_ret]. }
  { destruct la; [apply bind_succeeds|].
    destruct cfg_windows; [apply bind_succeeds|apply succeeds_ret]. }
  intros _. apply (succeeds_bind _ _ _ (λ _, True)); [apply to_tcp_stream_safe|..].
  { apply to_tcp_stream_succeeds. }
  intros s. apply succeeds_call.
Qed.

Lemma tcp_connect_sure a la h ra : sure world_inv (tcp_connect a la h ra) (λ f, target f = a).
Proof. apply safe_sure; [apply tcp_connect_safe|apply tcp_connect_succeeds]. Qed.

(** The addresses a family has still to try, the one being tried first. *)
Definition cand r : list SocketAddr :=
  match current r with Some f => [target f] | None => [] end ++ iter (addrs r).

(** It waits for an address that never answers. *)
Definition stuck r : Prop := ∃ f, current r = Some f ∧ fate (target f) = Hangs.

Definition to_try r : nat := length (iter (addrs r)).
Definition wait r : nat := match current r with Some f => pending f | None => 0 end.

Definition closer r' r : Prop := to_try r' < to_try r ∨ (to_try r' = to_try r ∧ wait r' < wait r).

(** What a poll of a family does, given its candidates. *)
Definition family_result (l : list SocketAddr) r (p : poll TcpStream io_error) r' : Prop :=
  match p with
  | Ready s => first_up l = Some (stream_peer s) ∧ fate (stream_peer s) = Accepts ∧ fresh s
  | Failed _ => first_up l = None
  | NotReady => first_up (cand r') = first_up l ∧ cand r' ≠ [] ∧ (stuck r' ∨ closer r' r)
  end.

(** Going on to the next address always finds a socket. *)
Lemma try_next_fate la h ra l cur err w :
  world_inv w → l ≠ [] ∨ is_Some err →
  match l with
  | [] => ∃ e, try_next la h ra (MkRemote (MkIpAddrs l) cur) err w =
                 Ok (Break (Failed e, MkRemote (MkIpAddrs l) cur, w))
  | a :: l' => ∃ f w', try_next la h ra (MkRemote (MkIpAddrs l) cur) err w =
                 Ok (Continue (MkRemote (MkIpAddrs l') (Some f), err, w')) ∧
               world_inv w' ∧ target f = a
  end.
Proof.
  intros Hw Hl. unfold try_next. cbn [addrs]. destruct l as [|a l]; cbn [ip_addrs_next iter].
  - destruct err as [e|]; [by eexists|by destruct Hl as [|[]]].
  - destruct (tcp_connect_sure a la h ra w Hw) as (f & w1 & -> & Hw1 & Hf). by exists f, w1.
Qed.

(** The same result, seen from a family with more to try. *)
Lemma family_result_next a l r p r' r0 :
  family_result (a :: l) r p r' → to_try r ≤ length l → length l < to_try r0 →
  family_result (a :: l) r0 p r'.
Proof.
  destruct p; cbn; [|done..]. intros (? & ? & Hc) Hl Hr. split_and!; [done..|].
  unfold closer, to_try in *. destruct Hc as [|Hc]; [by left|right; left; lia].
Qed.

Lemma remote_loop_fate la h ra n r err w :
  world_inv w → to_try r + 1 < n → cand r ≠ [] ∨ is_Some err →
  ∃ p r' w', loop n (remote_step la h ra) (r, err, w) = Ok (p, r', w') ∧ world_inv w' ∧
    family_result (cand r) r p r'.
Proof.
  revert r err w. induction n as [|n IH]; intros [[l] cur] err w Hw Hn Hl; [lia|].
  unfold to_try in Hn. cbn [addrs iter] in Hn.
  assert (∀ cur' err w, world_inv w → l ≠ [] ∨ is_Some err →
    ∃ p r' w', match try_next la h ra (MkRemote (MkIpAddrs l) cur') err w with
               | Ok (Continue s') => loop n (remote_step la h ra) s'
               | Ok (Break r) => Ok r
               | Err e => Err e
               | Panic p => Panic p
               | Spin => Spin
               end = Ok (p, r', w') ∧ world_inv w' ∧
      family_result l (MkRemote (MkIpAddrs l) cur) p r') as Hnext.
  { clear err w Hw Hl. intros cur' err w Hw Hl.
    pose proof (try_next_fate la h ra l cur' err w Hw Hl) as Ht. destruct l as [|a l].
    { destruct Ht as [e ->]. by eexists _, _, _. }
    destruct Ht as (f & w1 & -> & Hw1 & Hf).
    destruct (IH (MkRemote (MkIpAddrs l) (Some f)) err w1 Hw1) as (p & r' & w' & Hr & Hw' & Hp).
    { unfold to_try. cbn in *. lia. } { by left. }
    exists p, r', w'. split_and!; [done..|].
    unfold cand in Hp. cbn [current addrs iter app] in Hp. rewrite Hf in Hp.
    eapply family_result_next; [exact Hp|done|]. unfold to_try. cbn. lia. }
  cbn [loop remote_step current addrs]. destruct cur as [f|]; [|by apply Hnext].
  pose proof (connect_poll_ok f w Hw) as Hp. pose proof (connect_poll_fate f w Hw) as Hf.
  destruct (connect_poll f w) as [[p f'] w']. destruct Hp as (Hw' & Ht & Hs).
  unfold cand, family_result. cbn [current addrs iter app]. destruct p as [|s|e].
  - eexists _, _, _. split; [done|]. split; [done|]. split_and!; [|done|].
    + unfold cand. cbn [current addrs iter app]. by rewrite Ht.
    + destruct Hf as [Hf|Hf]; [left; exists f'; by rewrite Ht|right; by right].
  - destruct Hf as [Hf Hfresh]. eexists _, _, _. split; [done|]. split; [done|].
    rewrite (Hs s) by done. cbn. by rewrite decide_False by congruence.
  - destruct (Hnext (Some f') (Some e) w' Hw') as (p & r' & w2 & Hr & Hw2 & Hp); [by right|].
    exists p, r', w2. cbn [first_up]. by rewrite decide_True.
Qed.

Lemma remote_poll_fate la h ra r w :
  world_inv w → cand r ≠ [] →
  ∃ p r' w', remote_poll la h ra r w = Ok (p, r', w') ∧ world_inv w' ∧
    family_result (cand r) r p r'.
Proof. intros Hw Hr. apply remote_loop_fate; [done|unfold to_try; lia|by left]. Qed.
End family.

(** ** Both families, polled to the end *)

Section both.
Context {W : Type} `{FT : Fates W, TG : Target}.
Context (h : option Handle) (turn : W → W) (turn_ok : ∀ w, world_inv w → world_inv (turn w)).
Implicit Types (r pr rm : ConnectingTcpRemote W).

(** Polled again and again, the future ends, with a result in [Q]; between
    the polls the reactor runs. *)
Inductive ends (Q : poll TcpStream io_error → Prop) : ConnectingTcp W → W → Prop :=
| ends_now c w p c' w' :
    connecting_tcp_poll h c w = Ok (p, c', w') → p ≠ NotReady → world_inv w' → Q p → ends Q c w
| ends_later c w c' w' :
    connecting_tcp_poll h c w = Ok (NotReady, c', w') → ends Q c' (turn w') → ends Q c w.

(** The families lead to [vp] and [vf]: an address of theirs accepts, or all
    refuse. *)
Definition accepting (v : option SocketAddr) : Prop := ∃ a, v = Some a ∧ fate a = Accepts.

Definition decided (vp vf : option SocketAddr) : Prop :=
  accepting vp ∨ accepting vf ∨ (vp = None ∧ vf = None).

Definition outcome_of (vp vf : option SocketAddr) (p : poll TcpStream io_error) : Prop :=
  match p with
  | Ready s => fate (stream_peer s) = Accepts ∧ fresh s ∧
               (vp = Some (stream_peer s) ∨ vf = Some (stream_peer s))
  | Failed _ => vp = None ∧ vf = None
  | NotReady => False
  end.

Lemma ends_impl (Q Q' : poll TcpStream io_error → Prop) c w :
  (∀ p, Q p → Q' p) → ends Q c w → ends Q' c w.
Proof. intros HQ. induction 1; [eapply ends_now|eapply ends_later]; eauto. Qed.

Lemma ends_same Q c w c1 w1 :
  connecting_tcp_poll h c w = connecting_tcp_poll h c1 w1 → ends Q c1 w1 → ends Q c w.
Proof. intros Heq. destruct 1; [eapply ends_now|eapply ends_later]; rewrite ?Heq; eauto. Qed.

Lemma stuck_first_up r : stuck r → ∃ a, first_up (cand r) = Some a ∧ fate a = Hangs.
Proof.
  intros (f & Hf & Hh). exists (target f). split; [|done].
  unfold cand. rewrite Hf. cbn. by rewrite decide_False by congruence.
Qed.

Lemma stuck_poll la ra r w :
  world_inv w → stuck r →
  ∃ r' w', remote_poll la h ra r w = Ok (NotReady, r', w') ∧ world_inv w' ∧ stuck r'.
Proof.
  destruct r as [as_ cur]. intros Hw (f & Hc & Hf). cbn in Hc. subst cur.
  unfold remote_poll. cbn [addrs Nat.add loop remote_step current].
  pose proof (connect_poll_ok f w Hw) as Hp. pose proof (connect_poll_fate f w Hw) as Hpf.
  destruct (connect_poll f w) as [[p f'] w']. destruct Hp as (Hw' & Ht & _).
  destruct p as [|s|e]; [|destruct Hpf|]; [|congruence..]. eexists _, w'. split_and!; [done..|].
  exists f'. by rewrite Ht.
Qed.

(** *** One family left *)

Lemma alone_ends la ra r w :
  world_inv w → cand r ≠ [] → accepting (first_up (cand r)) ∨ first_up (cand r) = None →
  ends (outcome_of (first_up (cand r)) None) (MkConnectingTcp la r None ra) w.
Proof.
  revert w. induction r as [r IH] using (lex_ind to_try wait). intros w Hw Hr Hv.
  destruct (remote_poll_fate la h ra r w Hw Hr) as (p & r' & w' & Hp & Hw' & Hres).
  assert (connecting_tcp_poll h (MkConnectingTcp la r None ra) w =
            Ok (p, MkConnectingTcp la r' None ra, w')) as Hc.
  { unfold connecting_tcp_poll. cbn [fallback preferred ct_local_addr ct_reuse_address].
    by rewrite Hp. }
  destruct p as [|s|e]; cbn in Hres.
  - destruct Hres as (Hfu & Hne & Hpr). eapply ends_later; [exact Hc|]. rewrite <-Hfu in *.
    apply IH; [|by apply turn_ok|done..]. destruct Hpr as [Hst|]; [|done].
    destruct (stuck_first_up r' Hst) as (a & Ha & Hh). rewrite Ha in Hv.
    by destruct Hv as [(? & [= <-] & ?)|]; [congruence|].
  - eapply ends_now; [exact Hc|done..|]. cbn. tauto.
  - eapply ends_now; [exact Hc|done..|]. by cbn.
Qed.

(** *** A poll that leaves the preferred family waiting *)

Lemma both_poll la ra pr dl rm w pr' w1 :
  remote_poll la h ra pr w = Ok (NotReady, pr', w1) → world_inv w1 → cand rm ≠ [] →
  ∃ q c' w', connecting_tcp_poll h (MkConnectingTcp la pr (Some (MkFallback dl rm)) ra) w
               = Ok (q, c', w') ∧ world_inv w' ∧
    match q with
    | Ready s => first_up (cand rm) = Some (stream_peer s) ∧ fate (stream_peer s) = Accepts ∧
                 fresh s
    | NotReady =>
        (∃ dl' rm', c' = MkConnectingTcp la pr' (Some (MkFallback dl' rm')) ra ∧
           first_up (cand rm') = first_up (cand rm) ∧ cand rm' ≠ [] ∧
           (stuck rm' ∨ closer rm' rm ∨ (rm' = rm ∧ delay_left dl' < delay_left dl))) ∨
        (c' = MkConnectingTcp la pr' None ra ∧ first_up (cand rm) = None)
    | Failed _ => False
    end.
Proof.
  intros Hp Hw1 Hrm. unfold connecting_tcp_poll.
  cbn [fallback preferred ct_local_addr ct_reuse_address delay remote].
  rewrite Hp. cbn [mbind outcome_bind].
  pose proof (delay_poll_left dl w1 Hw1) as Hd. pose proof (delay_poll_ok dl w1 Hw1) as Hw2.
  destruct (delay_poll dl w1) as [[d dl'] w2]. cbn [snd] in Hw2. destruct d as [|[]|[]].
  - eexists _, _, _. split; [done|]. split; [done|]. left. exists dl', rm. tauto.
  - destruct (remote_poll_fate la h ra rm w2 Hw2 Hrm) as (q & rm' & w3 & Hq & Hw3 & Hres).
    rewrite Hq. cbn [mbind outcome_bind]. destruct q as [|s|e]; cbn in Hres.
    + eexists _, _, _. split; [done|]. split; [done|]. left. exists dl', rm'. tauto.
    + eexists _, _, _. split; [done|]. by split.
    + eexists _, _, _. split; [done|]. split; [done|]. by right.
  - done.
Qed.

(** The preferred family hangs: the fallback connects after the delay. *)
Lemma stuck_ends la ra pr dl rm w a :
  world_inv w → stuck pr → cand rm ≠ [] → first_up (cand rm) = Some a → fate a = Accepts →
  ends (outcome_of None (Some a)) (MkConnectingTcp la pr (Some (MkFallback dl rm)) ra) w.
Proof.
  revert dl pr w. induction rm as [rm IHrm] using (lex_ind to_try wait).
  intros dl. induction dl as [dl IHdl] using (induction_ltof1 _ delay_left).
  unfold ltof in IHdl. intros pr w Hw Hpr Hrm Hv Ha.
  destruct (stuck_poll la ra pr w Hw Hpr) as (pr' & w1 & Hp & Hw1 & Hpr').
  destruct (both_poll la ra pr dl rm w pr' w1 Hp Hw1 Hrm) as (q & c' & w' & Hc & Hw' & Hq).
  destruct q as [|s|e]; [|eapply ends_now; [exact Hc|done..|]; cbn; rewrite Hv in Hq; tauto|done].
  eapply ends_later; [exact Hc|]. apply turn_ok in Hw'.
  destruct Hq as [(dl' & rm' & -> & Hfu & Hne & Hstep)|[_ Hn]]; [|congruence].
  rewrite Hv in Hfu. destruct Hstep as [Hst|[Hcl|[-> Hdl]]].
  - destruct (stuck_first_up rm' Hst) as (b & Hb & Hh). congruence.
  - by apply IHrm.
  - by apply IHdl.
Qed.

Lemma both_ends la ra pr dl rm w :
  world_inv w → cand pr ≠ [] → cand rm ≠ [] →
  decided (first_up (cand pr)) (first_up (cand rm)) →
  ends (outcome_of (first_up (cand pr)) (first_up (cand rm)))
    (MkConnectingTcp la pr (Some (MkFallback dl rm)) ra) w.
Proof.
  revert dl rm w. induction pr as [pr IH] using (lex_ind to_try wait).
  intros dl rm w Hw Hpr Hrm Hd.
  destruct (remote_poll_fate la h ra pr w Hw Hpr) as (p & pr' & w1 & Hp & Hw1 & Hres).
  destruct p as [|s|e]; cbn in Hres.
  - destruct Hres as (Hfu & Hne & Hstep).
    destruct (both_poll la ra pr dl rm w pr' w1 Hp Hw1 Hrm) as (q & c' & w' & Hc & Hw' & Hq).
    destruct q as [|s|e]; [|eapply ends_now; [exact Hc|done..|]; cbn; tauto|done].
    eapply ends_later; [exact Hc|]. apply turn_ok in Hw'. rewrite <-Hfu in *.
    destruct Hq as [(dl' & rm' & -> & Hfu' & Hne' & _)|[-> Hn]].
    + rewrite <-Hfu' in *. destruct Hstep as [Hst|Hcl]; [|by apply IH].
      destruct (stuck_first_up pr' Hst) as (b & Hb & Hh). rewrite Hb in *.
      destruct Hd as [(? & [= <-] & ?)|[(a & Ha & Hacc)|[]]]; [congruence| |done].
      rewrite Ha. eapply ends_impl; [|by apply (stuck_ends la ra pr' dl' rm' _ a)].
      intros [|s|e]; cbn; [done| |by intros []]. intros (? & ? & [?|?]); [done|tauto].
    + rewrite Hn in *. apply alone_ends; [done..|]. unfold decided in Hd.
      destruct Hd as [|[(? & [=] & _)|[? _]]]; tauto.
  - apply (ends_now _ _ _ (Ready s) (MkConnectingTcp la pr' None ra) w1); [|done..|cbn; tauto].
    unfold connecting_tcp_poll. cbn [fallback preferred ct_local_addr ct_reuse_address].
    by rewrite Hp.
  - rewrite Hres in *. apply (ends_same _ _ _ (MkConnectingTcp la rm None ra) w1).
    { unfold connecting_tcp_poll. cbn [fallback preferred ct_local_addr ct_reuse_address remote].
      by rewrite Hp. }
    eapply ends_impl; [|apply alone_ends; [done..|]].
    + intros [|s|e']; cbn; tauto.
    + destruct Hd as [(? & [=] & _)|[|[]]]; tauto.
Qed.

(** *** Families that lead nowhere *)

Definition hanging (v : option SocketAddr) : Prop := ∃ a, v = Some a ∧ fate a = Hangs.

Lemma first_up_cases l : first_up l = None ∨ accepting (first_up l) ∨ hanging (first_up l).
Proof.
  induction l as [|a l IH]; [by left|]. cbn. case_decide as Ha; [done|]. right.
  destruct (fate a) eqn:E; [left|done|right]; by exists a.
Qed.

(** What is left can neither connect nor fail. *)
Definition hopeless (c : ConnectingTcp W) : Prop :=
  cand (preferred c) ≠ [] ∧
  match fallback c with
  | None => hanging (first_up (cand (preferred c)))
  | Some fb => cand (remote fb) ≠ [] ∧
      ¬ decided (first_up (cand (preferred c))) (first_up (cand (remote fb)))
  end.

(** A poll finds nothing and leaves it so. *)
Definition stays (c : ConnectingTcp W) (w : W) : Prop :=
  ∃ c' w', connecting_tcp_poll h c w = Ok (NotReady, c', w') ∧ world_inv w' ∧ hopeless c'.

Lemma alone_stays la ra r w :
  world_inv w → cand r ≠ [] → hanging (first_up (cand r)) →
  stays (MkConnectingTcp la r None ra) w.
Proof.
  intros Hw Hr (a & Ha & Hh).
  destruct (remote_poll_fate la h ra r w Hw Hr) as (p & r' & w' & Hp & Hw' & Hres).
  unfold stays, connecting_tcp_poll. cbn [fallback preferred ct_local_addr ct_reuse_address].
  rewrite Hp. destruct p as [|s|e]; cbn in Hres.
  - destruct Hres as (Hfu & Hne & _). eexists _, w'. split; [done|]. split; [done|].
    split; [done|]. cbn [fallback preferred]. rewrite Hfu. by exists a.
  - destruct Hres as (Hs & Hacc & _). congruence.
  - congruence.
Qed.

Lemma undecided_hanging l v : ¬ decided (first_up l) v → v = None → hanging (first_up l).
Proof.
  intros Hn ->. destruct (first_up_cases l) as [E|[Ha|Hh]]; [| |done];
    exfalso; apply Hn; unfold decided; auto.
Qed.

Lemma hopeless_stays c w : world_inv w → hopeless c → stays c w.
Proof.
  destruct c as [la pr [[dl rm]|] ra]; cbn; intros Hw [Hpr Hd]; cbn in Hpr, Hd; [|by apply alone_stays].
  destruct Hd as [Hrm Hd]. cbn in Hrm, Hd.
  destruct (remote_poll_fate la h ra pr w Hw Hpr) as (p & pr' & w1 & Hp & Hw1 & Hres).
  destruct p as [|s|e]; cbn in Hres.
  - destruct Hres as (Hfu & Hne & _). rewrite <-Hfu in Hd.
    destruct (both_poll la ra pr dl rm w pr' w1 Hp Hw1 Hrm) as (q & c' & w' & Hc & Hw' & Hq).
    destruct q as [|s|e]; [|exfalso; apply Hd; right; left; exists (stream_peer s); tauto|done].
    exists c', w'. split; [done|]. split; [done|].
    destruct Hq as [(dl' & rm' & -> & Hfu' & Hne' & _)|[-> Hn]].
    + split; [done|]. cbn [fallback preferred remote]. by rewrite Hfu'.
    + split; [done|]. cbn [fallback preferred]. by eapply undecided_hanging.
  - exfalso. apply Hd. left. exists (stream_peer s). tauto.
  - assert (hanging (first_up (cand rm))) as Hh.
    { destruct (first_up_cases (cand rm)) as [E|[Ha|Hh]]; [| |done]; exfalso; apply Hd;
        rewrite Hres; unfold decided; auto. }
    destruct (alone_stays la ra rm w1 Hw1 Hrm Hh) as (c' & w' & Hc & Hrest).
    exists c', w'. split; [|done]. rewrite <-Hc. unfold connecting_tcp_poll.
    cbn [fallback preferred ct_local_addr ct_reuse_address remote]. by rewrite Hp.
Qed.
End both.

(** ** The connector *)

Section connector.
Context {W R : Type} `{FT : Fates W, TG : Target, RV : Resolve W R}.
Context `{UL : UriLib, HY : HyperLib, HX : !HyperExtra}.
Context (turn : W → W) (turn_ok : ∀ w, world_inv w → world_inv (turn w)).
Implicit Types (self : HttpConnector (W:=W) (R:=R)) (fut : HttpConnecting (W:=W) (R:=R)).

(** What the two families of a list of addresses lead to. *)
Definition leads (timeout : option N) (l : list SocketAddr) : option SocketAddr * option SocketAddr :=
  match timeout with
  | Some _ => let '(p, f) := split_by_preference (IpAddrs_new l) in
              (first_up (iter p), first_up (iter f))
  | None => (first_up l, None)
  end.

Lemma first_up_none l : first_up l = None → Forall (λ a, fate a = Refuses) l.
Proof.
  induction l as [|a l IH]; cbn; [by constructor|]. case_decide; [|done]. constructor; auto.
Qed.

Lemma leads_none timeout l : leads timeout l = (None, None) → Forall (λ a, fate a = Refuses) l.
Proof.
  unfold leads. destruct timeout as [t|]; [|intros [= Hl]; by apply first_up_none].
  destruct (split_by_preference (IpAddrs_new l)) as [p f] eqn:Es. intros [= Hp Hf].
  destruct (split_by_preference_facts l p f Es) as (Hperm & _). rewrite <-Hperm.
  apply Forall_app. split; by apply first_up_none.
Qed.

(** The resolver's future answers with these addresses. *)
Inductive answers : Future → W → list IpAddr → W → Prop :=
| answers_now f w a f' w' :
    future_poll f w = Ok (Ready a, f', w') → world_inv w' → answers f w (addrs_list a) w'
| answers_later f w f' w' l w'' :
    future_poll f w = Ok (NotReady, f', w') → answers f' (turn w') l w'' → answers f w l w''.

(** The addresses the connector finds for a host: the one it is, or what the
    resolver answers. *)
Inductive finds self (host : bytes) (port : N) (w : W) : list SocketAddr → W → Prop :=
| finds_literal l : try_parse host port = Some (IpAddrs_new l) → finds self host port w l w
| finds_answer f w1 ips w2 :
    try_parse host port = None →
    resolve (hc_resolver self) (Name_new host) w = (f, w1) → answers f w1 ips w2 →
    finds self host port w ((λ ip, socket_addr ip port) <$> ips) w2.

Lemma connecting_tcp_new_hopeless la l timeout ra w :
  world_inv w → l ≠ [] → ¬ decided (leads timeout l).1 (leads timeout l).2 →
  let '(c, w') := connecting_tcp_new la (IpAddrs_new l) timeout ra w in
  world_inv w' ∧ hopeless c.
Proof.
  intros Hw Hl. unfold leads, connecting_tcp_new. destruct timeout as [t|].
  - destruct (split_by_preference (IpAddrs_new l)) as [p f] eqn:Es. cbn [fst snd].
    destruct (split_by_preference_facts l p f Es) as (_ & _ & _ & Hh & _).
    assert (iter p ≠ []) as Hp by (destruct l; [done|]; by destruct (iter p)).
    unfold is_empty. destruct (iter f) as [|a f'] eqn:Ef; intros Hd.
    + split; [done|]. split; [done|]. by eapply (undecided_hanging (iter p)).
    + pose proof (delay_new_ok t w Hw) as Hw'. destruct (delay_new t w) as [dl w'].
      split; [done|]. split; [done|]. rewrite <-Ef in Hd. split; [|done]. cbn. by rewrite Ef.
  - intros Hd. split; [done|]. split; [done|]. by eapply (undecided_hanging l).
Qed.

Lemma connecting_tcp_new_ends h la l timeout ra w :
  world_inv w → l ≠ [] → decided (leads timeout l).1 (leads timeout l).2 →
  let '(c, w') := connecting_tcp_new la (IpAddrs_new l) timeout ra w in
  ends h turn (outcome_of (leads timeout l).1 (leads timeout l).2) c w'.
Proof.
  intros Hw Hl. unfold leads, connecting_tcp_new. destruct timeout as [t|].
  - destruct (split_by_preference (IpAddrs_new l)) as [p f] eqn:Es. cbn [fst snd].
    destruct (split_by_preference_facts l p f Es) as (_ & _ & _ & Hh & _).
    assert (iter p ≠ []) as Hp by (destruct l; [done|]; by destruct (iter p)).
    unfold is_empty. destruct (iter f) as [|a f'] eqn:Ef; intros Hd.
    + apply (alone_ends h turn turn_ok la ra (remote_new p)); [done..|].
      destruct Hd as [|[(? & [=] & _)|[]]]; tauto.
    + pose proof (delay_new_ok t w Hw) as Hw'. destruct (delay_new t w) as [dl w'].
      rewrite <-Ef in *. apply (both_ends h turn turn_ok la ra (remote_new p) dl (remote_new f));
        [done..| |done]. unfold cand. cbn. by rewrite Ef.
  - intros Hd. apply (alone_ends h turn turn_ok la ra (remote_new (IpAddrs_new l))); [done..|].
    destruct Hd as [|[(? & [=] & _)|[]]]; tauto.
Qed.

(** Awaiting the future gives this. *)
Definition awaits fut w (r : outcome io_error (TcpStream * Connected) * W) : Prop :=
  ∃ n, loop n (http_await_step turn) (fut, w) = Ok r.

Lemma awaits_enough fut w r :
  awaits fut w r → ∃ n, ∀ m, n ≤ m → http_await turn m fut w = r.
Proof.
  intros [n Hn]. exists n. intros m Hm. unfold http_await.
  by rewrite (loop_mono _ n m), Hn by (rewrite ?Hn; done).
Qed.

Lemma awaits_later fut w fut' w' r :
  http_poll fut w = Ok (NotReady, fut', w') → awaits fut' (turn w') r → awaits fut w r.
Proof. intros Hp [n Hn]. exists (S n). cbn [loop http_await_step]. by rewrite Hp. Qed.

Lemma awaits_same fut w fut' w' r :
  http_poll fut w = http_poll fut' w' → awaits fut' w' r → awaits fut w r.
Proof.
  intros Hp [[|n] Hn]; [done|]. exists (S n). cbn [loop http_await_step] in *. by rewrite Hp.
Qed.

(** No number of polls gives a result. *)
Definition never fut w : Prop := ∀ n, loop n (http_await_step turn) (fut, w) = Spin.

Lemma never_await fut w n : never fut w → (http_await turn n fut w).1 = Spin.
Proof. intros Hn. unfold http_await. by rewrite Hn. Qed.

(** What is said of a future by how its polls go on. *)
Definition by_polls (Q : HttpConnecting (W:=W) (R:=R) → W → Prop) : Prop :=
  (∀ fut w fut' w', http_poll fut w = Ok (NotReady, fut', w') → Q fut' (turn w') → Q fut w) ∧
  (∀ fut w fut' w', http_poll fut w = http_poll fut' w' → Q fut' w' → Q fut w).

Lemma awaits_by_polls (P : outcome io_error (TcpStream * Connected) → Prop) :
  by_polls (λ fut w, ∃ r w', awaits fut w (r, w') ∧ P r).
Proof.
  split; intros fut w fut' w' Hp (r & w2 & Hr & HP); exists r, w2; split; try done.
  - by eapply awaits_later.
  - by eapply awaits_same.
Qed.

Lemma never_by_polls : by_polls never.
Proof.
  split; intros fut w fut' w' Hp Hn n.
  - destruct n as [|n]; [done|]. cbn [loop http_await_step]. rewrite Hp. apply Hn.
  - specialize (Hn n). destruct n as [|n]; [done|]. cbn [loop http_await_step] in *. by rewrite Hp.
Qed.

Lemma finish_sure fut s : sure world_inv (finish fut s) (λ r, r.1 = s).
Proof.
  apply safe_sure.
  - intros w Hw. pose proof (finish_safe fut s w Hw) as Hs. destruct (finish fut s w) as [[]]; tauto.
  - unfold finish. apply (succeeds_bind _ _ _ (λ _, True)).
    { destruct (keep_alive_timeout fut); [apply set_keepalive_safe|by apply safe_ret]. }
    { destruct (keep_alive_timeout fut); [apply set_keepalive_succeeds|apply succeeds_ret]. }
    intros _. apply (succeeds_bind _ _ _ (λ _, True)); [apply set_nodelay_safe|..].
    { apply set_nodelay_succeeds. }
    intros _. eapply succeeds_bind; [apply peer_addr_safe|apply peer_addr_succeeds|].
    intros a. apply succeeds_ret.
Qed.

(** The result of the client's view of the ends. *)
Definition connected_result (vp vf : option SocketAddr)
    (r : outcome io_error (TcpStream * Connected)) : Prop :=
  match r with
  | Ok (s, _) => fate (stream_peer s) = Accepts ∧ fresh s ∧
                 (vp = Some (stream_peer s) ∨ vf = Some (stream_peer s))
  | Err _ => vp = None ∧ vf = None
  | _ => False
  end.

Lemma connecting_poll fut c w p c' w' n :
  state fut = Connecting c → connecting_tcp_poll (handle fut) c w = Ok (p, c', w') →
  loop (S n) http_step (fut, w) =
    let fut' := set_state fut (Connecting c') in
    match p with
    | NotReady => Ok (NotReady, fut', w')
    | Failed e => Ok (Failed e, fut', w')
    | Ready sock => match finish fut' sock w' with
                    | (Ok r, w2) => Ok (Ready r, fut', w2)
                    | (Err e, w2) => Ok (Failed e, fut', w2)
                    | (Panic q, _) => Panic q
                    | (Spin, _) => Spin
                    end
    end.
Proof.
  intros Est Hp. cbn [loop http_step]. rewrite Est, Hp. cbn [mbind outcome_bind].
  destruct p as [|s|e]; [done| |done]. unfold try_io.
  by destruct (finish _ s w') as [[]].
Qed.

Lemma connecting_awaits vp vf h c w fut :
  ends h turn (outcome_of vp vf) c w → state fut = Connecting c → handle fut = h →
  ∃ r w', awaits fut w (r, w') ∧ connected_result vp vf r.
Proof.
  intros He. revert fut. induction He as [c w p c' w' Hp Hne Hw' HQ|c w c' w' Hp _ IH];
    intros fut Est <-.
  - pose proof (connecting_poll fut c w p c' w' 3 Est Hp) as Hpoll. fold (http_poll fut w) in Hpoll.
    destruct p as [|s|e]; [done|..]; cbn zeta in Hpoll.
    + destruct (finish_sure (set_state fut (Connecting c')) s w' Hw') as ([s' cn] & w2 & Hf & _ & Hs).
      cbn in Hs. subst s'. rewrite Hf in Hpoll. exists (Ok (s, cn)), w2. split; [|done].
      exists 1. cbn [loop http_await_step]. by rewrite Hpoll.
    + exists (Err e), w'. split; [|done]. exists 1. cbn [loop http_await_step]. by rewrite Hpoll.
  - pose proof (connecting_poll fut c w NotReady c' w' 3 Est Hp) as Hpoll.
    destruct (IH (set_state fut (Connecting c')) eq_refl eq_refl) as (r & w2 & Hr & Hres).
    exists r, w2. split; [|done]. exact (awaits_later _ _ _ _ _ Hpoll Hr).
Qed.

(** Fewer turns of the loop do as well in the later states. *)
Lemma connecting_turns fut c w n :
  state fut = Connecting c → loop (S n) http_step (fut, w) = http_poll fut w.
Proof.
  intros Est. unfold http_poll. cbn [loop http_step]. rewrite Est.
  destruct (connecting_tcp_poll _ c w) as [[[p c'] w']| | |]; cbn [mbind outcome_bind]; [|done..].
  destruct p as [|s|e]; [done| |done]. unfold try_io. by destruct (finish _ s w') as [[]].
Qed.

(** The turn that starts connecting to the addresses [l]. *)
Definition connect_turn fut la l w :=
  let '(c, w') := connecting_tcp_new la (IpAddrs_new l) (happy_eyeballs_timeout fut)
                    (reuse_address fut) w in
  (set_state fut (Connecting c), w').

Lemma connect_turn_poll fut la l w n :
  let '(fut', w') := connect_turn fut la l w in
  loop (S n) http_step (fut', w') = http_poll fut' w'.
Proof.
  unfold connect_turn. destruct (connecting_tcp_new _ _ _ _ w) as [c w'].
  by apply (connecting_turns _ c).
Qed.

Lemma literal_step fut resolver host la l w :
  state fut = Lazy resolver host la → try_parse host (port fut) = Some (IpAddrs_new l) →
  http_step (fut, w) = Ok (Continue (connect_turn fut la l w)).
Proof.
  intros Est Hp. cbn [http_step]. rewrite Est, Hp. unfold connect_turn.
  by destruct (connecting_tcp_new _ _ _ _ w).
Qed.

Lemma resolving_step fut f la w p f' w' :
  state fut = Resolving f la → future_poll f w = Ok (p, f', w') →
  http_step (fut, w) =
    match p with
    | NotReady => Ok (Break (NotReady, set_state fut (Resolving f' la), w'))
    | Failed e => Ok (Break (Failed e, set_state fut (Resolving f' la), w'))
    | Ready a => Ok (Continue (connect_turn fut la
                   ((λ ip, socket_addr ip (port fut)) <$> addrs_list a) w'))
    end.
Proof.
  intros Est Hp. cbn [http_step]. rewrite Est, Hp. cbn [mbind outcome_bind].
  destruct p as [|a|e]; [done| |done]. unfold connect_turn.
  by destruct (connecting_tcp_new _ _ _ _ w').
Qed.

Lemma resolving_turns fut f la w n :
  state fut = Resolving f la → loop (S (S n)) http_step (fut, w) = http_poll fut w.
Proof.
  intros Est. unfold http_poll. destruct (future_poll f w) as [[[p f'] w']|e|p|] eqn:Ef.
  2-4: by cbn [loop http_step]; rewrite Est, Ef.
  pose proof (resolving_step fut f la w p f' w' Est Ef) as Hs.
  change (loop (S (S n)) http_step (fut, w) = loop 4 http_step (fut, w)). cbn [loop].
  rewrite Hs. destruct p as [|a|e]; [done| |done].
  pose proof (connect_turn_poll fut la ((λ ip, socket_addr ip (port fut)) <$> addrs_list a) w') as Ht.
  destruct (connect_turn _ _ _ _) as [fut' w2]. etransitivity; [apply (Ht n)|symmetry; apply (Ht 2)].
Qed.

Lemma connect_turn_awaits fut la l w :
  let v := leads (happy_eyeballs_timeout fut) l in
  world_inv w → l ≠ [] → decided v.1 v.2 →
  let '(fut', w1) := connect_turn fut la l w in
  ∃ r w', awaits fut' w1 (r, w') ∧ connected_result v.1 v.2 r.
Proof.
  intros v Hw Hl Hd.
  pose proof (connecting_tcp_new_ends (handle fut) la l (happy_eyeballs_timeout fut)
                (reuse_address fut) w Hw Hl Hd) as He.
  unfold connect_turn. destruct (connecting_tcp_new _ _ _ _ w) as [c w'].
  by eapply connecting_awaits.
Qed.

Lemma answers_go_on Q fut f la w ips w2 :
  let l := (λ ip, socket_addr ip (port fut)) <$> ips in
  by_polls Q → answers f w ips w2 → state fut = Resolving f la →
  (∀ w, world_inv w → let '(fut', w1) := connect_turn fut la l w in Q fut' w1) → Q fut w.
Proof.
  intros l [Hlater Hsame] Ha. revert fut l.
  induction Ha as [f w a f' w' Hp Hw'|f w f' w' ips w2 Hp _ IH]; intros fut l Est HQ.
  - specialize (HQ w' Hw').
    pose proof (connect_turn_poll fut la l w' 2) as Ht.
    assert (http_step (fut, w) = Ok (Continue (connect_turn fut la l w'))) as Hs
      by exact (resolving_step fut f la w _ _ _ Est Hp).
    destruct (connect_turn fut la l w') as [fut' w1]. eapply Hsame; [|exact HQ].
    unfold http_poll at 1. cbn [loop]. by rewrite Hs.
  - eapply Hlater; [|by apply (IH (set_state fut (Resolving f' la)))].
    unfold http_poll. cbn [loop]. by rewrite (resolving_step _ _ _ _ _ _ _ Est Hp).
Qed.

(** The future [connect] makes goes on as the turn that starts connecting to
    the addresses found. *)
Lemma http_connect_go_on Q self dst host w l w1 :
  by_polls Q → world_inv w → uri_host (uri dst) = Some host → scheme_allowed self dst →
  finds self host (dst_port_or_default dst) w l w1 →
  (∀ fut la w, happy_eyeballs_timeout fut = hc_happy_eyeballs_timeout self → world_inv w →
     let '(fut', w1) := connect_turn fut la l w in Q fut' w1) →
  Q (http_connect self dst) w.
Proof.
  intros HB Hw Hh Hs Hf HQ. rewrite (http_connect_lazy self dst host Hh Hs).
  set (fut := {| state := _ |}). destruct HB as [Hlater Hsame]. destruct Hf as [l Hp|f w1 ips w2 Hp Hr Ha].
  - specialize (HQ fut (hc_local_address self) w eq_refl Hw).
    pose proof (connect_turn_poll fut (hc_local_address self) l w 2) as Ht.
    pose proof (literal_step fut (hc_resolver self) host _ l w eq_refl Hp) as Hst.
    destruct (connect_turn _ _ _ _) as [fut' w']. eapply Hsame; [|exact HQ].
    unfold http_poll at 1. cbn [loop]. by rewrite Hst.
  - set (fut' := set_state fut (Resolving f (hc_local_address self))).
    eapply (Hsame _ _ fut' w1).
    + etransitivity; [|exact (resolving_turns fut' f _ w1 1 eq_refl)].
      unfold http_poll. cbn [loop]. unfold http_step at 1. cbn [state port fut]. by rewrite Hp, Hr.
    + apply (answers_go_on Q fut' f _ w1 ips w2 (conj Hlater Hsame) Ha eq_refl).
      intros w0 Hw0. by apply HQ.
Qed.

Lemma http_connect_awaits self dst host w l w1 :
  let v := leads (hc_happy_eyeballs_timeout self) l in
  world_inv w → uri_host (uri dst) = Some host → scheme_allowed self dst →
  finds self host (dst_port_or_default dst) w l w1 → l ≠ [] → decided v.1 v.2 →
  ∃ r w', awaits (http_connect self dst) w (r, w') ∧ connected_result v.1 v.2 r.
Proof.
  intros v Hw Hh Hs Hf Hl Hd.
  eapply (http_connect_go_on _ self dst host w l w1 (awaits_by_polls _)); [done..|].
  intros fut la w0 Ht Hw0. pose proof (connect_turn_awaits fut la l w0) as H. rewrite Ht in H.
  by apply H.
Qed.

Lemma connecting_never c w fut n :
  world_inv w → hopeless c → state fut = Connecting c →
  loop n (http_await_step turn) (fut, w) = Spin.
Proof.
  revert c w fut. induction n as [|n IH]; intros c w fut Hw Hc Est; [done|].
  destruct (hopeless_stays (handle fut) c w Hw Hc) as (c' & w' & Hp & Hw' & Hc').
  pose proof (connecting_poll fut c w NotReady c' w' 3 Est Hp) as Hpoll. cbn zeta iota in Hpoll.
  fold (http_poll fut w) in Hpoll. cbn [loop http_await_step]. rewrite Hpoll.
  apply (IH c'); [by apply turn_ok|done..].
Qed.

Lemma http_connect_never self dst host w l w1 :
  let v := leads (hc_happy_eyeballs_timeout self) l in
  world_inv w → uri_host (uri dst) = Some host → scheme_allowed self dst →
  finds self host (dst_port_or_default dst) w l w1 → l ≠ [] → ¬ decided v.1 v.2 →
  never (http_connect self dst) w.
Proof.
  intros v Hw Hh Hs Hf Hl Hd.
  eapply (http_connect_go_on _ self dst host w l w1 never_by_polls); [done..|].
  intros fut la w0 Ht Hw0.
  pose proof (connecting_tcp_new_hopeless la l (happy_eyeballs_timeout fut) (reuse_address fut) w0
    Hw0 Hl) as H.
  unfold connect_turn. destruct (connecting_tcp_new _ _ _ _ w0) as [c w2].
  rewrite Ht in H. destruct (H Hd) as [Hw2 Hc]. intros n. by apply (connecting_never c).
Qed.

(** C15: when the connector comes to its end, and with what.  For a URL it
    takes, whose host is an address or is answered by the resolver with at
    least one address, each of which accepts, refuses or hangs: it ends exactly
    when one of the families of the addresses has one that accepts before any
    that hangs, or when all refuse.  Then enough polls give a result: a
    connection to the first address that does not refuse of the preferred or
    of the other family, and that address accepts; or an error, and then every
    address refuses.  Otherwise no number of polls gives one. *)
Theorem http_happy_eyeballs self dst host w l w1 :
  let '(vp, vf) := leads (hc_happy_eyeballs_timeout self) l in
  world_inv w → uri_host (uri dst) = Some host → scheme_allowed self dst →
  finds self host (dst_port_or_default dst) w l w1 → l ≠ [] →
  (decided vp vf →
   ∃ n r w', (∀ polls, n ≤ polls → http_connector turn polls self dst w = (r, w')) ∧
    match r with
    | Ok (s, _) => fate (stream_peer s) = Accepts ∧ fresh s ∧
                   (vp = Some (stream_peer s) ∨ vf = Some (stream_peer s))
    | Err _ => Forall (λ a, fate a = Refuses) l
    | _ => False
    end) ∧
  (¬ decided vp vf → ∀ polls, (http_connector turn polls self dst w).1 = Spin).
Proof.
  pose proof (http_connect_awaits self dst host w l w1) as H. cbn zeta in H.
  pose proof (http_connect_never self dst host w l w1) as Hnever. cbn zeta in Hnever.
  pose proof (leads_none (hc_happy_eyeballs_timeout self) l) as Hnone.
  destruct (leads _ l) as [vp vf]. intros Hw Hh Hs Hf Hl. split.
  - intros Hd. destruct (H Hw Hh Hs Hf Hl Hd) as (r & w' & Hr & Hres).
    destruct (awaits_enough _ _ _ Hr) as [n Hn]. exists n, r, w'. split; [done|].
    destruct r; cbn in Hres; [done| |done..]. destruct Hres as [-> ->]. by apply Hnone.
  - intros Hd polls. by apply never_await, Hnever.
Qed.
End connector.

(** ** Concrete runs

    A host with two addresses, where the IPv6 one never answers: the case the
    two families are there for. *)
Module Examples.
Import Http.Examples Script.

#[local] Existing Instance Simple.lib.
#[local] Existing Instance info_connected.
#[local] Existing Instance info_extra.
#[local] Existing Instance not_windows.

Definition lost (a : SocketAddr) : Fate :=
  match a with SockV4 _ _ => Accepts | SockV6 _ _ _ _ => Hangs end.

(** What the server at every address sends. *)
Definition site : script :=
  Script [Piece Byte.x48 (b"TTP/1.1 200 OK" ++ CRLF ++ b"Content-Length: 5" ++ CRLF2); Wait;
          Piece Byte.x68 (b"ello")] [].

Definition lossy : TcpLib unit := {|
  Builder := unit;
  StdStream := unit;
  TcpStream := SocketAddr * script;
  ConnectFuture := nat * SocketAddr;
  Handle := unit;
  Delay := nat;
  handle_default := tt;
  new_v4 := mret tt;
  new_v6 := mret tt;
  set_reuse_address _ _ := mret tt;
  bind _ _ := mret tt;
  to_tcp_stream _ := mret tt;
  connect_std _ a _ w := ((1, a), w);
  connect_poll f w :=
    match lost f.2, f.1 with
    | Accepts, O => (Ready (f.2, site), f, w)
    | Refuses, O => (Failed (IoError Other (b"refused")), f, w)
    | _, n => (NotReady, (pred n, f.2), w)
    end;
  set_keepalive _ _ := mret tt;
  set_nodelay _ _ := mret tt;
  peer_addr s := mret (fst s);
  delay_new _ w := (2, w);
  delay_poll d w := match d with O => (Ready tt, O, w) | S d => (NotReady, d, w) end
|}.

Definition all_worlds : WorldInv unit := λ _, True.

#[local] Existing Instance lossy.
#[local] Existing Instance all_worlds.

Definition lossy_contract : TcpContract unit.
Proof.
  refine {| target f := f.2; stream_peer s := fst s |}; try done.
  intros [n a] w _. cbn. by destruct (lost a), n; split_and!; try done; intros s [= <-].
Defined.

#[local] Existing Instance lossy_contract.

Definition lossy_fates : Fates unit.
Proof.
  refine {| fate := lost; fresh s := snd s = site; pending f := fst f; delay_left d := d |};
    try (intros; by apply succeeds_ret).
  - intros [n a] w _. cbn. destruct (lost a) eqn:E, n; cbn; auto.
  - intros [|d] w _; cbn; lia.
Defined.

Definition slow_zone : Resolve unit unit := {|
  Addrs := list IpAddr;
  Future := bool * bytes;
  addrs_list a := a;
  resolve _ n w := ((false, name_host n), w);
  future_poll f w :=
    if fst f then Ok (Ready (zone f.2), f, w) else Ok (NotReady, (true, f.2), w)
|}.

#[local] Existing Instance lossy_fates.
#[local] Existing Instance slow_zone.

Definition slow_connector : HttpConnector (W:=unit) (R:=unit) := new_with_resolver tt.

(** The resolver is not ready at first; then it has both addresses. *)
Lemma found (self : HttpConnector (W:=unit) (R:=unit)) port :
  finds (λ w, w) self (b"a.org") port tt [SockV6 a6 port 0 0; SockV4 a4 port] tt.
Proof.
  refine (finds_answer _ self (b"a.org") port tt _ tt [V6 a6; V4 a4] tt _ _ _);
    [reflexivity|reflexivity|].
  eapply answers_later; [reflexivity|].
  refine (answers_now _ _ _ (zone (b"a.org")) _ _ _ _); [reflexivity|exact I].
Qed.

Lemma http_happy_eyeballs_witness :
  ∃ n r, ∀ polls, n ≤ polls →
    fst (http_connector (λ w, w) polls slow_connector (simple_dst HTTP (b"a.org") None) tt) = r ∧
    match r with Ok (s, _) => stream_peer s = SockV4 a4 80 | _ => False end.
Proof.
  pose proof (http_happy_eyeballs (λ w, w) (λ w Hw, Hw) slow_connector
    (simple_dst HTTP (b"a.org") None) (b"a.org") tt [SockV6 a6 80 0 0; SockV4 a4 80] tt) as H.
  destruct (H I eq_refl eq_refl (found slow_connector 80)) as [Hends _]; [discriminate|].
  destruct Hends as (n & r & w' & Hr & Hres).
  - right. left. eexists. split; reflexivity.
  - exists n, r. intros polls Hle. rewrite (Hr polls Hle). split; [reflexivity|].
    destruct r as [[s c]|e|p|]; [|by apply Forall_inv in Hres|exact Hres..].
    destruct Hres as (Ha & _ & [Hs|Hs]); injection Hs as Hs; [|by symmetry].
    change (lost (fst s) = Accepts) in Ha. by rewrite <-Hs in Ha.
Defined.
End Examples.
