(* ===== verification/Https.v ===== *)
(** * The HTTPS connector: [src/src/https/]

    [HttpsConnector] connects with another connector and does a TLS handshake
    when the scheme is [https] ([client.rs]); [MaybeHttpsStream] is a plain or
    a protected stream ([stream.rs]).  [native_tls] is third-party code: the
    class [TlsLib]. *)
From S2P Require Import Prelude RustStd Io Uri Connect.

(** [native_tls::HandshakeError]; an error is its text. *)
Inductive HandshakeError (M : Type) :=
| Failure (err : bytes)
| WouldBlock (mid : M).
Arguments Failure {M} err.
Arguments WouldBlock {M} mid.

(** [native_tls] over streams of type [T]. *)
Class TlsLib (T : Type) := {
  TlsConnector : Type;
  NativeTlsStream : Type;
  MidHandshake : Type;
  tls_connect : TlsConnector → bytes → T → NativeTlsStream + HandshakeError MidHandshake;
  tls_handshake : MidHandshake → NativeTlsStream + HandshakeError MidHandshake
}.

Section https.
Context {T : Type} `{TLS : TlsLib T}.

(** ** Streams *)

Record TlsStream := MkTlsStream { inner : NativeTlsStream }.

Inductive MaybeHttpsStream :=
| Http (s : T)
| Https (s : TlsStream).

(** [TlsStream::new], and the [From] impls of both types. *)
Definition TlsStream_new (inner : NativeTlsStream) : TlsStream := {| inner := inner |}.
Definition tls_stream_from (stream : NativeTlsStream) : TlsStream := {| inner := stream |}.
Definition maybe_from_native (inner : NativeTlsStream) : MaybeHttpsStream :=
  Https (tls_stream_from inner).
Definition maybe_from_stream (inner : T) : MaybeHttpsStream := Http inner.
Definition maybe_from_tls (inner : TlsStream) : MaybeHttpsStream := Https inner.

(** A method of the two streams, on either. *)
Definition dispatch {E A} (self : MaybeHttpsStream) (f : T → outcome E (A * T))
    (g : TlsStream → outcome E (A * TlsStream)) : outcome E (A * MaybeHttpsStream) :=
  match self with
  | Http s => '(a, s) ← f s; Ok (a, Http s)
  | Https s => '(a, s) ← g s; Ok (a, Https s)
  end.

Definition dispatch_poll {A} (self : MaybeHttpsStream) (f : T → A * T)
    (g : TlsStream → A * TlsStream) : A * MaybeHttpsStream :=
  match self with
  | Http s => let '(a, s) := f s in (a, Http s)
  | Https s => let '(a, s) := g s in (a, Https s)
  end.

(** [native_tls::TlsStream::shutdown] sends the closing alert; [get_mut] is
    the stream below, and [put] the protected stream with that one changed. *)
Class NativeShutdown := {
  native_shutdown : NativeTlsStream → (unit + io_error) * NativeTlsStream;
  get_mut : NativeTlsStream → T;
  put : NativeTlsStream → T → NativeTlsStream
}.

(** Reading and writing are of the one stream that is there, [read], [write]
    and [write_all] alike. *)
Section instances.
Context `{CT : Conn T, CN : Conn NativeTlsStream, BT : BufStream T, BN : BufStream NativeTlsStream}.
Context `{LT : Closing T, LN : Closing NativeTlsStream, NS : NativeShutdown}.

#[export] Instance tls_conn : Conn TlsStream := {|
  io_read self n := '(bs, s) ← io_read (inner self) n; Ok (bs, MkTlsStream s);
  io_write_all self bs := s ← io_write_all (inner self) bs; Ok (MkTlsStream s);
  poll_read self n := let '(p, s) := poll_read (inner self) n in (p, MkTlsStream s)
|}.

(** The default methods of the traits, over [read] and [write], which are those
    of the native stream: [BufStream] of the native stream is these defaults. *)
#[export] Instance tls_buf : BufStream TlsStream := {|
  write_buf self bs := let '(p, s) := write_buf (inner self) bs in (p, MkTlsStream s);
  read_buf self v := let '(p, s) := read_buf (inner self) v in (p, MkTlsStream s)
|}.

Definition tls_flush (self : TlsStream) : outcome io_error TlsStream :=
  s ← flush (inner self); Ok (MkTlsStream s).

(** [AsyncWrite::shutdown] of a protected stream. *)
Definition tls_shutdown (self : TlsStream) : poll unit io_error * TlsStream :=
  match native_shutdown (inner self) with
  | (inl _, s) => let '(p, t) := shutdown (get_mut s) in (p, MkTlsStream (put s t))
  | (inr e, s) =>
      if decide (kind e = Io.WouldBlock) then (NotReady, MkTlsStream s)
      else (Failed e, MkTlsStream s)
  end.

#[export] Instance maybe_conn : Conn MaybeHttpsStream := {|
  io_read self n := dispatch self (λ s, io_read s n) (λ s, io_read s n);
  io_write_all self bs :=
    match self with
    | Http s => s ← io_write_all s bs; Ok (Http s)
    | Https s => s ← io_write_all s bs; Ok (Https s)
    end;
  poll_read self n := dispatch_poll self (λ s, poll_read s n) (λ s, poll_read s n)
|}.

#[export] Instance maybe_buf : BufStream MaybeHttpsStream := {|
  write_buf self bs := dispatch_poll self (λ s, write_buf s bs) (λ s, write_buf s bs);
  read_buf self v := dispatch_poll self (λ s, read_buf s v) (λ s, read_buf s v)
|}.

(** A [TlsStream] prepares a buffer as the trait [AsyncRead] does. *)
#[export] Instance tls_prepare `{DP : DefaultPrepare} : Prepare TlsStream := λ _, default_prepare.

#[export] Instance maybe_prepare `{DP : DefaultPrepare, PT : !Prepare T}
  : Prepare MaybeHttpsStream := λ self buf,
  match self with
  | Http s => prepare_uninitialized_buffer s buf
  | Https s => prepare_uninitialized_buffer s buf
  end.

#[export] Instance maybe_closing : Closing MaybeHttpsStream := {|
  flush self :=
    match self with
    | Http s => s ← flush s; Ok (Http s)
    | Https s => s ← tls_flush s; Ok (Https s)
    end;
  shutdown self := dispatch_poll self shutdown tls_shutdown
|}.
End instances.

(** ** The handshake *)

Record Handshaking := MkHandshaking {
  hs_inner : option (NativeTlsStream + HandshakeError MidHandshake)
}.

Definition handshaking_poll (self : Handshaking)
    : outcome Empty_set (poll NativeTlsStream bytes * Handshaking) :=
  r ← expect (hs_inner self) "polled after ready";
  let taken := {| hs_inner := None |} in
  match r with
  | inl stream => Ok (Ready stream, taken)
  | inr (WouldBlock mid) =>
      match tls_handshake mid with
      | inl stream => Ok (Ready stream, taken)
      | inr (Failure err) => Ok (Failed err, taken)
      | inr (WouldBlock mid) => Ok (NotReady, {| hs_inner := Some (inr (WouldBlock mid)) |})
      end
  | inr (Failure err) => Ok (Failed err, taken)
  end.

(** Awaiting it, for at most [polls] polls; the error is wrapped. *)
Definition handshaking_await_step (self : Handshaking)
    : outcome io_error (step Handshaking NativeTlsStream) :=
  '(p, self) ← lift (handshaking_poll self);
  match p with
  | NotReady => Ok (Continue self)
  | Ready stream => Ok (Break stream)
  | Failed err => Err (IoError Other err)
  end.

Definition handshaking_await (polls : nat) (self : Handshaking)
    : outcome io_error NativeTlsStream :=
  loop polls handshaking_await_step self.

(** ** The connector *)

Record HttpsConnector (C : Type) := MkHttpsConnector {
  force_https : bool;
  http : C;
  tls : TlsConnector
}.
Arguments MkHttpsConnector {C} force_https http tls.
Arguments force_https {C} h.
Arguments http {C} h.
Arguments tls {C} h.

(** [From<(T, TlsConnector)>]. *)
Definition https_from {C} (http : C) (tls : TlsConnector) : HttpsConnector C :=
  MkHttpsConnector false http tls.

Definition https_only {C} (self : HttpsConnector C) (enable : bool) : HttpsConnector C :=
  MkHttpsConnector enable (http self) (tls self).

Definition FORCED : io_error := IoError Other (b"HTTPS scheme forced but can't be used").

(** The future [connect] returns, awaited; the handshake for at most [polls]
    polls. *)
Definition https_connect {W C} `{UL : UriLib, HY : HyperLib} `{CN : !Connect W C T}
    (polls : nat) (self : HttpsConnector C) (dst : Destination)
    : io W (MaybeHttpsStream * Connected) :=
  let is_https := bool_decide (dst_scheme dst = HTTPS) in
  if negb is_https && force_https self then io_pure (Err FORCED)
  else
    let host := dst_host dst in
    if is_https then
      '(tcp, connected) ← connect (http self) dst;
      let handshake := {| hs_inner := Some (tls_connect (tls self) host tcp) |} in
      conn ← io_pure (handshaking_await polls handshake);
      mret (Https (TlsStream_new conn), connected)
    else
      '(tcp, connected) ← connect (http self) dst;
      mret (Http tcp, connected).

#[export] Instance https_connector {W C} `{UL : UriLib, HY : HyperLib} `{CN : !Connect W C T}
  (polls : nat) : Connect W (HttpsConnector C) MaybeHttpsStream := https_connect polls.

(** ** Facts *)

(** A handshake that blocks finitely often and then succeeds. *)
Inductive handshakes : NativeTlsStream + HandshakeError MidHandshake → NativeTlsStream → Prop :=
| handshakes_done s : handshakes (inl s) s
| handshakes_next mid s : handshakes (tls_handshake mid) s → handshakes (inr (WouldBlock mid)) s.

Lemma handshaking_step_inv r x :
  handshaking_await_step {| hs_inner := Some r |} = Ok x →
  match x with
  | Break s => handshakes r s
  | Continue self => ∃ r', self = {| hs_inner := Some r' |} ∧ ∀ s, handshakes r' s → handshakes r s
  end.
Proof.
  unfold handshaking_await_step, handshaking_poll. cbn [hs_inner expect mbind outcome_bind].
  destruct r as [s|[err|mid]]; cbn; [|done|].
  - intros [= <-]. constructor.
  - destruct (tls_handshake mid) as [s|[err|mid']] eqn:Eh; cbn; intros [= <-].
    + constructor. rewrite Eh. constructor.
    + eexists. split; [done|]. intros s Hs. constructor. by rewrite Eh.
Qed.

Lemma handshaking_await_sound polls r s :
  handshaking_await polls {| hs_inner := Some r |} = Ok s → handshakes r s.
Proof.
  revert r. unfold handshaking_await. induction polls as [|n IH]; intros r; cbn [loop]; [done|].
  destruct (handshaking_await_step _) as [[self|s']| | |] eqn:E; try done.
  - apply handshaking_step_inv in E as (r' & -> & Hr'). intros Hl. apply Hr', IH, Hl.
  - apply handshaking_step_inv in E. by intros [= <-].
Qed.

Lemma handshaking_await_complete r s :
  handshakes r s → ∃ n, ∀ m, n ≤ m → handshaking_await m {| hs_inner := Some r |} = Ok s.
Proof.
  unfold handshaking_await. induction 1 as [s|mid s Hh [n IH]].
  - exists 1. intros [|m] Hm; [lia|]. done.
  - exists (S n). intros [|m] Hm; [lia|]. cbn [loop].
    unfold handshaking_await_step at 1, handshaking_poll. cbn [hs_inner expect mbind outcome_bind].
    specialize (IH m ltac:(lia)). destruct m as [|m]; [done|]. cbn [loop] in IH.
    unfold handshaking_await_step at 1, handshaking_poll in IH.
    cbn [hs_inner expect mbind outcome_bind] in IH.
    destruct (tls_handshake mid) as [s'|[err|mid']]; cbn in *; [done..|]. cbn [loop].
    exact IH.
Qed.

Section connector_facts.
Context {W C : Type} `{UL : UriLib, HY : HyperLib} `{CN : !Connect W C T}.

Lemma https_connect_facts polls (self : HttpsConnector C) dst w s c w' :
  https_connect polls self dst w = (Ok (s, c), w') →
  ∃ tcp, connect (http self) dst w = (Ok (tcp, c), w') ∧
    match s with
    | Https t => dst_scheme dst = HTTPS ∧
        handshakes (tls_connect (tls self) (dst_host dst) tcp) (inner t)
    | Http t => dst_scheme dst ≠ HTTPS ∧ force_https self = false ∧ t = tcp
    end.
Proof.
  unfold https_connect. destruct (negb _ && _) eqn:Ef; [done|].
  case_bool_decide as Hs.
  - unfold mbind at 1, io_bind at 1. destruct (connect (http self) dst w) as [[[tcp c']|e|p|] w1]; try done.
    unfold mbind, io_bind, io_pure.
    destruct (handshaking_await _ _) as [conn|e|p|] eqn:Eh; try done.
    unfold mret, io_ret. intros [= <- <- <-]. exists tcp. split; [done|]. split; [done|].
    by apply handshaking_await_sound in Eh.
  - unfold mbind, io_bind. destruct (connect (http self) dst w) as [[[tcp c']|e|p|] w1]; try done.
    intros [= <- <- <-]. exists tcp. split; [done|]. split; [done|]. split; [|done].
    by destruct (force_https self).
Qed.

(** C25: the connector never downgrades: a connection for an [https] URL is a
    stream on which the TLS handshake for the host of the URL succeeded, over
    the transport the inner connector gave for that URL; a connection for any
    other URL is that transport itself. *)
Theorem https_no_downgrade polls (self : HttpsConnector C) dst w s c w' :
  https_connect polls self dst w = (Ok (s, c), w') →
  ∃ tcp, connect (http self) dst w = (Ok (tcp, c), w') ∧
    match s with
    | Https t => dst_scheme dst = HTTPS ∧
        handshakes (tls_connect (tls self) (dst_host dst) tcp) (inner t)
    | Http t => dst_scheme dst ≠ HTTPS ∧ force_https self = false ∧ t = tcp
    end.
Proof. apply https_connect_facts. Qed.

(** With [https_only], a URL with another scheme is an error, and nothing
    is connected to. *)
Theorem https_only_refuses polls (self : HttpsConnector C) dst w :
  dst_scheme dst ≠ HTTPS →
  https_connect polls (https_only self true) dst w = (Err FORCED, w).
Proof. intros Hs. unfold https_connect. by rewrite bool_decide_false. Qed.

(** A TLS handshake that blocks any finite number of times before it
    succeeds gives the protected stream, with enough polls. *)
Theorem https_handshake_completes (self : HttpsConnector C) dst w tcp c w' s :
  dst_scheme dst = HTTPS →
  connect (http self) dst w = (Ok (tcp, c), w') →
  handshakes (tls_connect (tls self) (dst_host dst) tcp) s →
  ∃ n, ∀ polls, n ≤ polls →
    https_connect polls self dst w = (Ok (Https (MkTlsStream s), c), w').
Proof.
  intros Hs Hc [n Hn]%handshaking_await_complete. exists n. intros polls Hle.
  unfold https_connect. rewrite bool_decide_true by done. cbn [negb andb].
  unfold mbind at 1, io_bind at 1. rewrite Hc. unfold mbind, io_bind, io_pure.
  by rewrite Hn.
Qed.
End connector_facts.
End https.
Arguments force_https {T TLS C} h.
Arguments http {T TLS C} h.
Arguments tls {T TLS C} h.

(** ** Either stream keeps the promises of a connection *)

Section maybe_contract.
Context {T : Type} `{TLS : TlsLib T} `{CT : Conn T, CN : Conn NativeTlsStream}.

#[export] Instance maybe_read_contract `{RT : !ReadContract T, RN : !ReadContract NativeTlsStream}
  : ReadContract MaybeHttpsStream.
Proof.
  split.
  - intros [t|[t]] n bs t' H; cbn in H; outcome_inv.
    + destruct x. outcome_inv. exact (io_read_bound _ _ _ _ H).
    + destruct x as [? ?]. outcome_inv. destruct x0. outcome_inv. exact (io_read_bound _ _ _ _ H).
  - intros [t|[t]] n; cbn.
    + apply bind_not_spin; [apply io_read_ends|]. by intros [].
    + apply bind_not_spin; [|by intros []].
      apply bind_not_spin; [apply io_read_ends|]. by intros [].
  - intros [t|[t]] n bs t' H; cbn in H.
    + destruct (poll_read t n) eqn:E. injection H as -> _. exact (poll_read_bound _ _ _ _ E).
    + destruct (poll_read t n) eqn:E. injection H as -> _. exact (poll_read_bound _ _ _ _ E).
Qed.

#[export] Instance maybe_delivers `{DT : !Delivers T, DN : !Delivers NativeTlsStream}
  : Delivers MaybeHttpsStream.
Proof.
  refine {|
    delivers s d := match s with Http t => delivers t d | Https t => delivers (inner t) d end;
    patience s := match s with Http t => patience t | Https t => patience (inner t) end
  |}.
  - intros [t|[t]] d n Hd Hn; cbn in *;
      destruct (delivers_read t d n Hd Hn) as (bs & d' & t' & Hr & ? & ? & ? & ?).
    + exists bs, d', (Http t'). by rewrite Hr.
    + exists bs, d', (Https (MkTlsStream t')). by rewrite Hr.
  - intros [t|[t]] d Hd; cbn in *; destruct (delivers_read_0 t d Hd) as [t' Hr].
    + exists (Http t'). by rewrite Hr.
    + exists (Https (MkTlsStream t')). by rewrite Hr.
  - intros [t|[t]] d n Hd Hn; cbn in *; pose proof (delivers_poll t d n Hd Hn) as Hp;
      by destruct (poll_read t n) as [[] t'].
Defined.
End maybe_contract.

(** ** Concrete runs *)

Module Examples.
Import Script.

(** A handshake that blocks twice, and a connector that always gives the same
    connection. *)
#[local] Instance slow_tls : TlsLib script := {|
  TlsConnector := unit;
  NativeTlsStream := script;
  MidHandshake := bool * script;
  tls_connect _ _ t := inr (WouldBlock (false, t));
  tls_handshake m := if m.1 then inl m.2 else inr (WouldBlock (true, m.2))
|}.

#[local] Existing Instance Simple.lib.
#[local] Existing Instance flag_connected.

#[local] Instance same_connection : Connect unit script script :=
  λ c _ w, (Ok (c, connected_new), w).

Definition peer : script := Script [] [].
Definition tls_unit : @TlsConnector _ slow_tls := tt.
Definition connector : HttpsConnector script := https_from (TLS:=slow_tls) peer tls_unit.
Definition secured : @TlsStream _ slow_tls := MkTlsStream (TLS:=slow_tls) peer.

Lemma https_no_downgrade_witness :
  ∃ t, https_connect 3 connector (simple_dst HTTPS (b"a.org") None) tt =
      (Ok (Https t, connected_new), tt) ∧
    handshakes (tls_connect tls_unit (b"a.org") peer) (inner t).
Proof.
  exists secured.
  assert (∀ A B : Prop, A → (A → B) → A ∧ B) as Hand by tauto.
  apply Hand; [vm_compute; reflexivity|]. intros Hrun.
  destruct (https_no_downgrade _ _ _ _ _ _ _ Hrun) as (tcp & Hc & _ & Hh).
  injection Hc as <-. exact Hh.
Defined.

Lemma https_only_refuses_witness :
  https_connect 3 (https_only connector true) (simple_dst HTTP (b"a.org") None) tt =
    (Err FORCED, tt).
Proof. apply (https_only_refuses 3 connector). discriminate. Defined.

Lemma https_handshake_completes_witness :
  ∃ n, ∀ polls, n ≤ polls →
    https_connect polls connector (simple_dst HTTPS (b"a.org") None) tt =
      (Ok (Https secured, connected_new), tt).
Proof.
  apply (https_handshake_completes connector _ tt peer).
  - reflexivity.
  - reflexivity.
  - constructor. constructor. constructor.
Defined.
End Examples.
