(* ===== verification/Wire.v ===== *)
(** * What the client puts on the wire

    [Wire] is what can be observed of a connection from the other end: the
    bytes that were written to it.  A request that gets a response has written
    its head and then the chunks of its body, nothing else, and a server that
    reads lines reads the head back and is left with the body.  Streams of the
    TLS connector are observed through the side of them that is plain. *)
From S2P Require Import Prelude RustStd Utf8 Io Uri Response Request Body Connect Client Https.

(** Writing appends the bytes; reading and polling write nothing. *)
Class Wire (T : Type) `{CO : Conn T} := {
  wrote : T → bytes;
  write_all_wrote t bs t' : io_write_all t bs = Ok t' → wrote t' = wrote t ++ bs;
  read_wrote t n bs t' : io_read t n = Ok (bs, t') → wrote t' = wrote t;
  poll_wrote t n p t' : poll_read t n = (p, t') → wrote t' = wrote t
}.

#[local] Existing Instance Script.script_conn.

#[export] Instance script_wire : Wire Script.script.
Proof.
  refine {| wrote := Script.sent |}.
  - by intros t bs t' [= <-].
  - intros t n bs t' H. cbn in H. apply bind_Ok_inv in H as ([bs' evs] & _ & H). by outcome_inv.
  - intros [evs snt] n p t'. cbn. destruct evs as [|[c l| |e] evs].
    + by intros [= _ <-].
    + by destruct (Script.script_read _ _) as [[]| | |]; intros [= _ <-].
    + by intros [= _ <-].
    + by destruct (Script.script_read _ _) as [[]| | |]; intros [= _ <-].
Defined.

Section maybe.
Context {T : Type} `{TLS : TlsLib T} `{CT : Conn T, CN : Conn NativeTlsStream}.
Context `{WT : !Wire T, WN : !Wire NativeTlsStream}.

(** Plain streams are observed as they are, protected ones before encryption. *)
#[export] Instance maybe_wire : Wire MaybeHttpsStream.
Proof.
  refine (@Build_Wire MaybeHttpsStream maybe_conn
            (λ s, match s with
                  | Http t => wrote (T:=T) t
                  | Https t => wrote (T:=NativeTlsStream) (inner t)
                  end) _ _ _).
  - intros [t|[t]] bs t' H; cbn in H; apply bind_Ok_inv in H as (u & Hu & H).
    + injection H as <-. exact (write_all_wrote (T:=T) _ _ _ Hu).
    + apply bind_Ok_inv in Hu as (v & Hv & [= <-]). injection H as <-.
      exact (write_all_wrote (T:=NativeTlsStream) _ _ _ Hv).
  - intros [t|[t]] n bs t' H; cbn in H; apply bind_Ok_inv in H as ([bs' u] & Hu & H).
    + injection H as <- <-. exact (read_wrote (T:=T) _ _ _ _ Hu).
    + apply bind_Ok_inv in Hu as ([bs2 v] & Hv & [= <- <-]). injection H as <- <-.
      exact (read_wrote (T:=NativeTlsStream) _ _ _ _ Hv).
  - intros [t|[t]] n p t' H; cbn in H.
    + destruct (poll_read t n) eqn:E. injection H as <- <-. exact (poll_wrote (T:=T) _ _ _ _ E).
    + destruct (poll_read t n) eqn:E. injection H as <- <-.
      exact (poll_wrote (T:=NativeTlsStream) _ _ _ _ E).
Defined.
End maybe.

(** A body that streams these chunks, and comes to an end without an error. *)
Definition sends `{RS : ReqStream B} (body : option B) (chunks : list bytes) : Prop :=
  match body with Some x => stream_list x (map inl chunks) | None => chunks = [] end.

Section wire.
Context `{BP : Build, LC : Lowercase, HL : HttpLib, UL : UriLib, HY : HyperLib, SL : StatusLib}.
Context {T : Type} `{CO : Conn T, WI : !Wire T}.

(** *** Writing *)

Lemma send_body_wrote {B} `{RS : ReqStream B} fuel (body : option B) conn conn' :
  send_body fuel conn body = Ok conn' →
  ∃ chunks, sends body chunks ∧ wrote conn' = wrote conn ++ concat chunks.
Proof.
  unfold send_body, sends. destruct body as [x|].
  2: { intros [= <-]. exists []. cbn. by rewrite app_nil_r. }
  revert x conn. induction fuel as [|n IH]; intros x conn; cbn [loop send_step]; [done|].
  destruct (next_chunk x) as [[[chunk|e] x']|] eqn:Ex; cbn [mbind outcome_bind]; [|done|].
  - destruct (io_write_all conn chunk) as [conn1|e|p|] eqn:Ew; cbn [mbind outcome_bind]; [|done..].
    intros (chunks & Hs & Hw)%IH. exists (chunk :: chunks). split; [by econstructor|].
    cbn [concat]. by rewrite Hw, (write_all_wrote _ _ _ Ew), app_assoc.
  - intros [= <-]. exists []. cbn. rewrite app_nil_r. split; [by constructor|done].
Qed.

(** *** Reading *)

Lemma recv_head_wrote uninit t hd rst t' :
  recv_head uninit t = Ok (hd, rst, t') → wrote t' = wrote t.
Proof.
  intros Hr. refine (loop_Ok recv_step (λ s, wrote s.1.1 = wrote t) (λ r, wrote r.2 = wrote t)
    _ _ _ (t, _, 0) (hd, rst, t') eq_refl Hr).
  - intros [[u bf] k] s' Hu Hs. cbn in Hu. unfold recv_step in Hs. outcome_inv. destruct x0 as [bs u'].
    match goal with H : io_read _ _ = Ok _ |- _ => apply read_wrote in H end.
    case_decide; [done|]. destruct (find_sub _ _); outcome_inv. cbn. congruence.
  - intros [[u bf] k] r Hu Hs. cbn in Hu. unfold recv_step in Hs. outcome_inv. destruct x0 as [bs u'].
    match goal with H : io_read _ _ = Ok _ |- _ => apply read_wrote in H end.
    case_decide; [done|]. destruct (find_sub _ _); outcome_inv. cbn. congruence.
Qed.

(** *** The exchange *)

(** What the connection behind a body has been sent. *)
Definition body_wrote (bd : Body T) : option bytes :=
  match reader bd with FromConn t => Some (wrote t) | FromSlice _ => None end.

Lemma exchange_wrote {B} `{RS : ReqStream B} fuel uninit uninit' conn (req : Request B) resp :
  exchange fuel uninit uninit' conn req = Ok resp →
  ∃ header chunks, build_req (rq_method req) (rq_uri req) (rq_headers req) = Ok header ∧
    sends (rq_body req) chunks ∧
    body_wrote (body resp) = Some (wrote conn ++ header ++ concat chunks).
Proof.
  intros Hx. unfold exchange in Hx. apply bind_Ok_inv in Hx as (header & Hb & Hx).
  apply bind_Ok_inv in Hx as (conn1 & Hw & Hx). apply bind_Ok_inv in Hx as (conn2 & Hs & Hx).
  apply bind_Ok_inv in Hx as ([[[[st rs] hs] rst] conn3] & Hr & Hx).
  apply send_body_wrote in Hs as (chunks & Hc & Hs). apply recv_head_wrote in Hr.
  apply write_all_wrote in Hw. exists header, chunks. split_and!; [done..|].
  unfold Response_new in Hx. apply bind_Ok_inv in Hx as (s & _ & [= <-]).
  unfold body_wrote. cbn. by rewrite Hr, Hs, Hw, app_assoc.
Qed.

(** Handing out the body writes nothing. *)
Lemma poll_next_wrote bd p bd' : poll_next bd = Ok (p, bd') → body_wrote bd' = body_wrote bd.
Proof.
  destruct bd as [dr rst bf k lim r]. unfold poll_next, body_wrote. cbn [drained rest buf counter content_length reader].
  destruct dr; [by intros [= _ <-]|]. destruct rst; [by intros [= _ <-]|].
  assert (∀ q r', reader_poll_read r (length bf) = (q, r') →
    match r' with FromConn t => Some (wrote t) | FromSlice _ => None end =
    match r with FromConn t => Some (wrote t) | FromSlice _ => None end) as Hr.
  { destruct r as [l|t]; cbn; intros q r'; [by intros [= _ <-]|].
    destruct (poll_read t (length bf)) as [q' t'] eqn:E. intros [= _ <-].
    by rewrite (poll_wrote _ _ _ _ E). }
  destruct (reader_poll_read r (length bf)) as [[|bs|e] r']; specialize (Hr _ _ eq_refl).
  - by intros [= _ <-].
  - intros Hp. apply bind_Ok_inv in Hp as (k' & _ & Hp). apply bind_Ok_inv in Hp as (n & _ & Hp).
    destruct (0 <? n)%N; [|by injection Hp as _ <-].
    apply bind_Ok_inv in Hp as (chunk & _ & Hp). by injection Hp as _ <-.
  - by intros [= _ <-].
Qed.

(** C5: what a request puts on the wire, whatever the connector and the peer:
    when it gives a response, the connection was sent, before the head of the
    response was read, exactly the request line, the host line,
    [Connection: close], the caller's headers but those named [host], an empty
    line, and then the body's chunks in order.  When no text put into the head
    holds a line end, a server that reads lines reads those lines back, and
    what it is left with is the body. *)
Theorem request_on_wire {W C B} `{CN : !Connect W C T, RS : ReqStream B}
    fuel uninit uninit' (self : Client C) (req : Request B) w resp w' :
  request (T:=T) (CN:=CN) fuel uninit uninit' self req w = (Ok resp, w') →
  ∃ conn c host chunks,
    connect (T:=T) (Client.inner self) (MkDestination (rq_uri req)) w = (Ok (conn, c), w') ∧
    uri_host (rq_uri req) = Some host ∧ sends (rq_body req) chunks ∧
    let lines := request_lines (rq_method req) (rq_uri req) host (rq_headers req) in
    let sent := end_lines lines ++ CRLF ++ concat chunks in
    body_wrote (body resp) = Some (wrote conn ++ sent) ∧
    (plain_target (rq_method req) (rq_uri req) host →
     Forall (λ nv, no_crlf nv.1 ∧ no_crlf nv.2) (rq_headers req) →
     server_lines (4 + length (rq_headers req)) sent = Some (lines, concat chunks)).
Proof.
  unfold request. destruct (connect _ _ w) as [[[conn c]|e|p|] w1] eqn:Ec; [|done..].
  rewrite bind_Ok. intros [= Hx <-]. apply exchange_wrote in Hx as (header & chunks & Hb & Hs & Hw).
  destruct (uri_host (rq_uri req)) as [host|] eqn:Hh.
  2: { unfold build_req in Hb. by rewrite Hh in Hb. }
  rewrite (build_req_lines _ _ _ _ Hh) in Hb. injection Hb as <-. rewrite <-app_assoc in Hw.
  exists conn, c, host, chunks. split_and!; [done..|].
  intros Ht Hf. apply server_lines_end; [by apply request_lines_no_crlf|].
  by apply request_lines_length.
Qed.
End wire.

(** ** Witness *)

Module Examples.
Import Script.

#[local] Existing Instance ascii_lowercase.
#[local] Existing Instance named_http.
#[local] Existing Instance Simple.lib.
#[local] Existing Instance flag_connected.
#[local] Existing Instance numeric_status.

#[local] Instance fixed_connector : Connect unit (outcome io_error script) script :=
  λ c _ w, ('(conn) ← c; Ok (conn, connected_new), w).

Definition post : Request (list (bytes + io_error)) :=
  MkRequest (b"POST" : Method) HTTP_10 example_url [(b"X-A", b"b")] (Some [inl (b"one,"); inl (b"two")]).

Definition post_client : Client (outcome io_error script) :=
  MkClient (Ok (peer 30 (example_head ++ b"hello"))).

Lemma request_on_wire_witness :
  ∃ resp, request (BP:=true) (T:=script) 5 [] [] post_client post tt = (Ok resp, tt) ∧
    ∃ chunks sent, sends (rq_body post) chunks ∧ body_wrote (body resp) = Some sent ∧
      server_lines 5 sent =
        Some ([b"POST / HTTP/1.0"; b"Host: a.org"; b"Connection: close"; b"X-A: b"], concat chunks).
Proof.
  set (header := end_lines (request_lines (rq_method post) example_url (b"a.org") [(b"X-A", b"b")]) ++ CRLF).
  set (server := peer 30 (example_head ++ b"hello")).
  destruct (exchange_facts (BP:=true) (LC:=ascii_lowercase) (T:=script) 5 [] [] post server header
    (Script (events server) ([] ++ header))
    (Script (events server) ((([] ++ header) ++ b"one,") ++ b"two"))
    (b"1.1") 200 (b"OK") [(b"Content-Length", b"5"); (b"X-A", b"b")] (b"hello")
    ltac:(vm_compute; reflexivity) eq_refl eq_refl eq_refl) as (resp & Hx & _).
  1-2: apply (bool_decide_unpack _); vm_compute; exact I.
  { apply Nat.leb_le. reflexivity. } { reflexivity. } { vm_compute. discriminate. }
  assert (request (BP:=true) (T:=script) 5 [] [] post_client post tt = (Ok resp, tt)) as Hrun.
  { change (request (BP:=true) (T:=script) 5 [] [] post_client post tt)
      with (exchange (BP:=true) 5 [] [] server post, tt). by rewrite Hx. }
  exists resp. split; [exact Hrun|].
  destruct (request_on_wire (BP:=true) (T:=script) (WI:=script_wire) _ _ _ _ _ _ _ _ Hrun)
    as (conn & c & host & chunks & Hc & Hh & Hs & Hw & Hview).
  injection Hc as <- _. injection Hh as <-. exists chunks. eexists. split; [exact Hs|]. split; [exact Hw|].
  refine (Hview _ _).
  - split_and!; apply (bool_decide_unpack (no_crlf _)); vm_compute; exact I.
  - repeat constructor; apply (bool_decide_unpack (_ ∉ _)); vm_compute; exact I.
Defined.
End Examples.
