(* ===== verification/Default.v ===== *)
(** * The connectors the crate makes by itself

    [HttpConnector::new] takes the shared caching resolver [ARES]
    ([src/src/http/mod.rs]), and [HttpsConnector::new] that connector without
    the check of the scheme ([src/src/https/client.rs]).  The resolver of
    [Ares] is shown to be one the theorems of [Http] are about. *)
From S2P Require Import Prelude RustStd Io Uri Connect Net Dns Ares Http Https.

Section default.
Context {E : Type} `{AL : AresLib E, TL : TcpLib E, TG : Target}.

(** The sockets of the world outside, in the world with the cache. *)
Definition lift_call {A} (f : E → A * E) (w : world E) : A * world E :=
  let '(a, e) := f (env w) in (a, {| cell := cell w; env := e |}).

Definition lift_io {A} (m : io E A) : io (world E) A := lift_call m.

#[export] Instance tcp_world : TcpLib (world E) := {|
  Builder := Builder;
  StdStream := StdStream;
  TcpStream := TcpStream;
  ConnectFuture := ConnectFuture;
  Handle := Handle;
  Delay := Delay;
  handle_default := handle_default;
  new_v4 := lift_io new_v4;
  new_v6 := lift_io new_v6;
  set_reuse_address b r := lift_io (set_reuse_address b r);
  bind b a := lift_io (bind b a);
  to_tcp_stream b := lift_io (to_tcp_stream b);
  connect_std s a h := lift_call (connect_std s a h);
  connect_poll f := lift_call (λ e, connect_poll f e);
  set_keepalive s d := lift_io (set_keepalive s d);
  set_nodelay s v := lift_io (set_nodelay s v);
  peer_addr s := lift_io (peer_addr s);
  delay_new d := lift_call (delay_new d);
  delay_poll d := lift_call (λ e, delay_poll d e)
|}.

(** [lazy_static! ARES] is a [CAresResolverImpl]; its cache is in the world. *)
Definition ARES : CAresResolverImpl := MkCAresResolverImpl.

Definition HttpConnector_new (threads : N) : HttpConnector (W:=world E) (R:=CAresResolverImpl) :=
  new_with_resolver ARES.

(** [HttpsConnector::new_], given the TLS connector [new] built. *)
Definition HttpsConnector_new_ `{TLS : TlsLib TcpStream} (threads : N) (tls : TlsConnector)
    : HttpsConnector (HttpConnector (W:=world E) (R:=CAresResolverImpl)) :=
  let http := HttpConnector_new threads in
  let http := enforce_http http false in
  https_from http tls.

(** [HttpsConnector::new] with what [TlsConnector::builder().build()] gave;
    its error is a text. *)
Definition HttpsConnector_new `{TLS : TlsLib TcpStream} (threads : N) (built : TlsConnector + bytes)
    : HttpsConnector (HttpConnector (W:=world E) (R:=CAresResolverImpl)) + bytes :=
  match built with
  | inl tls => inl (HttpsConnector_new_ threads tls)
  | inr e => inr e
  end.

(** [HttpsConnector::new_with_resolver_], likewise. *)
Definition HttpsConnector_new_with_resolver_ {W R} `{TW : TcpLib W, TLS : TlsLib TcpStream}
    (resolver : R) (tls : TlsConnector) : HttpsConnector (HttpConnector (W:=W) (R:=R)) :=
  let http := new_with_resolver resolver in
  let http := enforce_http http false in
  https_from http tls.

Definition HttpsConnector_new_with_resolver {W R} `{TW : TcpLib W, TLS : TlsLib TcpStream}
    (resolver : R) (built : TlsConnector + bytes)
    : HttpsConnector (HttpConnector (W:=W) (R:=R)) + bytes :=
  match built with
  | inl tls => inl (HttpsConnector_new_with_resolver_ resolver tls)
  | inr e => inr e
  end.
End default.

(** ** The resolver keeps its contract *)

(** Asking c-ares and the clock keep the invariant of the world outside. *)
Class AresKeeps (E : Type) `{AL : AresLib E, WI : WorldInv E} := {
  query_a_keeps n e : world_inv e → world_inv (snd (query_a n e));
  cares_poll_keeps f e : world_inv e → world_inv (snd (cares_poll f e));
  instant_now_keeps e : world_inv e → world_inv (snd (instant_now e))
}.

Section contract.
Context {E : Type} `{AL : AresLib E, AA : !AresAnswers E, TL : TcpLib E, TG : Target}.
Context `{WI : WorldInv E, AK : !AresKeeps E, TC : !TcpContract E}.

#[export] Instance cached_world_inv : WorldInv (world E) :=
  λ w, cache_ok (cell w) ∧ world_inv (env w).

Lemma safe_lift {A} (m : io E A) Q : safe world_inv m Q → safe world_inv (lift_io m) Q.
Proof.
  intros Hm w [Hc He]. specialize (Hm _ He). unfold lift_io, lift_call.
  destruct (m (env w)) as [[a|e|p|] e']; [|done..]. by destruct Hm.
Qed.

#[export] Instance tcp_world_contract : TcpContract (world E).
Proof.
  refine (@Build_TcpContract (world E) tcp_world cached_world_inv
            (@target E TL WI TC) (@stream_peer E TL WI TC) _ _ _ _ _ _ _ _ _ _ _ _).
  - exact (safe_lift _ _ (new_v4_safe (W:=E))).
  - exact (safe_lift _ _ (new_v6_safe (W:=E))).
  - intros b r. exact (safe_lift _ _ (set_reuse_address_safe (W:=E) b r)).
  - intros b a. exact (safe_lift _ _ (bind_safe (W:=E) b a)).
  - intros b. exact (safe_lift _ _ (to_tcp_stream_safe (W:=E) b)).
  - intros s d. exact (safe_lift _ _ (set_keepalive_safe (W:=E) s d)).
  - intros s v. exact (safe_lift _ _ (set_nodelay_safe (W:=E) s v)).
  - intros s. exact (safe_lift _ _ (peer_addr_safe (W:=E) s)).
  - intros s a h w [Hc He]. pose proof (connect_std_ok (W:=E) s a h (env w) He) as H.
    change (connect_std s a h w) with (lift_call (@connect_std E TL s a h) w). unfold lift_call.
    destruct (@connect_std E TL s a h (env w)). by destruct H.
  - intros f w [Hc He]. pose proof (connect_poll_ok (W:=E) f (env w) He) as H.
    change (connect_poll f w) with (lift_call (@connect_poll E TL f) w). unfold lift_call.
    destruct (@connect_poll E TL f (env w)) as [[p f'] e]. by destruct H.
  - intros d w [Hc He]. pose proof (delay_new_ok (W:=E) d (env w) He) as H.
    change (delay_new d w) with (lift_call (@delay_new E TL d) w). unfold lift_call.
    by destruct (@delay_new E TL d (env w)).
  - intros d w [Hc He]. pose proof (delay_poll_ok (W:=E) d (env w) He) as H.
    change (delay_poll d w) with (lift_call (@delay_poll E TL d) w). unfold lift_call.
    by destruct (@delay_poll E TL d (env w)) as [[p d'] e].
Defined.

Lemma lookup_keeps name w o w' :
  lookup name w = (o, w') → world_inv (env w) → world_inv (env w').
Proof.
  unfold lookup. destruct (poisoned _); [by intros [= _ <-]|].
  destruct (_ !! name) as [[vec ttl]|]; [|by intros [= _ <-]].
  intros H Hw. pose proof (instant_now_keeps (env w) Hw).
  by destruct (instant_now (env w)); injection H as _ <-.
Qed.

Lemma ares_resolve_keeps n w f w' :
  ares_resolve n w = (f, w') → world_inv (env w) → world_inv (env w') ∧ f ≠ Done.
Proof.
  unfold ares_resolve. destruct (lookup _ w) as [[vec|] w1] eqn:El; intros H Hw;
    apply lookup_keeps in El; [|done| |done].
  - by injection H as <- <-.
  - pose proof (query_a_keeps (name_as_str n) (env w1) El).
    destruct (query_a _ _). by injection H as <- <-.
Qed.

Lemma ares_poll_keeps f w p f' w' :
  ares_poll f w = Ok (p, f', w') → world_inv (env w) → world_inv (env w').
Proof.
  destruct f as [fut n|vec|]; cbn [ares_poll]; [|by intros [= _ _ <-]|done].
  intros H Hw. pose proof (cares_poll_keeps fut (env w) Hw) as He.
  destruct (cares_poll fut (env w)) as [[q fut'] e]. cbn in He.
  destruct q as [|vals|err]; [by injection H as _ _ <-| |by injection H as _ _ <-].
  unfold add in H. cbn in H. destruct (poisoned _); [done|].
  pose proof (instant_now_keeps e He). destruct (instant_now e). cbn in H.
  by injection H as _ _ <-.
Qed.

(** [CAresResolverImpl] is a resolver that gives what c-ares answered. *)
#[export] Instance ares_contract : ResolveContract (world E) CAresResolverImpl.
Proof.
  refine {|
    gives n ip := ∃ vals, answers n vals ∧ ip ∈ V4 <$> vals;
    for_name f n := future_ok n f ∧ f ≠ Done
  |}.
  - intros r n w [Hc He]. cbn. destruct (ares_resolve n w) as [f w'] eqn:Er.
    pose proof (ares_resolve_keeps _ _ _ _ Er He) as [He' Hd].
    apply Ares.resolve_ok in Er as [Hcell Hok]; [|done]. split; [|done].
    split; [by rewrite Hcell|done].
  - intros f n w [Hc He] [Hf Hd]. cbn.
    pose proof (poll_ok n f w Hc Hf) as Hp.
    destruct (ares_poll f w) as [[[p f'] w']| |p|] eqn:Ep; [|done|by destruct Hp|done].
    pose proof (ares_poll_keeps _ _ _ _ _ Ep He) as He'.
    destruct Hp as (Hc' & Hf' & Hp). destruct p as [|a|e]; [done| |done].
    split; [done|]. destruct Hp as (_ & vals & Ha & ->). apply list.Forall_forall.
    intros ip Hip. by exists vals.
Defined.

Context `{UL : UriLib, HY : HyperLib, HX : !HyperExtra}.

(** The default connector, with the cache it shares: a connection is for
    the scheme [http], and its peer has the destination's port or 80, and an
    IPv4 address c-ares answered for the host, at any time, unless the host
    was an address itself. *)
Theorem default_connects_to_answers turn polls threads dst w s c w' :
  (∀ w, world_inv w → world_inv (turn w)) → world_inv w →
  http_connector turn polls (HttpConnector_new threads) dst w = (Ok (s, c), w') →
  scheme_is dst HTTP = true ∧
  ∃ host, uri_host (uri dst) = Some host ∧
    let port := dst_port_or_default dst in
    match try_parse host port with
    | Some l => stream_peer s ∈ iter l
    | None => ∃ vals ip, answers host vals ∧ ip ∈ vals ∧ stream_peer s = SockV4 ip port
    end.
Proof.
  intros Ht Hw Hc.
  destruct (http_connects_facts turn polls (HttpConnector_new threads) dst w s c w' Ht Hw Hc)
    as (host & Hh & Hs & Ha & _).
  split; [by apply Hs|]. exists host. split; [done|]. cbv zeta.
  unfold allowed in Ha. destruct (try_parse host _); [done|].
  destruct Ha as (ip & (vals & Hv & (a & -> & Hin)%list_elem_of_fmap) & Ha). by exists vals, a.
Qed.
End contract.

(** What the default HTTPS connector connects to. *)
Section https.
Context {E : Type} `{AL : AresLib E, AA : !AresAnswers E, TL : TcpLib E, TG : Target}.
Context `{WI : WorldInv E, AK : !AresKeeps E, TC : !TcpContract E}.
Context `{UL : UriLib, HY : HyperLib, HX : !HyperExtra, TLS : TlsLib (@TcpStream (world E) _)}.

(** The addresses a host stands for with the default resolver. *)
Definition default_address (host : bytes) (port : N) (a : SocketAddr) : Prop :=
  match try_parse host port with
  | Some l => a ∈ iter l
  | None => ∃ vals ip, answers host vals ∧ ip ∈ vals ∧ a = SockV4 ip port
  end.

(** C18: the whole stack of [HttpsConnector::new], the connector of the example
    program: a connection for an [https] URL is a stream whose TLS handshake
    succeeded for the host of the URL, over a TCP connection to an address
    that host stands for, on port 443 unless the URL has another; for another
    scheme it is that TCP connection, on port 80 by default. *)
Theorem default_https_connects turn polls n threads built self dst w s c w' :
  (∀ w, world_inv w → world_inv (turn w)) → world_inv w →
  HttpsConnector_new threads built = inl self →
  https_connect (CN:=http_connector turn polls) n self dst w = (Ok (s, c), w') →
  ∃ host tcp, uri_host (uri dst) = Some host ∧
    default_address host (dst_port_or_default dst) (stream_peer tcp) ∧
    match s with
    | Https t => dst_scheme dst = HTTPS ∧ ∃ tls, built = inl tls ∧
        handshakes (tls_connect tls host tcp) (Https.inner t)
    | Https.Http t => dst_scheme dst ≠ HTTPS ∧ t = tcp
    end.
Proof.
  intros Ht Hw Hself Hc. destruct built as [tl|]; [|done]. injection Hself as <-.
  apply (https_connect_facts (CN:=http_connector turn polls)) in Hc as (tcp & Hc & Hs).
  destruct (http_connects_facts turn polls _ dst w tcp c w' Ht Hw Hc) as (host & Hh & _ & Ha & _).
  exists host, tcp. split; [done|]. split.
  - unfold default_address. unfold allowed in Ha. destruct (try_parse host _); [done|].
    destruct Ha as (ip & (vals & Hv & (a & -> & Hin)%list_elem_of_fmap) & Ha). by exists vals, a.
  - destruct s as [t|t]; [by destruct Hs as (? & _ & ?)|]. destruct Hs as [? Hhs].
    split; [done|]. exists tl. split; [done|]. unfold dst_host in Hhs. by rewrite Hh in Hhs.
Qed.
End https.

(** ** A concrete run *)

Module Examples.
Import Http.Examples.

#[local] Existing Instance net.
#[local] Existing Instance not_windows.
#[local] Existing Instance any_world.
#[local] Existing Instance net_contract.
#[local] Existing Instance info_connected.
#[local] Existing Instance info_extra.
#[local] Existing Instance Simple.lib.

(** c-ares answers from the zone of [Ares.Examples]; the clock stands. *)
#[local] Instance net_ares : AresLib network := {|
  CAresFuture := bytes;
  query_a name e := (name, e);
  cares_poll f e := (Ready (Ares.Examples.zone f), f, e);
  instant_now e := (0%N, e)
|}.

#[local] Instance net_answers : AresAnswers network.
Proof.
  refine {| answers name vals := vals = Ares.Examples.zone name; is_query f name := f = name |}.
  - done.
  - by intros f name e ->.
Defined.

#[local] Instance net_keeps : AresKeeps network.
Proof. by split. Defined.

Definition start : world network :=
  {| cell := cache_default; env := Network [SockV4 a4 80] |}.

Lemma start_inv : world_inv start.
Proof.
  split; [split; [reflexivity|]|exact I].
  intros n vec ttl Hl. cbn in Hl. rewrite lookup_empty in Hl. discriminate Hl.
Qed.

Lemma default_connects_to_answers_witness :
  ∃ s c, fst (http_connector (λ w, w) 5 (HttpConnector_new 4) (simple_dst HTTP (b"a.org") None)
      start) = Ok (s, c) ∧
    ∃ vals ip, answers (b"a.org") vals ∧ ip ∈ vals ∧ stream_peer s = SockV4 ip 80.
Proof.
  assert (∀ A B : Prop, A → (A → B) → A ∧ B) as Hand by tauto.
  eexists (SockV4 a4 80), (false, Some (MkHttpInfo (SockV4 a4 80))).
  apply Hand; [vm_compute; reflexivity|]. intros Hrun.
  destruct (default_connects_to_answers (E:=network) (λ w, w) 5 4
              (simple_dst HTTP (b"a.org") None) start _ _ _ (λ w Hw, Hw) start_inv
              (injective_projections _ (_, _) Hrun eq_refl)) as (_ & host & Hh & Hp).
  cbn in Hh. injection Hh as <-. exact Hp.
Defined.

(** A TLS session remembers its host; the handshake blocks once. *)
#[local] Instance host_tls : TlsLib (@TcpStream (world network) tcp_world) := {|
  TlsConnector := unit;
  NativeTlsStream := bytes * SocketAddr;
  MidHandshake := bytes * SocketAddr;
  tls_connect _ host tcp := inr (WouldBlock (host, tcp));
  tls_handshake mid := inl mid
|}.

Definition open443 : world network :=
  {| cell := cache_default; env := Network [SockV4 a4 443] |}.

Definition built : TlsConnector + bytes := inl tt.
Definition stack := HttpsConnector_new_ (E:=network) (TLS:=host_tls) 4 (tt : TlsConnector).
Definition session : @TlsStream _ host_tls := MkTlsStream (TLS:=host_tls) (b"a.org", SockV4 a4 443).

Lemma default_https_connects_witness :
  ∃ c, fst (https_connect (CN:=http_connector (λ w, w) 5) 3 stack
      (simple_dst HTTPS (b"a.org") None) open443) = Ok (Https session, c) ∧
    ∃ tcp, default_address (b"a.org") 443 (stream_peer tcp) ∧
      handshakes (tls_connect (TlsLib:=host_tls) tt (b"a.org") tcp) (Https.inner session).
Proof.
  assert (∀ A B : Prop, A → (A → B) → A ∧ B) as Hand by tauto.
  exists (false, Some (MkHttpInfo (SockV4 a4 443))).
  apply Hand; [vm_compute; reflexivity|]. intros Hrun.
  destruct (default_https_connects (E:=network) (λ w, w) 5 3 4 built stack
    (simple_dst HTTPS (b"a.org") None) open443 _ _ _ (λ w Hw, Hw)
    ltac:(split; [split; [reflexivity|intros n vec ttl Hl; cbn in Hl; rewrite lookup_empty in Hl;
      discriminate Hl]|exact I]) eq_refl (injective_projections _ (_, _) Hrun eq_refl))
    as (host & tcp & Hh & Ha & _ & tl & Htl & Hhs).
  cbn in Hh. injection Hh as <-. injection Htl as <-. exists tcp. split; [exact Ha|exact Hhs].
Defined.
End Examples.
