(* ===== verification/Wakeups.v ===== *)
(** * No lost wake-ups

    A poll that is not ready must have told the reactor what the task waits
    for: an executor polls a task again only when it is woken.  [registered]
    says which sources of events will still wake the task; sockets, timers and
    resolvers register theirs ([TcpWakes], [ResolveWakes]), and the connecting
    future of [src/src/http/mod.rs] is shown to rest on registered sources
    whenever it is not ready.  The resolvers of the crate keep the promise of
    [ResolveWakes], given what they wait for does. *)
From S2P Require Import Prelude RustStd Io Uri Connect Net Dns Ares Http Default Gai.

(** What can wake the task, and what is to wake it: a source stays registered
    until its event has happened. *)
Class Wakes (W : Type) := {
  Source : Type;
  registered : W → Source → Prop
}.

Section wakes.
Context {W : Type} `{WK : Wakes W}.

(** Whatever was to wake the task still is. *)
Definition still (w w' : W) : Prop := ∀ s, registered w s → registered w' s.

#[export] Instance still_preorder : PreOrder still.
Proof. split; unfold still; [by intros w s|]. intros w1 w2 w3 H1 H2 s Hs. by apply H2, H1. Qed.

Definition keeps {A} (m : W → A * W) : Prop := ∀ w, still w (snd (m w)).

Lemma keeps_ret {A} (a : A) : keeps (mret (M:=io W) a).
Proof. intros w. reflexivity. Qed.

Lemma keeps_bind {A B} (m : io W A) (f : A → io W B) :
  keeps m → (∀ a, keeps (f a)) → keeps (m ≫= f).
Proof.
  intros Hm Hf w. specialize (Hm w). unfold mbind, io_bind.
  destruct (m w) as [[a|e|p|] w1]; [|exact Hm..]. etransitivity; [exact Hm|apply Hf].
Qed.

Lemma keeps_call {A} (f : W → A * W) : keeps f → keeps (io_call f).
Proof. intros Hf w. specialize (Hf w). unfold io_call. by destruct (f w). Qed.
End wakes.

(** Sockets and timers: making and polling one leaves the others registered;
    one that is not ready is registered, and one that is registered is not
    ready; a delay that has elapsed stays so. *)
Class TcpWakes (W : Type) `{TL : TcpLib W, WK : !Wakes W} := {
  tcp_source : ConnectFuture → Source;
  delay_source : Delay → Source;
  elapsed : Delay → Prop;
  new_v4_keeps : keeps new_v4;
  new_v6_keeps : keeps new_v6;
  set_reuse_address_keeps b r : keeps (set_reuse_address b r);
  bind_keeps b a : keeps (bind b a);
  to_tcp_stream_keeps b : keeps (to_tcp_stream b);
  connect_std_keeps s a h : keeps (connect_std s a h);
  connect_poll_keeps f : keeps (connect_poll f);
  delay_poll_keeps d : keeps (delay_poll d);
  connect_poll_registers f w f' w' :
    connect_poll f w = (NotReady, f', w') → registered w' (tcp_source f');
  connect_poll_waits f w :
    registered w (tcp_source f) → ∃ f' w', connect_poll f w = (NotReady, f', w');
  delay_poll_registers d w d' w' :
    delay_poll d w = (NotReady, d', w') → registered w' (delay_source d');
  delay_poll_waits d w :
    registered w (delay_source d) → ∃ d' w', delay_poll d w = (NotReady, d', w');
  delay_poll_elapses d w d' w' u : delay_poll d w = (Ready u, d', w') → elapsed d';
  delay_poll_elapsed d w : elapsed d → ∃ u d' w', delay_poll d w = (Ready u, d', w')
}.

(** A resolver's future that is not ready rests on a registered source, and it
    stays not ready as long as it does. *)
Class ResolveWakes (W R : Type) `{RV : Resolve W R, WK : !Wakes W} := {
  rests : Future → W → Prop;
  rests_still f w w' : still w w' → rests f w → rests f w';
  future_poll_rests f w f' w' : future_poll f w = Ok (NotReady, f', w') → rests f' w';
  future_poll_waits f w : rests f w → ∃ f' w', future_poll f w = Ok (NotReady, f', w')
}.

(** ** One family *)

Section tcp.
Context {W : Type} `{TL : TcpLib W, WK : !Wakes W, TW : !TcpWakes W, TG : Target}.
Implicit Types (r : ConnectingTcpRemote W).

Lemma tcp_connect_keeps a la h ra : keeps (tcp_connect a la h ra).
Proof.
  unfold tcp_connect. apply keeps_bind.
  { destruct a; [apply new_v4_keeps|apply new_v6_keeps]. }
  intros bu. apply keeps_bind.
  { destruct ra; [apply set_reuse_address_keeps|apply keeps_ret]. }
  intros _. apply keeps_bind.
  { destruct la; [apply bind_keeps|]. destruct cfg_windows; [apply bind_keeps|apply keeps_ret]. }
  intros _. apply keeps_bind; [apply to_tcp_stream_keeps|].
  intros s. apply keeps_call, connect_std_keeps.
Qed.

(** The attempt under way will wake the task. *)
Definition remote_parked (w : W) r : Prop :=
  ∃ f, current r = Some f ∧ registered w (tcp_source f).

Lemma remote_parked_still w w' r : still w w' → remote_parked w r → remote_parked w' r.
Proof. intros Hs (f & Hf & Hr). exists f. split; [done|by apply Hs]. Qed.

(** Trying the next address leaves what is registered, and never ends the
    poll without a result. *)
Lemma try_next_keeps la h ra r err w :
  match try_next la h ra r err w with
  | Ok (Continue (_, _, w')) => still w w'
  | Ok (Break (p, _, w')) => still w w' ∧ p ≠ NotReady
  | _ => True
  end.
Proof.
  unfold try_next. destruct (ip_addrs_next (addrs r)) as [[a|] l].
  - pose proof (tcp_connect_keeps a la h ra w) as Hk. unfold try_io.
    by destruct (tcp_connect a la h ra w) as [[f|e|p|] w'].
  - destruct err as [e|]; cbn; [|done]. split; [reflexivity|done].
Qed.

(** What a poll of a family leaves registered. *)
Definition remote_leaves (w : W) (p : poll TcpStream io_error) r (w' : W) : Prop :=
  still w w' ∧ (p = NotReady → remote_parked w' r).

Lemma remote_step_keeps la h ra r err w :
  match remote_step la h ra (r, err, w) with
  | Ok (Continue (_, _, w')) => still w w'
  | Ok (Break (p, r', w')) => remote_leaves w p r' w'
  | _ => True
  end.
Proof.
  assert (∀ r err w0, still w w0 →
    match try_next la h ra r err w0 with
    | Ok (Continue (_, _, w')) => still w w'
    | Ok (Break (p, r', w')) => remote_leaves w p r' w'
    | _ => True
    end) as Hnext.
  { clear r err. intros r err w0 H0. pose proof (try_next_keeps la h ra r err w0) as Ht.
    destruct (try_next _ _ _ _ _ _) as [[[[? ?] w']|[[p r'] w']]| | |]; try done.
    - by etransitivity.
    - destruct Ht as [Ht Hp]. split; [by etransitivity|done]. }
  unfold remote_step. destruct (current r) as [f|] eqn:Ef; [|by apply Hnext].
  pose proof (connect_poll_keeps f w) as Hk.
  destruct (connect_poll f w) as [[p f'] w1] eqn:Ep. cbn [snd] in Hk.
  destruct p as [|s|e].
  - split; [done|]. intros _. exists f'. split; [done|by eapply connect_poll_registers].
  - by split.
  - by apply Hnext.
Qed.

Lemma remote_poll_leaves la h ra r w p r' w' :
  remote_poll la h ra r w = Ok (p, r', w') → remote_leaves w p r' w'.
Proof.
  intros Hp. unfold remote_poll in Hp.
  refine (loop_Ok (remote_step la h ra) (λ s, still w s.2)
    (λ o, remote_leaves w o.1.1 o.1.2 o.2) _ _ _ (r, None, w) (p, r', w') _ Hp); [..|cbn; reflexivity].
  - intros [[r0 err] w0] [[r1 err'] w1] H0 Hs. pose proof (remote_step_keeps la h ra r0 err w0) as Hk.
    rewrite Hs in Hk. by etransitivity.
  - intros [[r0 err] w0] [[q r1] w1] H0 Hs. pose proof (remote_step_keeps la h ra r0 err w0) as Hk.
    rewrite Hs in Hk. destruct Hk as [Hk Hq]. split; [by etransitivity|done].
Qed.

(** A family whose attempt is registered is not ready. *)
Lemma remote_poll_waits la h ra r w :
  remote_parked w r → ∃ r' w', remote_poll la h ra r w = Ok (NotReady, r', w').
Proof.
  intros (f & Hf & Hr). destruct (connect_poll_waits f w Hr) as (f' & w' & Hp).
  exists (MkRemote (addrs r) (Some f')), w'. unfold remote_poll. cbn [loop remote_step Nat.add].
  by rewrite Hf, Hp.
Qed.

(** ** Both families *)

(** The preferred family will wake the task, and so will the fallback: its
    delay, or its own attempt once the delay is over. *)
Definition tcp_parked (w : W) (c : ConnectingTcp W) : Prop :=
  remote_parked w (preferred c) ∧
  match fallback c with
  | Some fb => registered w (delay_source (delay fb)) ∨
               (elapsed (delay fb) ∧ remote_parked w (remote fb))
  | None => True
  end.

Lemma tcp_parked_still w w' c : still w w' → tcp_parked w c → tcp_parked w' c.
Proof.
  intros Hs [Hp Hf]. split; [by eapply remote_parked_still|]. destruct (fallback c); [|done].
  destruct Hf as [Hd|[Hd Hr]]; [left; by apply Hs|right; split; [done|by eapply remote_parked_still]].
Qed.

Lemma connecting_tcp_poll_parks h c w c' w' :
  connecting_tcp_poll h c w = Ok (NotReady, c', w') → tcp_parked w' c'.
Proof.
  destruct c as [la pr fb ra]. unfold connecting_tcp_poll. cbn [preferred fallback ct_local_addr ct_reuse_address].
  intros Hp. destruct fb as [[dl rm]|]; apply bind_Ok_inv in Hp as ([[p pr'] w1] & Hpr & Hp);
    apply remote_poll_leaves in Hpr as [_ Hpr].
  - cbn [delay remote] in Hp. destruct p as [|s|e]; [|by outcome_inv|].
    + specialize (Hpr eq_refl). pose proof (delay_poll_keeps dl w1) as Hk.
      destruct (delay_poll dl w1) as [[[|u|u] dl'] w2] eqn:Ed; cbn [snd] in Hk.
      * outcome_inv. split; [by eapply remote_parked_still|]. left. by eapply delay_poll_registers.
      * apply bind_Ok_inv in Hp as ([[q rm'] w3] & Hrm & Hp).
        apply remote_poll_leaves in Hrm as [Hs Hrm].
        assert (remote_parked w3 pr') as Hpr3.
        { eapply remote_parked_still; [|exact Hpr]. by etransitivity. }
        destruct q as [|s|e]; outcome_inv; split; try done.
        right. split; [by eapply delay_poll_elapses|auto].
      * outcome_inv. split; [by eapply remote_parked_still|done].
    + apply bind_Ok_inv in Hp as ([[q rm'] w3] & Hrm & Hp).
      apply remote_poll_leaves in Hrm as [_ Hrm]. outcome_inv. by split; [apply Hrm|].
  - outcome_inv. by split; [apply Hpr|].
Qed.

Lemma connecting_tcp_poll_waits h c w :
  tcp_parked w c → ∃ c' w', connecting_tcp_poll h c w = Ok (NotReady, c', w').
Proof.
  destruct c as [la pr fb ra]. unfold tcp_parked, connecting_tcp_poll.
  cbn [preferred fallback ct_local_addr ct_reuse_address]. intros [Hpr Hfb].
  destruct (remote_poll_waits la h ra pr w Hpr) as (pr' & w1 & Ep).
  pose proof (remote_poll_leaves _ _ _ _ _ _ _ _ Ep) as [Hs1 _].
  destruct fb as [[dl rm]|]; rewrite Ep; cbn [mbind outcome_bind delay remote] in *; [|eauto].
  destruct Hfb as [Hd|[Hd Hrm]].
  - destruct (delay_poll_waits dl w1) as (dl' & w2 & ->); [by apply Hs1|]. eauto.
  - pose proof (delay_poll_keeps dl w1) as Hk.
    destruct (delay_poll_elapsed dl w1 Hd) as (u & dl' & w2 & Ed). rewrite Ed in *. cbn [snd] in Hk.
    destruct (remote_poll_waits la h ra rm w2) as (rm' & w3 & ->); [|cbn; eauto].
    eapply remote_parked_still; [|exact Hrm]. by etransitivity.
Qed.
End tcp.

(** ** The connector's future *)

Section http.
Context {W R : Type} `{TL : TcpLib W, TG : Target, RV : Resolve W R}.
Context `{WK : !Wakes W, TW : !TcpWakes W, RW : !ResolveWakes W R}.
Context `{UL : UriLib, HY : HyperLib, HX : !HyperExtra}.

(** What the future waits for is registered. *)
Definition parked (w : W) (self : HttpConnecting (W:=W) (R:=R)) : Prop :=
  match state self with
  | Resolving future _ => rests future w
  | Connecting c => tcp_parked w c
  | _ => False
  end.

Lemma parked_still w w' self : still w w' → parked w self → parked w' self.
Proof.
  intros Hs. unfold parked. destruct (state self); [done|by apply rests_still|by apply tcp_parked_still|done].
Qed.

Lemma http_step_parks self w self' w' :
  http_step (self, w) = Ok (Break (NotReady, self', w')) → parked w' self'.
Proof.
  unfold http_step, parked. destruct (state self) as [rv host la|f la|c|e].
  - destruct (try_parse host (port self)) as [a|].
    + by destruct (connecting_tcp_new _ _ _ _ _).
    + by destruct (resolve _ _ _).
  - intros Hs. apply bind_Ok_inv in Hs as ([[p f'] w1] & Hf & Hs).
    destruct p as [|a|e]; [| |by outcome_inv].
    + outcome_inv. cbn [state set_state]. by eapply future_poll_rests.
    + by destruct (connecting_tcp_new _ _ _ _ _).
  - intros Hs. apply bind_Ok_inv in Hs as ([[p c'] w1] & Hc & Hs).
    destruct p as [|s|e]; [| |by outcome_inv].
    + outcome_inv. cbn [state set_state]. by eapply connecting_tcp_poll_parks.
    + unfold try_io in Hs. by destruct (finish _ _ _) as [[r|e|p|] w2].
  - intros Hs. by apply bind_Ok_inv in Hs as (e' & _ & ?).
Qed.

Lemma http_poll_parks self w self' w' :
  http_poll self w = Ok (NotReady, self', w') → parked w' self'.
Proof.
  intros Hp.
  assert (∀ o : poll (TcpStream * Connected) io_error * HttpConnecting * W,
    http_poll self w = Ok o → o.1.1 = NotReady → parked o.2 o.1.2) as H.
  { intros o. unfold http_poll. apply (loop_Ok http_step (λ _, True)
      (λ o, o.1.1 = NotReady → parked o.2 o.1.2)); [done| |done].
    intros [s w0] [[p s1] w1] _ Hs Hn. cbn in Hn. subst p. by eapply http_step_parks. }
  exact (H _ Hp eq_refl).
Qed.

Lemma http_poll_waits self w :
  parked w self → ∃ self' w', http_poll self w = Ok (NotReady, self', w').
Proof.
  intros Hp. unfold http_poll. cbn [loop]. unfold http_step, parked in *.
  destruct (state self) as [rv host la|f la|c|e]; [done| | |done].
  - destruct (future_poll_waits f w Hp) as (f' & w' & ->). cbn. eauto.
  - destruct (connecting_tcp_poll_waits (handle self) c w Hp) as (c' & w' & ->). cbn. eauto.
Qed.

(** C6: no wake-up is lost.  When a poll of the connector's future is not
    ready, everything it waits for has been registered to wake the task: the
    resolver, or the attempt of the preferred family together with the delay
    of the fallback or the fallback's own attempt.  So as long as all that was
    registered then still is, polling again is not ready either: an executor
    that polls only tasks that are woken misses nothing. *)
Theorem http_no_lost_wakeup (self : HttpConnecting (W:=W) (R:=R)) w self' w' :
  http_poll self w = Ok (NotReady, self', w') →
  parked w' self' ∧
  ∀ w2, still w' w2 → ∃ self2 w3, http_poll self' w2 = Ok (NotReady, self2, w3) ∧ parked w3 self2.
Proof.
  intros Hp%http_poll_parks. split; [done|]. intros w2 Hs.
  destruct (http_poll_waits self' w2) as (self2 & w3 & E); [by eapply parked_still|].
  exists self2, w3. split; [done|]. by eapply http_poll_parks.
Qed.
End http.

(** ** The resolvers of the crate *)

(** What the caching resolver waits for is the query of c-ares. *)
Class AresWakes (E : Type) `{AL : AresLib E, WK : !Wakes E} := {
  query_source : CAresFuture → Source;
  cares_poll_registers f e f' e' :
    cares_poll f e = (NotReady, f', e') → registered e' (query_source f');
  cares_poll_waits f e :
    registered e (query_source f) → ∃ f' e', cares_poll f e = (NotReady, f', e')
}.

Section ares.
Context {E : Type} `{AL : AresLib E, WK : !Wakes E, AW : !AresWakes E}.

(** The cache is no source of events. *)
#[export] Instance cached_wakes : Wakes (world E) := {|
  Source := Source;
  registered w s := registered (env w) s
|}.

#[export] Instance ares_wakes : ResolveWakes (world E) CAresResolverImpl.
Proof.
  refine (@Build_ResolveWakes (world E) CAresResolverImpl ares_resolver cached_wakes
    (λ f w, match f with
            | FromResolver fut _ => registered (env w) (query_source fut)
            | _ => False
            end) _ _ _).
  - intros [fut n|vec|] w w' Hs Hf; [by apply Hs|done..].
  - intros [fut n|vec|] w f' w' Hp; cbn in Hp; [|done..].
    destruct (cares_poll fut (env w)) as [[[|vals|err] fut'] e] eqn:Ec; [| |done].
    + outcome_inv. cbn. by eapply cares_poll_registers.
    + apply bind_Ok_inv in Hp as (w1 & _ & ?). done.
  - intros [fut n|vec|] w Hf; [|done..].
    destruct (cares_poll_waits fut (env w) Hf) as (fut' & e' & Ec).
    cbn. rewrite Ec. eauto.
Defined.

(** The sockets of the world outside register their sources there. *)
#[export] Instance tcp_world_wakes `{TL : TcpLib E, TW : !TcpWakes E} : TcpWakes (world E).
Proof.
  assert (∀ A (m : E → A * E), keeps m → keeps (lift_call m)) as Hk.
  { intros A m Hm w s Hs. unfold lift_call. specialize (Hm (env w) s Hs). by destruct (m (env w)). }
  refine (@Build_TcpWakes (world E) tcp_world cached_wakes
    (tcp_source (W:=E)) (delay_source (W:=E)) (elapsed (W:=E)) _ _ _ _ _ _ _ _ _ _ _ _ _ _).
  - apply Hk, (new_v4_keeps (W:=E)).
  - apply Hk, (new_v6_keeps (W:=E)).
  - intros b r. apply Hk, (set_reuse_address_keeps (W:=E)).
  - intros b a. apply Hk, (bind_keeps (W:=E)).
  - intros b. apply Hk, (to_tcp_stream_keeps (W:=E)).
  - intros s a h. apply Hk, (connect_std_keeps (W:=E)).
  - intros f. apply (Hk _ (λ e, @connect_poll E TL f e)), (connect_poll_keeps (W:=E)).
  - intros d. apply (Hk _ (λ e, @delay_poll E TL d e)), (delay_poll_keeps (W:=E)).
  - intros f w f' w'. cbn. unfold lift_call.
    destruct (@connect_poll E TL f (env w)) as [[p g] e] eqn:Ep. intros [= -> -> <-].
    by eapply (connect_poll_registers (W:=E)).
  - intros f w Hr. destruct (connect_poll_waits (W:=E) f (env w) Hr) as (f' & e & Ep).
    cbn. unfold lift_call. rewrite Ep. eauto.
  - intros d w d' w'. cbn. unfold lift_call.
    destruct (@delay_poll E TL d (env w)) as [[p g] e] eqn:Ep. intros [= -> -> <-].
    by eapply (delay_poll_registers (W:=E)).
  - intros d w Hr. destruct (delay_poll_waits (W:=E) d (env w) Hr) as (d' & e & Ep).
    cbn. unfold lift_call. rewrite Ep. eauto.
  - intros d w d' w' u. cbn. unfold lift_call.
    destruct (@delay_poll E TL d (env w)) as [[p g] e] eqn:Ep. intros [= -> -> _].
    by eapply (delay_poll_elapses (W:=E)).
  - intros d w Hd. destruct (delay_poll_elapsed (W:=E) d (env w) Hd) as (u & d' & e & Ep).
    cbn. unfold lift_call. rewrite Ep. eauto.
Defined.
End ares.

(** The handle of a spawned task is woken when the task is done, and a
    blocking section when a thread is free. *)
Class OneshotWakes (W : Type) `{OS : Oneshot W, WK : !Wakes W} := {
  rx_source : SpawnHandle → Source;
  rx_poll_registers h w h' w' :
    rx_poll h w = Ok (NotReady, h', w') → registered w' (rx_source h');
  rx_poll_waits h w :
    registered w (rx_source h) → ∃ h' w', rx_poll h w = Ok (NotReady, h', w')
}.

Class BlockingWakes (W : Type) `{BL : Blocking W, WK : !Wakes W} := {
  thread_source : Source;
  blocking_registers A (f : W → A * W) w w' :
    blocking f w = (NotReady, w') → registered w' thread_source;
  blocking_waits A (f : W → A * W) w :
    registered w thread_source → ∃ w', blocking f w = (NotReady, w')
}.

Section gai.
Context {W : Type} `{WK : Wakes W}.

#[export] Instance gai_wakes {X} `{OS : Oneshot W, EX : !Executor W X GaiTask, OW : !OneshotWakes W} :
  ResolveWakes W (GaiResolver X).
Proof.
  refine (@Build_ResolveWakes W (GaiResolver X) gai_resolver WK
    (λ f w, registered w (rx_source (rx f))) _ _ _).
  - intros f w w' Hs. apply Hs.
  - intros [h] w [h'] w' Hp. cbn in Hp. unfold gai_future_poll in Hp.
    apply bind_Ok_inv in Hp as ([[p h2] w2] & Hr & Hp). destruct p; outcome_inv.
    by eapply rx_poll_registers.
  - intros [h] w Hr. destruct (rx_poll_waits h w Hr) as (h' & w' & E).
    cbn. unfold gai_future_poll. cbn [rx]. rewrite E. cbn. eauto.
Defined.

#[export] Instance threadpool_wakes `{GA : GetAddrInfo W, BL : Blocking W, BW : !BlockingWakes W} :
  ResolveWakes W TokioThreadpoolGaiResolver.
Proof.
  refine (@Build_ResolveWakes W TokioThreadpoolGaiResolver threadpool_resolver WK
    (λ f w, registered w thread_source) _ _ _).
  - intros f w w' Hs. apply Hs.
  - intros f w f' w' Hp. cbn in Hp. unfold threadpool_poll in Hp.
    destruct (blocking _ w) as [[|[l|e]|e] w2] eqn:Eb; outcome_inv. by eapply blocking_registers.
  - intros f w Hr.
    destruct (blocking_waits _ (to_socket_addrs (name_as_str (tg_name f)) 0) w Hr) as (w' & E).
    cbn. unfold threadpool_poll. rewrite E. eauto.
Defined.

(** A shared resolver's futures are the resolver's. *)
#[export] Instance arc_wakes {R} `{RV : Resolve W R, RW : !ResolveWakes W R} : ResolveWakes W (Arc R).
Proof.
  refine (@Build_ResolveWakes W (Arc R) arc_resolver WK (rests (R:=R)) _ _ _).
  - exact (rests_still (R:=R)).
  - exact (future_poll_rests (R:=R)).
  - exact (future_poll_waits (R:=R)).
Defined.
End gai.

(** ** A concrete run

    A network where attempts and the delay are events that have happened or
    not, and where polls ask for the events they wait for. *)
Module Examples.
Import Http.Examples.

Record events := Events {
  happened : list (option SocketAddr);
  asked : list (option SocketAddr)
}.

(** [Some a]: the attempt for [a] is decided; [None]: the delay is over. *)
Definition wait_event {A F} (s : option SocketAddr) (a : A) (f : F) (w : events)
    : poll A io_error * F * events :=
  if decide (s ∈ happened w) then (Ready a, f, w)
  else (NotReady, f, Events (happened w) (s :: asked w)).

#[local] Instance event_net : TcpLib events := {|
  Builder := unit;
  StdStream := unit;
  TcpStream := SocketAddr;
  ConnectFuture := SocketAddr;
  Handle := unit;
  Delay := bool;
  handle_default := tt;
  new_v4 := mret tt;
  new_v6 := mret tt;
  set_reuse_address _ _ := mret tt;
  bind _ _ := mret tt;
  to_tcp_stream _ := mret tt;
  connect_std _ a _ w := (a, w);
  connect_poll a w := wait_event (Some a) a a w;
  set_keepalive _ _ := mret tt;
  set_nodelay _ _ := mret tt;
  peer_addr s := mret s;
  delay_new _ w := (false, w);
  delay_poll d w :=
    if d || bool_decide (None ∈ happened w) then (Ready tt, true, w)
    else (NotReady, d, Events (happened w) (None :: asked w))
|}.

(** A delay that is over has no event left. *)
#[local] Instance event_wakes : Wakes events := {|
  Source := option (option SocketAddr);
  registered w s :=
    match s with Some s => s ∈ asked w ∧ s ∉ happened w | None => False end
|}.

#[local] Instance event_tcp_wakes : TcpWakes events.
Proof.
  refine (@Build_TcpWakes events event_net event_wakes
            (λ a, Some (Some a)) (λ d, if d : bool then None else Some None) (λ d, d = true)
            _ _ _ _ _ _ _ _ _ _ _ _ _ _).
  all: try (intros; intros ? ? ?; done).
  - intros a w [s|]; [|done]. intros [Ha Hh]. cbn. unfold wait_event.
    case_decide; cbn; [done|]. split; [by right|done].
  - intros d w [s|]; [|done]. intros [Ha Hh]. cbn.
    destruct (_ || _); cbn; [done|]. split; [by right|done].
  - intros a w a' w'. cbn. unfold wait_event. case_decide; [done|].
    intros [= <- <-]. cbn. split; [left|done].
  - intros a w [Ha Hh]. cbn. unfold wait_event. rewrite decide_False by done. eauto.
  - intros [] w d' w'; cbn; [done|]. case_bool_decide; [done|].
    intros [= <- <-]. cbn. split; [left|done].
  - intros [] w; cbn; [done|]. intros [_ Hn]. rewrite bool_decide_false by done. eauto.
  - intros d w d' w' u. cbn. destruct (_ || _); [|done]. by intros [= _ <- _].
  - intros d w ->. cbn. eauto.
Defined.

#[local] Instance zone_events : Resolve events unit := {|
  Addrs := list IpAddr;
  Future := bytes;
  addrs_list a := a;
  resolve _ n w := (name_host n, w);
  future_poll f w := Ok (Ready (zone f), f, w)
|}.

#[local] Instance zone_wakes : ResolveWakes events unit.
Proof. by refine (@Build_ResolveWakes events unit zone_events event_wakes (λ _ _, False) _ _ _). Defined.

#[local] Existing Instance not_windows.
#[local] Existing Instance info_connected.
#[local] Existing Instance info_extra.
#[local] Existing Instance Simple.lib.

(** Both attempts and the delay are waited for: the preferred family's attempt
    and the delay are registered; when the delay is over, the task was told,
    and while it is not, polling again is not ready. *)
Definition first_poll : polled events (HttpConnecting (W:=events) (R:=unit)) (TcpStream * Connected) :=
  http_poll (http_connect (new_with_resolver tt) (simple_dst HTTP (b"a.org") None)) (Events [] []).

Lemma http_no_lost_wakeup_witness :
  ∃ self w, first_poll = Ok (NotReady, self, w) ∧ asked w = [None; Some (SockV6 a6 80 0 0)] ∧
    ∃ self2 w3, http_poll self w = Ok (NotReady, self2, w3) ∧ parked w3 self2.
Proof.
  assert (∀ A B C : Prop, A → B → (A → C) → A ∧ B ∧ C) as Hand by tauto.
  eexists _, _. apply Hand; [vm_compute; reflexivity|reflexivity|]. intros Hrun.
  destruct (http_no_lost_wakeup (TW:=event_tcp_wakes) (RW:=zone_wakes) (HY:=info_connected) _ _ _ _ Hrun)
    as [_ Hw].
  apply Hw. reflexivity.
Defined.
End Examples.
