(* ===== verification/Proxy.v ===== *)
(** * The proxy connector: [src/src/proxy/]

    [Intercept] says which destinations go through a proxy; [ProxyConnector]
    connects to the first proxy that matches: through a tunnel with TLS inside
    for [https], as it is otherwise ([mod.rs]); [ProxyStream] is the stream it
    gives ([stream.rs]).  The tunnel is the file [Tunnel]; [tokio_tls] and the
    typed headers are third-party code. *)
From S2P Require Import Prelude RustStd Io Uri Connect Tunnel.

(** A custom intercept is a function of scheme, host and port. *)
Record Custom := MkCustom { custom_fn : option bytes → option bytes → option N → bool }.

Definition custom_from (f : option bytes → option bytes → option N → bool) : Custom := MkCustom f.

Inductive Intercept :=
| All
| Http
| Https
| None_
| Custom_ (c : Custom).

Definition intercept_from (f : option bytes → option bytes → option N → bool) : Intercept :=
  Custom_ (custom_from f).

(** [trait Dst]. *)
Class Dst (D : Type) := {
  d_scheme : D → option bytes;
  d_host : D → option bytes;
  d_port : D → option N
}.

#[export] Instance uri_dst `{UL : UriLib} : Dst Uri := {|
  d_scheme u := scheme_as_str <$> scheme_part u;
  d_host := uri_host;
  d_port := uri_port_u16
|}.

#[export] Instance destination_dst `{UL : UriLib} : Dst Destination := {|
  d_scheme d := Some (dst_scheme d);
  d_host d := Some (dst_host d);
  d_port := dst_port
|}.

Definition matches {D} `{DS : Dst D} (self : Intercept) (uri : D) : bool :=
  match self with
  | All => true
  | Http => bool_decide (d_scheme uri = Some HTTP)
  | Https => bool_decide (d_scheme uri = Some HTTPS)
  | Custom_ c => custom_fn c (d_scheme uri) (d_host uri) (d_port uri)
  | None_ => false
  end.

(** [typed_headers]: credentials are printed to a header value, and inserted
    under the name of the header. *)
Class CredentialsLib `{HDR : HeaderLib} := {
  Credentials : Type;
  credentials_value : Credentials → HValue
}.

Definition AUTHORIZATION : bytes := b"authorization".
Definition PROXY_AUTHORIZATION : bytes := b"proxy-authorization".

(** [native_tls] and [tokio_tls] over streams of type [T]: building a default
    connector, and its [connect] awaited; an error is a text. *)
Class TokioTls (T : Type) := {
  NativeTlsConnector : Type;
  TlsStream : Type;
  native_tls_build : NativeTlsConnector + bytes;
  tokio_tls_connect : NativeTlsConnector → bytes → T → TlsStream + bytes
}.

(** [Display] of a URI. *)
Class UriText `{UL : UriLib} := uri_text : Uri → bytes.

(** [fn io_err] of an error with this text. *)
Definition io_err (e : bytes) : io_error := IoError Other e.
Definition result_io {A} (r : A + bytes) : outcome io_error A :=
  match r with inl a => Ok a | inr e => Err (io_err e) end.

(** [Display] of [connect::Error]. *)
Definition error_text (e : Error) : bytes := match e with Parse => b"Parse" end.

Section proxy.
Context `{UL : UriLib, HDR : HeaderLib, CL : !CredentialsLib}.

Record Proxy := MkProxy {
  intercept : Intercept;
  headers : HMap;
  px_uri : Uri
}.

Definition Proxy_new (intercept : Intercept) (uri : Uri) : Proxy := {|
  intercept := intercept;
  px_uri := uri;
  headers := hm_empty
|}.

Definition set_headers (self : Proxy) (h : HMap) : Proxy := MkProxy (intercept self) h (px_uri self).

Definition set_authorization (self : Proxy) (credentials : Credentials) : Proxy :=
  let v := credentials_value credentials in
  match intercept self with
  | Http => set_headers self (hm_insert (headers self) AUTHORIZATION v)
  | Https => set_headers self (hm_insert (headers self) PROXY_AUTHORIZATION v)
  | _ => set_headers self
           (hm_insert (hm_insert (headers self) AUTHORIZATION v) PROXY_AUTHORIZATION v)
  end.

Definition set_header (self : Proxy) (name : bytes) (value : HValue) : Proxy :=
  set_headers self (hm_insert (headers self) name value).

(** The getters. *)
Definition Proxy_intercept (self : Proxy) : Intercept := intercept self.
Definition Proxy_headers (self : Proxy) : HMap := headers self.
Definition Proxy_uri (self : Proxy) : Uri := px_uri self.

(** ** Destinations of proxies *)

Context `{BL : BytesLib, UT : !UriText}.

(** The result of a setter, as [map_err(io_err)] and [?] use it. *)
Definition setter (r : (unit + Error) * Destination) : outcome io_error Destination :=
  match r with
  | (inl _, dst) => Ok dst
  | (inr e, _) => Err (io_err (error_text e))
  end.

Definition proxy_dst (dst : Destination) (proxy : Uri) : outcome io_error Destination :=
  dst ← match scheme_part proxy with
        | Some s => setter (set_scheme dst (scheme_as_str s))
        | None => Err (io_err (b"proxy uri missing scheme: " ++ uri_text proxy))
        end;
  dst ← match uri_host proxy with
        | Some h => setter (set_host dst h)
        | None => Err (io_err (b"proxy uri missing host: " ++ uri_text proxy))
        end;
  lift (set_port dst (uri_port_u16 proxy)).
End proxy.

(** ** The connector *)

Section connector.
Context `{UL : UriLib, HDR : HeaderLib, BL : BytesLib, UT : !UriText, HY : HyperLib}.
Context {T : Type} `{BS : BufStream T, TT : TokioTls T}.

Inductive ProxyStream :=
| Regular (s : T)
| Secured (s : TlsStream).

Record ProxyConnector (C : Type) := MkProxyConnector {
  proxies : list Proxy;
  connector : C;
  tls : option NativeTlsConnector
}.
Arguments MkProxyConnector {C} proxies connector tls.
Arguments proxies {C} p.
Arguments connector {C} p.
Arguments tls {C} p.

Definition ProxyConnector_new {C} (connector : C) : outcome io_error (ProxyConnector C) :=
  tls ← result_io native_tls_build;
  Ok (MkProxyConnector [] connector (Some tls)).

Definition unsecured {C} (connector : C) : ProxyConnector C := MkProxyConnector [] connector None.

Definition add_proxy {C} (self : ProxyConnector C) (proxy : Proxy) : ProxyConnector C :=
  MkProxyConnector (proxies self ++ [proxy]) (connector self) (tls self).

Definition extend_proxies {C} (self : ProxyConnector C) (ps : list Proxy) : ProxyConnector C :=
  MkProxyConnector (proxies self ++ ps) (connector self) (tls self).

Definition from_proxy {C} (connector : C) (proxy : Proxy) : outcome io_error (ProxyConnector C) :=
  c ← ProxyConnector_new connector;
  Ok (add_proxy c proxy).

Definition from_proxy_unsecured {C} (connector : C) (proxy : Proxy) : ProxyConnector C :=
  add_proxy (unsecured connector) proxy.

Definition with_connector {C CC} (self : ProxyConnector C) (connector : CC) : ProxyConnector CC :=
  MkProxyConnector (proxies self) connector (tls self).

Definition set_tls {C} (self : ProxyConnector C) (tls : option NativeTlsConnector)
    : ProxyConnector C :=
  MkProxyConnector (proxies self) (connector self) tls.

Definition ProxyConnector_proxies {C} (self : ProxyConnector C) : list Proxy := proxies self.

(** [iter().find(p)]. *)
Fixpoint find {A} (p : A → bool) (l : list A) : option A :=
  match l with
  | [] => None
  | x :: l => if p x then Some x else find p l
  end.

Definition match_proxy {C D} `{DS : Dst D} (self : ProxyConnector C) (uri : D) : option Proxy :=
  find (λ p, matches (intercept p) uri) (proxies self).

Definition http_headers {C} (self : ProxyConnector C) (uri : Uri) : option HMap :=
  if match scheme_part uri with
     | None => true
     | Some s => negb (bool_decide (scheme_as_str s = HTTP))
     end
  then None
  else headers <$> match_proxy self uri.

(** [unwrap_or_future!]: an error is the future's result. *)
Definition unwrap_or_future {W A} (m : outcome io_error A) : io W A := io_pure m.

(** A transport of the inner connector, its error wrapped. *)
Definition wrapped {W A} (m : io W A) : io W A := λ w,
  match m w with
  | (Err e, w) => (Err (io_err (text e)), w)
  | r => r
  end.

(** Awaiting the tunnel: [fuel] for each poll, at most [polls] polls. *)
Definition tunnel_result (fuel polls : nat) (tn : Tunnel T) : outcome io_error (T * Connected) :=
  '(p, _) ← lift (tunnel_await fuel polls tn);
  match p with
  | Ready r => Ok r
  | Failed e => Err e
  | NotReady => Spin
  end.

(** The future [connect] returns, awaited. *)
Definition proxy_connect {W C} `{CN : !Connect W C T} (fuel polls : nat)
    (self : ProxyConnector C) (dst : Destination) : io W (ProxyStream * Connected) :=
  match match_proxy self dst with
  | Some p =>
      if decide (dst_scheme dst = HTTPS) then
        let host := dst_host dst in
        let port := default 443%N (dst_port dst) in
        tunnel ← io_pure (tunnel_new host port (headers p));
        proxy_dst ← unwrap_or_future (proxy_dst dst (px_uri p));
        '(io, c) ← wrapped (connect (connector self) proxy_dst);
        '(io, c) ← io_pure (tunnel_result fuel polls (with_stream tunnel io c));
        match tls self with
        | Some tls =>
            s ← io_pure (result_io (tokio_tls_connect tls host io));
            mret (Secured s, connected_proxy connected_new true)
        | None => mret (Regular io, c)
        end
      else
        proxy_dst ← unwrap_or_future (proxy_dst dst (px_uri p));
        '(s, c) ← wrapped (connect (connector self) proxy_dst);
        mret (Regular s, c)
  | None =>
      '(s, c) ← wrapped (connect (connector self) dst);
      mret (Regular s, c)
  end.

#[export] Instance proxy_connector {W C} `{CN : !Connect W C T} (fuel polls : nat)
  : Connect W (ProxyConnector C) ProxyStream := proxy_connect fuel polls.

(** The methods of a [ProxyStream], on either stream. *)
Definition match_fn {A} (self : ProxyStream) (f : T → A * T) (g : TlsStream → A * TlsStream)
    : A * ProxyStream :=
  match self with
  | Regular s => let '(a, s) := f s in (a, Regular s)
  | Secured s => let '(a, s) := g s in (a, Secured s)
  end.

#[export] Instance proxy_stream_buf `{BT : BufStream TlsStream} : BufStream ProxyStream := {|
  write_buf self bs := match_fn self (λ s, write_buf s bs) (λ s, write_buf s bs);
  read_buf self v := match_fn self (λ s, read_buf s v) (λ s, read_buf s v)
|}.

#[export] Instance proxy_stream_conn `{CT : Conn T, CS : Conn TlsStream} : Conn ProxyStream := {|
  io_read self n :=
    match self with
    | Regular s => '(bs, s) ← io_read s n; Ok (bs, Regular s)
    | Secured s => '(bs, s) ← io_read s n; Ok (bs, Secured s)
    end;
  io_write_all self bs :=
    match self with
    | Regular s => s ← io_write_all s bs; Ok (Regular s)
    | Secured s => s ← io_write_all s bs; Ok (Secured s)
    end;
  poll_read self n := match_fn self (λ s, poll_read s n) (λ s, poll_read s n)
|}.

#[export] Instance proxy_stream_prepare `{PT : !Prepare T, PS : !Prepare TlsStream}
  : Prepare ProxyStream := λ self buf,
  match self with
  | Regular s => prepare_uninitialized_buffer s buf
  | Secured s => prepare_uninitialized_buffer s buf
  end.

#[export] Instance proxy_stream_closing `{LT : Closing T, LS : Closing TlsStream}
  : Closing ProxyStream := {|
  flush self :=
    match self with
    | Regular s => s ← flush s; Ok (Regular s)
    | Secured s => s ← flush s; Ok (Secured s)
    end;
  shutdown self := match_fn self shutdown shutdown
|}.
End connector.
Arguments MkProxyConnector {UL HDR T TT C} proxies connector tls.
Arguments proxies {UL HDR T TT C} p.
Arguments connector {UL HDR T TT C} p.
Arguments tls {UL HDR T TT C} p.

(** ** Facts *)

Section proxy_facts.
Context `{UL : UriLib, LAWS : !UriLaws, HDR : HeaderLib, CL : !CredentialsLib, BL : BytesLib, UT : !UriText}.

Lemma setter_Ok r d : setter r = Ok d ↔ r = (inl tt, d).
Proof.
  destruct r as [[[]|[]] d']; cbn; split; intros; simplify_eq; done.
Qed.

Lemma uri_port_bound u n : uri_port_u16 u = Some n → (n < 65536)%N.
Proof. unfold uri_port_u16. intros (a & _ & Ha)%bind_Some. by eapply port_bound. Qed.

(** The setters before the port. *)
Lemma proxy_dst_cases dst proxy :
  match uri_host proxy with Some h => reg_host h | None => True end →
  match proxy_dst dst proxy with
  | Ok d => uri_host proxy = Some (dst_host d) ∧
      scheme_as_str <$> scheme_part proxy = Some (dst_scheme d) ∧
      dst_port d = uri_port_u16 proxy ∧
      uri_path_and_query (uri d) = uri_path_and_query (uri dst)
  | Err e => kind e = Other
  | _ => False
  end.
Proof.
  intros Hreg. unfold proxy_dst.
  destruct (scheme_part proxy) as [s|]; [|done].
  destruct (setter (set_scheme dst (scheme_as_str s))) as [d1|e|p|] eqn:E1;
    [|by destruct (set_scheme dst _) as [[[]|[]] ?]; cbn in E1; simplify_eq..].
  apply setter_Ok, set_scheme_ok in E1 as (Hs1 & Hh1 & Hp1 & Hq1). rewrite bind_Ok.
  destruct (uri_host proxy) as [h|]; [|done].
  destruct (setter (set_host d1 h)) as [d2|e|p|] eqn:E2;
    [|by destruct (set_host d1 h) as [[[]|[]] ?]; cbn in E2; simplify_eq..].
  apply setter_Ok, (set_host_ok _ _ _ Hreg) in E2 as (Ha & Hh2 & Hp2 & Hs2 & Hq2). rewrite bind_Ok.
  destruct (set_port_absolute d2 (uri_port_u16 proxy)) as (d3 & -> & _ & Hp3 & Hh3 & Hs3 & Hq3).
  - done.
  - by rewrite Hh2.
  - destruct (uri_port_u16 proxy) as [n|] eqn:En; [by eapply uri_port_bound|done].
  - cbn. split_and!; [congruence| |done|congruence].
    unfold dst_scheme in *. rewrite Hs3, Hs2, Hs1. done.
Qed.

(** C33: the destination of a proxy: making it never panics, it has the
    scheme, the host and the port of the proxy's URI, and the path of the
    destination; when the proxy's host is not an IPv6 literal. *)
Theorem proxy_dst_spec dst proxy :
  match uri_host proxy with Some h => reg_host h | None => True end →
  match proxy_dst dst proxy with
  | Ok d => uri_host proxy = Some (dst_host d) ∧
      scheme_as_str <$> scheme_part proxy = Some (dst_scheme d) ∧
      dst_port d = uri_port_u16 proxy ∧
      uri_path_and_query (uri d) = uri_path_and_query (uri dst)
  | Err e => kind e = Other
  | _ => False
  end.
Proof. apply proxy_dst_cases. Qed.

(** The credentials of a proxy: they are sent under [authorization]
    unless the proxy is for [https] only, and under [proxy-authorization]
    unless it is for [http] only, which leaves that header as it was; no other
    header changes. *)
Theorem set_authorization_spec (self : Proxy) c :
  let hs := hm_iter (headers (set_authorization self c)) in
  (intercept self ≠ Https → (AUTHORIZATION, credentials_value c) ∈ hs) ∧
  (intercept self ≠ Http → (PROXY_AUTHORIZATION, credentials_value c) ∈ hs) ∧
  (intercept self = Http → ∀ v, (PROXY_AUTHORIZATION, v) ∈ hs ↔
                                (PROXY_AUTHORIZATION, v) ∈ hm_iter (headers self)) ∧
  (∀ k v, k ≠ AUTHORIZATION → k ≠ PROXY_AUTHORIZATION →
    (k, v) ∈ hs ↔ (k, v) ∈ hm_iter (headers self)).
Proof.
  assert (AUTHORIZATION ≠ PROXY_AUTHORIZATION) as Hne by done.
  unfold set_authorization. destruct (intercept self); cbn [set_headers headers];
    split_and!; try done; intros; rewrite ?hm_iter_insert_ne by done; try done;
    apply hm_iter_insert.
Qed.
End proxy_facts.

Section connect_facts.
Context `{UL : UriLib, LAWS : !UriLaws, HDR : HeaderLib, BL : BytesLib, UT : !UriText, HY : HyperLib}.
Context {T W C : Type} `{BS : BufStream T, OB : !Observed T, TT : TokioTls T, CN : !Connect W C T}.
Implicit Types (self : ProxyConnector C).

Lemma find_first {A} (p : A → bool) l x :
  find p l = Some x ↔ ∃ l1 l2, l = l1 ++ x :: l2 ∧ p x = true ∧ Forall (λ y, p y = false) l1.
Proof.
  split.
  - induction l as [|y l IH]; cbn; [done|]. destruct (p y) eqn:Ey.
    + intros [= ->]. by exists [], l.
    + intros (l1 & l2 & -> & Hx & Hf)%IH. exists (y :: l1), l2. split_and!; [done..|by constructor].
  - intros (l1 & l2 & -> & Hx & Hf). induction Hf as [|y l1 Hy _ IH]; cbn; [by rewrite Hx|].
    by rewrite Hy.
Qed.

(** A destination goes through the first proxy, in the order they were
    added, whose intercept matches it. *)
Theorem match_proxy_first self (dst : Destination) p :
  match_proxy self dst = Some p ↔
  ∃ before after, proxies self = before ++ p :: after ∧ matches (intercept p) dst = true ∧
    Forall (λ q, matches (intercept q) dst = false) before.
Proof. exact (find_first (λ q, matches (intercept q) dst) (proxies self) p). Qed.

Lemma wrapped_Ok_inv {A} (m : io W A) w a w' : wrapped m w = (Ok a, w') → m w = (Ok a, w').
Proof. unfold wrapped. by destruct (m w) as [[]]; intros [= -> ->]. Qed.

Lemma tunnel_result_inv F n tn t c :
  tunnel_result F n tn = Ok (t, c) → ∃ tn', tunnel_await F n tn = Ok (Ready (t, c), tn').
Proof.
  unfold tunnel_result. intros H. outcome_inv. destruct x as [p tn'].
  destruct p; outcome_inv. exists tn'. by apply (lift_Ok (E := io_error)) in H.
Qed.

(** C11: an [https] destination that a proxy matches: the inner connector
    connected to the proxy, not to the destination; then exactly the CONNECT
    request for the host and port of the destination (443 if it has none) was
    written, and a reply with status 200 was read up to its empty line; only
    then, with TLS, came the handshake, for the host of the destination.  The
    connection is marked as proxied. *)
Theorem proxy_tunnels F polls self dst p w st c w' :
  match_proxy self dst = Some p → dst_scheme dst = HTTPS →
  proxy_connect F polls self dst w = (Ok (st, c), w') →
  ∃ tn pdst t c0 t',
    tunnel_new (dst_host dst) (default 443%N (dst_port dst)) (headers p) = Ok tn ∧
    proxy_dst dst (px_uri p) = Ok pdst ∧
    connect (connector self) pdst w = (Ok (t, c0), w') ∧
    (∀ d, incoming t d → written t' = written t ++ tc_buf tn ∧
      ∃ reply d', d = reply ++ d' ∧ accepted reply = true ∧ incoming t' d') ∧
    match tls self with
    | Some tls => ∃ s, tokio_tls_connect tls (dst_host dst) t' = inl s ∧ st = Secured s ∧
                       is_proxied c = true
    | None => st = Regular t' ∧ ∀ d, incoming t d → is_proxied c = true
    end.
Proof.
  intros Hm Hs Hc. unfold proxy_connect in Hc. rewrite Hm, decide_True in Hc by done.
  apply io_bind_Ok_inv in Hc as (tn & w1 & [Htn ->]%io_pure_Ok_inv & Hc).
  apply io_bind_Ok_inv in Hc as (pdst & w1 & [Hp ->]%io_pure_Ok_inv & Hc).
  apply io_bind_Ok_inv in Hc as ([t c0] & w1 & Hconn%wrapped_Ok_inv & Hc).
  apply io_bind_Ok_inv in Hc as ([t' c'] & w2 & [Htr ->]%io_pure_Ok_inv & Hc).
  apply tunnel_result_inv in Htr as [tn' Hr].
  assert (∀ d, incoming t d → verdict (written t) (tc_buf tn) d c0 (Ready (t', c'))) as Hv.
  { intros d Hi. destruct tn as [req]. eapply await_verdict; [|exact Hr].
    by apply running_with_stream. }
  assert (w' = w1) as ->.
  { destruct (tls self); [|by injection Hc].
    apply io_bind_Ok_inv in Hc as (s & w2 & [_ ->]%io_pure_Ok_inv & Hc). by injection Hc. }
  exists tn, pdst, t, c0, t'. split_and!; [done..| |].
  - intros d Hi. destruct (Hv d Hi) as (_ & ? & ?). done.
  - destruct (tls self) as [tl|].
    + apply io_bind_Ok_inv in Hc as (s & w2 & [Htls _]%io_pure_Ok_inv & Hc).
      injection Hc as <- <- _. exists s. split_and!; [|done|apply is_proxied_proxy].
      unfold result_io in Htls. by destruct (tokio_tls_connect _ _ _); simplify_eq.
    + injection Hc as <- <-. split; [done|]. intros d Hi.
      destruct (Hv d Hi) as (-> & _). apply is_proxied_proxy.
Qed.

(** Every other connection is plain: without a matching proxy it is the
    inner connector's for the destination; with one, its connection to the
    proxy, for a destination whose scheme is not [https]. *)
Theorem proxy_plain F polls self dst w t c w' :
  (match_proxy self dst = None ∨ dst_scheme dst ≠ HTTPS) →
  proxy_connect F polls self dst w = (Ok (Regular t, c), w') ↔
  ∃ d, match match_proxy self dst with
       | Some p => proxy_dst dst (px_uri p) = Ok d
       | None => d = dst
       end ∧ connect (connector self) d w = (Ok (t, c), w').
Proof.
  intros Hp. unfold proxy_connect. destruct (match_proxy self dst) as [p|].
  - destruct Hp as [|Hs]; [done|]. rewrite decide_False by done. split.
    + intros Hc. apply io_bind_Ok_inv in Hc as (d & w1 & [Hd ->]%io_pure_Ok_inv & Hc).
      apply io_bind_Ok_inv in Hc as ([t' c'] & w1 & Hconn%wrapped_Ok_inv & Hc).
      injection Hc as -> -> ->. by exists d.
    + intros (d & Hd & Hc). unfold mbind, io_bind, unwrap_or_future, io_pure, wrapped. rewrite Hd, Hc. done.
  - split.
    + intros Hc. apply io_bind_Ok_inv in Hc as ([t' c'] & w1 & Hconn%wrapped_Ok_inv & Hc).
      injection Hc as -> -> ->. by exists dst.
    + intros (d & -> & Hc). unfold mbind, io_bind, wrapped. rewrite Hc. done.
Qed.
End connect_facts.

(** ** Concrete runs *)

Module Examples.
Import Script ScriptStream.

#[local] Existing Instance Simple.lib.
#[local] Existing Instance flag_connected.
#[local] Existing Instance list_headers.
#[local] Existing Instance exact_bytes.

#[local] Instance credentials : CredentialsLib.
Proof. refine {| Credentials := bytes; credentials_value c := c : HValue |}. Defined.

#[local] Instance plain_tls : TokioTls script := {|
  NativeTlsConnector := unit;
  TlsStream := script;
  native_tls_build := inl tt;
  tokio_tls_connect _ _ t := inl t
|}.

#[local] Instance host_text : UriText := λ u, default [] (uri_host u).

(** A connector to a world whose answer is the connection to everything. *)
#[local] Instance one_connection : Connect script unit script :=
  λ _ _ w, (Ok (w, connected_new), w).

Definition proxy_url : Uri := uri (simple_dst HTTP (b"proxy") (Some 3128%N)).
Definition https_dst : Destination := simple_dst HTTPS (b"a.org") None.
Definition http_dst : Destination := simple_dst HTTP (b"b.org") None.

Definition basic : @Credentials _ credentials := b"Basic eA==".

Definition https_proxy : Proxy :=
  set_authorization (Proxy_new Https proxy_url) basic.

Definition tls_tt : @NativeTlsConnector _ plain_tls := tt.

Definition example_connector : ProxyConnector (TT:=plain_tls) unit :=
  {| proxies := [https_proxy]; connector := tt; tls := Some tls_tt |}.

Definition peer : script := Tunnel.Examples.example_proxy Tunnel.Examples.example_reply.

Lemma proxy_dst_spec_witness : is_panic (proxy_dst https_dst proxy_url) = false.
Proof.
  pose proof (proxy_dst_spec (LAWS:=Simple.laws) https_dst proxy_url) as H.
  destruct (proxy_dst https_dst proxy_url) as [d|e|p|]; try reflexivity.
  exfalso. apply H. apply (bool_decide_unpack _). vm_compute. exact I.
Defined.

Lemma set_authorization_spec_witness :
  (PROXY_AUTHORIZATION, b"Basic eA==") ∈ hm_iter (headers https_proxy).
Proof.
  apply (proj1 (proj2 (set_authorization_spec (Proxy_new Https proxy_url) basic))).
  discriminate.
Defined.

Lemma match_proxy_first_witness :
  match_proxy example_connector https_dst = Some https_proxy.
Proof.
  apply (match_proxy_first example_connector https_dst https_proxy).
  exists [], []. split_and!; [reflexivity|reflexivity|constructor].
Defined.

Lemma proxy_tunnels_witness :
  ∃ st w', proxy_connect (C:=unit) 200 10 example_connector https_dst peer =
      (Ok (Secured (TT:=plain_tls) st, true), w') ∧
    ∃ tn, tunnel_new (b"a.org") 443 (headers https_proxy) = Ok tn ∧
      written (st : script) = tc_buf tn.
Proof.
  assert (∀ A B : Prop, A → (A → B) → A ∧ B) as Hand by tauto.
  eexists _, _. apply Hand; [lazy; reflexivity|]. intros Hrun.
  destruct (proxy_tunnels 200 10 example_connector https_dst https_proxy peer _ _ _
              eq_refl eq_refl Hrun) as (tn & pdst & t & c0 & t' & Htn & _ & Hc & Hw & Ht).
  destruct Ht as (s & Hs & He & _).
  exists tn. split; [exact Htn|]. injection Hc as <- _. injection Hs as <-. injection He as ->.
  destruct (Hw Tunnel.Examples.example_reply eq_refl) as [Hwr _]. exact Hwr.
Defined.

Lemma proxy_plain_witness :
  proxy_connect (C:=unit) 0 0 example_connector http_dst peer =
    (Ok (Regular (TT:=plain_tls) peer, false), peer).
Proof.
  apply (proxy_plain (HY:=flag_connected) 0 0 example_connector http_dst peer peer false peer).
  - left. reflexivity.
  - exists http_dst. split; reflexivity.
Defined.
End Examples.
