(* ===== verification/Fmt.v ===== *)
(** * What is printed of values: [std::fmt] and the [Debug] impls

    [Formatter] has the options of a placeholder, and printing gives a text or
    [fmt::Error].  The builders of [std::fmt] the crate's impls use, padding,
    and pretty printing with its indentation, are written out; then follow the
    impls of [src/src/http/], [src/src/https/] and [src/src/proxy/mod.rs].
    What third-party types print is the class [Debug] of them. *)
From S2P Require Import Prelude RustStd Io Uri Connect Tunnel Dns Http Gai Https Proxy.

Inductive Alignment := AlignLeft | AlignRight | AlignCenter.

(** The options of a formatter; [fill] is the text of one character. *)
Record Formatter := MkFormatter {
  fill : bytes;
  align : option Alignment;
  width : option nat;
  precision : option nat;
  alternate : bool
}.

(** [{:?}] and [{:#?}]. *)
Definition PLAIN : Formatter := MkFormatter (b" ") None None None false.
Definition PRETTY : Formatter := MkFormatter (b" ") None None None true.

(** [impl Debug for A]; [None] is [fmt::Error]. *)
Class Debug (A : Type) := debug : A → Formatter → option bytes.

(** ** Builders *)

(** [Formatter::pad] of an ASCII text. *)
Definition pad (s : bytes) (f : Formatter) : option bytes :=
  let s := match precision f with Some n => take n s | None => s end in
  Some match width f with
       | None => s
       | Some w =>
           let n := w - length s in
           let '(pre, post) :=
             match align f with
             | None | Some AlignLeft => (0, n)
             | Some AlignRight => (n, 0)
             | Some AlignCenter => (n / 2, (n + 1) / 2)
             end in
           concat (replicate pre (fill f)) ++ s ++ concat (replicate post (fill f))
       end.

(** [PadAdapter]: four spaces before each line, at the start of the next one
    when [on_newline]. *)
Fixpoint indent (on_newline : bool) (l : bytes) : bytes :=
  match l with
  | [] => []
  | c :: l => (if on_newline then b"    " else []) ++ c :: indent (bool_decide (c = LF)) l
  end.

(** The fields of [debug_struct], [debug_tuple] and [debug_list], between
    [open] and [close]; each prints itself, with its name if it has one. *)
Definition sep (f : Formatter) (first : bool) (open : bytes) : bytes :=
  if alternate f then (if first then open ++ [LF] else [])
  else if first then open else b", ".

Fixpoint entries (f : Formatter) (open : bytes) (first : bool)
    (l : list (Formatter → option bytes)) : option bytes :=
  match l with
  | [] => Some []
  | e :: l =>
      v ← e f;
      rest ← entries f open false l;
      Some (sep f first open ++ (if alternate f then indent true (v ++ b"," ++ [LF]) else v) ++ rest)
  end.

Definition named {A} `{Debug A} (name : bytes) (a : A) : Formatter → option bytes := λ f,
  v ← debug a f; Some (name ++ b": " ++ v).

(** With at least one field. *)
Definition debug_struct (name : bytes) (fields : list (Formatter → option bytes)) (f : Formatter)
    : option bytes :=
  t ← entries f (if alternate f then b" {" else b" { ") true fields;
  Some (name ++ t ++ if alternate f then b"}" else b" }").

Definition debug_tuple (name : bytes) (fields : list (Formatter → option bytes)) (f : Formatter)
    : option bytes :=
  t ← entries f (b"(") true fields;
  Some (name ++ t ++ match fields with [] => [] | _ => b")" end).

#[export] Instance debug_bool : Debug bool := λ x, pad (if x then b"true" else b"false").

(** Slices and vectors: the bracket is there when no entry is. *)
#[export] Instance debug_list {A} `{Debug A} : Debug (list A) := λ l f,
  t ← entries f [] true (map debug l);
  Some (b"[" ++ t ++ b"]").

(** ** Names and resolvers: [http/dns.rs] *)

(** [impl Debug for Name]: the host's. *)
#[export] Instance debug_name `{Debug bytes} : Debug Name := λ self, debug (name_host self).

#[export] Instance debug_gai_addrs : Debug GaiAddrs := λ _, pad (b"GaiAddrs").

Section gai.
Context {W X : Type} `{OS : Oneshot W}.

#[export] Instance debug_gai_task : Debug GaiTask := λ _, pad (b"GaiTask").
#[export] Instance debug_gai_resolver : Debug (GaiResolver X) := λ _, pad (b"GaiResolver").
#[export] Instance debug_gai_future : Debug GaiFuture := λ _, pad (b"GaiFuture").
End gai.

(** ** Connectors and streams: [http/mod.rs], [https/], [proxy/mod.rs] *)

#[export] Instance debug_http_connecting {W R} `{TL : TcpLib W, RV : Resolve W R}
  : Debug (HttpConnecting (W:=W) (R:=R)) := λ _, pad (b"HttpConnecting").

Section https.
Context {T : Type} `{TLS : TlsLib T}.

#[export] Instance debug_https_connector {C} `{Debug C} : Debug (HttpsConnector C) := λ self,
  debug_struct (b"HttpsConnector")
    [named (b"force_https") (force_https self); named (b"http") (http self)].

#[export] Instance debug_tls_stream `{Debug NativeTlsStream} : Debug Https.TlsStream := λ self,
  debug (Https.inner self).

#[export] Instance debug_maybe_stream `{Debug T, Debug NativeTlsStream} : Debug MaybeHttpsStream :=
  λ self,
  match self with
  | Https.Http s => debug_tuple (b"Http") [debug s]
  | Https.Https s => debug_tuple (b"Https") [debug s]
  end.
End https.

(** [write!(f, "_")]. *)
#[export] Instance debug_custom : Debug Custom := λ _ _, Some (b"_").

(** Derived. *)
#[export] Instance debug_intercept : Debug Intercept := λ self,
  match self with
  | All => debug_tuple (b"All") []
  | Http => debug_tuple (b"Http") []
  | Https => debug_tuple (b"Https") []
  | None_ => debug_tuple (b"None") []
  | Custom_ c => debug_tuple (b"Custom") [debug c]
  end.

Section proxy.
Context `{UL : UriLib, HDR : HeaderLib, Debug HMap, Debug Uri}.

(** Derived. *)
#[export] Instance debug_proxy : Debug Proxy := λ self,
  debug_struct (b"Proxy")
    [named (b"intercept") (intercept self); named (b"headers") (headers self);
     named (b"uri") (px_uri self)].

(** [write!] prints the fields with a formatter of its own. *)
#[export] Instance debug_proxy_connector {T C} `{TT : TokioTls T, Debug C}
  : Debug (ProxyConnector (TT:=TT) C) := λ self _,
  proxies ← debug (proxies self) PLAIN;
  connector ← debug (connector self) PLAIN;
  Some (b"ProxyConnector " ++ (if Proxy.tls self is Some _ then [] else b"(unsecured)") ++
        b"{ proxies: " ++ proxies ++ b", connector: " ++ connector ++ b" }").
End proxy.

(** ** Facts *)

Lemma length_fill n (c : byte) : length (concat (replicate n [c])) = n.
Proof. induction n as [|n IH]; [done|]. cbn. by rewrite IH. Qed.

Lemma halves k : k / 2 + (k + 1) / 2 = k.
Proof.
  pose proof (Nat.div_mod_eq k 2). pose proof (Nat.div_mod_eq (k + 1) 2).
  pose proof (Nat.mod_upper_bound k 2). pose proof (Nat.mod_upper_bound (k + 1) 2). lia.
Qed.

(** A padded name is as long as asked for: cut at the precision, then filled to
    the width; as it is when neither is given. *)
Theorem pad_length s f c :
  fill f = [c] →
  ∃ t, pad s f = Some t ∧
    length t = default 0 (width f) `max` length (default s (flip take s <$> precision f)) ∧
    (width f = None → precision f = None → t = s).
Proof.
  intros Hc. unfold pad. eexists. split; [done|].
  destruct (width f) as [w|], (precision f) as [n|]; cbn -[Nat.div]; try done.
  all: split; [|done].
  all: destruct (align f) as [[]|]; rewrite !length_app, Hc, !length_fill; try lia.
  all: match goal with |- context [Nat.div (?k + 1) 2] => pose proof (halves k) end; lia.
Qed.

(** The lines of a text, each with its line end if it has one. *)
Fixpoint lines_of (cur : bytes) (l : bytes) : list bytes :=
  match l with
  | [] => match cur with [] => [] | _ => [cur] end
  | c :: l => if decide (c = LF) then (cur ++ [c]) :: lines_of [] l else lines_of (cur ++ [c]) l
  end.

Lemma indent_from cur l :
  concat (map (app (b"    ")) (lines_of cur l)) =
  match cur with [] => indent true l | _ => b"    " ++ cur ++ indent false l end.
Proof.
  revert cur. induction l as [|c l IH]; intros cur; cbn [lines_of indent].
  - destruct cur as [|x cur]; cbn [map concat]; [done|]. by rewrite !app_nil_r.
  - destruct (decide (c = LF)) as [Hc|Hc].
    + cbn [map concat]. rewrite IH, (bool_decide_true _ Hc), <-!app_assoc. by destruct cur.
    + rewrite IH, (bool_decide_false _ Hc). destruct cur as [|x cur]; cbn [app]; [done|].
      by rewrite <-!app_assoc.
Qed.

(** Pretty printing puts four spaces before each line of what is inside, and
    changes nothing else. *)
Theorem indent_lines l : indent true l = concat (map (app (b"    ")) (lines_of [] l)).
Proof. by rewrite indent_from. Qed.

(** ** The proxy connector *)

Section proxy_facts.
Context `{UL : UriLib, HDR : HeaderLib, DH : Debug HMap, DU : Debug Uri}.
Context {T C : Type} `{TT : TokioTls T, DC : Debug C}.
Implicit Types self : ProxyConnector (TT:=TT) C.

(** Its text is on one line of [write!] whatever the options, and says whether
    there is TLS. *)
Theorem proxy_connector_debug self f t :
  debug self f = Some t →
  debug self PRETTY = Some t ∧
  (Proxy.tls self = None ↔ starts_with t (b"ProxyConnector (unsecured){ ") = true).
Proof.
  intros Ht. split; [exact Ht|]. unfold debug, debug_proxy_connector in Ht.
  apply bind_Some in Ht as (ps & _ & (c & _ & Ht)%bind_Some).
  injection Ht as <-. by destruct (Proxy.tls self) as [k|].
Qed.
End proxy_facts.

(** ** Concrete runs *)

Module Examples.

#[local] Instance debug_unit : Debug unit := λ _, pad (b"()").

#[local] Instance no_tls : TlsLib unit := {|
  TlsConnector := unit;
  NativeTlsStream := unit;
  MidHandshake := unit;
  tls_connect _ _ _ := inl tt;
  tls_handshake _ := inl tt
|}.

Definition connector : HttpsConnector unit := https_from (TLS:=no_tls) tt tt.

Example debug_plain :
  debug connector PLAIN = Some (b"HttpsConnector { force_https: false, http: () }").
Proof. reflexivity. Qed.

Example debug_pretty :
  debug connector PRETTY = Some (b"HttpsConnector {" ++ [LF] ++ b"    force_https: false," ++ [LF] ++
                                 b"    http: ()," ++ [LF] ++ b"}").
Proof. reflexivity. Qed.

Example debug_padded :
  debug (MkGaiAddrs (IpAddrs_new [])) (MkFormatter (b"*") (Some AlignCenter) (Some 8) (Some 3) false) =
    Some (b"**Gai***").
Proof. reflexivity. Qed.

Example debug_intercepts :
  debug [All; Custom_ (MkCustom (λ _ _ _, true))] PLAIN = Some (b"[All, Custom(_)]").
Proof. reflexivity. Qed.
End Examples.
