(* ===== verification/Futures.v ===== *)
(** * Futures made of futures

    The connectors of [src/src/https/client.rs] and [src/src/proxy/mod.rs]
    build their futures with the combinators of [futures] 0.1; elsewhere in
    this development they are taken as awaited.  Here they are built as the
    source builds them, over a library of combinators with the documented laws
    of [poll] ([Combinators]), and polling them to the end is shown to give
    what the awaited definitions give. *)
From S2P Require Import Prelude RustStd Io Uri Connect Tunnel Net Dns Http Https Proxy Fmt.

(** What a poll of a future with items [A] and errors [E] gives. *)
Definition polls (W F A E : Type) : Type := outcome Empty_set (poll A E * F * W).

(** A poll of a future [x] that is made of another one: it waits as [k] of the
    other one does, and ends with what [g] makes of its result; what is left of
    a future that has ended does not matter. *)
Definition follows {W F X A B E E'} (r : polls W X B E') (r' : polls W F A E) (k : F → X)
    (g : A → B) (h : E → E') : Prop :=
  match r' with
  | Ok (NotReady, f, w) => r = Ok (NotReady, k f, w)
  | Ok (Ready a, _, w) => ∃ x, r = Ok (Ready (g a), x, w)
  | Ok (Failed e, _, w) => ∃ x, r = Ok (Failed (h e), x, w)
  | Panic p => r = Panic p
  | _ => True
  end.

(** Boxed futures and the combinators on them. *)
Class Combinators (W : Type) := {
  Boxed : Type → Type → Type;
  boxed_poll {A E} : Boxed A E → W → polls W (Boxed A E) A E;
  fut_box {F A E} : (F → W → polls W F A E) → F → Boxed A E;
  fut_err {A E} : E → Boxed A E;
  fut_map {A B E} : (A → B) → Boxed A E → Boxed B E;
  fut_map_err {A E E'} : (E → E') → Boxed A E → Boxed A E';
  fut_and_then {A B E} : (A → Boxed B E) → Boxed A E → Boxed B E;
  box_poll {F A E} (poll : F → W → polls W F A E) f w :
    follows (boxed_poll (fut_box poll f) w) (poll f w) (fut_box poll) id id;
  err_poll {A E} (e : E) w : ∃ x, boxed_poll (fut_err (A:=A) e) w = Ok (Failed e, x, w);
  map_poll {A B E} (g : A → B) (x : Boxed A E) w :
    follows (boxed_poll (fut_map g x) w) (boxed_poll x w) (fut_map g) g id;
  map_err_poll {A E E'} (h : E → E') (x : Boxed A E) w :
    follows (boxed_poll (fut_map_err h x) w) (boxed_poll x w) (fut_map_err h) id h;
  (* once the first future is ready, the second one is polled at once *)
  and_then_poll {A B E} (g : A → Boxed B E) (x : Boxed A E) w :
    match boxed_poll x w with
    | Ok (Ready a, _, w') => boxed_poll (fut_and_then g x) w = boxed_poll (g a) w'
    | Ok (NotReady, x', w') => boxed_poll (fut_and_then g x) w = Ok (NotReady, fut_and_then g x', w')
    | Ok (Failed e, _, w') => ∃ y, boxed_poll (fut_and_then g x) w = Ok (Failed e, y, w')
    | Panic p => boxed_poll (fut_and_then g x) w = Panic p
    | _ => True
    end
}.

(** ** Polling to the end *)

Section runs.
Context {W : Type} `{CB : Combinators W} (turn : W → W).

(** Polled until it ends, with a turn of the reactor between polls. *)
Inductive runs {A E} : Boxed A E → W → outcome E A → W → Prop :=
| runs_ready x w a x' w' : boxed_poll x w = Ok (Ready a, x', w') → runs x w (Ok a) w'
| runs_failed x w e x' w' : boxed_poll x w = Ok (Failed e, x', w') → runs x w (Err e) w'
| runs_panics x w p : boxed_poll x w = Panic p → runs x w (Panic p) w
| runs_waits x w x' w1 r w2 :
    boxed_poll x w = Ok (NotReady, x', w1) → runs x' (turn w1) r w2 → runs x w r w2.

(** Awaiting a future, for at most [n] polls. *)
Definition await_step {A E} (s : Boxed A E * W)
    : outcome Empty_set (step (Boxed A E * W) (outcome E A * W)) :=
  let '(x, w) := s in
  '(p, x, w) ← boxed_poll x w;
  match p with
  | NotReady => Ok (Continue (x, turn w))
  | Ready a => Ok (Break (Ok a, w))
  | Failed e => Ok (Break (Err e, w))
  end.

Definition await {A E} (n : nat) (x : Boxed A E) (w : W) : outcome E A * W :=
  match loop n await_step (x, w) with
  | Ok r => r
  | Err e => match (e : Empty_set) with end
  | Panic p => (Panic p, w)
  | Spin => (Spin, w)
  end.

Lemma runs_loop {A E} (x : Boxed A E) w r w' :
  runs x w r w' →
  ∃ N, ∀ n, N ≤ n →
    loop n await_step (x, w) = match r with Panic p => Panic p | _ => Ok (r, w') end.
Proof.
  induction 1 as [x w a x' w' E1|x w e x' w' E1|x w p E1|x w x' w1 r w2 E1 _ [N HN]].
  1-3: exists 1; intros [|n] Hn; [lia|]; cbn [loop await_step]; by rewrite E1.
  exists (S N). intros [|n] Hn; [lia|]. cbn [loop await_step]. rewrite E1. apply HN. lia.
Qed.

(** With enough polls awaiting it gives the same. *)
Lemma runs_await {A E} (x : Boxed A E) w r w' :
  runs x w r w' →
  ∃ N, ∀ n, N ≤ n → (await n x w).1 = r ∧ (is_panic r = false → (await n x w).2 = w').
Proof.
  intros Hr. pose proof Hr as [N HN]%runs_loop. exists N. intros n Hn. unfold await.
  rewrite (HN n Hn). by destruct r.
Qed.

(** *** Combinators *)

Lemma runs_map {A B E} (g : A → B) (x : Boxed A E) w r w' :
  runs x w r w' → runs (fut_map g x) w (g <$> r) w'.
Proof.
  induction 1 as [x w a x' w' E1|x w e x' w' E1|x w p E1|x w x' w1 r w2 E1 _ IH];
    pose proof (map_poll g x w) as Hp; rewrite E1 in Hp; cbn in Hp.
  - destruct Hp as [y Hp]. by eapply runs_ready.
  - destruct Hp as [y Hp]. by eapply runs_failed.
  - by apply runs_panics.
  - by eapply runs_waits.
Qed.

Lemma runs_map_err {A E E'} (h : E → E') (x : Boxed A E) w r w' :
  runs x w r w' → runs (fut_map_err h x) w (map_err h r) w'.
Proof.
  induction 1 as [x w a x' w' E1|x w e x' w' E1|x w p E1|x w x' w1 r w2 E1 _ IH];
    pose proof (map_err_poll h x w) as Hp; rewrite E1 in Hp; cbn in Hp.
  - destruct Hp as [y Hp]. by eapply runs_ready.
  - destruct Hp as [y Hp]. by eapply runs_failed.
  - by apply runs_panics.
  - by eapply runs_waits.
Qed.

(** The second future goes on in the poll the first one ended in. *)
Lemma runs_same_poll {A E} (x y : Boxed A E) w w1 r w2 :
  boxed_poll x w = boxed_poll y w1 → runs y w1 r w2 → is_panic r = false → runs x w r w2.
Proof.
  intros Heq Hy Hr. destruct Hy as [y w1 a y' w' E1|y w1 e y' w' E1|y w1 p E1|y w1 y' w3 r w2 E1 H1].
  - eapply runs_ready. by rewrite Heq.
  - eapply runs_failed. by rewrite Heq.
  - done.
  - eapply runs_waits; [by rewrite Heq|done].
Qed.

Lemma runs_panic_poll {A E} (x y : Boxed A E) w w1 p w2 :
  boxed_poll x w = boxed_poll y w1 → runs y w1 (Panic p) w2 → ∃ w3, runs x w (Panic p) w3.
Proof.
  intros Heq Hy. remember (Panic p) as r eqn:Hr.
  destruct Hy as [y w1 a y' w' E1|y w1 e y' w' E1|y w1 q E1|y w1 y' w3 r w2 E1 H1]; try done.
  - exists w. apply runs_panics. rewrite Heq. by rewrite E1.
  - exists w2. eapply runs_waits; [by rewrite Heq|done].
Qed.

(** A future runs as [r] and [w'] say, the reactor having turned a number of
    times more; when it panics there is no world to speak of, and nothing is
    said when the fuel of [r] ran out. *)
Definition result_runs {A E} (x : Boxed A E) (w : W) (r : outcome E A) (w' : W) : Prop :=
  match r with
  | Ok _ | Err _ => ∃ k, runs x w r (Nat.iter k turn w')
  | Panic p => ∃ w2, runs x w (Panic p) w2
  | Spin => True
  end.

Lemma result_runs_err {A E} (e : E) w : result_runs (fut_err (A:=A) e) w (Err e) w.
Proof. destruct (err_poll (A:=A) e w) as [x Hp]. exists 0. by eapply runs_failed. Qed.

Lemma result_runs_map {A B E} (g : A → B) (x : Boxed A E) w r w' :
  result_runs x w r w' → result_runs (fut_map g x) w (g <$> r) w'.
Proof.
  destruct r as [a|e|p|]; [..|done]; intros [k Hr]; exists k; exact (runs_map g _ _ _ _ Hr).
Qed.

Lemma result_runs_map_err {A E E'} (h : E → E') (x : Boxed A E) w r w' :
  result_runs x w r w' → result_runs (fut_map_err h x) w (map_err h r) w'.
Proof.
  destruct r as [a|e|p|]; [..|done]; intros [k Hr]; exists k; exact (runs_map_err h _ _ _ _ Hr).
Qed.

(** Chaining, when the second future does not look at the world. *)
Lemma runs_and_then {A B E} (g : A → Boxed B E) (r2 : A → outcome E B) (x : Boxed A E) w r w' :
  runs x w r w' → (∀ a w, result_runs (g a) w (r2 a) w) →
  result_runs (fut_and_then g x) w (r ≫= r2) w'.
Proof.
  intros Hr Hg. induction Hr as [x w a x' w' E1|x w e x' w' E1|x w p E1|x w x' w1 r w2 E1 _ IH];
    pose proof (and_then_poll g x w) as Hp; rewrite E1 in Hp.
  - rewrite bind_Ok. specialize (Hg a w').
    destruct (r2 a) as [b|e|p|]; [..|done]; destruct Hg as [k Hk].
    1, 2: exists k; by eapply runs_same_poll.
    by eapply runs_panic_poll.
  - destruct Hp as [y Hp]. exists 0. by eapply runs_failed.
  - exists w. by apply runs_panics.
  - destruct (r ≫= r2) as [b|e|p|]; [..|done]; destruct IH as [k Hk]; exists k; by eapply runs_waits.
Qed.

Lemma iter_add k j w : Nat.iter j turn (Nat.iter k turn w) = Nat.iter (j + k) turn w.
Proof. induction j as [|j IH]; [done|exact (f_equal turn IH)]. Qed.

Lemma result_runs_later {A E} (x : Boxed A E) w r k w' :
  result_runs x w r (Nat.iter k turn w') → result_runs x w r w'.
Proof.
  destruct r as [b|e|p|]; [..|done]; [intros [j Hj]; exists (j + k); by rewrite <-iter_add..|done].
Qed.

Lemma result_runs_and_then {A B E} (g : A → Boxed B E) (r2 : A → outcome E B) (x : Boxed A E) w r w' :
  result_runs x w r w' → (∀ a w, result_runs (g a) w (r2 a) w) →
  result_runs (fut_and_then g x) w (r ≫= r2) w'.
Proof.
  intros Hr Hg. destruct r as [a|e|p|]; [..|done]; destruct Hr as [k Hr];
    pose proof (runs_and_then g r2 _ _ _ _ Hr Hg) as Hx.
  - by eapply result_runs_later.
  - by eapply result_runs_later.
  - exact Hx.
Qed.

(** *** Futures that do not look at the world *)

Definition pure_poll {F A E} (q : F → outcome Empty_set (poll A E * F)) (f : F) (w : W)
    : polls W F A E := '(p, f) ← q f; Ok (p, f, w).

Fixpoint pure_await {F A E} (q : F → outcome Empty_set (poll A E * F)) (n : nat) (f : F)
    : outcome E A :=
  match n with
  | O => Spin
  | S n => '(p, f) ← lift (q f);
           match p with NotReady => pure_await q n f | Ready a => Ok a | Failed e => Err e end
  end.

Lemma pure_runs {F A E} (q : F → outcome Empty_set (poll A E * F)) n f w :
  result_runs (fut_box (pure_poll q) f) w (pure_await q n f) w.
Proof.
  revert f w. induction n as [|n IH]; intros f w; [done|]. cbn [pure_await].
  pose proof (box_poll (pure_poll q) f w) as Hp. unfold pure_poll at 2 in Hp.
  destruct (q f) as [[[|a|e] f']|[]|p|]; cbn in Hp; cbn [lift map_err mbind outcome_bind]; [..|done].
  - specialize (IH f' (turn w)).
    destruct (pure_await q n f') as [b|e|p|]; [..|done]; destruct IH as [k Hk].
    + exists (k + 1). rewrite <-iter_add. by eapply runs_waits.
    + exists (k + 1). rewrite <-iter_add. by eapply runs_waits.
    + exists k. by eapply runs_waits.
  - destruct Hp as [x Hp]. exists 0. by eapply runs_ready.
  - destruct Hp as [x Hp]. exists 0. by eapply runs_failed.
  - exists w. by apply runs_panics.
Qed.
End runs.

Lemma map_err_fmap {A B E E'} (h : E → E') (g : A → B) (m : outcome E A) :
  map_err h (g <$> m) = g <$> map_err h m.
Proof. by destruct m. Qed.

Lemma io_pure_map {W A B} (m : outcome io_error A) (g : A → B) (w : W) :
  (a ← io_pure m; mret (g a)) w = (g <$> m, w).
Proof. by destruct m. Qed.

Lemma io_bind_pure {W A B} (m : io W A) (f : A → io W B) (g : A → outcome io_error B) w :
  (∀ a w, f a w = (g a, w)) → (m ≫= f) w = ((m w).1 ≫= g, (m w).2).
Proof. intros Hf. unfold mbind, io_bind. by destruct (m w) as [[a|e|p|] w1]. Qed.

Arguments result_runs {W CB} turn {A E} x w r w'.
Arguments runs {W CB} turn {A E} x w r w'.

(** ** Connecting

    What [Connect::connect] returns: a future.  [ConnectRuns] says that polling
    it to the end is what the awaited connector does. *)
Class Connecting `{UL : UriLib, HY : HyperLib} (W C T : Type) `{CB : !Combinators W} :=
  connecting : C → Destination → Boxed (T * Connected) io_error.

Class ConnectRuns `{UL : UriLib, HY : HyperLib} {W C T : Type} `{CB : !Combinators W}
    (turn : W → W) (CN : Connect W C T) (CI : Connecting W C T) : Prop :=
  connect_runs (c : C) dst (w : W) :
    result_runs turn (connecting c dst) w (connect (T:=T) c dst w).1 (connect (T:=T) c dst w).2.

(** *** The HTTP connector *)

Section http.
Context {W R : Type} `{CB : Combinators W, TL : TcpLib W, TG : Target, RV : Resolve W R}.
Context `{UL : UriLib, HY : HyperLib, HX : !HyperExtra} (turn : W → W).

#[export] Instance http_connecting : Connecting W (HttpConnector (W:=W) (R:=R)) TcpStream :=
  λ self dst, fut_box http_poll (http_connect self dst).

Lemma http_await_runs n (x : HttpConnecting (W:=W) (R:=R)) w :
  result_runs turn (fut_box http_poll x) w (http_await turn n x w).1 (http_await turn n x w).2.
Proof.
  unfold http_await. revert x w. induction n as [|n IH]; intros x w; [done|].
  cbn [loop http_await_step]. pose proof (box_poll http_poll x w) as Hp.
  destruct (http_poll x w) as [[[p x'] w1]|[]|p|]; cbn in Hp; cbn [mbind outcome_bind]; [| |done].
  - destruct p as [|a|e].
    + specialize (IH x' (turn w1)).
      destruct (loop n _ _) as [[[b|e|p|] w2]|[]|p|]; cbn [fst snd result_runs] in *; [..|done| |done];
        destruct IH as [k Hk]; exists k; by eapply runs_waits.
    + destruct Hp as [y Hp]. exists 0. by eapply runs_ready.
    + destruct Hp as [y Hp]. exists 0. by eapply runs_failed.
  - exists w. by apply runs_panics.
Qed.

#[export] Instance http_connect_runs n : ConnectRuns turn (http_connector turn n) http_connecting.
Proof. intros self dst w. apply http_await_runs. Qed.
End http.

(** *** The HTTPS connector *)

Section https.
Context {W C T : Type} `{CB : Combinators W, TLS : TlsLib T, UL : UriLib, HY : HyperLib}.
Context `{CI : !Connecting W C T}.

(** [HttpsConnecting] is the boxed future. *)
Record HttpsConnecting := MkHttpsConnecting {
  boxed_fut : Boxed (MaybeHttpsStream * Connected) io_error
}.

Definition https_connecting_poll (self : HttpsConnecting) (w : W)
    : polls W HttpsConnecting (MaybeHttpsStream * Connected) io_error :=
  '(p, f, w) ← boxed_poll (boxed_fut self) w;
  Ok (p, MkHttpsConnecting f, w).

#[export] Instance debug_https_connecting : Debug HttpsConnecting := λ _, pad (b"HttpsConnecting").

(** What is chained to the transport: the handshake, its error wrapped. *)
Definition handshake_future (tls : TlsConnector) (host : bytes) (t : T * Connected)
    : Boxed (MaybeHttpsStream * Connected) io_error :=
  let '(tcp, connected) := t in
  let handshake := {| hs_inner := Some (tls_connect tls host tcp) |} in
  fut_map_err (IoError Other)
    (fut_map (λ conn, (Https.Https (TlsStream_new conn), connected))
       (fut_box (pure_poll handshaking_poll) handshake)).

(** [connect], as the source builds its future. *)
Definition https_connect_future (self : HttpsConnector C) (dst : Destination) : HttpsConnecting :=
  let is_https := bool_decide (dst_scheme dst = HTTPS) in
  if negb is_https && force_https self then MkHttpsConnecting (fut_err FORCED)
  else
    let host := dst_host dst in
    let connecting := connecting (http self) dst in
    MkHttpsConnecting
      (if is_https then
         fut_and_then (handshake_future (Https.tls self) host) connecting
       else fut_map (λ '(tcp, connected), (Https.Http tcp, connected)) connecting).

#[export] Instance https_connecting : Connecting W (HttpsConnector C) MaybeHttpsStream :=
  λ self dst, fut_box https_connecting_poll (https_connect_future self dst).

Lemma https_connecting_runs turn (x : HttpsConnecting) w r w' :
  result_runs turn (boxed_fut x) w r w' → result_runs turn (fut_box https_connecting_poll x) w r w'.
Proof.
  assert (∀ y w r w2, runs turn y w r w2 →
    ∃ w3, runs turn (fut_box https_connecting_poll (MkHttpsConnecting y)) w r w3 ∧
      (is_panic r = false → w3 = w2)) as H.
  { clear. intros y w r0 w2. induction 1 as [y v a y' v' E1|y v e y' v' E1|y v p E1|y v y' v1 r0 v2 E1 _ IH];
      pose proof (box_poll https_connecting_poll (MkHttpsConnecting y) v) as Hp;
      unfold https_connecting_poll at 2 in Hp; cbn [boxed_fut] in Hp; rewrite E1 in Hp; cbn in Hp.
    - destruct Hp as [z Hp]. exists v'. split; [by eapply runs_ready|done].
    - destruct Hp as [z Hp]. exists v'. split; [by eapply runs_failed|done].
    - exists v. split; [by apply runs_panics|done].
    - destruct IH as (w3 & H & Hw). exists w3. split; [by eapply runs_waits|done]. }
  destruct x as [y]. destruct r as [a|e|p|]; [..|done]; intros [k Hk];
    apply H in Hk as (w3 & Hr & Hw).
  - exists k. by rewrite <-Hw.
  - exists k. by rewrite <-Hw.
  - by exists w3.
Qed.

Lemma handshaking_await_pure n (h : Handshaking) :
  handshaking_await n h = map_err (IoError Other) (pure_await handshaking_poll n h).
Proof.
  unfold handshaking_await. revert h. induction n as [|n IH]; intros h; [done|].
  cbn [loop pure_await]. unfold handshaking_await_step at 1.
  destruct (handshaking_poll h) as [[[|s|e] h']|[]|p|]; cbn; [apply IH|done..].
Qed.

Lemma handshake_runs turn n tl host t w :
  result_runs turn (handshake_future tl host t) w
    ((λ conn, (Https.Https (TlsStream_new conn), t.2)) <$>
       handshaking_await n {| hs_inner := Some (tls_connect tl host t.1) |}) w.
Proof.
  destruct t as [tcp c]. rewrite handshaking_await_pure, <-map_err_fmap.
  apply result_runs_map_err, result_runs_map, pure_runs.
Qed.

Lemma https_future_facts `{CN : !Connect W C T} turn n :
  ConnectRuns turn CN CI → ConnectRuns turn (https_connector n) https_connecting.
Proof.
  intros HC self dst w. unfold connecting, https_connecting. apply https_connecting_runs.
  change (connect self dst w) with (https_connect n self dst w).
  unfold https_connect, https_connect_future.
  destruct (negb _ && _); [apply result_runs_err|].
  pose proof (connect_runs (ConnectRuns:=HC) (http self) dst w) as Hc.
  destruct (bool_decide _); cbn [boxed_fut].
  - rewrite (io_bind_pure _ _ (λ t, (λ conn, (Https.Https (TlsStream_new conn), t.2)) <$>
      handshaking_await n {| hs_inner := Some (tls_connect (Https.tls self) (dst_host dst) t.1) |}))
      by (intros [tcp c] w1; by rewrite io_pure_map).
    exact (result_runs_and_then turn _ _ _ _ _ _ Hc
      (handshake_runs turn n (Https.tls self) (dst_host dst))).
  - rewrite (io_bind_pure _ _ (λ t, Ok (Https.Http t.1, t.2))) by by intros [].
    apply (result_runs_map turn (λ '(tcp, connected), (Https.Http tcp, connected))) in Hc.
    by destruct (connect (http self) dst w) as [[[tcp c]|e|p|] w1].
Qed.
End https.

(** *** The proxy connector *)

(** [tokio_tls::TlsConnector::connect]: a future, with what awaiting it gives. *)
Class TlsFuture (W T : Type) `{CB : Combinators W, TT : !TokioTls T} :=
  tls_future : NativeTlsConnector → bytes → T → Boxed TlsStream bytes.

Class TlsFutureRuns {W T : Type} `{CB : Combinators W, TT : !TokioTls T}
    (turn : W → W) (TF : TlsFuture W T) : Prop :=
  tls_future_runs tls host io (w : W) :
    result_runs turn (tls_future tls host io) w
      match tokio_tls_connect tls host io with inl s => Ok s | inr e => Err e end w.

Section proxy.
Context `{UL : UriLib, HDR : HeaderLib, BL : BytesLib, UT : !UriText, HY : HyperLib}.
Context {W C T : Type} `{CB : Combinators W, BS : BufStream T, TT : TokioTls T}.
Context `{CI : !Connecting W C T, TF : !TlsFuture W T}.

(** [unwrap_or_future!]: the value, or a future that has failed. *)
Definition unwrap_or_return {A X} (m : outcome io_error A)
    (k : A → outcome io_error (Boxed X io_error)) : outcome io_error (Boxed X io_error) :=
  match m with
  | Err e => Ok (fut_err e)
  | m => m ≫= k
  end.

(** [connect], as the source builds its future; building it panics when the
    headers of the proxy cannot be printed. *)
Definition proxy_connect_future (fuel : nat) (self : ProxyConnector C) (dst : Destination)
    : outcome io_error (Boxed (ProxyStream * Connected) io_error) :=
  match match_proxy self dst with
  | Some p =>
      if decide (dst_scheme dst = HTTPS) then
        let host := dst_host dst in
        let port := default 443%N (dst_port dst) in
        tunnel ← tunnel_new host port (headers p);
        unwrap_or_return (proxy_dst dst (px_uri p)) (λ proxy_dst,
        let proxy_stream :=
          fut_and_then (λ '(io, c), fut_box (pure_poll (tunnel_poll fuel)) (with_stream tunnel io c))
            (fut_map_err (λ e, io_err (text e)) (connecting (connector self) proxy_dst)) in
        Ok match Proxy.tls self with
           | Some tls =>
               fut_map (λ s, (Secured s, connected_proxy connected_new true))
                 (fut_and_then (λ '(io, _), fut_map_err io_err (tls_future tls host io))
                    proxy_stream)
           | None => fut_map (λ '(s, c), (Regular s, c)) proxy_stream
           end)
      else
        unwrap_or_return (proxy_dst dst (px_uri p)) (λ proxy_dst,
        Ok (fut_map (λ '(s, c), (Regular s, c))
              (fut_map_err (λ e, io_err (text e)) (connecting (connector self) proxy_dst))))
  | None =>
      Ok (fut_map (λ '(s, c), (Regular s, c))
            (fut_map_err (λ e, io_err (text e)) (connecting (connector self) dst)))
  end.

Lemma tunnel_result_pure F n (tn : Tunnel T) :
  tunnel_result F n tn = pure_await (tunnel_poll F) n tn.
Proof.
  revert tn. induction n as [|n IH]; intros tn; [done|].
  unfold tunnel_result, tunnel_await. cbn [loop pure_await]. unfold Tunnel.await_step at 1.
  destruct (tunnel_poll F tn) as [[[|s|e] tn']|[]|p|]; cbn; [apply IH|done..].
Qed.

Lemma wrapped_map_err {A} (m : io W A) w :
  wrapped m w = (map_err (λ e, io_err (text e)) (m w).1, (m w).2).
Proof. unfold wrapped. by destruct (m w) as [[a|e|p|] w1]. Qed.

(** The two futures every branch is made of. *)
Lemma wrapped_runs `{CN : !Connect W C T} turn (HC : ConnectRuns turn CN CI) c dst w :
  result_runs turn (fut_map_err (λ e, io_err (text e)) (connecting c dst)) w
    (wrapped (connect (T:=T) c dst) w).1 (wrapped (connect (T:=T) c dst) w).2.
Proof. rewrite wrapped_map_err. apply result_runs_map_err, HC. Qed.

Lemma tunnel_runs turn F n tunnel (t : T * Connected) w :
  result_runs turn (let '(io, c) := t in fut_box (pure_poll (tunnel_poll F)) (with_stream tunnel io c))
    w (tunnel_result F n (with_stream tunnel t.1 t.2)) w.
Proof. destruct t as [io c]. rewrite tunnel_result_pure. apply pure_runs. Qed.

Lemma tls_runs turn (HT : TlsFutureRuns turn TF) tls host (t : T * Connected) w :
  result_runs turn (let '(io, _) := t in fut_map_err io_err (tls_future tls host io)) w
    (result_io (tokio_tls_connect tls host t.1)) w.
Proof.
  destruct t as [io c]. generalize (tls_future_runs (TlsFutureRuns:=HT) tls host io w); intros H.
  apply (result_runs_map_err turn io_err) in H. revert H.
  cbn [fst]. by destruct (tokio_tls_connect tls host io).
Qed.

Lemma plain_runs `{CN : !Connect W C T} turn (HC : ConnectRuns turn CN CI) c dst w :
  let r := ('(s, c) ← wrapped (connect (T:=T) c dst); mret (Regular s, c)) w in
  result_runs turn (fut_map (λ '(s, c), (Regular s, c))
    (fut_map_err (λ e, io_err (text e)) (connecting c dst))) w r.1 r.2.
Proof.
  cbn zeta. rewrite (io_bind_pure _ _ (λ t, Ok (Regular t.1, t.2))) by by intros [].
  pose proof (wrapped_runs turn HC c dst w) as H.
  apply (result_runs_map turn (λ '(s, c), (Regular s, c))) in H. revert H.
  by destruct (wrapped _ w) as [[[s k]|e|p|] w1].
Qed.

Lemma tunnelled_runs `{CN : !Connect W C T} turn (HC : ConnectRuns turn CN CI)
    (HT : TlsFutureRuns turn TF) F n c dst tunnel o host w :
  let through :=
    fut_and_then (λ '(io, c), fut_box (pure_poll (tunnel_poll F)) (with_stream tunnel io c))
      (fut_map_err (λ e, io_err (text e)) (connecting c dst)) in
  let r := ('(io, c) ← wrapped (connect (T:=T) c dst);
            '(io, c) ← io_pure (tunnel_result F n (with_stream tunnel io c));
            match o with
            | Some tls =>
                s ← io_pure (result_io (tokio_tls_connect tls host io));
                mret (Secured s, connected_proxy connected_new true)
            | None => mret (Regular io, c)
            end) w in
  result_runs turn
    match o with
    | Some tls =>
        fut_map (λ s, (Secured s, connected_proxy connected_new true))
          (fut_and_then (λ '(io, _), fut_map_err io_err (tls_future tls host io)) through)
    | None => fut_map (λ '(s, c), (Regular s, c)) through
    end w r.1 r.2.
Proof.
  cbn zeta.
  pose proof (result_runs_and_then turn _ _ _ _ _ _ (wrapped_runs turn HC c dst w)
    (tunnel_runs turn F n tunnel)) as H.
  destruct o as [tls|].
  - apply (result_runs_and_then turn _ _ _ _ _ _) with (2 := tls_runs turn HT tls host) in H.
    apply (result_runs_map turn (λ s, (Secured s, connected_proxy connected_new true))) in H.
    rewrite (io_bind_pure _ _ (λ t, t ← tunnel_result F n (with_stream tunnel t.1 t.2);
      s ← result_io (tokio_tls_connect tls host t.1);
      Ok (Secured s, connected_proxy connected_new true))).
    + revert H. destruct (wrapped _ w) as [[t|e|p|] w1]; cbn [fst snd mbind outcome_bind]; try done.
      by destruct (tunnel_result _ _ _) as [t'|e|p|].
    + intros [io k] w1. unfold mbind, io_bind, io_pure; cbn.
      destruct (tunnel_result _ _ _) as [[io' k']|e|p|]; [|done..]. cbn.
      by destruct (tokio_tls_connect _ _ _).
  - apply (result_runs_map turn (λ '(s, c), (Regular s, c))) in H.
    rewrite (io_bind_pure _ _ (λ t, t ← tunnel_result F n (with_stream tunnel t.1 t.2);
      Ok (Regular t.1, t.2))).
    + revert H. destruct (wrapped _ w) as [[t|e|p|] w1]; cbn [fst snd mbind outcome_bind]; try done.
      by destruct (tunnel_result _ _ _) as [[]|e|p|].
    + intros [io k] w1. unfold mbind, io_bind, io_pure; cbn.
      by destruct (tunnel_result _ _ _) as [[io' k']|e|p|].
Qed.

(** A transport of the inner connector, the tunnel over it, then TLS: the
    awaited connector does one after the other. *)
Lemma proxy_futures `{CN : !Connect W C T} turn (HC : ConnectRuns turn CN CI)
    (HT : TlsFutureRuns turn TF) F n self dst w :
  let r := proxy_connect F n self dst w in
  match proxy_connect_future F self dst with
  | Ok x => result_runs turn x w r.1 r.2
  | Err e => r.1 = Err e
  | Panic p => r.1 = Panic p
  | Spin => r.1 = Spin
  end.
Proof.
  cbn zeta. unfold proxy_connect, proxy_connect_future.
  destruct (match_proxy self dst) as [p|]; [|by apply plain_runs].
  destruct (decide _).
  - destruct (tunnel_new _ _ _) as [tunnel|e'|q|]; [|done..]. rewrite bind_Ok.
    destruct (proxy_dst _ _) as [d|e'|q|]; [|apply result_runs_err|done..].
    by apply tunnelled_runs.
  - destruct (proxy_dst _ _) as [d|e'|q|]; [|apply result_runs_err|done..].
    by apply plain_runs.
Qed.
End proxy.

(** ** The connectors' futures run as the awaited connectors *)

Section refinement.
Context `{UL : UriLib, HDR : HeaderLib, BL : BytesLib, UT : !UriText, HY : HyperLib}.
Context {W C T : Type} `{CB : Combinators W, CN : !Connect W C T, CI : !Connecting W C T}.
Context (turn : W → W).

(** C7: the future of the HTTPS connector, as its source builds it of futures:
    polled to its end, with a turn of the reactor after every poll that is not
    ready, it gives the result of [https_connect], which the other theorems
    are about, and leaves its world but for turns of the reactor; when the
    future of the connector inside does. *)
Theorem https_future_refines `{TLS : TlsLib T} n (self : HttpsConnector C) dst w :
  ConnectRuns turn CN CI →
  let r := https_connect n self dst w in
  result_runs turn (fut_box https_connecting_poll (https_connect_future self dst)) w r.1 r.2.
Proof. intros HC. exact (https_future_facts turn n HC self dst w). Qed.

(** C8: the future of the proxy connector, as its source builds it: what
    stops the building stops [proxy_connect] the same way, and the future,
    polled to its end, gives the result of [proxy_connect] and leaves its
    world but for turns of the reactor; when the future of the connector
    inside and the one of TLS do as they are awaited. *)
Theorem proxy_future_refines `{BS : BufStream T, TT : TokioTls T, TF : !TlsFuture W T}
    F n (self : ProxyConnector C) dst w :
  ConnectRuns turn CN CI → TlsFutureRuns turn TF →
  let r := proxy_connect F n self dst w in
  match proxy_connect_future F self dst with
  | Ok x => result_runs turn x w r.1 r.2
  | Err e => r.1 = Err e
  | Panic p => r.1 = Panic p
  | Spin => r.1 = Spin
  end.
Proof. intros HC HT. exact (proxy_futures turn HC HT F n self dst w). Qed.
End refinement.

(** ** Concrete runs

    Boxed futures by their behaviour: what a poll gives, by the worlds of the
    polls before it and its own. *)
Module Examples.

Section behaviour.
Context {W : Type}.

Definition behaviour (A E : Type) : Type := list W → W → outcome Empty_set (poll A E * W).

Definition next {A E} (x : behaviour A E) (w : W) : behaviour A E := λ h, x (w :: h).

Definition behaviour_poll {A E} (x : behaviour A E) (w : W) : polls W (behaviour A E) A E :=
  '(p, w') ← x [] w; Ok (p, next x w, w').

Fixpoint box {F A E} (q : F → W → polls W F A E) (f : F) (h : list W) (w : W)
    : outcome Empty_set (poll A E * W) :=
  match h with
  | [] => '(p, _, w) ← q f w; Ok (p, w)
  | w0 :: h => '(_, f, _) ← q f w0; box q f h w
  end.

Definition changed {A B E E'} (g : A → B) (k : E → E') (x : behaviour A E) : behaviour B E' :=
  λ h w,
    '(p, w) ← x h w;
    Ok (match p with NotReady => NotReady | Ready a => Ready (g a) | Failed e => Failed (k e) end, w).

Fixpoint chain {A B E} (g : A → behaviour B E) (x : behaviour A E) (h : list W) (w : W)
    : outcome Empty_set (poll B E * W) :=
  match h with
  | [] =>
      '(p, w) ← x [] w;
      match p with
      | Ready a => g a [] w
      | NotReady => Ok (NotReady, w)
      | Failed e => Ok (Failed e, w)
      end
  | w0 :: h =>
      '(p, w1) ← x [] w0;
      match p with
      | Ready a => g a (w1 :: h) w
      | _ => chain g (next x w0) h w
      end
  end.

#[export] Instance behaviours : Combinators W.
Proof.
  refine {|
    Boxed := behaviour;
    boxed_poll _ _ := behaviour_poll;
    fut_box _ _ _ := box;
    fut_err _ _ e := λ _ w, Ok (Failed e, w);
    fut_map _ _ _ g := changed g id;
    fut_map_err _ _ _ := changed id;
    fut_and_then _ _ _ := chain
  |}.
  - intros F A E q f w. unfold follows, behaviour_poll, next. cbn.
    destruct (q f w) as [[[[|a|e] f'] w']|[]|p|]; [done|by eexists..|done|done].
  - intros A E e w. by eexists.
  - intros A B E g x w. unfold follows, behaviour_poll, changed. cbn.
    destruct (x [] w) as [[[|a|e] w']|[]|p|]; [done|by eexists..|done|done].
  - intros A E E' k x w. unfold follows, behaviour_poll, changed. cbn.
    destruct (x [] w) as [[[|a|e] w']|[]|p|]; [done|by eexists..|done|done].
  - intros A B E g x w. unfold behaviour_poll, next. cbn.
    destruct (x [] w) as [[[|a|e] w']|[]|p|]; cbn; [done|done|by eexists|done|done].
Defined.
End behaviour.

(** *** TLS over TCP

    The handshake blocks twice. *)
#[local] Existing Instance Simple.lib.
#[local] Existing Instance Http.Examples.net.
#[local] Existing Instance Http.Examples.zone_resolver.
#[local] Existing Instance Http.Examples.not_windows.
#[local] Existing Instance Http.Examples.info_connected.
#[local] Existing Instance Http.Examples.info_extra.

#[local] Instance slow_tls : TlsLib (@TcpStream _ Http.Examples.net) := {|
  TlsConnector := unit;
  NativeTlsStream := @TcpStream _ Http.Examples.net;
  MidHandshake := bool * @TcpStream _ Http.Examples.net;
  tls_connect _ _ t := inr (WouldBlock (false, t));
  tls_handshake m := if m.1 then inl m.2 else inr (WouldBlock (true, m.2))
|}.

Definition tls_tt : @TlsConnector _ slow_tls := tt.

Definition stack : HttpsConnector (HttpConnector (TL:=Http.Examples.net) (R:=unit)) :=
  https_from (TLS:=slow_tls) (enforce_http Http.Examples.connector false) tls_tt.

Definition site : Http.Examples.network := Http.Examples.Network [SockV4 Http.Examples.a4 443].

Definition protected : @Https.TlsStream _ slow_tls :=
  MkTlsStream (TLS:=slow_tls) (SockV4 Http.Examples.a4 443 : @TcpStream _ Http.Examples.net).

Lemma https_future_refines_witness :
  ∃ c w', runs (λ w, w) (fut_box https_connecting_poll
      (https_connect_future stack (simple_dst HTTPS (b"a.org") None))) site
    (Ok (Https.Https protected, c)) w'.
Proof.
  pose proof (https_future_refines (CN:=http_connector (λ w, w) 5) (λ w, w) 3 stack
    (simple_dst HTTPS (b"a.org") None) site (http_connect_runs (λ w, w) 5)) as H.
  cbn zeta in H.
  set (r := https_connect _ _ _ _) in H.
  assert (∃ c, r.1 = Ok (Https.Https protected, c)) as [c Hr] by (eexists; vm_compute; reflexivity).
  rewrite Hr in H. destruct H as [k Hk]. exists c. eexists. exact Hk.
Defined.

(** *** A proxy

    The connection to everything is the world; it is there after one poll. *)
Module Proxied.
Import Script ScriptStream.

#[local] Existing Instance flag_connected.
#[local] Existing Instance list_headers.
#[local] Existing Instance exact_bytes.
#[local] Existing Instance Proxy.Examples.plain_tls.
#[local] Existing Instance Proxy.Examples.host_text.
#[local] Existing Instance Proxy.Examples.one_connection.

#[local] Instance one_connecting : Connecting script unit script := λ _ _,
  fut_box (λ (asked : bool) w,
    Ok (if asked then Ready (w, connected_new) else NotReady, true, w)) false.

#[local] Instance one_runs : ConnectRuns (T:=script) (λ w, w) _ one_connecting.
Proof.
  intros c dst w. exists 0. eapply runs_waits; [reflexivity|]. by eapply runs_ready.
Defined.

#[local] Instance plain_future : TlsFuture script script := λ tls host io,
  fut_box (λ (f : unit) w, Ok (Ready (io : TlsStream), f, w)) tt.

#[local] Instance plain_future_runs : TlsFutureRuns (λ w, w) plain_future.
Proof. intros tls host io w. exists 0. by eapply runs_ready. Defined.

Lemma proxy_future_refines_witness :
  ∃ x st w', proxy_connect_future (C:=unit) 200 Proxy.Examples.example_connector
      Proxy.Examples.https_dst = Ok x ∧
    runs (λ w, w) x Proxy.Examples.peer (Ok (Secured (TT:=Proxy.Examples.plain_tls) st, true)) w'.
Proof.
  pose proof (proxy_future_refines (C:=unit) (λ w, w) 200 10 Proxy.Examples.example_connector
    Proxy.Examples.https_dst Proxy.Examples.peer one_runs plain_future_runs) as H.
  cbn zeta in H. set (r := proxy_connect _ _ _ _ _) in H.
  assert (∃ st, r.1 = Ok (Secured (TT:=Proxy.Examples.plain_tls) st, true)) as [st Hr]
    by (eexists; lazy; reflexivity).
  rewrite Hr in H.
  destruct (proxy_connect_future _ _ _) as [x|e|p|] eqn:Hx; [|discriminate H..].
  destruct H as [k Hk]. exists x, st. eexists. split; [reflexivity|exact Hk].
Defined.
End Proxied.
End Examples.
