(* ===== verification/Parked.v ===== *)
(** * Streams and wake-ups

    [Wakeups] for what runs on a connection: the body stream, the handshake
    and the tunnel ([src/src/body.rs], [src/src/https/client.rs],
    [src/src/proxy/tunnel.rs]).  A stream says of itself whether it will wake
    the task when there is something to read, or room to write ([ReadWaits],
    [BufWaits]); the streams of the TLS and the proxy connectors do when the
    one inside does. *)
From S2P Require Import Prelude RustStd Io Body Connect Tunnel Https Proxy.

(** A future that is not ready is parked, on something that wakes the task; and
    while it is, polling it is not ready: a task that is polled only when it is
    woken misses nothing. *)
Definition no_lost_wakeup {F A E} (q : F → outcome Empty_set (poll A E * F)) (parked : F → Prop)
    : Prop :=
  (∀ f f', q f = Ok (NotReady, f') → parked f') ∧
  (∀ f, parked f → ∃ f', q f = Ok (NotReady, f')).

(** ** Streams

    A read or a write that is not ready has the stream wake the task, and it is
    not ready again until then. *)
Class ReadWaits (T : Type) `{CT : Conn T} := {
  awaits : T → Prop;
  poll_read_awaits t n t' : poll_read t n = (NotReady, t') → awaits t';
  awaits_poll_read t n : awaits t → ∃ t', poll_read t n = (NotReady, t')
}.

Class BufWaits (T : Type) `{BT : BufStream T} := {
  awaits_room : T → Prop;
  awaits_data : T → Prop;
  write_buf_awaits t bs t' : write_buf t bs = (NotReady, t') → awaits_room t';
  awaits_write_buf t bs : awaits_room t → ∃ t', write_buf t bs = (NotReady, t');
  read_buf_awaits t v t' : read_buf t v = (NotReady, t') → awaits_data t';
  awaits_read_buf t v : awaits_data t → ∃ t', read_buf t v = (NotReady, t')
}.

(** A handshake that would block waits for the stream it is over. *)
Class HandshakeWaits (T : Type) `{TLS : TlsLib T} := {
  awaits_peer : MidHandshake → Prop;
  handshake_awaits m m' : tls_handshake m = inr (WouldBlock m') → awaits_peer m';
  awaits_handshake m : awaits_peer m → ∃ m', tls_handshake m = inr (WouldBlock m')
}.

(** *** The streams of the connectors *)

Section maybe.
Context {T : Type} `{TLS : TlsLib T}.

#[export] Instance maybe_read_waits
    `{CT : Conn T, CN : Conn NativeTlsStream, WT : !ReadWaits T, WN : !ReadWaits NativeTlsStream}
  : ReadWaits MaybeHttpsStream.
Proof.
  refine {| awaits s := match s with Https.Http s => awaits s | Https.Https s => awaits (inner s) end |}.
  - intros [t|[t]] n t' Hp; cbn in Hp;
      destruct (poll_read t n) as [p s] eqn:E; injection Hp as -> <-; by eapply poll_read_awaits.
  - intros [t|[t]] n Ha; cbn in *; destruct (awaits_poll_read t n Ha) as [s ->]; eauto.
Defined.

#[export] Instance maybe_buf_waits
    `{BT : BufStream T, BN : BufStream NativeTlsStream, WT : !BufWaits T, WN : !BufWaits NativeTlsStream}
  : BufWaits MaybeHttpsStream.
Proof.
  refine {|
    awaits_room s := match s with Https.Http s => awaits_room s | Https.Https s => awaits_room (inner s) end;
    awaits_data s := match s with Https.Http s => awaits_data s | Https.Https s => awaits_data (inner s) end
  |}.
  - intros [t|[t]] bs t' Hp; cbn in Hp;
      destruct (write_buf t bs) as [p s] eqn:E; injection Hp as -> <-; by eapply write_buf_awaits.
  - intros [t|[t]] bs Ha; cbn in *; destruct (awaits_write_buf t bs Ha) as [s ->]; eauto.
  - intros [t|[t]] v t' Hp; cbn in Hp;
      destruct (read_buf t v) as [p s] eqn:E; injection Hp as -> <-; by eapply read_buf_awaits.
  - intros [t|[t]] v Ha; cbn in *; destruct (awaits_read_buf t v Ha) as [s ->]; eauto.
Defined.
End maybe.

Section proxied.
Context `{UL : UriLib, HDR : HeaderLib}.
Context {T : Type} `{TT : TokioTls T}.

#[export] Instance proxy_read_waits
    `{CT : Conn T, CN : Conn TlsStream, WT : !ReadWaits T, WN : !ReadWaits TlsStream}
  : ReadWaits ProxyStream.
Proof.
  refine {| awaits s := match s with Regular s => awaits s | Secured s => awaits s end |}.
  - intros [t|t] n t' Hp; cbn in Hp;
      destruct (poll_read t n) as [p s] eqn:E; injection Hp as -> <-; by eapply poll_read_awaits.
  - intros [t|t] n Ha; cbn in *; destruct (awaits_poll_read t n Ha) as [s ->]; eauto.
Defined.

#[export] Instance proxy_buf_waits
    `{BT : BufStream T, BN : BufStream TlsStream, WT : !BufWaits T, WN : !BufWaits TlsStream}
  : BufWaits ProxyStream.
Proof.
  refine {|
    awaits_room s := match s with Regular s => awaits_room s | Secured s => awaits_room s end;
    awaits_data s := match s with Regular s => awaits_data s | Secured s => awaits_data s end
  |}.
  - intros [t|t] bs t' Hp; cbn in Hp;
      destruct (write_buf t bs) as [p s] eqn:E; injection Hp as -> <-; by eapply write_buf_awaits.
  - intros [t|t] bs Ha; cbn in *; destruct (awaits_write_buf t bs Ha) as [s ->]; eauto.
  - intros [t|t] v t' Hp; cbn in Hp;
      destruct (read_buf t v) as [p s] eqn:E; injection Hp as -> <-; by eapply read_buf_awaits.
  - intros [t|t] v Ha; cbn in *; destruct (awaits_read_buf t v Ha) as [s ->]; eauto.
Defined.
End proxied.

(** ** Bodies *)

Section body.
Context {T : Type} `{BP : Build, CT : Conn T, RW : !ReadWaits T}.

Definition body_parked (b : Body T) : Prop :=
  drained b = false ∧ rest b = None ∧ ∃ t, reader b = FromConn t ∧ awaits t.

Lemma poll_next_wakes : no_lost_wakeup poll_next body_parked.
Proof.
  split; intros [d r bu k cl rd]; unfold poll_next; cbn [drained rest buf counter content_length reader].
  - intros b' Hp. destruct d; [done|]. destruct r as [vec|]; [done|].
    destruct (reader_poll_read rd _) as [p rd'] eqn:E. destruct p as [|bs|e]; [|exfalso|done].
    + injection Hp as <-. destruct rd as [l|t]; cbn in E; [done|].
      destruct (poll_read t _) as [p t'] eqn:Ep. injection E as -> <-.
      split_and!; [done..|]. exists t'. split; [done|by eapply poll_read_awaits].
    + destruct (usize_add _ _) as [k'| | |]; [|done..]. cbn in Hp.
      destruct (chunk_len _ _ _) as [n| | |]; [|done..]. cbn in Hp.
      destruct (0 <? n)%N; [|done]. by destruct (slice_range _ _ _).
  - intros (Hd & Hr & t & Ht & Ha). cbn in Hd, Hr, Ht. subst.
    destruct (awaits_poll_read t (length bu) Ha) as [t' E]. cbn. rewrite E. eauto.
Qed.
End body.

(** ** Handshakes *)

Section handshake.
Context {T : Type} `{TLS : TlsLib T, HW : !HandshakeWaits T}.

Definition handshake_parked (h : Handshaking) : Prop :=
  ∃ m, hs_inner h = Some (inr (WouldBlock m)) ∧ awaits_peer m.

Lemma handshaking_wakes : no_lost_wakeup handshaking_poll handshake_parked.
Proof.
  split; intros [[[s|[e|m]]|]]; unfold handshaking_poll; cbn.
  1, 2, 4: done.
  2, 3, 5: by intros (m' & [=] & _).
  - intros h. destruct (tls_handshake m) as [s|[e|m']] eqn:E; [done..|]. intros [= <-].
    exists m'. split; [done|by eapply handshake_awaits].
  - intros (m0 & [= <-] & Ha). destruct (awaits_handshake m Ha) as [m' ->]. eauto.
Qed.
End handshake.

(** ** Tunnels *)

Section tunnel.
Context {T : Type} `{HY : HyperLib, BT : BufStream T, BW : !BufWaits T}.

Definition tunnel_parked (tn : Tunnel T) : Prop :=
  is_Some (tn_connected tn) ∧ ∃ t, tn_stream tn = Some t ∧
    match tn_state tn with Writing => awaits_room t | Reading => awaits_data t end.

Lemma tunnel_step_wakes tn :
  is_Some (tn_connected tn) →
  match tunnel_step tn with
  | Ok (Continue tn') => is_Some (tn_connected tn')
  | Ok (Break (NotReady, tn')) => tunnel_parked tn'
  | _ => True
  end.
Proof.
  intros Hc. unfold tunnel_step. destruct (tn_stream tn) as [t|]; [|done].
  cbn [unwrap mbind outcome_bind]. destruct (tn_state tn) eqn:Es.
  - destruct (write_buf t _) as [p t'] eqn:E. destruct p as [|n|e]; [| |done].
    + split; [done|]. exists t'. cbn [set_stream tn_stream tn_state]. rewrite Es.
      split; [done|by eapply write_buf_awaits].
    + repeat case_decide; done.
  - destruct (read_buf t _) as [p t'] eqn:E. destruct p as [|bs|e]; [| |done].
    + split; [done|]. exists t'. cbn [set_stream tn_stream tn_state]. rewrite Es.
      split; [done|by eapply read_buf_awaits].
    + destruct Hc as [c Hc]. cbn [set_stream tn_stream tn_connected]. rewrite Hc.
      repeat case_decide; try done.
      destruct (_ || _); [|done]. by destruct (ends_with _ _).
Qed.

Lemma tunnel_wakes fuel : no_lost_wakeup (tunnel_poll (S fuel)) tunnel_parked.
Proof.
  split; intros tn; unfold tunnel_poll.
  - intros tn' Hp. destruct (tn_stream tn); [|done].
    destruct (tn_connected tn) as [c|] eqn:Hc; [|done].
    assert (match (NotReady : poll (T * Connected) io_error, tn') with
            | (NotReady, tn) => tunnel_parked tn | _ => True end) as H; [|exact H].
    refine (loop_Ok tunnel_step (λ tn, is_Some (tn_connected tn))
      (λ r, match r with (NotReady, tn) => tunnel_parked tn | _ => True end) _ _ _ tn _ _ Hp);
      [..|by rewrite Hc].
    + intros s s' Hs Hst. pose proof (tunnel_step_wakes s Hs) as H. by rewrite Hst in H.
    + intros s [[] s'] Hs Hst; [|done..]. pose proof (tunnel_step_wakes s Hs) as H. by rewrite Hst in H.
  - intros ([c Hc] & t & Ht & Ha). rewrite Ht, Hc. cbn [loop]. unfold tunnel_step. rewrite Ht. cbn.
    destruct (tn_state tn).
    + destruct (awaits_write_buf t (drop (tn_pos tn) (tn_buf tn)) Ha) as [t' ->]. cbn. eauto.
    + destruct (awaits_read_buf t (tn_buf tn) Ha) as [t' ->]. cbn. eauto.
Qed.
End tunnel.

(** ** A connection *)

Section connection.
Context `{BP : Build, HY : HyperLib, UL : UriLib, HDR : HeaderLib}.
Context {T : Type} `{CT : Conn T, BT : BufStream T, RW : !ReadWaits T, BW : !BufWaits T}.
Context `{TLS : TlsLib T, CN : Conn NativeTlsStream, RN : !ReadWaits NativeTlsStream}.
Context `{HW : !HandshakeWaits T}.

(** C9: on a connection whose reads and writes wake the task when they are not
    ready, so do the tunnel over it, the handshake over it, and the body read
    from it or from the TLS stream over it: when a poll of one is not ready,
    what it waits for will wake the task, and until it does polling again is
    not ready. *)
Theorem streams_no_lost_wakeup fuel :
  no_lost_wakeup (tunnel_poll (S:=T) (S fuel)) tunnel_parked ∧
  no_lost_wakeup handshaking_poll handshake_parked ∧
  no_lost_wakeup (poll_next (T:=MaybeHttpsStream)) body_parked.
Proof. auto using tunnel_wakes, handshaking_wakes, poll_next_wakes. Qed.
End connection.

(** ** A concrete run

    A peer that has sent nothing yet, or all it will send. *)
Module Examples.

Definition quiet : Type := option bytes.

Definition take_ready {A} (t : quiet) (f : bytes → A * bytes) : poll A io_error * quiet :=
  match t with
  | Some bs => let '(a, bs) := f bs in (Ready a, Some bs)
  | None => (NotReady, None)
  end.

#[local] Instance quiet_conn : Conn quiet := {|
  io_read t n := match t with Some bs => Ok (take n bs, Some (drop n bs)) | None => Spin end;
  io_write_all t bs := Ok t;
  poll_read t n := take_ready t (λ bs, (take n bs, drop n bs))
|}.

#[local] Instance quiet_buf : BufStream quiet := {|
  write_buf t bs := take_ready t (λ d, (length bs, d));
  read_buf t v := take_ready t (λ d, (d, []))
|}.

#[local] Instance quiet_tls : TlsLib quiet := {|
  TlsConnector := unit;
  NativeTlsStream := quiet;
  MidHandshake := quiet;
  tls_connect _ _ t := inr (WouldBlock t);
  tls_handshake m := match m with Some _ => inl m | None => inr (WouldBlock m) end
|}.

Lemma take_ready_NotReady {A} t (f : bytes → A * bytes) t' :
  take_ready t f = (NotReady, t') → t' = None.
Proof. destruct t as [bs|]; cbn; [by destruct (f bs)|by intros [= <-]]. Qed.

#[local] Instance quiet_read_waits : ReadWaits quiet.
Proof.
  refine {| awaits t := t = None |}.
  - intros t n t'. apply take_ready_NotReady.
  - intros t n ->. by exists None.
Defined.

#[local] Instance quiet_buf_waits : BufWaits quiet.
Proof.
  refine {| awaits_room t := t = None; awaits_data t := t = None |};
    intros *; try (by apply take_ready_NotReady); intros ->; by exists None.
Defined.

#[local] Instance quiet_handshake_waits : HandshakeWaits quiet.
Proof.
  refine {| awaits_peer m := m = None |}.
  - intros [bs|] m'; [done|]. by intros [= <-].
  - intros m ->. by exists None.
Defined.

#[local] Existing Instance flag_connected.

Definition waiting_body : Body (@MaybeHttpsStream quiet quiet_tls) :=
  Body_new [] (Https.Https (MkTlsStream (TLS:=quiet_tls) (None : quiet))) None None.

Definition waiting_tunnel : Tunnel quiet :=
  with_stream {| tc_buf := Tunnel.Examples.example_req |} None false.

(** The tunnel with its request to write, the handshake and the body read from
    the protected stream, all with a silent peer. *)
Lemma streams_no_lost_wakeup_witness :
  (∃ tn, tunnel_poll (S:=quiet) 1 waiting_tunnel = Ok (NotReady, tn) ∧ tunnel_parked tn) ∧
  handshake_parked (MkHandshaking (TLS:=quiet_tls) (Some (inr (WouldBlock (None : quiet))))) ∧
  ∃ b, poll_next (T:=@MaybeHttpsStream quiet quiet_tls) (H:=false) waiting_body = Ok (NotReady, b) ∧
    body_parked b.
Proof.
  destruct (streams_no_lost_wakeup (T:=quiet) (BP:=false) (HY:=flag_connected) 0) as (Ht & Hh & Hb).
  split_and!.
  - eexists. split; [reflexivity|]. apply (proj1 Ht waiting_tunnel). reflexivity.
  - apply (proj1 Hh (MkHandshaking (TLS:=quiet_tls) (Some (inr (WouldBlock (None : quiet)))))).
    reflexivity.
  - eexists. split; [reflexivity|]. apply (proj1 Hb waiting_body). reflexivity.
Defined.
End Examples.
