(* ===== verification/Compose.v ===== *)
(** * The parts put together

    What the client does over the connectors of the crate: through the wrappers
    that the TLS and the proxy connector put around a stream it behaves as over
    the stream itself. *)
From S2P Require Import Prelude RustStd Utf8 Httparse Io Uri Response Request Body Connect Client Relate.
From S2P Require Import Tunnel Net Dns Http Eyeballs Https Proxy.

(** ** The wrappers are simulations *)

Section wrappers.
Context {T : Type} `{TLS : TlsLib T, CT : Conn T, CN : Conn NativeTlsStream}.

Definition is_plain (t : T) (m : MaybeHttpsStream) : Prop := m = Https.Http t.
Definition is_secure (t : NativeTlsStream) (m : MaybeHttpsStream) : Prop :=
  m = Https.Https (MkTlsStream t).

#[export] Instance plain_sim : ConnSim is_plain.
Proof.
  split.
  - intros t ? n ->. cbn. by destruct (io_read t n) as [[]| | |].
  - intros t ? bs ->. cbn. by destruct (io_write_all t bs).
  - intros t ? n ->. cbn. by destruct (poll_read t n).
Qed.

#[export] Instance secure_sim : ConnSim is_secure.
Proof.
  split.
  - intros t ? n ->. cbn. by destruct (io_read t n) as [[]| | |].
  - intros t ? bs ->. cbn. by destruct (io_write_all t bs).
  - intros t ? n ->. cbn. by destruct (poll_read t n).
Qed.
End wrappers.

Section proxy_wrappers.
Context {T : Type} `{TT : TokioTls T, CT : Conn T, CS : Conn Proxy.TlsStream}.

Definition is_regular (t : T) (m : ProxyStream) : Prop := m = Regular t.

#[export] Instance regular_sim : ConnSim is_regular.
Proof.
  split.
  - intros t ? n ->. cbn. by destruct (io_read t n) as [[]| | |].
  - intros t ? bs ->. cbn. by destruct (io_write_all t bs).
  - intros t ? n ->. cbn. by destruct (poll_read t n).
Qed.
End proxy_wrappers.

(** ** The client over TLS and over proxies *)

Section https_client.
Context `{BP : Build, LC : Lowercase, HL : HttpLib, UL : UriLib, HY : HyperLib, SL : StatusLib}.
Context {T W C B : Type} `{TLS : TlsLib T, CT : Conn T, CS : Conn NativeTlsStream}.
Context `{CN : !Connect W C T, RS : ReqStream B}.
Implicit Types (self : HttpsConnector C) (req : Request B).

Lemma https_connect_plain polls self dst w :
  dst_scheme dst ≠ HTTPS → force_https self = false →
  io_rel (λ x y, is_plain x.1 y.1) (connect (http self) dst w) (https_connect polls self dst w).
Proof.
  intros Hs Hf. unfold https_connect. rewrite bool_decide_false, Hf by done. cbn [negb andb].
  unfold mbind, io_bind. by destruct (connect (http self) dst w) as [[[tcp c]|e|p|] w1].
Qed.

(** C16: the client cannot tell the HTTPS connector from what is below it.  For
    a URL that is not [https] a request runs as over the inner connector, or,
    when [https] is forced, fails at once without connecting; for an [https]
    URL it runs as an exchange over the protected stream the
    handshake gives, with enough polls of the handshake: the same result or
    error, the same effect, the same status and headers, and bodies that
    every consumer reads alike. *)
Theorem https_client_transparent fuel uninit uninit' self req w :
  let dst := MkDestination (rq_uri req) in
  let over polls := request (CN:=https_connector polls) fuel uninit uninit' (MkClient self) req w in
  (dst_scheme dst ≠ HTTPS → ∀ polls,
     if force_https self then over polls = (Err FORCED, w)
     else io_rel (response_sim is_plain)
            (request fuel uninit uninit' (MkClient (http self)) req w) (over polls)) ∧
  (∀ tcp c w' s, dst_scheme dst = HTTPS →
     connect (http self) dst w = (Ok (tcp, c), w') →
     handshakes (tls_connect (Https.tls self) (dst_host dst) tcp) s →
     ∃ n, ∀ polls, n ≤ polls →
       io_rel (response_sim is_secure) (exchange fuel uninit uninit' s req, w') (over polls)).
Proof.
  intros dst over. split.
  - intros Hs polls. destruct (force_https self) eqn:Hf.
    + unfold over, request. cbn [Client.inner].
      change (connect self (MkDestination (rq_uri req)) w) with (https_connect polls self dst w).
      unfold https_connect. by rewrite bool_decide_false, Hf by done.
    + apply (request_sim is_plain). by apply https_connect_plain.
  - intros tcp c w' s Hs Hc Hh.
    destruct (https_handshake_completes self dst w tcp c w' s Hs Hc Hh) as [n Hn].
    exists n. intros polls Hle. unfold over, request. cbn [Client.inner].
    change (connect self (MkDestination (rq_uri req)) w) with (https_connect polls self dst w).
    rewrite (Hn polls Hle), bind_Ok. split; [|done]. by apply exchange_sim; [apply _|].
Qed.
End https_client.

Section proxy_client.
Context `{BP : Build, LC : Lowercase, HL : HttpLib, UL : UriLib, HY : HyperLib, SL : StatusLib}.
Context `{HDR : HeaderLib, BL : BytesLib, UT : !UriText}.
Context {T W C B : Type} `{BS : BufStream T, OB : !Observed T, TT : TokioTls T}.
Context `{CT : Conn T, CS : Conn Proxy.TlsStream, CN : !Connect W C T, RS : ReqStream B}.
Implicit Types (self : ProxyConnector C) (req : Request B).

(** Without a matching proxy: the stream of the inner connector, wrapped,
    or its error, wrapped. *)
Lemma proxy_connect_none fuel polls self dst w :
  match_proxy self dst = None →
  proxy_connect fuel polls self dst w =
    match connect (connector self) dst w with
    | (Ok (t, c), w) => (Ok (Regular t, c), w)
    | (Err e, w) => (Err (io_err (text e)), w)
    | (Panic p, w) => (Panic p, w)
    | (Spin, w) => (Spin, w)
    end.
Proof.
  intros Hm. unfold proxy_connect. rewrite Hm. unfold mbind, io_bind, wrapped.
  by destruct (connect (connector self) dst w) as [[[t c]|e|p|] w1].
Qed.

(** C17: to the program the proxy connector without a proxy for the
    destination is the connector inside: it prints the same, or panics in the
    same way, and leaves the same world. *)
Theorem proxy_client_transparent fuel polls F uninit uninit' n self req w :
  match_proxy self (MkDestination (rq_uri req)) = None →
  fetch (CN:=proxy_connector fuel polls) F uninit uninit' n self req w =
  fetch F uninit uninit' n (connector self) req w.
Proof.
  intros Hm. unfold fetch, request, Client_new. cbn [Client.inner].
  change (connect self (MkDestination (rq_uri req)) w)
    with (proxy_connect fuel polls self (MkDestination (rq_uri req)) w).
  rewrite proxy_connect_none by done.
  destruct (connect (connector self) _ w) as [[[t c]|e|p|] w1]; try done.
  rewrite !bind_Ok. f_equal. symmetry.
  apply (consume_sim is_regular). by apply exchange_sim; [apply _|].
Qed.
End proxy_client.

(** ** The program from end to end *)

Section served.
Context `{BP : Build, LC : Lowercase, HL : HttpLib, UL : UriLib, HY : HyperLib, SL : StatusLib}.
Context {W T B : Type} `{CT : Conn T, DL : !Delivers T, RS : ReqStream B}.

(** What a server answers: a head and a payload, such that the head is
    well-formed and fits in the buffer, and the payload is within the content
    length it declares. *)
Record Answer := MkAnswer {
  an_version : bytes;
  an_code : N;
  an_reason : bytes;
  an_fields : list (bytes * bytes);
  an_payload : bytes
}.

Definition an_head (a : Answer) : bytes :=
  render_head (an_version a) (an_code a) (an_reason a) (an_fields a).

Definition well_formed (a : Answer) : Prop :=
  plain_status (an_version a) (an_code a) (an_reason a) ∧
  Forall plain_field (an_fields a) ∧ length (an_head a) ≤ BUF_LEN ∧
  (len (an_payload a) < COUNTER_BOUND)%N ∧
  not_over (find_content_length (map received (an_fields a))) (len (an_payload a)).

(** The server at the other end of a stream takes the request and answers. *)
Definition serves (fuel : nat) (req : Request B) (a : Answer) (t : T) : Prop :=
  ∃ header t1 t2, build_req (rq_method req) (rq_uri req) (rq_headers req) = Ok header ∧
    io_write_all t header = Ok t1 ∧ send_body fuel t1 (rq_body req) = Ok t2 ∧
    delivers t2 (an_head a ++ an_payload a).

(** What the program prints of the answer. *)
Definition printed (a : Answer) (r : outcome Empty_set (StatusCode * bytes)) : Prop :=
  ∃ st, r = Ok (st, from_utf8_lossy (an_payload a)) ∧ code_as_u16 st = an_code a.

Lemma serves_consume fuel uninit uninit' req a t :
  well_formed a → serves fuel req a t →
  ∃ n, printed a (consume n (exchange fuel uninit uninit' t req)).
Proof.
  intros (Hst & Hf & Hl & Hp & Hno) (header & t1 & t2 & Hb & Hw & Hs & Hd).
  destruct (exchange_facts fuel uninit uninit' req t header t1 t2 _ _ _ _ _
              Hb Hw Hs Hd Hst Hf Hl Hp Hno) as (resp & Hx & Hcode & _ & n & Hn).
  exists n, (status_code resp). split; [|done].
  rewrite Hx. unfold consume, Response_into_body. cbn. by rewrite Hn.
Qed.

Lemma fetch_connected {C} `{CN : !Connect W C T} fuel uninit uninit' n (self : C) (req : Request B) w t c w' :
  connect self (MkDestination (rq_uri req)) w = (Ok (t, c), w') →
  fetch fuel uninit uninit' n self req w = (consume n (exchange fuel uninit uninit' t req), w').
Proof. intros Hc. unfold fetch, request, Client_new. cbn [Client.inner]. by rewrite Hc. Qed.
End served.

#[export] Instance well_formed_dec a : Decision (well_formed a).
Proof. unfold well_formed. apply _. Defined.

Section over_tcp.
Context `{BP : Build, LC : Lowercase, HL : HttpLib, UL : UriLib, HY : HyperLib, SL : StatusLib}.
Context {W R B : Type} `{FT : Fates W, TG : Target, RV : Resolve W R, HX : !HyperExtra}.
Context `{RS : ReqStream B}.
Context (turn : W → W) (turn_ok : ∀ w, world_inv w → world_inv (turn w)).
Implicit Types (self : HttpConnector (W:=W) (R:=R)) (dst : Destination).

(** The network lets the connector reach a server: its URL has a host, which is
    an address or is answered by the resolver; one of the families of its
    addresses has one that accepts before any that hangs; and every stream
    freshly connected to such an address has the property [P]. *)
Definition reachable self dst w host (P : TcpStream → Prop) : Prop :=
  world_inv w ∧ uri_host (uri dst) = Some host ∧ scheme_allowed self dst ∧
  ∃ l w1, finds turn self host (dst_port_or_default dst) w l w1 ∧
    let v := leads (hc_happy_eyeballs_timeout self) l in
    (accepting v.1 ∨ accepting v.2) ∧
    ∀ s, fresh s → v.1 = Some (stream_peer s) ∨ v.2 = Some (stream_peer s) → P s.

Lemma leads_nil timeout : leads timeout [] = (None, None).
Proof. by destruct timeout. Qed.

Lemma reachable_connects self dst w host P :
  reachable self dst w host P →
  ∃ N s c w', P s ∧ ∀ polls, N ≤ polls → http_connector turn polls self dst w = (Ok (s, c), w').
Proof.
  intros (Hw & Hh & Hs & l & w1 & Hf & Hacc & HP).
  assert (∀ v : option SocketAddr, v = None → accepting v → False) as Hno by by intros ? -> (? & ? & _).
  assert (l ≠ []) as Hne.
  { intros ->. rewrite leads_nil in Hacc. by destruct Hacc as [E|E]; apply Hno in E. }
  destruct (http_connect_awaits turn turn_ok self dst host w l w1 Hw Hh Hs Hf Hne)
    as (r & w' & Hr & Hres); [destruct Hacc; [by left|by right; left]|].
  destruct (awaits_enough _ _ _ _ Hr) as [N HN].
  destruct r as [[s c]|e|p|]; cbn in Hres; [|exfalso|done..]; cycle 1.
  { destruct Hres. by destruct Hacc as [E|E]; apply Hno in E. }
  exists N, s, c, w'. split; [apply HP; tauto|]. apply HN.
Qed.

(** C13: the program from end to end over TCP: when the network lets the
    connector reach a server that takes the request and gives a well-formed
    answer, the program ends, and prints the status of the answer and the
    text of its payload. *)
Theorem fetch_over_tcp `{CT : Conn TcpStream, DL : !Delivers TcpStream}
    fuel uninit uninit' self (req : Request B) w host a :
  well_formed a →
  reachable self (MkDestination (rq_uri req)) w host (serves fuel req a) →
  ∃ N n r w', printed a r ∧ ∀ polls, N ≤ polls →
    fetch (CN:=http_connector turn polls) fuel uninit uninit' n self req w = (r, w').
Proof.
  intros Ha (N & s & c & w' & Hs & HN)%reachable_connects.
  destruct (serves_consume fuel uninit uninit' req a s Ha Hs) as [n Hn].
  eexists N, n, _, w'. split; [exact Hn|]. intros polls Hle.
  exact (fetch_connected (CN:=http_connector turn polls) fuel uninit uninit' n self req w s c w'
           (HN polls Hle)).
Qed.

(** The program from end to end over TLS, as the example runs it: when the
    network lets the inner connector reach a server with which the handshake
    for the host of the URL comes to an end, and which takes the request and
    gives a well-formed answer inside the session, the program ends, and prints
    the status of the answer and the text of its payload. *)
Theorem fetch_over_tls `{TLS : TlsLib TcpStream, CT : Conn TcpStream, CS : Conn NativeTlsStream,
      DT : !Delivers TcpStream, DS : !Delivers NativeTlsStream}
    fuel uninit uninit' (self : HttpsConnector (HttpConnector (W:=W) (R:=R))) (req : Request B) w host a :
  well_formed a →
  dst_scheme (MkDestination (rq_uri req)) = HTTPS →
  reachable (http self) (MkDestination (rq_uri req)) w host
    (λ s, ∃ t, handshakes (tls_connect (Https.tls self) host s) t ∧ serves fuel req a t) →
  ∃ N n r w', printed a r ∧ ∀ polls, N ≤ polls →
    fetch (CN:=https_connector (CN:=http_connector turn polls) polls) fuel uninit uninit' n self req w
      = (r, w').
Proof.
  intros Ha Hsc Hreach. pose proof Hreach as (_ & Hh & _).
  destruct (reachable_connects _ _ _ _ _ Hreach) as (N & s & c & w' & (t & Hhs & Hserv) & HN).
  destruct (serves_consume fuel uninit uninit' req a t Ha Hserv) as [n Hn].
  set (dst := MkDestination (rq_uri req)) in *.
  assert (dst_host dst = host) as Hhost by by unfold dst_host; rewrite Hh.
  rewrite <-Hhost in Hhs. apply handshaking_await_complete in Hhs as [M HM].
  assert (∀ polls, N `max` M ≤ polls →
    https_connect (CN:=http_connector turn polls) polls self dst w
      = (Ok (Https.Https (MkTlsStream t), c), w')) as Hconn.
  { intros polls Hle. unfold https_connect. rewrite bool_decide_true by done. cbn [negb andb].
    unfold mbind at 1, io_bind at 1.
    change (connect (http self) dst w) with (http_connector turn polls (http self) dst w).
    rewrite HN by lia. unfold mbind, io_bind, io_pure. by rewrite HM by lia. }
  eexists (N `max` M), n, _, w'. split; [exact Hn|]. intros polls Hle.
  rewrite (fetch_connected (CN:=https_connector (CN:=http_connector turn polls) polls)
             fuel uninit uninit' n self req w _ c w' (Hconn polls Hle)).
  f_equal. symmetry. apply (consume_sim is_secure). by apply exchange_sim; [apply _|].
Qed.
End over_tcp.

(** ** Concrete runs *)

Module Examples.
Import Script ScriptStream.

#[local] Existing Instance ascii_lowercase.
#[local] Existing Instance named_http.
#[local] Existing Instance Simple.lib.
#[local] Existing Instance flag_connected.
#[local] Existing Instance numeric_status.
#[local] Existing Instance Https.Examples.slow_tls.
#[local] Existing Instance list_headers.
#[local] Existing Instance exact_bytes.
#[local] Existing Instance Proxy.Examples.plain_tls.
#[local] Existing Instance Proxy.Examples.host_text.
#[local] Existing Instance Https.Examples.same_connection.

Definition answer : script := Client.peer 30 (example_head ++ b"hello").
Definition over_tls : HttpsConnector script := https_from (TLS:=Https.Examples.slow_tls) answer tt.
Definition get (s : bytes) : Request (list (bytes + io_error)) :=
  Request_new GET (uri (simple_dst s (b"a.org") None)).

Lemma https_client_transparent_witness :
  ∃ n, ∀ polls, n ≤ polls →
    io_rel (response_sim is_secure) (exchange (BP:=true) 1 [] [] answer (get HTTPS), tt)
      (request (BP:=true) (CN:=https_connector polls) 1 [] [] (MkClient over_tls) (get HTTPS) tt).
Proof.
  destruct (https_client_transparent (BP:=true) (W:=unit) 1 [] [] over_tls (get HTTPS) tt) as [_ H].
  apply (H answer connected_new tt answer).
  - reflexivity.
  - reflexivity.
  - set (S := Https.Examples.slow_tls).
    exact (handshakes_next (TLS:=S) (false, answer) answer
             (handshakes_next (TLS:=S) (true, answer) answer (handshakes_done (TLS:=S) answer))).
Defined.

Definition no_proxies : ProxyConnector (TT:=Proxy.Examples.plain_tls) script := unsecured answer.

Lemma proxy_client_transparent_witness :
  fetch (BP:=true) (CN:=proxy_connector 0 0) 1 [] [] 10 no_proxies (get HTTP) tt =
    (Ok (200%N, b"hello"), tt).
Proof.
  rewrite (proxy_client_transparent (BP:=true) (W:=unit) 0 0 1 [] [] 10 no_proxies (get HTTP) tt)
    by reflexivity.
  vm_compute. reflexivity.
Defined.

(** *** The program over TCP *)

#[local] Existing Instance Http.Examples.not_windows.
#[local] Existing Instance Eyeballs.Examples.lossy.
#[local] Existing Instance Eyeballs.Examples.all_worlds.
#[local] Existing Instance Eyeballs.Examples.lossy_contract.
#[local] Existing Instance Eyeballs.Examples.lossy_fates.
#[local] Existing Instance Eyeballs.Examples.slow_zone.

Definition info : HyperLib := Http.Examples.info_connected.

(** A stream is its address and what is read from it. *)
#[local] Instance site_conn : Conn (@TcpStream unit Eyeballs.Examples.lossy) := {|
  io_read s n := '(bs, t) ← io_read (snd s : script) n; Ok (bs, (fst s, t));
  io_write_all s bs := t ← io_write_all (snd s : script) bs; Ok (fst s, t);
  poll_read s n := let '(p, t) := poll_read (snd s : script) n in (p, (fst s, t))
|}.

#[local] Instance site_delivers : Delivers (@TcpStream unit Eyeballs.Examples.lossy).
Proof.
  refine {| delivers s d := delivers (snd s : script) d; patience s := patience (snd s : script) |}.
  - intros [a t] d n Hd Hn. destruct (delivers_read t d n Hd Hn) as (bs & d' & t' & Hr & H).
    exists bs, d', (a, t'). cbn [io_read site_conn snd fst]. by rewrite Hr.
  - intros [a t] d Hd. destruct (delivers_read_0 t d Hd) as [t' Hr]. exists (a, t').
    cbn [io_read site_conn snd fst]. by rewrite Hr.
  - intros [a t] d n Hd Hn. pose proof (delivers_poll t d n Hd Hn) as Hp.
    cbn [poll_read site_conn snd fst]. by destruct (poll_read t n) as [[] t'].
Defined.

Definition site_answer : Answer :=
  MkAnswer (b"1.1") 200 (b"OK") [(b"Content-Length", b"5")] (b"hello").

Lemma site_well_formed : well_formed site_answer.
Proof. apply (bool_decide_unpack _). vm_compute. exact I. Qed.

Lemma site_reachable (self : HttpConnector (W:=unit) (R:=unit)) s (P : TcpStream → Prop) :
  hc_happy_eyeballs_timeout self = Some 300%N →
  (if hc_enforce_http self then s = HTTP else s = HTTP ∨ s = HTTPS) →
  (∀ a, P (a, Eyeballs.Examples.site)) →
  reachable (λ w, w) self (simple_dst s (b"a.org") None) tt (b"a.org") P.
Proof.
  intros Ht Hs HP. assert (s = HTTP ∨ s = HTTPS) as Hs' by (destruct (hc_enforce_http self); tauto).
  split; [exact I|]. split; [by destruct Hs' as [->| ->]|].
  split.
  { unfold scheme_allowed. destruct (hc_enforce_http self); [by subst s|].
    destruct Hs' as [->| ->]; by eexists. }
  eexists _, tt. split; [apply Eyeballs.Examples.found|]. rewrite Ht. split.
  - right. eexists. split; reflexivity.
  - intros [a t] Hf _. cbn in Hf. subst t. apply HP.
Qed.

Lemma fetch_over_tcp_witness :
  ∃ N n w', ∀ polls, N ≤ polls →
    fetch (BP:=false) (HY:=info) (CN:=http_connector (HX:=Http.Examples.info_extra) (λ w, w) polls)
      1 [] [] n Eyeballs.Examples.slow_connector (get HTTP) tt =
      (Ok (200%N : @StatusCode numeric_status, b"hello"), w').
Proof.
  destruct (fetch_over_tcp (BP:=false) (HY:=info) (HX:=Http.Examples.info_extra) (λ w, w) (λ w Hw, Hw)
    1 [] [] Eyeballs.Examples.slow_connector (get HTTP) tt (b"a.org") site_answer)
    as (N & n & r & w' & (st & -> & Hst) & HN).
  - exact site_well_formed.
  - apply site_reachable; [reflexivity|reflexivity|]. intros a.
    do 3 eexists. split_and!; reflexivity.
  - cbn in Hst. subst st. exists N, n, w'. exact HN.
Defined.

(** A session is the stream; the handshake blocks once. *)
#[local] Instance site_tls : TlsLib (@TcpStream unit Eyeballs.Examples.lossy) := {|
  TlsConnector := unit;
  NativeTlsStream := TcpStream;
  MidHandshake := TcpStream;
  tls_connect _ host tcp := inr (WouldBlock tcp);
  tls_handshake mid := inl mid
|}.

Definition site_https : HttpsConnector (HttpConnector (W:=unit) (R:=unit)) :=
  https_from (TLS:=site_tls) (enforce_http Eyeballs.Examples.slow_connector false) tt.

Lemma fetch_over_tls_witness :
  ∃ N n w', ∀ polls, N ≤ polls →
    fetch (BP:=false) (HY:=info)
      (CO:=maybe_conn (CT:=site_conn) (CN:=site_conn))
      (CN:=https_connector (CN:=http_connector (HX:=Http.Examples.info_extra) (λ w, w) polls) polls)
      1 [] [] n site_https (get HTTPS) tt =
      (Ok (200%N : @StatusCode numeric_status, b"hello"), w').
Proof.
  destruct (fetch_over_tls (BP:=false) (HY:=info) (HX:=Http.Examples.info_extra) (TLS:=site_tls)
    (CS:=site_conn) (DS:=site_delivers) (λ w, w) (λ w Hw, Hw)
    1 [] [] site_https (get HTTPS) tt (b"a.org") site_answer)
    as (N & n & r & w' & (st & -> & Hst) & HN).
  - exact site_well_formed.
  - reflexivity.
  - apply site_reachable; [reflexivity|right; reflexivity|]. intros a.
    exists (a, Eyeballs.Examples.site). split.
    + exact (handshakes_next (TLS:=site_tls) _ _ (handshakes_done (TLS:=site_tls) _)).
    + do 3 eexists. split_and!; reflexivity.
  - cbn in Hst. subst st. exists N, n, w'. exact HN.
Defined.
End Examples.
