(* ===== verification/Tunnelled.v ===== *)
(** * The program through a proxy

    The whole stack of a client behind a proxy, for an [https] URL: the TCP
    connector reaches the proxy, the tunnel is established, the TLS session is
    made with the destination inside it, and the exchange runs in the session.
    Under what is assumed of the network, the proxy and the server, the example
    program ends and prints what the server answered. *)
From S2P Require Import Prelude RustStd Utf8 Httparse Io Uri Response Request Body Connect Client Relate.
From S2P Require Import Tunnel Net Dns Http Eyeballs Https Proxy Compose.

Section secured.
Context {T : Type} `{TT : TokioTls T, CT : Conn T, CS : Conn Proxy.TlsStream}.

Definition is_secured (t : Proxy.TlsStream) (m : ProxyStream) : Prop := m = Secured t.

#[export] Instance secured_sim : ConnSim is_secured.
Proof.
  split.
  - intros t ? n ->. cbn. by destruct (io_read t n) as [[]| | |].
  - intros t ? bs ->. cbn. by destruct (io_write_all t bs).
  - intros t ? n ->. cbn. by destruct (poll_read t n).
Qed.
End secured.

Section connect.
Context `{UL : UriLib, HDR : HeaderLib, BL : BytesLib, UT : !UriText, HY : HyperLib}.
Context {T W C : Type} `{BS : BufStream T, OB : !Observed T, RB : !Reliable T, TT : TokioTls T}.

(** A reply that establishes a tunnel: a head with status 200, and nothing
    more before the client speaks. *)
Definition establishes (line : bytes) (lines : list bytes) : Prop :=
  Forall (λ l, no_crlf l ∧ l ≠ []) (line :: lines) ∧
  take 12 line ∈ [b"HTTP/1.1 200"; b"HTTP/1.0 200"].

(** The proxy at the other end of a stream opens the tunnel the request [creq]
    asks for, and what is at its end makes a TLS session for [host] that has
    the property [P]. *)
Definition tunnels_to (tl : NativeTlsConnector) (host creq : bytes) (F : nat)
    (P : Proxy.TlsStream → Prop) (s : T) : Prop :=
  ∃ line lines, let reply := end_lines (line :: lines) ++ CRLF in
    establishes line lines ∧ incoming s reply ∧ length creq + length reply + 1 < F ∧
    ∀ s', written s' = written s ++ creq → incoming s' [] →
      ∃ t, tokio_tls_connect tl host s' = inl t ∧ P t.

Lemma tunnel_new_nonempty host port hs tn : tunnel_new host port hs = Ok tn → tc_buf tn ≠ [].
Proof. unfold tunnel_new. intros H. outcome_inv. done. Qed.

Lemma tunnel_result_mono F n m tn r :
  tunnel_await F n tn = Ok r → n ≤ m → tunnel_await F m tn = Ok r.
Proof.
  intros Hr Hle. unfold tunnel_await in *. rewrite <-Hr. apply loop_mono; [by rewrite Hr|done].
Qed.

(** Connecting through such a proxy gives the session. *)
Lemma proxy_connect_tunnels `{CN : ∀ polls : nat, Connect W C T} F (self : ProxyConnector C)
    dst p tl tn pdst w s c w' M P :
  match_proxy self dst = Some p → dst_scheme dst = HTTPS → Proxy.tls self = Some tl →
  tunnel_new (dst_host dst) (default 443%N (dst_port dst)) (Proxy.headers p) = Ok tn →
  proxy_dst dst (px_uri p) = Ok pdst →
  (∀ polls, M ≤ polls → connect (Connect:=CN polls) (connector self) pdst w = (Ok (s, c), w')) →
  tunnels_to tl (dst_host dst) (tc_buf tn) F P s →
  ∃ N t c', P t ∧ ∀ polls, N ≤ polls →
    proxy_connect (CN:=CN polls) F polls self dst w = (Ok (Secured t, c'), w').
Proof.
  intros Hm Hs Htl Htn Hp Hc (line & lines & [Hl Hst] & Hi & HF & Htls).
  pose proof (tunnel_new_nonempty _ _ _ _ Htn) as Hne. destruct tn as [creq]. cbn [tc_buf] in *.
  destruct (tunnel_accepts_facts F creq s c line lines Hl Hst Hi Hne HF)
    as (n & s' & c' & self' & Hrun & Hw & _ & Hi').
  destruct (Htls s' Hw Hi') as (t & Ht & HP).
  exists (M `max` n), t, (connected_proxy connected_new true). split; [done|]. intros polls Hle.
  unfold proxy_connect. rewrite Hm, decide_True, Htn by done.
  unfold mbind at 1, io_bind at 1, io_pure at 1.
  unfold mbind at 1, io_bind at 1, unwrap_or_future, io_pure at 1. rewrite Hp.
  unfold mbind at 1, io_bind at 1, wrapped at 1. rewrite (Hc polls) by lia.
  unfold mbind at 1, io_bind at 1, io_pure at 1, tunnel_result.
  rewrite (tunnel_result_mono F n polls _ _ Hrun) by lia. cbn [lift map_err mbind outcome_bind].
  rewrite Htl. unfold io_bind, io_pure. by rewrite Ht.
Qed.
End connect.

Section program.
Context `{BP : Build, LC : Lowercase, HL : HttpLib, UL : UriLib, HY : HyperLib, SL : StatusLib}.
Context `{HDR : HeaderLib, BL : BytesLib, UT : !UriText}.
Context {W R B : Type} `{FT : Fates W, TG : Target, RV : Resolve W R, HX : !HyperExtra, RS : ReqStream B}.
Context `{BS : BufStream TcpStream, OB : !Observed TcpStream, RB : !Reliable TcpStream}.
Context `{TT : TokioTls TcpStream, CT : Conn TcpStream, CS : Conn Proxy.TlsStream}.
Context `{DS : !Delivers Proxy.TlsStream}.
Context (turn : W → W) (turn_ok : ∀ w, world_inv w → world_inv (turn w)).

(** C14: the program through a proxy, for an [https] URL: when the network lets
    the connector reach the proxy, the proxy answers the CONNECT request for
    the host and port of the URL with a 200, and behind it the TLS handshake
    for the host of the URL gives a session with a server that takes the
    request and gives a well-formed answer, then the program ends, and prints
    the status of the answer and the text of its payload: the address that is
    connected to is the proxy's alone. *)
Theorem fetch_through_proxy fuel uninit uninit' F
    (self : ProxyConnector (HttpConnector (W:=W) (R:=R))) (req : Request B) w p tl tn pdst phost a :
  let dst := MkDestination (rq_uri req) in
  well_formed a → dst_scheme dst = HTTPS →
  match_proxy self dst = Some p → Proxy.tls self = Some tl →
  tunnel_new (dst_host dst) (default 443%N (dst_port dst)) (Proxy.headers p) = Ok tn →
  proxy_dst dst (px_uri p) = Ok pdst →
  reachable turn (connector self) pdst w phost
    (tunnels_to tl (dst_host dst) (tc_buf tn) F (serves fuel req a)) →
  ∃ N n r w', printed a r ∧ ∀ polls, N ≤ polls →
    fetch (CN:=proxy_connector (CN:=http_connector turn polls) F polls) fuel uninit uninit' n self req w
      = (r, w').
Proof.
  intros dst Ha Hs Hm Htl Htn Hp Hreach.
  destruct (reachable_connects turn turn_ok _ _ _ _ _ Hreach) as (M & s & c & w' & HT & HM).
  destruct (proxy_connect_tunnels (CN:=λ polls, http_connector turn polls) F self dst p tl tn pdst w
              s c w' M _ Hm Hs Htl Htn Hp HM HT) as (N & t & c' & Hserv & HN).
  destruct (serves_consume fuel uninit uninit' req a t Ha Hserv) as [n Hn].
  eexists N, n, _, w'. split; [exact Hn|]. intros polls Hle.
  rewrite (fetch_connected (CN:=proxy_connector (CN:=http_connector turn polls) F polls)
             fuel uninit uninit' n self req w _ c' w' (HN polls Hle)).
  f_equal. symmetry. apply (consume_sim is_secured). by apply exchange_sim; [apply _|].
Qed.
End program.

(** ** A concrete run *)

Module Examples.
Import Script Eyeballs.Examples Compose.Examples.

#[local] Existing Instance ascii_lowercase.
#[local] Existing Instance named_http.
#[local] Existing Instance Simple.lib.
#[local] Existing Instance numeric_status.
#[local] Existing Instance list_headers.
#[local] Existing Instance exact_bytes.
#[local] Existing Instance Proxy.Examples.host_text.
#[local] Existing Instance Http.Examples.not_windows.
#[local] Existing Instance Http.Examples.info_connected.
#[local] Existing Instance Http.Examples.info_extra.
#[local] Existing Instance lossy.
#[local] Existing Instance all_worlds.
#[local] Existing Instance lossy_contract.
#[local] Existing Instance lossy_fates.
#[local] Existing Instance slow_zone.

(** The proxy at an address sends the first piece of the script of [site] and
    waits; seven bytes are taken at a write. *)
#[local] Instance front_buf : BufStream (@TcpStream unit lossy) := {|
  write_buf s bs :=
    (Ready (Nat.min 7 (length bs)),
     (s.1, Script (events s.2) (sent s.2 ++ take (Nat.min 7 (length bs)) bs)));
  read_buf s _ :=
    match events s.2 with
    | Piece c l :: _ => (Ready (c :: l), (s.1, Script [] (sent s.2)))
    | _ => (Ready [], s)
    end
|}.

#[local] Instance front_observed : Observed (@TcpStream unit lossy).
Proof.
  refine {| written s := sent s.2;
            incoming s d := d = match events s.2 with Piece c l :: _ => c :: l | _ => [] end |}.
  - intros [a [evs snt]] bs d Hd. cbn [write_buf front_buf]. split_and!; [lia|done|done].
  - intros [a [[|[c l| |e] evs] snt]] v d Hd; cbn in *; (split; [done|]); exists [];
      by rewrite ?app_nil_r.
Defined.

#[local] Instance front_reliable : Reliable (@TcpStream unit lossy).
Proof.
  refine {| idle _ := 0 |}.
  - intros [a [evs snt]] [|c bs] d _ Hne; [done|]. cbn [write_buf front_buf length]. lia.
  - intros [a [[|[c l| |e] evs] snt]] v d Hd; cbn in *; done || (intros _; exact Hd).
Defined.

(** The session that is made behind the proxy is with [site]. *)
#[local] Instance behind : TokioTls (@TcpStream unit lossy) := {|
  NativeTlsConnector := unit;
  TlsStream := script;
  native_tls_build := inl tt;
  tokio_tls_connect _ _ _ := inl site
|}.

Definition proxy_url : Uri := uri (simple_dst HTTP (b"a.org") (Some 3128%N)).

Definition proxied : ProxyConnector (TT:=behind) (HttpConnector (W:=unit) (R:=unit)) :=
  {| proxies := [Proxy_new Https proxy_url];
     connector := slow_connector; tls := Some (tt : @NativeTlsConnector _ behind) |}.

Definition secret : Request (list (bytes + io_error)) :=
  Request_new GET (uri (simple_dst HTTPS (b"b.org") None)).

(** The destination the connector is asked for: the proxy, with its port. *)
Definition to_proxy : Destination :=
  match proxy_dst (MkDestination (rq_uri secret)) proxy_url with
  | Ok d => d
  | _ => MkDestination proxy_url
  end.

Lemma front_tunnels a :
  tunnels_to (TT:=behind) (tt : @NativeTlsConnector _ behind) (b"b.org")
    (b"CONNECT b.org:443 HTTP/1.1" ++ CRLF ++ b"Host: b.org:443" ++ CRLF2) 200
    (serves 1 secret site_answer) ((a, site) : @TcpStream unit lossy).
Proof.
  exists (b"HTTP/1.1 200 OK"), [b"Content-Length: 5"]. split_and!.
  - split; [|left]. apply (bool_decide_unpack _). vm_compute. exact I.
  - vm_compute. reflexivity.
  - apply (bool_decide_unpack _). vm_compute. exact I.
  - intros s' _ _. exists site. split; [done|]. do 3 eexists. split_and!; reflexivity.
Qed.

Lemma fetch_through_proxy_witness :
  ∃ N n w', ∀ polls, N ≤ polls →
    fetch (BP:=false) (CO:=proxy_stream_conn (TT:=behind) (CT:=site_conn))
      (CN:=proxy_connector (CN:=http_connector (λ w, w) polls) 200 polls) 1 [] [] n proxied secret tt =
      (Ok (200%N : @StatusCode numeric_status, b"hello"), w').
Proof.
  destruct (fetch_through_proxy (BP:=false) (TT:=behind) (CT:=site_conn) (CS:=script_conn) (DS:=script_delivers)
    (λ w, w) (λ w Hw, Hw) 1 [] [] 200 proxied secret tt
    (Proxy_new Https proxy_url) (tt : @NativeTlsConnector _ behind)
    (MkTunnelConnect (b"CONNECT b.org:443 HTTP/1.1" ++ CRLF ++ b"Host: b.org:443" ++ CRLF2))
    to_proxy (b"a.org") site_answer)
    as (N & n & r & w' & (st & -> & Hst) & HN).
  - exact site_well_formed.
  - reflexivity.
  - reflexivity.
  - reflexivity.
  - vm_compute. reflexivity.
  - reflexivity.
  - split; [exact I|]. split; [reflexivity|]. split; [reflexivity|].
    eexists _, tt. split; [apply found|]. split.
    + right. eexists. split; reflexivity.
    + intros [a t] Hf _. cbn in Hf. subst t. apply front_tunnels.
  - cbn in Hst. subst st. exists N, n, w'. exact HN.
Defined.
End Examples.
