(* ===== verification/Stack.v ===== *)
(** * The default stack

    [HttpsConnector::new] puts TLS over the HTTP connector over the caching
    resolver.  Here are the conditions of [Compose]'s theorem for that stack,
    from what c-ares and the network outside do: the example program, with the
    connector it makes, prints what the server answers. *)
From S2P Require Import Prelude RustStd Utf8 Httparse Io Uri Response Request Body Connect Client Relate.
From S2P Require Import Net Dns Ares Http Eyeballs Https Default Compose.

(** ** The network, seen from the world with the cache *)

Section lifted.
Context {E : Type} `{AL : AresLib E, AA : !AresAnswers E, TG : Target}.
Context `{TL : TcpLib E, WI : WorldInv E, TC : !TcpContract E, AK : !AresKeeps E, FT : !Fates E}.

Lemma succeeds_lift {A} (m : io E A) :
  succeeds world_inv m → succeeds (world_inv (W:=world E)) (lift_io m).
Proof.
  intros Hm w [_ He]. destruct (Hm (env w) He) as (a & e & Hr).
  eexists a, _. unfold lift_io, lift_call. by rewrite Hr.
Qed.

#[export] Instance lifted_fates : Fates (world E).
Proof.
  refine (@Build_Fates (world E) tcp_world cached_world_inv tcp_world_contract
            (fate (W:=E)) (fresh (W:=E)) (pending (W:=E)) (delay_left (W:=E)) _ _ _ _ _ _ _ _ _ _).
  - intros f w [_ He]. pose proof (connect_poll_fate (W:=E) f (env w) He) as H.
    change (connect_poll f w) with (lift_call (@connect_poll E _ f) w). unfold lift_call.
    by destruct (@connect_poll E _ f (env w)) as [[[|s|e] f'] e'].
  - intros d w [_ He]. pose proof (delay_poll_left (W:=E) d (env w) He) as H.
    change (delay_poll d w) with (lift_call (@delay_poll E _ d) w). unfold lift_call.
    by destruct (@delay_poll E _ d (env w)) as [[[|u|e] d'] e'].
  - exact (succeeds_lift _ (new_v4_succeeds (W:=E))).
  - exact (succeeds_lift _ (new_v6_succeeds (W:=E))).
  - intros b r. exact (succeeds_lift _ (set_reuse_address_succeeds (W:=E) b r)).
  - intros b a. exact (succeeds_lift _ (bind_succeeds (W:=E) b a)).
  - intros b. exact (succeeds_lift _ (to_tcp_stream_succeeds (W:=E) b)).
  - intros s d. exact (succeeds_lift _ (set_keepalive_succeeds (W:=E) s d)).
  - intros s v. exact (succeeds_lift _ (set_nodelay_succeeds (W:=E) s v)).
  - intros s. exact (succeeds_lift _ (peer_addr_succeeds (W:=E) s)).
Defined.

Lemma first_up_lift l : first_up (FT:=lifted_fates) l = first_up (FT:=FT) l.
Proof. induction l as [|a l IH]; [done|]. cbn. by rewrite IH. Qed.
End lifted.

(** ** c-ares answers *)

Section answers.
Context {E : Type} `{AL : AresLib E, AA : !AresAnswers E, TL : TcpLib E, TG : Target}.
Context `{WI : WorldInv E, AK : !AresKeeps E, TC : !TcpContract E}.
Context (turn : world E → world E) (turn_ok : ∀ w, world_inv w → world_inv (turn w)).

(** The query is answered with these addresses, after finitely many polls. *)
Inductive cares_answers : CAresFuture → world E → list Ipv4Addr → Prop :=
| cares_now f w vals f' e :
    cares_poll f (env w) = (Ready vals, f', e) → cares_answers f w vals
| cares_later f w f' e vals :
    cares_poll f (env w) = (NotReady, f', e) →
    cares_answers f' (turn (MkWorld (cell w) e)) vals → cares_answers f w vals.

(** Then so does the resolver's future, and it stores them. *)
Lemma ares_answers name f w vals :
  cares_answers f w vals → world_inv w → is_query f name →
  ∃ w', Eyeballs.answers turn (RV:=ares_resolver) (FromResolver f name) w (V4 <$> vals) w'.
Proof.
  intros Ha. induction Ha as [f w vals f' e Hp|f w f' e vals Hp _ IH]; intros [Hc He] Hq.
  - pose proof (poll_ok name (FromResolver f name) w Hc (conj eq_refl Hq)) as Hok.
    destruct (ares_poll (FromResolver f name) w) as [[[p g] w']| |q|] eqn:Ep; [|done|by destruct Hok|done].
    pose proof (ares_poll_keeps _ _ _ _ _ Ep He) as He'. destruct Hok as (Hc' & _ & _).
    assert (p = Ready (V4 <$> vals)) as ->.
    { cbn [ares_poll] in Ep. rewrite Hp in Ep. outcome_inv. done. }
    exists w'. exact (answers_now turn (RV:=ares_resolver) _ w (V4 <$> vals) g w' Ep (conj Hc' He')).
  - pose proof (cares_poll_keeps f (env w) He) as He'. rewrite Hp in He'.
    pose proof (cares_poll_answers f name (env w) Hq) as Hq'. rewrite Hp in Hq'.
    destruct IH as [w' Hw']; [apply turn_ok; by split|done|].
    exists w'. eapply answers_later; [|exact Hw']. cbn. by rewrite Hp.
Qed.

(** A name that is no address and is not in the cache is resolved so. *)
Lemma default_finds (self : HttpConnector (W:=world E) (R:=CAresResolverImpl)) host port w vals :
  world_inv w → try_parse host port = None → cache (cell w) !! host = None →
  (let '(f, e) := query_a host (env w) in cares_answers f (MkWorld (cell w) e) vals) →
  ∃ w', finds turn self host port w ((λ ip, socket_addr ip port) <$> (V4 <$> vals)) w'.
Proof.
  intros [Hc He] Hp Hmiss Ha.
  pose proof (query_a_keeps host (env w) He) as He'. pose proof (query_a_is_query host (env w)) as Hq.
  destruct (query_a host (env w)) as [f e] eqn:Eq. cbn [fst snd] in *.
  destruct (ares_answers host f _ vals Ha (conj Hc He') Hq) as [w' Hw'].
  exists w'. eapply finds_answer; [done| |exact Hw'].
  cbn [resolve ares_resolver]. unfold ares_resolve, lookup. cbn [name_as_str Name_new name_host].
  destruct (poisoned (cell w)); rewrite ?Hmiss; by rewrite Eq.
Qed.
End answers.

(** The addresses c-ares gives are of one family: the first that does not
    refuse is connected to. *)
Lemma leads_v4 `{FT : Fates W} timeout (ips : list Ipv4Addr) port :
  leads timeout ((λ ip, socket_addr ip port) <$> (V4 <$> ips)) =
    (first_up ((λ ip, SockV4 ip port) <$> ips), None).
Proof.
  rewrite <-list_fmap_compose. change ((λ ip, socket_addr ip port) ∘ V4) with (λ ip, SockV4 ip port).
  unfold leads, split_by_preference. destruct timeout; [|done]. rewrite partition_filter.
  cbn [iter IpAddrs_new].
  assert (default false (is_ipv6 <$> head ((λ ip, SockV4 ip port) <$> ips)) = false) as ->.
  { by destruct ips. }
  assert (∀ l : list Ipv4Addr,
    filter (λ x, Bool.eqb (is_ipv6 x) false = true) ((λ ip, SockV4 ip port) <$> l) =
      (λ ip, SockV4 ip port) <$> l ∧
    filter (λ x, Bool.eqb (is_ipv6 x) false ≠ true) ((λ ip, SockV4 ip port) <$> l) = []) as Hf.
  { induction l as [|ip l [IH1 IH2]]; [done|]. cbn [fmap list_fmap]. rewrite !filter_cons.
    cbn [is_ipv6]. rewrite decide_True, decide_False by auto. by rewrite IH1, IH2. }
  destruct (Hf ips) as [-> ->]. done.
Qed.

(** ** The example program *)

Section program.
Context `{BP : Build, LC : Lowercase, HL : HttpLib, UL : UriLib, HY : HyperLib, SL : StatusLib}.
Context {E B : Type} `{AL : AresLib E, AA : !AresAnswers E, TG : Target, HX : !HyperExtra}.
Context `{TL : TcpLib E, WI : WorldInv E, TC : !TcpContract E, AK : !AresKeeps E, FT : !Fates E}.
Context `{RS : ReqStream B}.
Context `{TLS : TlsLib (@TcpStream (world E) _), CT : Conn (@TcpStream (world E) _)}.
Context `{CS : Conn NativeTlsStream, DT : !Delivers (@TcpStream (world E) _)}.
Context `{DS : !Delivers NativeTlsStream}.
Context (turn : world E → world E) (turn_ok : ∀ w, world_inv w → world_inv (turn w)).

(** C1: the example program with the connector of [HttpsConnector::new], on a
    URL with the scheme [https]: when the name is not in the cache and c-ares
    answers it after finitely many polls, the first of the addresses that does
    not refuse accepts, and the server there finishes the handshake for the
    host, takes the request and gives a well-formed answer, then the program
    ends, and prints the status of the answer and the text of its payload. *)
Theorem example_program fuel uninit uninit' threads tls self (req : Request B) w host vals addr a :
  let port := dst_port_or_default (MkDestination (rq_uri req)) in
  HttpsConnector_new threads (inl tls) = inl self →
  world_inv w → uri_host (rq_uri req) = Some host →
  dst_scheme (MkDestination (rq_uri req)) = HTTPS →
  try_parse host port = None → cache (cell w) !! host = None →
  (let '(f, e) := query_a host (env w) in cares_answers turn f (MkWorld (cell w) e) vals) →
  first_up ((λ ip, SockV4 ip port) <$> vals) = Some addr → fate addr = Accepts →
  (∀ s, fresh s → stream_peer s = addr →
     ∃ t, handshakes (tls_connect tls host s) t ∧ serves fuel req a t) →
  well_formed a →
  ∃ N n r w', printed a r ∧ ∀ polls, N ≤ polls →
    fetch (CN:=https_connector (CN:=http_connector turn polls) polls) fuel uninit uninit' n self req w
      = (r, w').
Proof.
  intros port [= <-] Hw Hh Hsc Hp Hmiss Hq Hfirst Hacc Hserv Ha.
  apply (fetch_over_tls turn turn_ok _ _ _ _ _ _ host); [done|done|].
  split; [done|]. split; [done|]. split.
  { unfold scheme_allowed. cbn. unfold dst_scheme in Hsc. cbn [uri] in *.
    by destruct (scheme_part (rq_uri req)). }
  destruct (default_finds turn turn_ok (enforce_http (HttpConnector_new threads) false) host port w vals
              Hw Hp Hmiss Hq) as [w1 Hf].
  eexists _, w1. split; [exact Hf|]. rewrite leads_v4. cbn [fst snd].
  rewrite first_up_lift, Hfirst. split.
  - left. by exists addr.
  - intros s Hfr [[= ->]|[=]]. by apply Hserv.
Qed.
End program.

(** ** A concrete run *)

Module Examples.
Import Http.Examples Script.

#[local] Existing Instance ascii_lowercase.
#[local] Existing Instance named_http.
#[local] Existing Instance Simple.lib.
#[local] Existing Instance info_connected.
#[local] Existing Instance info_extra.
#[local] Existing Instance numeric_status.
#[local] Existing Instance not_windows.
#[local] Existing Instance Eyeballs.Examples.lossy.
#[local] Existing Instance Eyeballs.Examples.all_worlds.
#[local] Existing Instance Eyeballs.Examples.lossy_contract.
#[local] Existing Instance Eyeballs.Examples.lossy_fates.

(** c-ares is not ready at first; the clock stands. *)
#[local] Instance slow_ares : AresLib unit := {|
  CAresFuture := bool * bytes;
  query_a name e := ((false, name), e);
  cares_poll f e :=
    if fst f then (Ready (Ares.Examples.zone f.2), f, e) else (NotReady, (true, f.2), e);
  instant_now e := (0%N, e)
|}.

#[local] Instance slow_answers : AresAnswers unit.
Proof.
  refine {| Ares.answers name vals := vals = Ares.Examples.zone name; is_query f name := snd f = name |}.
  - done.
  - by intros [[] f] name e <-.
Defined.

#[local] Instance slow_keeps : AresKeeps unit.
Proof. by split. Defined.

#[local] Instance stream_conn : Conn (@TcpStream (world unit) _) := Compose.Examples.site_conn.
#[local] Instance stream_delivers : Delivers (@TcpStream (world unit) _) :=
  Compose.Examples.site_delivers.

#[local] Instance stream_tls : TlsLib (@TcpStream (world unit) _) := {|
  TlsConnector := unit;
  NativeTlsStream := @TcpStream (world unit) _;
  MidHandshake := @TcpStream (world unit) _;
  tls_connect _ host tcp := inr (WouldBlock tcp);
  tls_handshake mid := inl mid
|}.

Definition page : Request (list (bytes + io_error)) :=
  Request_new GET (uri (simple_dst HTTPS (b"a.org") None)).

Definition fresh_world : world unit := {| cell := cache_default; env := tt |}.

Lemma fresh_world_inv : world_inv fresh_world.
Proof.
  split; [split; [reflexivity|]|exact I].
  intros n vec ttl Hl. cbn in Hl. rewrite lookup_empty in Hl. discriminate Hl.
Qed.

Definition tls_tt : @TlsConnector _ stream_tls := tt.
Definition stack := HttpsConnector_new_ (E:=unit) (TLS:=stream_tls) 4 tls_tt.

Lemma example_program_witness :
  ∃ N n w', ∀ polls, N ≤ polls →
    fetch (BP:=true) (CO:=maybe_conn (CT:=stream_conn) (CN:=stream_conn))
      (CN:=https_connector (CN:=http_connector (λ w, w) polls) polls)
      1 [] [] n stack page fresh_world =
      (Ok (200%N : @StatusCode numeric_status, b"hello"), w').
Proof.
  destruct (example_program (BP:=true) (E:=unit) (TLS:=stream_tls) (CS:=stream_conn)
    (DS:=stream_delivers) (λ w, w) (λ w Hw, Hw) 1 [] [] 4 tls_tt stack page fresh_world
    (b"a.org") (Ares.Examples.zone (b"a.org")) (SockV4 a4 443) Compose.Examples.site_answer)
    as (N & n & r & w' & (st & -> & Hst) & HN).
  - reflexivity.
  - exact fresh_world_inv.
  - reflexivity.
  - reflexivity.
  - reflexivity.
  - reflexivity.
  - cbn. eapply cares_later; [reflexivity|]. eapply cares_now. reflexivity.
  - vm_compute. reflexivity.
  - reflexivity.
  - intros [a t] Hf _. cbn in Hf. subst t. exists (a, Eyeballs.Examples.site). split.
    + exact (handshakes_next (TLS:=stream_tls) _ _ (handshakes_done (TLS:=stream_tls) _)).
    + do 3 eexists. split_and!; reflexivity.
  - exact Compose.Examples.site_well_formed.
  - cbn in Hst. subst st. exists N, n, w'. exact HN.
Defined.
End Examples.
